(** * Tissue Forge, GPU non-bonded runner: a shallow embedding

    The definitions below follow [source/mdcore/src/tfRunner_cuda.cu]
    function by function and keep its names.

    Conventions of the embedding.
    - [float] values are real numbers ([R]): arithmetic is exact, so rounding,
      infinities and NaN are outside the model.  [rsqrtf x] is [/ sqrt x].
    - [int] and [unsigned int] values are integers ([Z], [nat] for indices
      and counts); where the source computes on [unsigned int] the
      wrap-around modulo 2^32 is written out.  Signed [int] arithmetic is
      taken without overflow.
    - A C array is a [list]; [a !!! i] reads [a[i]] (0 when the index is out
      of range, which the source never checks) and [<[i:=v]> a] writes it.
      A pointer into an array, [&a[k]], is the suffix [drop k a].
    - The threads of a block run the same block-strided loop
      [for (i = threadIdx.x; i < n; i += blockDim.x)]; every iteration
      writes only its own outputs, so a block is modelled by the loop over
      [i = 0 .. n-1], except where a per-thread accumulator matters
      (the potential energy), which is modelled thread by thread. *)

From Stdlib Require Import Reals Lra Lia ZArith List Permutation.
From stdpp Require Import base list gmap.
Import ListNotations.

#[global] Instance R_inhabited : Inhabited R := populate 0%R.

(** ** Vector types of the device code *)

Module float3.
Record t : Type := mk { x : R; y : R; z : R }.
End float3.

Module float4.
Record t : Type := mk { x : R; y : R; z : R; w : R }.
End float4.

Module int4.
(** [parts_datai]: x = particle id, y = type id, z = flags, w = cluster id *)
Record t : Type := mk { x : Z; y : nat; z : Z; w : Z }.
End int4.

#[global] Instance float4_inhabited : Inhabited float4.t :=
  populate (float4.mk 0 0 0 0).
#[global] Instance int4_inhabited : Inhabited int4.t :=
  populate (int4.mk 0 0 0 0).

(** ** Flux descriptors ([cuda::Flux], [cuda::Fluxes]) *)

Inductive FluxKind : Type := FLUX_FICK | FLUX_SECRETE | FLUX_UPTAKE.

#[global] Instance FluxKind_inhabited : Inhabited FluxKind := populate FLUX_FICK.

Module TypeIdPair.
Record t : Type := mk { a : nat; b : nat }.
End TypeIdPair.

#[global] Instance TypeIdPair_inhabited : Inhabited TypeIdPair.t :=
  populate (TypeIdPair.mk 0 0).

Module Flux.
(** structure of arrays, one entry per term *)
Record t : Type := mk {
    size : nat;
    kinds : list FluxKind;
    type_ids : list TypeIdPair.t;
    indices_a : list nat;
    indices_b : list nat;
    coef : list R;
    decay_coef : list R;
    target : list R
  }.
End Flux.

#[global] Instance Flux_inhabited : Inhabited Flux.t :=
  populate (Flux.mk 0 [] [] [] [] [] [] []).

Module Fluxes.
Record t : Type := mk { fluxes : list Flux.t }.
End Fluxes.

#[global] Instance Fluxes_inhabited : Inhabited Fluxes.t :=
  populate (Fluxes.mk []).

(** ** Device constants ([__constant__] memory)

    [cuda_cellpair_list_*] holds [int2] entries: [x] is the partner cell,
    [y] the direction (sort) index of the pair. *)

Module Consts.
Record t : Type := mk {
    cuda_dt : R;
    cuda_cutoff2 : R;
    cuda_cutoff : R;
    cuda_dscale : R;
    cuda_dmaxdist : Z;
    cuda_maxtype : nat;
    cuda_nr_cells : nat;
    cuda_fxind : list nat;
    cuda_fluxes : list Fluxes.t;
    cuda_corig : list R;
    cuda_dim : list R;
    cuda_h : list R;
    cuda_shiftn : list R;
    cuda_shift : list R;
    cuda_cellpair_list_left : list (nat * nat);
    cuda_cellpair_ind_left : list nat;
    cuda_cellpair_count_left : list nat;
    cuda_cellpair_list_right : list (nat * nat);
    cuda_cellpair_ind_right : list nat;
    cuda_cellpair_count_right : list nat
  }.
End Consts.

(** ** Integer conversions and loops *)

(** [unsigned int] arithmetic wraps modulo 2^32. *)
Definition u32 (n : Z) : Z := (n mod 2 ^ 32)%Z.

(** [float] to [int]: truncation toward zero. *)
Definition float2int (v : R) : Z :=
  if Rlt_dec v 0 then (- Int_part (- v))%Z else Int_part v.

(** [float] to [unsigned int]. *)
Definition float2uint (v : R) : Z := u32 (float2int v).

(** [for (k = n-1; k >= 0 && cond(k); k--) acc = body(acc, k)] *)
Fixpoint for_down_while {A : Type} (cond : nat -> bool) (body : A -> nat -> A)
    (n : nat) (acc : A) : A :=
  match n with
  | O => acc
  | S k => if cond k then for_down_while cond body k (body acc k) else acc
  end.

(** [for (k = n - fuel; k < n && cond(k); k++) acc = body(acc, k)] *)
Fixpoint for_up_while {A : Type} (cond : nat -> bool) (body : A -> nat -> A)
    (n fuel : nat) (acc : A) : A :=
  match fuel with
  | O => acc
  | S fuel' =>
      let k := (n - fuel)%nat in
      if cond k then for_up_while cond body n fuel' (body acc k) else acc
  end.

(** The iterations the descending loop runs its body at, in order. *)
Definition for_down_visits (cond : nat -> bool) (n : nat) : list nat :=
  for_down_while cond (fun acc k => acc ++ [k]) n [].

(** The iterations the ascending loop from 0 runs its body at, in order. *)
Definition for_up_visits (cond : nat -> bool) (n : nat) : list nat :=
  for_up_while cond (fun acc k => acc ++ [k]) n n [].

(** Writing through a pointer [&a[k]]: [f] acts on the suffix. *)
Definition at_offset {A : Type} (k : nat) (f : list A -> list A) (a : list A)
    : list A :=
  take k a ++ f (drop k a).

Section FluxCode.

Local Open Scope R_scope.

(** [flux_fick_cuda]: [*result *= flux.coef[i] * (si - sj)] *)
Definition flux_fick_cuda (flux : Flux.t) (i : nat) (si sj result : R) : R :=
  result * (Flux.coef flux !!! i * (si - sj)).

(** [flux_secrete_cuda]: forward only, [scale] is 1 if [q > 0], else 0 *)
Definition flux_secrete_cuda (flux : Flux.t) (i : nat) (si sj result : R) : R :=
  let q := Flux.coef flux !!! i * (si - Flux.target flux !!! i) in
  let scale := if Rgt_dec q 0 then 1 else 0 in
  result * (scale * q).

(** [flux_uptake_cuda] *)
Definition flux_uptake_cuda (flux : Flux.t) (i : nat) (si sj result : R) : R :=
  let q := Flux.coef flux !!! i * (Flux.target flux !!! i - sj) * si in
  let scale := if Rgt_dec q 0 then 1 else 0 in
  result * (scale * q).

(** The [switch (flux.kinds[i])] both evaluators share. *)
Definition flux_kind_cuda (flux : Flux.t) (i : nat) (si sj result : R) : R :=
  match Flux.kinds flux !!! i with
  | FLUX_FICK => flux_fick_cuda flux i si sj result
  | FLUX_SECRETE => flux_secrete_cuda flux i si sj result
  | FLUX_UPTAKE => flux_uptake_cuda flux i si sj result
  end.

(** One iteration of the loop of the one-sided [flux_eval_ex_cuda]. *)
Definition flux_eval_ex_cuda_iter (flux : Flux.t) (term : R)
    (states_i states_j : list R) (type_i : nat)
    (qvec_i : list R) (i : nat) : list R :=
  let '(qind, ssi, ssj, q) :=
    if Nat.eqb type_i (TypeIdPair.a (Flux.type_ids flux !!! i)) then
      let qind := Flux.indices_a flux !!! i in
      (qind, states_i !!! qind, states_j !!! (Flux.indices_b flux !!! i), - term)
    else
      let qind := Flux.indices_b flux !!! i in
      (qind, states_j !!! (Flux.indices_a flux !!! i), states_i !!! qind, term) in
  let q := flux_kind_cuda flux i ssi ssj q in
  <[qind := qvec_i !!! qind + (q - 0.5 * Flux.decay_coef flux !!! i * states_i !!! qind)]>
    qvec_i.

(** [flux_eval_ex_cuda], one-sided: the overload every kernel calls. *)
Definition flux_eval_ex_cuda (g : Consts.t) (fluxes : Fluxes.t) (r : R)
    (states_i states_j : list R) (type_i type_j : nat)
    (qvec_i : list R) : list R :=
  let flux := Fluxes.fluxes fluxes !!! 0%nat in
  let term := 1 - r / Consts.cuda_cutoff g in
  let term := term * term in
  fold_left (flux_eval_ex_cuda_iter flux term states_i states_j type_i)
            (seq 0 (Flux.size flux)) qvec_i.

(** One iteration of the loop of the two-sided [flux_eval_ex_cuda].  The
    local [float mult] is declared without an initial value and the helpers
    multiply into it; [mult0] is the value it happens to hold. *)
Definition flux_eval_ex_cuda2_iter (flux : Flux.t) (term mult0 : R)
    (states_i states_j : list R) (type_i : nat)
    (qv : list R * list R) (i : nat) : list R * list R :=
  let '(qvec_i, qvec_j) := qv in
  let swapped := negb (Nat.eqb type_i (TypeIdPair.a (Flux.type_ids flux !!! i))) in
  let si := if swapped then states_j else states_i in
  let sj := if swapped then states_i else states_j in
  let qi := if swapped then qvec_j else qvec_i in
  let qj := if swapped then qvec_i else qvec_j in
  let ia := Flux.indices_a flux !!! i in
  let ib := Flux.indices_b flux !!! i in
  let ssi := si !!! ia in
  let ssj := sj !!! ib in
  let q := term in
  let mult := flux_kind_cuda flux i ssi ssj mult0 in
  let q := q * mult in
  let half_decay := Flux.decay_coef flux !!! i * 0.5 in
  let qi := <[ia := qi !!! ia - (q + half_decay * ssi)]> qi in
  let qj := <[ib := qj !!! ib + (q - half_decay * ssj)]> qj in
  if swapped then (qj, qi) else (qi, qj).

(** [flux_eval_ex_cuda], two-sided ([qvec_i] and [qvec_j] are distinct
    arrays). *)
Definition flux_eval_ex_cuda2 (g : Consts.t) (fluxes : Fluxes.t)
    (mult0 r : R) (states_i states_j : list R) (type_i type_j : nat)
    (qvec_i qvec_j : list R) : list R * list R :=
  let flux := Fluxes.fluxes fluxes !!! 0%nat in
  let term := 1 - r / Consts.cuda_cutoff g in
  let term := term * term in
  fold_left (flux_eval_ex_cuda2_iter flux term mult0 states_i states_j type_i)
            (seq 0 (Flux.size flux)) (qvec_i, qvec_j).

(** Squared distance as the state kernels accumulate it. *)
Definition dist2 (pix pjx : float4.t) : R :=
  let r2 := 0 in
  let dx := float4.x pix - float4.x pjx in let r2 := r2 + dx * dx in
  let dx := float4.y pix - float4.y pjx in let r2 := r2 + dx * dx in
  let dx := float4.z pix - float4.z pjx in let r2 := r2 + dx * dx in
  r2.

(** Inner loop body of [runner_doself_state_cuda] for particle [i] and
    partner [k]. *)
Definition runner_doself_state_cuda_inner (g : Consts.t)
    (states : list R) (parts_pos : list float4.t) (parts_datai : list int4.t)
    (nr_states i : nat) (pjfx : list R) (k : nat) : list R :=
  if Nat.eqb i k then pjfx else
  let typeIdj := int4.y (parts_datai !!! i) in
  let pjoff := (typeIdj * Consts.cuda_maxtype g)%nat in
  let pjx := parts_pos !!! i in
  let pjs := drop (nr_states * i) states in
  let pix := parts_pos !!! k in
  let r2 := dist2 pix pjx in
  if Rge_dec r2 (Consts.cuda_cutoff2 g) then pjfx else
  let typeIdi := int4.y (parts_datai !!! k) in
  let fxind := Consts.cuda_fxind g !!! (pjoff + typeIdi)%nat in
  if Nat.eqb fxind 0 then pjfx else
  flux_eval_ex_cuda g (Consts.cuda_fluxes g !!! fxind) (sqrt r2)
                    pjs (drop (nr_states * k) states) typeIdj typeIdi pjfx.

(** [fluxes[base + k] += pjfx[k]] for [k < nr_states]. *)
Definition add_fluxes (fluxes : list R) (base nr_states : nat) (pjfx : list R)
    : list R :=
  fold_left (fun fl k => <[(base + k)%nat := fl !!! (base + k)%nat + pjfx !!! k]> fl)
            (seq 0 nr_states) fluxes.

(** The accumulator [pjfx] of particle [i] after the loop over its
    partners in [runner_doself_state_cuda]. *)
Definition runner_doself_state_cuda_pjfx (g : Consts.t)
    (states : list R) (count : nat)
    (parts_pos : list float4.t) (parts_datai : list int4.t)
    (nr_states i : nat) : list R :=
  fold_left (runner_doself_state_cuda_inner g states parts_pos parts_datai
                                            nr_states i)
            (seq 0 count) (replicate nr_states 0).

(** [runner_doself_state_cuda]: fluxes of the particles of one cell against
    each other. *)
Definition runner_doself_state_cuda (g : Consts.t)
    (states : list R) (count : nat)
    (parts_pos : list float4.t) (parts_datai : list int4.t)
    (fluxes : list R) (nr_states : nat) : list R :=
  fold_left
    (fun fluxes i =>
       add_fluxes fluxes (nr_states * i) nr_states
         (runner_doself_state_cuda_pjfx g states count parts_pos parts_datai
                                        nr_states i))
    (seq 0 count) fluxes.

(** Low 16 bits of a sort entry: the quantized position. *)
Definition sort_key (e : Z) : Z := Z.land e 65535.

(** High 16 bits of a sort entry: the particle index in its cell. *)
Definition sort_pid (e : Z) : nat := Z.to_nat (Z.shiftr e 16).

(** Loop test of the left walk:
    [(sort_j[k]&0xffff) + dshift < cuda_dmaxdist + di]. *)
Definition left_cond (g : Consts.t) (sort_j : list Z) (dshift di : Z)
    (k : nat) : bool :=
  (u32 (sort_key (sort_j !!! k) + dshift) <? u32 (Consts.cuda_dmaxdist g + di))%Z.

(** Loop test of the right walk:
    [di + dshift <= cuda_dmaxdist + (sort_j[k]&0xffff)]. *)
Definition right_cond (g : Consts.t) (sort_j : list Z) (dshift di : Z)
    (k : nat) : bool :=
  (u32 (di + dshift) <=? u32 (Consts.cuda_dmaxdist g + sort_key (sort_j !!! k)))%Z.

(** Body shared by the inner loops of [runner_dopair_state_left_cuda] and
    [runner_dopair_state_right_cuda]; [pix] is already shifted. *)
Definition runner_dopair_state_cuda_inner (g : Consts.t)
    (pis states_j : list R) (pix : float4.t) (typeIdi : nat)
    (parts_pos_j : list float4.t) (parts_datai_j : list int4.t)
    (sort_j : list Z) (nr_states : nat) (pifx : list R) (k : nat) : list R :=
  let pioff := (typeIdi * Consts.cuda_maxtype g)%nat in
  let spjd := sort_pid (sort_j !!! k) in
  let pjx := parts_pos_j !!! spjd in
  let r2 := dist2 pix pjx in
  if Rge_dec r2 (Consts.cuda_cutoff2 g) then pifx else
  let typeIdj := int4.y (parts_datai_j !!! spjd) in
  let fxind := Consts.cuda_fxind g !!! (pioff + typeIdj)%nat in
  if Nat.eqb fxind 0 then pifx else
  flux_eval_ex_cuda g (Consts.cuda_fluxes g !!! fxind) (sqrt r2)
                    pis (drop (nr_states * spjd) states_j) typeIdi typeIdj pifx.

(** [runner_dopair_state_left_cuda] *)
Definition runner_dopair_state_left_cuda (g : Consts.t)
    (states_i : list R) (count_i : nat) (states_j : list R) (count_j : nat)
    (parts_pos_i : list float4.t) (parts_datai_i : list int4.t)
    (parts_pos_j : list float4.t) (parts_datai_j : list int4.t)
    (fluxes_i : list R) (sort_i sort_j : list Z)
    (shift : list R) (dshift : Z) (nr_states : nat) : list R :=
  fold_left
    (fun fluxes_i i =>
       let di := sort_key (sort_i !!! i) in
       let spid := sort_pid (sort_i !!! i) in
       let pix := parts_pos_i !!! spid in
       let pix := float4.mk (float4.x pix - shift !!! 0%nat)
                            (float4.y pix - shift !!! 1%nat)
                            (float4.z pix - shift !!! 2%nat) (float4.w pix) in
       let typeIdi := int4.y (parts_datai_i !!! spid) in
       let pis := drop (nr_states * spid) states_i in
       let pifx :=
         for_down_while (left_cond g sort_j dshift di)
           (runner_dopair_state_cuda_inner g pis states_j pix typeIdi
              parts_pos_j parts_datai_j sort_j nr_states)
           count_j (replicate nr_states 0) in
       add_fluxes fluxes_i (nr_states * spid) nr_states pifx)
    (seq 0 count_i) fluxes_i.

(** [runner_dopair_state_right_cuda] *)
Definition runner_dopair_state_right_cuda (g : Consts.t)
    (states_i : list R) (count_i : nat) (states_j : list R) (count_j : nat)
    (parts_pos_i : list float4.t) (parts_datai_i : list int4.t)
    (parts_pos_j : list float4.t) (parts_datai_j : list int4.t)
    (fluxes_i : list R) (sort_i sort_j : list Z)
    (shift : list R) (dshift : Z) (nr_states : nat) : list R :=
  fold_left
    (fun fluxes_i i =>
       let di := sort_key (sort_i !!! i) in
       let spid := sort_pid (sort_i !!! i) in
       let pix := parts_pos_i !!! spid in
       let pix := float4.mk (float4.x pix + shift !!! 0%nat)
                            (float4.y pix + shift !!! 1%nat)
                            (float4.z pix + shift !!! 2%nat) (float4.w pix) in
       let typeIdi := int4.y (parts_datai_i !!! spid) in
       let pis := drop (nr_states * spid) states_i in
       let pifx :=
         for_up_while (right_cond g sort_j dshift di)
           (runner_dopair_state_cuda_inner g pis states_j pix typeIdi
              parts_pos_j parts_datai_j sort_j nr_states)
           count_j count_j (replicate nr_states 0) in
       add_fluxes fluxes_i (nr_states * spid) nr_states pifx)
    (seq 0 count_i) fluxes_i.

(** The shift between the cells [cid] and [cjd], wrapped periodically, as
    thread 0 of the pair kernels computes it. *)
Definition pair_shift (g : Consts.t) (cid cjd : nat) : list R :=
  map (fun k =>
         let sh := Consts.cuda_corig g !!! (3 * cjd + k)%nat
                   - Consts.cuda_corig g !!! (3 * cid + k)%nat in
         if Rgt_dec (2 * sh) (Consts.cuda_dim g !!! k) then
           sh - Consts.cuda_dim g !!! k
         else if Rlt_dec (2 * sh) (- Consts.cuda_dim g !!! k) then
           sh + Consts.cuda_dim g !!! k
         else sh)
      (seq 0 3).

(** [dshift] of the pair kernels. *)
Definition pair_dshift (g : Consts.t) (shift : list R) (cflags : nat) : Z :=
  float2uint (Consts.cuda_dscale g *
              (shift !!! 0%nat * Consts.cuda_shiftn g !!! (3 * cflags)%nat +
               shift !!! 1%nat * Consts.cuda_shiftn g !!! (3 * cflags + 1)%nat +
               shift !!! 2%nat * Consts.cuda_shiftn g !!! (3 * cflags + 2)%nat)).

(** The sorted list of cell [ind] for direction [cflags], as [cuda_memcpy]
    loads it from [cuda_sortlists]. *)
Definition load_sort (cuda_sortlists : list Z) (ind count cflags : nat) : list Z :=
  take count (drop (13 * ind + count * cflags) cuda_sortlists).

(** [runner_run_cuda_do_self_fluxonly_kernel] *)
Definition runner_run_cuda_do_self_fluxonly_kernel (g : Consts.t)
    (cuda_parts_pos : list float4.t) (cuda_parts_datai : list int4.t)
    (cuda_part_states : list R)
    (fluxes : list R) (nr_states : nat) (counts ind : list nat) : list R :=
  fold_left
    (fun fluxes cid =>
       let indi := ind !!! cid in
       let counti := counts !!! cid in
       let parts_pos := drop indi cuda_parts_pos in
       let parts_datai := drop indi cuda_parts_datai in
       let states_j := drop (nr_states * indi) cuda_part_states in
       at_offset (nr_states * indi)
         (fun fluxes_i =>
            runner_doself_state_cuda g states_j counti parts_pos parts_datai
                                     fluxes_i nr_states)
         fluxes)
    (seq 0 (Consts.cuda_nr_cells g)) fluxes.

(** [runner_run_cuda_do_pair_left_fluxonly_kernel] *)
Definition runner_run_cuda_do_pair_left_fluxonly_kernel (g : Consts.t)
    (cuda_parts_pos : list float4.t) (cuda_parts_datai : list int4.t)
    (cuda_part_states : list R) (cuda_sortlists : list Z)
    (fluxes : list R) (nr_states : nat) (counts ind : list nat) : list R :=
  fold_left
    (fun fluxes cid =>
       let cellpair_count := Consts.cuda_cellpair_count_left g !!! cid in
       let cellpair_ind := Consts.cuda_cellpair_ind_left g !!! cid in
       let cellpair_list := drop cellpair_ind (Consts.cuda_cellpair_list_left g) in
       fold_left
         (fun fluxes j =>
            let cellpair := cellpair_list !!! j in
            let cjd := cellpair.1 in
            let cflags := cellpair.2 in
            let shift := pair_shift g cid cjd in
            let dshift := pair_dshift g shift cflags in
            let indi := ind !!! cid in
            let indj := ind !!! cjd in
            let counti := counts !!! cid in
            let countj := counts !!! cjd in
            let sort_i := load_sort cuda_sortlists indi counti cflags in
            let sort_j := load_sort cuda_sortlists indj countj cflags in
            let parts_pos_i := drop indi cuda_parts_pos in
            let parts_datai_i := drop indi cuda_parts_datai in
            let parts_pos_j := drop indj cuda_parts_pos in
            let parts_datai_j := drop indj cuda_parts_datai in
            let states_i := drop (nr_states * indi) cuda_part_states in
            let states_j := drop (nr_states * indj) cuda_part_states in
            at_offset (nr_states * indi)
              (fun fluxes_i =>
                 runner_dopair_state_left_cuda g states_i counti states_j countj
                   parts_pos_i parts_datai_i parts_pos_j parts_datai_j
                   fluxes_i sort_i sort_j shift dshift nr_states)
              fluxes)
         (seq 0 cellpair_count) fluxes)
    (seq 0 (Consts.cuda_nr_cells g)) fluxes.

(** [runner_run_cuda_do_pair_right_fluxonly_kernel] *)
Definition runner_run_cuda_do_pair_right_fluxonly_kernel (g : Consts.t)
    (cuda_parts_pos : list float4.t) (cuda_parts_datai : list int4.t)
    (cuda_part_states : list R) (cuda_sortlists : list Z)
    (fluxes : list R) (nr_states : nat) (counts ind : list nat) : list R :=
  fold_left
    (fun fluxes cjd =>
       let cellpair_count := Consts.cuda_cellpair_count_right g !!! cjd in
       let cellpair_ind := Consts.cuda_cellpair_ind_right g !!! cjd in
       let cellpair_list := drop cellpair_ind (Consts.cuda_cellpair_list_right g) in
       fold_left
         (fun fluxes j =>
            let cellpair := cellpair_list !!! j in
            let cid := cellpair.1 in
            let cflags := cellpair.2 in
            let shift := pair_shift g cid cjd in
            let dshift := pair_dshift g shift cflags in
            let indi := ind !!! cid in
            let indj := ind !!! cjd in
            let counti := counts !!! cid in
            let countj := counts !!! cjd in
            let sort_i := load_sort cuda_sortlists indi counti cflags in
            let sort_j := load_sort cuda_sortlists indj countj cflags in
            let parts_pos_i := drop indi cuda_parts_pos in
            let parts_datai_i := drop indi cuda_parts_datai in
            let parts_pos_j := drop indj cuda_parts_pos in
            let parts_datai_j := drop indj cuda_parts_datai in
            let states_i := drop (nr_states * indi) cuda_part_states in
            let states_j := drop (nr_states * indj) cuda_part_states in
            at_offset (nr_states * indj)
              (fun fluxes_j =>
                 runner_dopair_state_right_cuda g states_j countj states_i counti
                   parts_pos_j parts_datai_j parts_pos_i parts_datai_i
                   fluxes_j sort_j sort_i shift dshift nr_states)
              fluxes)
         (seq 0 cellpair_count) fluxes)
    (seq 0 (Consts.cuda_nr_cells g)) fluxes.

(** Loop body of [runner_run_cuda_integrate_state_kernel]; the pair is
    ([cuda_part_states], [fluxes]) and [SPECIES_KONSTANT] is the mask of
    [state::SpeciesFlags], declared outside this file. *)
Definition integrate_state_iter (SPECIES_KONSTANT : Z)
    (species_flags : list Z) (dt_flux : R)
    (mem : list R * list R) (i : nat) : list R * list R :=
  let '(cuda_part_states, fluxes) := mem in
  let state := cuda_part_states !!! i in
  let flux :=
    fluxes !!! i * (1 - IZR (Z.land (species_flags !!! i) SPECIES_KONSTANT)) in
  (<[i := state + dt_flux * flux]> cuda_part_states, <[i := 0]> fluxes).

(** [runner_run_cuda_integrate_state_kernel] *)
Definition runner_run_cuda_integrate_state_kernel (SPECIES_KONSTANT : Z)
    (cuda_part_states fluxes : list R) (species_flags : list Z)
    (nr_fluxes : nat) (dt_flux : R) : list R * list R :=
  fold_left (integrate_state_iter SPECIES_KONSTANT species_flags dt_flux)
            (seq 0 nr_fluxes) (cuda_part_states, fluxes).

End FluxCode.

(** ** Sorting ([cuda_sort_descending], [runner_dosort_cuda]) *)

Section SortCode.

Local Open Scope Z_scope.

(** The compare-and-swap both steps of the bitonic sort perform on the
    entries [ind] and [jnd]. *)
Definition compare_swap (count : Z) (a : list Z) (ind jnd : Z) : list Z :=
  let swap_i := if jnd <? count then a !!! Z.to_nat ind else 0 in
  let swap_j := if jnd <? count then a !!! Z.to_nat jnd else 0 in
  if Z.land swap_i 65535 <? Z.land swap_j 65535 then
    <[Z.to_nat jnd := swap_i]> (<[Z.to_nat ind := swap_j]> a)
  else a.

(** Iteration [i] of the first step for block size [k]. *)
Definition sort_first_step_iter (k count : Z) (a : list Z) (i : nat) : list Z :=
  let i := Z.of_nat i in
  let hi := Z.land i (Z.lnot (k - 1)) in
  let lo := Z.land i (k - 1) in
  let ind := i + hi in
  let jnd := 2 * (hi + k) - lo - 1 in
  compare_swap count a ind jnd.

(** Iteration [i] of a second step with stride [j]. *)
Definition sort_second_step_iter (j count : Z) (a : list Z) (i : nat) : list Z :=
  let i := Z.of_nat i in
  let hi := Z.land i (Z.lnot (j - 1)) in
  let ind := i + hi in
  let jnd := ind + j in
  compare_swap count a ind jnd.

(** [for (j = j0; j > 0; j /= 2)]: the second steps. *)
Fixpoint sort_second_steps (fuel : nat) (j count : Z) (a : list Z) : list Z :=
  match fuel with
  | O => a
  | S fuel' =>
      if 0 <? j then
        sort_second_steps fuel' (j / 2) count
          (fold_left (sort_second_step_iter j count) (seq 0 (Z.to_nat count)) a)
      else a
  end.

(** [for (k = k0; k < count; k *= 2)]: the stages. *)
Fixpoint sort_stages (fuel : nat) (k count : Z) (a : list Z) : list Z :=
  match fuel with
  | O => a
  | S fuel' =>
      if k <? count then
        let a := fold_left (sort_first_step_iter k count) (seq 0 (Z.to_nat count)) a in
        let a := sort_second_steps (Z.to_nat k) (k / 2) count a in
        sort_stages fuel' (k * 2) count a
      else a
  end.

(** [cuda_sort_descending]: [k] doubles from 1, so [count] rounds of fuel
    are never exhausted. *)
Definition cuda_sort_descending (a : list Z) (count : Z) : list Z :=
  sort_stages (Z.to_nat count) 1 count a.

End SortCode.

Section SortPack.

Local Open Scope R_scope.

(** The entry [runner_dosort_cuda] packs for particle [k]. *)
Definition sort_pack (g : Consts.t) (nshift : R) (shift : list R)
    (parts_pos : list float4.t) (k : nat) : Z :=
  let pix := parts_pos !!! k in
  u32 (Z.lor (Z.shiftl (Z.of_nat k) 16)
             (float2uint (Consts.cuda_dscale g *
                (nshift + float4.x pix * shift !!! 0%nat
                        + float4.y pix * shift !!! 1%nat
                        + float4.z pix * shift !!! 2%nat)))).

(** Norm of the shift of direction [sid], [nshift] in [runner_dosort_cuda]. *)
Definition sort_nshift (g : Consts.t) (sid : nat) : R :=
  let shift0 := Consts.cuda_shift g !!! (3 * sid + 0)%nat * Consts.cuda_h g !!! 0%nat in
  let shift1 := Consts.cuda_shift g !!! (3 * sid + 1)%nat * Consts.cuda_h g !!! 1%nat in
  let shift2 := Consts.cuda_shift g !!! (3 * sid + 2)%nat * Consts.cuda_h g !!! 2%nat in
  sqrt (shift0 * shift0 + shift1 * shift1 + shift2 * shift2).

(** [runner_dosort_cuda] *)
Definition runner_dosort_cuda (g : Consts.t) (parts_pos : list float4.t)
    (count_i : nat) (sort_i : list Z) (sid : nat) : list Z :=
  let nshift := sort_nshift g sid in
  let shift := [Consts.cuda_shiftn g !!! (3 * sid + 0)%nat;
                Consts.cuda_shiftn g !!! (3 * sid + 1)%nat;
                Consts.cuda_shiftn g !!! (3 * sid + 2)%nat] in
  let sort_i :=
    fold_left (fun sort_i k => <[k := sort_pack g nshift shift parts_pos k]> sort_i)
              (seq 0 count_i) sort_i in
  cuda_sort_descending sort_i (Z.of_nat count_i).

End SortPack.

(** ** The flux terms in the words of the specification *)

Section FluxSpec.

Local Open Scope R_scope.

(** The term-specific rate: Fick [rate (ci - cj)]; Secrete
    [rate (ci - target)], zero when non-positive; Uptake
    [rate (target - cj) ci], zero when non-positive. *)
Definition spec_flux_rate (kind : FluxKind) (rate target ci cj : R) : R :=
  match kind with
  | FLUX_FICK => rate * (ci - cj)
  | FLUX_SECRETE =>
      if Rle_dec (rate * (ci - target)) 0 then 0 else rate * (ci - target)
  | FLUX_UPTAKE =>
      if Rle_dec (rate * (target - cj) * ci) 0 then 0 else rate * (target - cj) * ci
  end.

(** The exchanged quantity: smoothing weight [(1 - r/cutoff)^2] times the
    rate. *)
Definition spec_flux_exchanged (cutoff r : R) (kind : FluxKind)
    (rate target ci cj : R) : R :=
  (1 - r / cutoff) ^ 2 * spec_flux_rate kind rate target ci cj.

(** The partners of particle [i] in its own cell that lie within the
    cutoff, as [runner_doself_state_cuda] tests them. *)
Definition self_neighbors (g : Consts.t) (parts_pos : list float4.t)
    (count i : nat) : list nat :=
  List.filter
    (fun k => negb (Nat.eqb i k) &&
              (if Rge_dec (dist2 (parts_pos !!! k) (parts_pos !!! i))
                          (Consts.cuda_cutoff2 g)
               then false else true))
    (seq 0 count).

Definition Rsum (l : list R) : R := fold_right Rplus 0 l.

End FluxSpec.

(** ** Tabulated potentials ([potential_eval_ex_cuda], [dpd_eval_cuda])

    [cuda::PotentialData]: [w.x], [w.y] are the ends [a], [b] of the
    interval, [w.z] is [r0_plusone]; [c] holds [n + 1] blocks of
    [potential_chunk] coefficients.  [potential_chunk] and the flag masks
    are macros of the potential header, outside this file. *)

Module PotentialData.
Record t : Type := mk {
    flags : Z;
    w : float4.t;
    alpha : float3.t;
    n : Z;
    c : list R
  }.
End PotentialData.

Module DPDPotentialData.
(** [dpd_cfs]: x = alpha, y = gamma, z = sigma *)
Record t : Type := mk {
    flags : Z;
    w : float4.t;
    dpd_cfs : float3.t
  }.
End DPDPotentialData.

Module PotConsts.
Record t : Type := mk {
    potential_chunk : nat;
    POTENTIAL_SCALED : Z;
    POTENTIAL_SHIFTED : Z
  }.
End PotConsts.

Section PotentialCode.

Local Open Scope R_scope.

(** [p.flags & MASK] used as a condition *)
Definition flag_set (flags mask : Z) : bool := negb (Z.land flags mask =? 0)%Z.

(** The distance the evaluator works with, before it is clamped:
    [r2 * rsqrtf(r2)], scaled or shifted by the radii as the flags say. *)
Definition potential_eval_r (K : PotConsts.t) (p : PotentialData.t)
    (ri rj r2 : R) : R :=
  let ir := / sqrt r2 in
  let r := r2 * ir in
  if flag_set (PotentialData.flags p) (PotConsts.POTENTIAL_SCALED K) then
    r / (ri + rj)
  else if flag_set (PotentialData.flags p) (PotConsts.POTENTIAL_SHIFTED K) then
    r - (ri + rj) + float4.z (PotentialData.w p)
  else r.

(** The evaluator from the range test on, at distance [r]: zero above
    [w.y], else the interval index and Horner's rule on its block. *)
Definition potential_eval_interp (K : PotConsts.t) (p : PotentialData.t)
    (r ir : R) : R * R :=
  if Rgt_dec r (float4.y (PotentialData.w p)) then (0, 0) else
  let ind := float2int (Rmax 0
               (float3.x (PotentialData.alpha p) +
                r * (float3.y (PotentialData.alpha p) +
                     r * float3.z (PotentialData.alpha p)))) in
  if (ind >? PotentialData.n p)%Z then (0, 0) else
  let c := drop (Z.to_nat ind * PotConsts.potential_chunk K) (PotentialData.c p) in
  let x := (r - c !!! 0%nat) * c !!! 1%nat in
  let ee := c !!! 2%nat * x + c !!! 3%nat in
  let eff := c !!! 2%nat in
  let '(ee, eff) :=
    fold_left (fun '(ee, eff) k =>
                 let eff := eff * x + ee in
                 let ee := ee * x + c !!! k in
                 (ee, eff))
              (seq 4 (PotConsts.potential_chunk K - 4)) (ee, eff) in
  (ee, eff * c !!! 1%nat * ir).

(** [potential_eval_ex_cuda (cuda::PotentialData p, ...)]: the pair is
    ([*e], [*f]). *)
Definition potential_eval_ex_cuda (K : PotConsts.t) (p : PotentialData.t)
    (ri rj r2 : R) : R * R :=
  let ir := / sqrt r2 in
  let r := potential_eval_r K p ri rj r2 in
  (* cutoff min value, eval at lowest func interpolation. *)
  let r := if Rlt_dec r (float4.x (PotentialData.w p))
           then float4.x (PotentialData.w p) else r in
  potential_eval_interp K p r ir.

(** [FLT_MIN], the smallest positive normal [float] *)
Definition FLT_MIN : R := / 2 ^ 126.

(** The distance [dpd_eval_cuda] tests against the interval. *)
Definition dpd_eval_r (K : PotConsts.t) (pot : DPDPotentialData.t)
    (ri rj r2 : R) : R :=
  let r := sqrt r2 in
  if flag_set (DPDPotentialData.flags pot) (PotConsts.POTENTIAL_SHIFTED K)
  then r - (ri + rj) else r.

(** [dpd_eval_cuda (cuda::DPDPotentialData pot, ...)]: the pair is ([*e],
    [fi]); on the early return [*e] is set and [fi] is left as it is. *)
Definition dpd_eval_cuda (K : PotConsts.t) (cuda_dt : R)
    (pot : DPDPotentialData.t) (ri rj : R) (pvi pvj dx : float3.t) (r2 : R)
    (fi : list R) : R * list R :=
  let delta := / sqrt cuda_dt in
  let r := sqrt r2 in
  let ro := if Rlt_dec r FLT_MIN then FLT_MIN else r in
  let r := dpd_eval_r K pot ri rj r2 in
  if Rgt_dec r (float4.y (DPDPotentialData.w pot)) then (0, fi) else
  let r := if Rge_dec r (float4.x (DPDPotentialData.w pot))
           then r else float4.x (DPDPotentialData.w pot) in
  let unit_vec := float3.mk (float3.x dx / ro) (float3.y dx / ro) (float3.z dx / ro) in
  let v := float3.mk (float3.x pvi - float3.x pvj) (float3.y pvi - float3.y pvj)
                     (float3.z pvi - float3.z pvj) in
  let omega_c := if Rlt_dec r 0 then 1
                 else 1 - r / float4.y (DPDPotentialData.w pot) in
  let fc := float3.x (DPDPotentialData.dpd_cfs pot) * omega_c in
  let omega_d := omega_c * omega_c in
  let fd := - float3.y (DPDPotentialData.dpd_cfs pot) * omega_d *
            (float3.x unit_vec * float3.x v + float3.y unit_vec * float3.y v
             + float3.z unit_vec * float3.z v) in
  let fr := float3.z (DPDPotentialData.dpd_cfs pot) * omega_c * delta in
  let f := fc + fd + fr in
  let fi := <[0%nat := fi !!! 0%nat + f * float3.x unit_vec]> fi in
  let fi := <[1%nat := fi !!! 1%nat + f * float3.y unit_vec]> fi in
  let fi := <[2%nat := fi !!! 2%nat + f * float3.z unit_vec]> fi in
  (0, fi).

End PotentialCode.

(** ** The per-step entry point ([engine_nonbond_cuda]), one device *)

Module Engine.
(** the fields of [struct engine] and of its space the launch code reads *)
Record t : Type := mk {
    nr_fluxes_cuda : Z;
    nr_fluxsteps : Z;
    step_flux : Z;
    dt_flux : R;
    verlet_rebuild : bool;
    nr_parts : nat
  }.
End Engine.

Module Device.
(** device buffers the kernels write; [cuda_part_states] is the global the
    flux kernels read and the integration kernel updates *)
Record t : Type := mk {
    forces_cuda : list R;
    fluxes_next_cuda : list R;
    part_states_cuda : list R;
    cuda_sortlists : list Z;
    cuda_epot : R
  }.
End Device.

Module DeviceIn.
(** device buffers loaded before the launches and only read by them *)
Record t : Type := mk {
    cuda_parts_pos : list float4.t;
    cuda_parts_datai : list int4.t;
    part_species_flags_cuda : list Z;
    counts_cuda : list nat;
    ind_cuda : list nat;
    cuda_cflags : list Z;
    maxcount : nat
  }.
End DeviceIn.

(** The kernels [engine_nonbond_cuda] launches: [Kernel.do_self b] is
    [runner_run_cuda_do_self_kernel<b>], [Kernel.do_self_fluxonly] is
    [runner_run_cuda_do_self_fluxonly_kernel], and so on; the two memsets
    are the launches of [cuda_memset_float] on the force and on the flux
    buffer. *)
Module Kernel.
Inductive t : Type :=
  | memset_forces
  | memset_fluxes
  | do_sort
  | do_self_fluxonly
  | do_pair_left_fluxonly
  | do_pair_right_fluxonly
  | integrate_state
  | do_self (is_stateful : bool)
  | do_pair_left (is_stateful : bool)
  | do_pair_right (is_stateful : bool).
End Kernel.

(** Whether the launch is handed the force buffer [e->forces_cuda[did]]. *)
Definition takes_forces (k : Kernel.t) : bool :=
  match k with
  | Kernel.memset_forces => true
  | Kernel.do_self _ => true
  | Kernel.do_pair_left _ => true
  | Kernel.do_pair_right _ => true
  | _ => false
  end.

Section EngineCode.

Local Open Scope R_scope.

Variable g : Consts.t.
Variable SPECIES_KONSTANT : Z.
Variable input : DeviceIn.t.

(** What the force halves of the combined kernels leave in the force buffer
    and in [cuda_epot]; their potential tables live in texture memory,
    which is not modelled. *)
Variable self_forces : Device.t -> list R * R.
Variable pair_left_forces : Device.t -> list R * R.
Variable pair_right_forces : Device.t -> list R * R.

(** [cuda_memset_float]: [data[k] = val] for [k < N] *)
Definition cuda_memset_float (data : list R) (val : R) (N : nat) : list R :=
  fold_left (fun data k => <[k := val]> data) (seq 0 N) data.

(** [cuda_memcpy] of [count] entries of [source] to [&dest[off]] *)
Definition cuda_memcpy (dest : list Z) (off : nat) (source : list Z)
    (count : nat) : list Z :=
  fold_left (fun dest k => <[(off + k)%nat := source !!! k]> dest) (seq 0 count) dest.

(** Body of [runner_run_cuda_do_sort_kernel]; the pair is ([cuda_sortlists],
    the shared array [sort_s]). *)
Definition do_sort_kernel (cuda_sortlists : list Z) : list Z :=
  fst (fold_left
    (fun '(cuda_sortlists, sort_s) cid =>
       if (DeviceIn.cuda_cflags input !!! cid =? 0)%Z then (cuda_sortlists, sort_s)
       else
         let indc := DeviceIn.ind_cuda input !!! cid in
         let countc := DeviceIn.counts_cuda input !!! cid in
         let part_pos := drop indc (DeviceIn.cuda_parts_pos input) in
         fold_left
           (fun '(cuda_sortlists, sort_s) sid =>
              let sort_s := runner_dosort_cuda g part_pos countc sort_s sid in
              (cuda_memcpy cuda_sortlists (13 * indc + sid * countc) sort_s countc,
               sort_s))
           (seq 0 13) (cuda_sortlists, sort_s))
    (seq 0 (Consts.cuda_nr_cells g))
    (cuda_sortlists, replicate (DeviceIn.maxcount input) 0%Z)).

(** The effect of one launch on the device buffers. *)
Definition launch (nr_states : nat) (e : Engine.t) (k : Kernel.t) (d : Device.t)
    : Device.t :=
  let self_flux fl :=
    runner_run_cuda_do_self_fluxonly_kernel g
      (DeviceIn.cuda_parts_pos input) (DeviceIn.cuda_parts_datai input)
      (Device.part_states_cuda d) fl nr_states
      (DeviceIn.counts_cuda input) (DeviceIn.ind_cuda input) in
  let left_flux fl :=
    runner_run_cuda_do_pair_left_fluxonly_kernel g
      (DeviceIn.cuda_parts_pos input) (DeviceIn.cuda_parts_datai input)
      (Device.part_states_cuda d) (Device.cuda_sortlists d) fl nr_states
      (DeviceIn.counts_cuda input) (DeviceIn.ind_cuda input) in
  let right_flux fl :=
    runner_run_cuda_do_pair_right_fluxonly_kernel g
      (DeviceIn.cuda_parts_pos input) (DeviceIn.cuda_parts_datai input)
      (Device.part_states_cuda d) (Device.cuda_sortlists d) fl nr_states
      (DeviceIn.counts_cuda input) (DeviceIn.ind_cuda input) in
  let with_fluxes (stateful : bool) (fe : list R * R) (flux : list R -> list R) :=
    Device.mk fe.1
              (if stateful then flux (Device.fluxes_next_cuda d)
               else Device.fluxes_next_cuda d)
              (Device.part_states_cuda d) (Device.cuda_sortlists d) fe.2 in
  match k with
  | Kernel.memset_forces =>
      Device.mk (cuda_memset_float (Device.forces_cuda d) 0 (4 * Engine.nr_parts e))
                (Device.fluxes_next_cuda d) (Device.part_states_cuda d)
                (Device.cuda_sortlists d) (Device.cuda_epot d)
  | Kernel.memset_fluxes =>
      Device.mk (Device.forces_cuda d)
                (cuda_memset_float (Device.fluxes_next_cuda d) 0
                                   (nr_states * Engine.nr_parts e))
                (Device.part_states_cuda d)
                (Device.cuda_sortlists d) (Device.cuda_epot d)
  | Kernel.do_sort =>
      Device.mk (Device.forces_cuda d) (Device.fluxes_next_cuda d)
                (Device.part_states_cuda d)
                (do_sort_kernel (Device.cuda_sortlists d)) (Device.cuda_epot d)
  | Kernel.do_self_fluxonly =>
      Device.mk (Device.forces_cuda d) (self_flux (Device.fluxes_next_cuda d))
                (Device.part_states_cuda d)
                (Device.cuda_sortlists d) (Device.cuda_epot d)
  | Kernel.do_pair_left_fluxonly =>
      Device.mk (Device.forces_cuda d) (left_flux (Device.fluxes_next_cuda d))
                (Device.part_states_cuda d)
                (Device.cuda_sortlists d) (Device.cuda_epot d)
  | Kernel.do_pair_right_fluxonly =>
      Device.mk (Device.forces_cuda d) (right_flux (Device.fluxes_next_cuda d))
                (Device.part_states_cuda d)
                (Device.cuda_sortlists d) (Device.cuda_epot d)
  | Kernel.integrate_state =>
      let r := runner_run_cuda_integrate_state_kernel SPECIES_KONSTANT
                 (Device.part_states_cuda d) (Device.fluxes_next_cuda d)
                 (DeviceIn.part_species_flags_cuda input)
                 (nr_states * Engine.nr_parts e) (Engine.dt_flux e) in
      Device.mk (Device.forces_cuda d) r.2 r.1
                (Device.cuda_sortlists d) (Device.cuda_epot d)
  | Kernel.do_self stateful =>
      with_fluxes stateful (self_forces d) self_flux
  | Kernel.do_pair_left stateful =>
      with_fluxes stateful (pair_left_forces d) left_flux
  | Kernel.do_pair_right stateful =>
      with_fluxes stateful (pair_right_forces d) right_flux
  end.

(** A run: the engine, the device buffers and the launches so far. *)
Definition run_state : Type := Engine.t * Device.t * list Kernel.t.

Definition do_launch (nr_states : nat) (k : Kernel.t) (s : run_state) : run_state :=
  let '(e, d, log) := s in (e, launch nr_states e k d, log ++ [k]).

Definition set_step_flux (v : Z) (s : run_state) : run_state :=
  let '(e, d, log) := s in
  (Engine.mk (Engine.nr_fluxes_cuda e) (Engine.nr_fluxsteps e) v
             (Engine.dt_flux e) (Engine.verlet_rebuild e) (Engine.nr_parts e),
   d, log).

(** The body of the sub-step loop: one intermediate round. *)
Definition flux_round (nr_states : nat) (s : run_state) : run_state :=
  let s := do_launch nr_states Kernel.do_self_fluxonly s in
  let s := do_launch nr_states Kernel.do_pair_left_fluxonly s in
  let s := do_launch nr_states Kernel.do_pair_right_fluxonly s in
  do_launch nr_states Kernel.integrate_state s.

(** [for (; e->step_flux < e->nr_fluxsteps - 1; e->step_flux++)] *)
Fixpoint flux_steps_loop (fuel : nat) (nr_states : nat) (s : run_state)
    : run_state :=
  match fuel with
  | O => s
  | S fuel' =>
      let e := s.1.1 in
      if (Engine.step_flux e <? Engine.nr_fluxsteps e - 1)%Z then
        let s := flux_round nr_states s in
        let s := set_step_flux (Engine.step_flux s.1.1 + 1) s in
        flux_steps_loop fuel' nr_states s
      else s
  end.

(** The launches of [engine_nonbond_cuda] on one device, from the clearing
    of the force array to the last kernel. *)
Definition engine_nonbond_cuda (e : Engine.t) (d : Device.t) : run_state :=
  let nr_states := Z.to_nat (u32 (Engine.nr_fluxes_cuda e - 1)) in
  let s : run_state := (e, d, []) in
  let s := do_launch nr_states Kernel.memset_forces s in
  let s := if (0 <? nr_states)%nat
           then do_launch nr_states Kernel.memset_fluxes s else s in
  let s := if Engine.verlet_rebuild e
           then do_launch nr_states Kernel.do_sort s else s in
  let s := if ((0 <? nr_states)%nat && (1 <? Engine.nr_fluxsteps e)%Z)%bool then
             let s := set_step_flux 0 s in
             flux_steps_loop (Z.to_nat (Engine.nr_fluxsteps e)) nr_states s
           else s in
  if (0 <? nr_states)%nat then
    let s := do_launch nr_states (Kernel.do_self true) s in
    let s := do_launch nr_states (Kernel.do_pair_left true) s in
    do_launch nr_states (Kernel.do_pair_right true) s
  else
    let s := do_launch nr_states (Kernel.do_self false) s in
    let s := do_launch nr_states (Kernel.do_pair_left false) s in
    do_launch nr_states (Kernel.do_pair_right false) s.

End EngineCode.

(** ** Forces and energy of a cell against itself
    ([runner_doself_cuda], [runner_run_cuda_do_self_kernel]), per thread *)

Module ForceConsts.
(** [cuda_pind*] hold [ENGINE_CUDA_PIND_WIDTH = 3] entries per type pair:
    index, number of potentials, number of DPD potentials *)
Record t : Type := mk {
    cuda_pind : list nat;
    cuda_pind_cluster : list nat;
    PARTICLE_BOUND : Z;
    cell_active_any : Z;
    cuda_cdims : list float3.t;
    cuda_cflags : list Z
  }.
End ForceConsts.

#[global] Instance float3_inhabited : Inhabited float3.t :=
  populate (float3.mk 0 0 0).

(** [for (i = i0; i < n; i += stride) acc = body(acc, i)]; [fuel] bounds
    the number of rounds ([n] is enough for a positive stride). *)
Fixpoint for_stride {A : Type} (body : A -> nat -> A) (stride n fuel i : nat)
    (acc : A) : A :=
  match fuel with
  | O => acc
  | S fuel' =>
      if (i <? n)%nat then for_stride body stride n fuel' (i + stride)%nat (body acc i)
      else acc
  end.

Section SelfCode.

Local Open Scope R_scope.

Variable g : Consts.t.
Variable fc : ForceConsts.t.

(** [potential_eval_super_ex_cuda<iscluster>(pind, nr_pots, nr_dpds, ri, rj,
    pidi, pidj, dx, r2, &ee, pif)]: the new ([ee], [pif]).  It reads the
    potential tables from texture memory, which is not modelled. *)
Variable potential_eval_super_ex_cuda :
  bool -> nat -> nat -> nat -> R -> R -> nat -> nat -> float3.t -> R ->
  R -> list R -> R * list R.

(** [w_cubic_spline_cuda_nr(r2, h, &result)] *)
Variable w_cubic_spline_cuda_nr : R -> R -> R.

(** [boundary_eval_cuda(px, pid, typeId, cell_dim, cell_flags, force,
    epot)]: the new ([force], [*epot]). *)
Variable boundary_eval_cuda :
  float4.t -> nat -> nat -> float3.t -> Z -> list R -> R -> list R * R.

(** [forces[base + k] += pif[k]] for [k < 4] *)
Definition add_forces (forces : list R) (base : nat) (pif : list R) : list R :=
  fold_left (fun f k => <[(base + k)%nat := f !!! (base + k)%nat + pif !!! k]> f)
            (seq 0 4) forces.

(** Partner [k] of particle [i] in [runner_doself_cuda]; the pair is
    ([pif], [epot]). *)
Definition runner_doself_cuda_inner (ind : nat)
    (parts_pos : list float4.t) (parts_datai : list int4.t) (i : nat)
    (acc : list R * R) (k : nat) : list R * R :=
  let '(pif, epot) := acc in
  let pidi := (ind + i)%nat in
  let pix := parts_pos !!! i in
  let pdatai_i := parts_datai !!! i in
  let pioff := (int4.y pdatai_i * Consts.cuda_maxtype g)%nat in
  let iscluster_maybe := flag_set (int4.z pdatai_i) (ForceConsts.PARTICLE_BOUND fc) in
  let clusterIdi := int4.w pdatai_i in
  if Nat.eqb i k then (pif, epot) else
  let pjx := parts_pos !!! k in
  let dx := float3.mk (float4.x pix - float4.x pjx) (float4.y pix - float4.y pjx)
                      (float4.z pix - float4.z pjx) in
  let r2 := float3.x dx * float3.x dx + float3.y dx * float3.y dx
            + float3.z dx * float3.z dx in
  if Rlt_dec r2 (Consts.cuda_cutoff2 g) then
    let number_density := w_cubic_spline_cuda_nr r2 (Consts.cuda_cutoff g) in
    let pif := <[3%nat := pif !!! 3%nat + number_density]> pif in
    let pdatai_j := parts_datai !!! k in
    let pjoff := (3 * (pioff + int4.y pdatai_j))%nat in
    let iscluster :=
      iscluster_maybe && flag_set (int4.z pdatai_j) (ForceConsts.PARTICLE_BOUND fc)
      && (int4.w pdatai_j =? clusterIdi)%Z in
    let tab := if iscluster then ForceConsts.cuda_pind_cluster fc
               else ForceConsts.cuda_pind fc in
    let pind := tab !!! pjoff in
    let nr_pots := tab !!! (pjoff + 1)%nat in
    let nr_dpds := tab !!! (pjoff + 2)%nat in
    if Nat.eqb pind 0 then (pif, epot) else
    let ee := 0 in
    let pidj := (ind + k)%nat in
    let '(ee, pif) :=
      potential_eval_super_ex_cuda iscluster pind nr_pots nr_dpds
        (float4.w pix) (float4.w pjx) pidi pidj dx r2 ee pif in
    (pif, epot + ee)
  else (pif, epot).

(** [runner_doself_cuda] as thread [threadIdx] of a block of [blockDim]
    threads runs it; the pair is ([forces], [*epot_global]). *)
Definition runner_doself_cuda (threadIdx blockDim : nat) (ind count : nat)
    (parts_pos : list float4.t) (parts_datai : list int4.t)
    (forces : list R) (epot_global : R) : list R * R :=
  let epot := 0 in
  let '(forces, epot) :=
    for_stride
      (fun '(forces, epot) i =>
         let pif := [0; 0; 0; 0] in
         let '(pif, epot) :=
           fold_left (runner_doself_cuda_inner ind parts_pos parts_datai i)
                     (seq 0 count) (pif, epot) in
         (add_forces forces (4 * i) pif, epot))
      blockDim count count threadIdx (forces, epot) in
  (forces, epot_global + epot).

(** [runner_doboundary_self_cuda], same thread *)
Definition runner_doboundary_self_cuda (threadIdx blockDim : nat)
    (ind count : nat) (cell_flags : Z) (cdims : float3.t)
    (parts_pos : list float4.t) (parts_datai : list int4.t)
    (forces : list R) (epot_global : R) : list R * R :=
  let epot := 0 in
  let '(forces, epot) :=
    for_stride
      (fun '(forces, epot) i =>
         let pjf := [0; 0; 0; 0] in
         let '(pjf, epot) :=
           boundary_eval_cuda (parts_pos !!! i) (ind + i)%nat
             (int4.y (parts_datai !!! i)) cdims cell_flags pjf epot in
         (add_forces forces (4 * i) pjf, epot))
      blockDim count count threadIdx (forces, epot) in
  (forces, epot_global + epot).

(** [runner_run_cuda_do_self_kernel<false>] as thread [threadIdx] of block
    [blockIdx] runs it: the pair is ([forces], [cuda_epot]).  The local
    [float epot] is declared without an initial value and is first used by
    [*epot_global += epot] in the callees; [epot0] is the value it happens
    to hold.  (The instance [<true>] runs the flux code of
    [runner_doself_state_cuda] besides, which does not touch [epot].) *)
Definition runner_run_cuda_do_self_kernel (epot0 : R)
    (blockIdx gridDim threadIdx blockDim : nat)
    (cuda_parts_pos : list float4.t) (cuda_parts_datai : list int4.t)
    (forces : list R) (cuda_epot : R) (counts ind : list nat) : list R * R :=
  let epot := epot0 in
  let '(forces, epot) :=
    for_stride
      (fun '(forces, epot) cid =>
         let indi := ind !!! cid in
         let counti := counts !!! cid in
         let cdims := ForceConsts.cuda_cdims fc !!! cid in
         let parts_pos := drop indi cuda_parts_pos in
         let parts_datai := drop indi cuda_parts_datai in
         let cell_flags := ForceConsts.cuda_cflags fc !!! cid in
         let boundary := flag_set cell_flags (ForceConsts.cell_active_any fc) in
         let forces_i := drop (4 * indi) forces in
         let '(forces_i, epot) :=
           if boundary then
             runner_doboundary_self_cuda threadIdx blockDim indi counti cell_flags
               cdims parts_pos parts_datai forces_i epot
           else (forces_i, epot) in
         let '(forces_i, epot) :=
           runner_doself_cuda threadIdx blockDim indi counti parts_pos parts_datai
                              forces_i epot in
         (take (4 * indi) forces ++ forces_i, epot))
      gridDim (Consts.cuda_nr_cells g) (Consts.cuda_nr_cells g) blockIdx
      (forces, epot) in
  (* atomicAdd(&cuda_epot, epot * 0.5f) *)
  (forces, cuda_epot + epot * 0.5).

(** [pix.x -= shift[0]; pix.y -= shift[1]; pix.z -= shift[2]] *)
Definition shift_sub (shift : list R) (pix : float4.t) : float4.t :=
  float4.mk (float4.x pix - shift !!! 0%nat) (float4.y pix - shift !!! 1%nat)
            (float4.z pix - shift !!! 2%nat) (float4.w pix).

(** [pix.x += shift[0]; pix.y += shift[1]; pix.z += shift[2]] *)
Definition shift_add (shift : list R) (pix : float4.t) : float4.t :=
  float4.mk (float4.x pix + shift !!! 0%nat) (float4.y pix + shift !!! 1%nat)
            (float4.z pix + shift !!! 2%nat) (float4.w pix).

(** [float3 dx{pix.x - pjx.x, pix.y - pjx.y, pix.z - pjx.z}] *)
Definition pair_dx (pix pjx : float4.t) : float3.t :=
  float3.mk (float4.x pix - float4.x pjx) (float4.y pix - float4.y pjx)
            (float4.z pix - float4.z pjx).

(** [r2 = dx.x * dx.x + dx.y * dx.y + dx.z * dx.z] *)
Definition pair_r2 (dx : float3.t) : R :=
  float3.x dx * float3.x dx + float3.y dx * float3.y dx
  + float3.z dx * float3.z dx.

(** Body of the inner loop of [runner_dopair_left_cuda] and
    [runner_dopair_right_cuda] at entry [k] of [sort_j]; [pix] is already
    shifted and the pair is ([pif], [epot]). *)
Definition runner_dopair_cuda_inner (ind_i ind_j : nat) (spid : nat)
    (pix : float4.t) (pdatai_i : int4.t)
    (parts_pos_j : list float4.t) (parts_datai_j : list int4.t)
    (sort_j : list Z) (acc : list R * R) (k : nat) : list R * R :=
  let '(pif, epot) := acc in
  let pidi := (ind_i + spid)%nat in
  let pioff := (int4.y pdatai_i * Consts.cuda_maxtype g)%nat in
  let flagsi := int4.z pdatai_i in
  let clusterIdi := int4.w pdatai_i in
  let spjd := sort_pid (sort_j !!! k) in
  let pjx := parts_pos_j !!! spjd in
  let dx := pair_dx pix pjx in
  let r2 := pair_r2 dx in
  if Rlt_dec r2 (Consts.cuda_cutoff2 g) then
    let number_density := w_cubic_spline_cuda_nr r2 (Consts.cuda_cutoff g) in
    let pif := <[3%nat := pif !!! 3%nat + number_density]> pif in
    let pdatai_j := parts_datai_j !!! spjd in
    let pjoff := (3 * (pioff + int4.y pdatai_j))%nat in
    let iscluster :=
      flag_set flagsi (ForceConsts.PARTICLE_BOUND fc)
      && flag_set (int4.z pdatai_j) (ForceConsts.PARTICLE_BOUND fc)
      && (clusterIdi =? int4.w pdatai_j)%Z in
    let tab := if iscluster then ForceConsts.cuda_pind_cluster fc
               else ForceConsts.cuda_pind fc in
    let pind := tab !!! pjoff in
    let nr_pots := tab !!! (pjoff + 1)%nat in
    let nr_dpds := tab !!! (pjoff + 2)%nat in
    if Nat.eqb pind 0 then (pif, epot) else
    let ee := 0 in
    let pidj := (ind_j + spjd)%nat in
    let '(ee, pif) :=
      potential_eval_super_ex_cuda iscluster pind nr_pots nr_dpds
        (float4.w pix) (float4.w pjx) pidi pidj dx r2 ee pif in
    (pif, epot + ee)
  else (pif, epot).

(** [runner_dopair_left_cuda] as thread [threadIdx] of a block of
    [blockDim] threads runs it; the pair is ([forces_i], [*epot_global]). *)
Definition runner_dopair_left_cuda (threadIdx blockDim : nat)
    (ind_i count_i ind_j count_j : nat)
    (parts_pos_i : list float4.t) (parts_datai_i : list int4.t)
    (parts_pos_j : list float4.t) (parts_datai_j : list int4.t)
    (forces_i : list R) (sort_i sort_j : list Z)
    (shift : list R) (dshift : Z) (epot_global : R) : list R * R :=
  let epot := 0 in
  let '(forces_i, epot) :=
    for_stride
      (fun '(forces_i, epot) i =>
         let di := sort_key (sort_i !!! i) in
         let spid := sort_pid (sort_i !!! i) in
         let pix := shift_sub shift (parts_pos_i !!! spid) in
         let pdatai_i := parts_datai_i !!! spid in
         let pif := [0; 0; 0; 0] in
         let '(pif, epot) :=
           for_down_while (left_cond g sort_j dshift di)
             (runner_dopair_cuda_inner ind_i ind_j spid pix pdatai_i
                parts_pos_j parts_datai_j sort_j)
             count_j (pif, epot) in
         (add_forces forces_i (4 * spid) pif, epot))
      blockDim count_i count_i threadIdx (forces_i, epot) in
  (forces_i, epot_global + epot).

(** [runner_dopair_right_cuda], same thread *)
Definition runner_dopair_right_cuda (threadIdx blockDim : nat)
    (ind_i count_i ind_j count_j : nat)
    (parts_pos_i : list float4.t) (parts_datai_i : list int4.t)
    (parts_pos_j : list float4.t) (parts_datai_j : list int4.t)
    (forces_i : list R) (sort_i sort_j : list Z)
    (shift : list R) (dshift : Z) (epot_global : R) : list R * R :=
  let epot := 0 in
  let '(forces_i, epot) :=
    for_stride
      (fun '(forces_i, epot) i =>
         let di := sort_key (sort_i !!! i) in
         let spid := sort_pid (sort_i !!! i) in
         let pix := shift_add shift (parts_pos_i !!! spid) in
         let pdatai_i := parts_datai_i !!! spid in
         let pif := [0; 0; 0; 0] in
         let '(pif, epot) :=
           for_up_while (right_cond g sort_j dshift di)
             (runner_dopair_cuda_inner ind_i ind_j spid pix pdatai_i
                parts_pos_j parts_datai_j sort_j)
             count_j count_j (pif, epot) in
         (add_forces forces_i (4 * spid) pif, epot))
      blockDim count_i count_i threadIdx (forces_i, epot) in
  (forces_i, epot_global + epot).

End SelfCode.


(** ** Zero-one model of the bitonic network *)

Definition half_clean (j : nat) (B : nat -> bool) : nat -> bool :=
  fun p => if p mod (2 * j) <? j then B p || B (p + j) else B (p - j) && B p.

Definition mirror (k : nat) (B : nat -> bool) : nat -> bool :=
  fun p =>
    let off := p mod (2 * k) in
    let q := p - off + (2 * k - 1 - off) in
    if off <? k then B p || B q else B q && B p.

Fixpoint half_cleans (m : nat) (B : nat -> bool) : nat -> bool :=
  match m with
  | O => B
  | S m' => half_cleans m' (half_clean (2 ^ m') B)
  end.

Definition stage (m : nat) (B : nat -> bool) : nat -> bool :=
  half_cleans m (mirror (2 ^ m) B).

Definition sorted_block (B : nat -> bool) (base s : nat) : Prop :=
  forall p q, base <= p -> p <= q -> q < base + s -> B q = true -> B p = true.

Definition bitonic_block (B : nat -> bool) (base s : nat) : Prop :=
  exists (lo hi : nat) (v : bool),
    base <= lo /\ lo <= hi /\ hi <= base + s /\
    forall p, base <= p < base + s ->
              B p = if (lo <=? p) && (p <? hi) then v else negb v.

Definition const_block (B : nat -> bool) (base s : nat) (v : bool) : Prop :=
  forall p, base <= p < base + s -> B p = v.



(** ** The sort as a comparator network on zero-one arrays *)

(** A comparator on positions [P < Q]: the larger value goes to [P]. *)
Definition bcs (B : nat -> bool) (P Q : nat) : nat -> bool :=
  fun p => if Nat.eqb p P then B P || B Q
           else if Nat.eqb p Q then B P && B Q else B p.

(** The array [a] of [n] entries seen through the threshold [t] on the
    sort key; positions from [n] on count as below every threshold. *)
Definition bkey (t : Z) (n : nat) (a : list Z) : nat -> bool :=
  fun p => (p <? n)%nat && (t <=? sort_key (a !!! p))%Z.

(** The entries iteration [i] of the first step compares, for block size
    [k]: [ind = i + hi] and [jnd = 2 (hi + k) - lo - 1]. *)
Definition first_P (k i : nat) : nat := (i + k * (i / k))%nat.
Definition first_Q (k i : nat) : nat :=
  (2 * (k * (i / k) + k) - i mod k - 1)%nat.

(** Those of a second step with stride [j]: [ind = i + hi], [jnd = ind + j]. *)
Definition second_Q (j i : nat) : nat := (first_P j i + j)%nat.

(** The iteration that touches position [p]. *)
Definition first_ow (k p : nat) : nat :=
  (k * (p / (2 * k)) +
   (if (p mod (2 * k) <? k)%nat then p mod (2 * k) else 2 * k - 1 - p mod (2 * k)))%nat.
Definition second_ow (j p : nat) : nat :=
  (j * (p / (2 * j)) +
   (if (p mod (2 * j) <? j)%nat then p mod (2 * j) else p mod (2 * j) - j))%nat.

(** What the sort keeps of the array: the length, the entries from [n] on,
    and the entries up to order. *)
Definition sort_keeps (n : nat) (a a' : list Z) : Prop :=
  length a' = length a /\ drop n a' = drop n a /\ a' ≡ₚ a.

(** ** The direction tables *)

(** The table [cuda_shiftn] of the source, its literals rounded to
    [float]: 0.57735025882720947265625 and 0.707106769084930419921875. *)
Definition cuda_shiftn_table : list R :=
  let a := (4843165 / 8388608)%R in
  let b := (11863283 / 16777216)%R in
  [ a;  a;  a;
    b;  b;  0;
    a;  a; -a;
    b;  0;  b;
    1;  0;  0;
    b;  0; -b;
    a; -a;  a;
    b; -b;  0;
    a; -a; -a;
    0;  b;  b;
    0;  1;  0;
    0;  b; -b;
    0;  0;  1 ]%R.

(** The table [cuda_shift] of the source. *)
Definition cuda_shift_table : list R :=
  [ 1;  1;  1;
    1;  1;  0;
    1;  1; -1;
    1;  0;  1;
    1;  0;  0;
    1;  0; -1;
    1; -1;  1;
    1; -1;  0;
    1; -1; -1;
    0;  1;  1;
    0;  1;  0;
    0;  1; -1;
    0;  0;  1 ]%R.

(** ** The smoothing kernel ([w_cubic_spline_cuda], three overloads)

    [M_PI] is the real number pi. *)

Section SmoothingCode.

Local Open Scope R_scope.

(** [w_cubic_spline_cuda(r2, h, &result)]: here [r] is [rsqrt(r2)]. *)
Definition w_cubic_spline_cuda (r2 h : R) : R :=
  let r := / sqrt r2 in
  let x := r / h in
  let y :=
    if Rlt_dec x 1 then
      let x2 := x * x in
      1 - (3 / 2) * x2 + (3 / 4) * x2 * x
    else if Rge_dec x 1 then
      if Rlt_dec x 2 then
        let arg := 2 - x in
        (1 / 4) * arg * arg * arg
      else 0
    else 0 in
  y / (PI * h * h * h).

(** [w_cubic_spline_cuda(r2, h, &result, &_r)]: the pair is ([*result],
    [*_r]). *)
Definition w_cubic_spline_cuda_r (r2 h : R) : R * R :=
  let r := sqrt r2 in
  let x := 1 / (r * h) in
  let y :=
    if Rlt_dec x 1 then
      let x2 := x * x in
      1 - (3 / 2) * x2 + (3 / 4) * x2 * x
    else if Rge_dec x 1 then
      if Rlt_dec x 2 then
        let arg := 2 - x in
        (1 / 4) * arg * arg * arg
      else 0
    else 0 in
  (y / (PI * h * h * h), r).

(** [w_cubic_spline_cuda_nr(r2, h, &result)] *)
Definition w_cubic_spline_cuda_nr (r2 h : R) : R :=
  let r := sqrt r2 in
  let x := 1 / (r * h) in
  let y :=
    if Rlt_dec x 1 then
      let x2 := x * x in
      1 - 1.5 * x2 + 0.75 * x2 * x
    else if Rge_dec x 1 then
      if Rlt_dec x 2 then
        let arg := 2 - x in
        0.25 * arg * arg * arg
      else 0
    else 0 in
  y / (PI * h * h * h).

End SmoothingCode.

(** ** The unchecked potential evaluators ([potential_eval_r_cuda],
    [potential_eval_cuda])

    Of [struct Potential] the evaluators read the arrays [alpha] and [c];
    they are passed as lists. *)

Section PotentialEvalCode.

Local Open Scope R_scope.

(** "compute the potential and its derivative": the loop every evaluator
    runs on the block [c] of its interval; the pair is ([ee], [eff]). *)
Definition potential_horner (chunk : nat) (c : list R) (x : R) : R * R :=
  let ee := c !!! 2%nat * x + c !!! 3%nat in
  let eff := c !!! 2%nat in
  fold_left (fun '(ee, eff) k =>
               let eff := eff * x + ee in
               let ee := ee * x + c !!! k in
               (ee, eff))
            (seq 4 (chunk - 4)) (ee, eff).

(** [cuda::potential_eval_r_cuda(p, r, &e, &f)]: the pair is ([*e], [*f]). *)
Definition potential_eval_r_cuda (K : PotConsts.t) (alpha c : list R) (r : R)
    : R * R :=
  let ind := float2int (Rmax 0 (alpha !!! 0%nat +
                                r * (alpha !!! 1%nat + r * alpha !!! 2%nat))) in
  let c := drop (Z.to_nat ind * PotConsts.potential_chunk K) c in
  let x := (r - c !!! 0%nat) * c !!! 1%nat in
  let '(ee, eff) := potential_horner (PotConsts.potential_chunk K) c x in
  (ee, eff * c !!! 1%nat).

(** [potential_eval_cuda(cuda::PotentialData p, r2, &e, &f)]; the overload
    on [struct Potential *] has the same body. *)
Definition potential_eval_cuda (K : PotConsts.t) (p : PotentialData.t) (r2 : R)
    : R * R :=
  let ir := / sqrt r2 in
  let r := r2 * ir in
  let ind := float2int (Rmax 0
               (float3.x (PotentialData.alpha p) +
                r * (float3.y (PotentialData.alpha p) +
                     r * float3.z (PotentialData.alpha p)))) in
  let c := drop (Z.to_nat ind * PotConsts.potential_chunk K) (PotentialData.c p) in
  let x := (r - c !!! 0%nat) * c !!! 1%nat in
  let '(ee, eff) := potential_horner (PotConsts.potential_chunk K) c x in
  (ee, eff * c !!! 1%nat * ir).

(** The polynomial with coefficients [cs], highest degree first, and its
    derivative. *)
Fixpoint poly (cs : list R) (x : R) : R :=
  match cs with
  | [] => 0
  | a :: cs' => a * x ^ length cs' + poly cs' x
  end.

Fixpoint poly_deriv (cs : list R) (x : R) : R :=
  match cs with
  | [] => 0
  | a :: cs' => a * (INR (length cs') * x ^ Nat.pred (length cs')) + poly_deriv cs' x
  end.

(** The coefficients of a block: entries 2 to [chunk - 1]; entry 0 is the
    centre of the interval and entry 1 the scaling. *)
Definition block_coeffs (chunk : nat) (c : list R) : list R :=
  take (chunk - 2) (drop 2 c).

(** The energy a block stands for, as a function of the distance. *)
Definition block_energy (chunk : nat) (c : list R) (r : R) : R :=
  poly (block_coeffs chunk c) ((r - c !!! 0%nat) * c !!! 1%nat).

End PotentialEvalCode.

(** ** The pair walks without pruning

    References for the early-termination tests: the walks of
    [runner_dopair_left_cuda] and [runner_dopair_right_cuda] with the test
    on the quantized distance removed from the loop condition, so that
    every entry of [sort_j] is tried for every entry of [sort_i].  They are
    not in the source. *)

Section UnprunedWalk.

Local Open Scope R_scope.

Variable g : Consts.t.
Variable fc : ForceConsts.t.
Variable potential_eval_super_ex_cuda :
  bool -> nat -> nat -> nat -> R -> R -> nat -> nat -> float3.t -> R ->
  R -> list R -> R * list R.
Variable w_cubic_spline_nr : R -> R -> R.

Definition runner_dopair_left_cuda_unpruned (threadIdx blockDim : nat)
    (ind_i count_i ind_j count_j : nat)
    (parts_pos_i : list float4.t) (parts_datai_i : list int4.t)
    (parts_pos_j : list float4.t) (parts_datai_j : list int4.t)
    (forces_i : list R) (sort_i sort_j : list Z)
    (shift : list R) (epot_global : R) : list R * R :=
  let epot := 0 in
  let '(forces_i, epot) :=
    for_stride
      (fun '(forces_i, epot) i =>
         let spid := sort_pid (sort_i !!! i) in
         let pix := shift_sub shift (parts_pos_i !!! spid) in
         let pdatai_i := parts_datai_i !!! spid in
         let pif := [0; 0; 0; 0] in
         let '(pif, epot) :=
           for_down_while (fun _ => true)
             (runner_dopair_cuda_inner g fc potential_eval_super_ex_cuda
                w_cubic_spline_nr ind_i ind_j spid pix pdatai_i
                parts_pos_j parts_datai_j sort_j)
             count_j (pif, epot) in
         (add_forces forces_i (4 * spid) pif, epot))
      blockDim count_i count_i threadIdx (forces_i, epot) in
  (forces_i, epot_global + epot).

Definition runner_dopair_right_cuda_unpruned (threadIdx blockDim : nat)
    (ind_i count_i ind_j count_j : nat)
    (parts_pos_i : list float4.t) (parts_datai_i : list int4.t)
    (parts_pos_j : list float4.t) (parts_datai_j : list int4.t)
    (forces_i : list R) (sort_i sort_j : list Z)
    (shift : list R) (epot_global : R) : list R * R :=
  let epot := 0 in
  let '(forces_i, epot) :=
    for_stride
      (fun '(forces_i, epot) i =>
         let spid := sort_pid (sort_i !!! i) in
         let pix := shift_add shift (parts_pos_i !!! spid) in
         let pdatai_i := parts_datai_i !!! spid in
         let pif := [0; 0; 0; 0] in
         let '(pif, epot) :=
           for_up_while (fun _ => true)
             (runner_dopair_cuda_inner g fc potential_eval_super_ex_cuda
                w_cubic_spline_nr ind_i ind_j spid pix pdatai_i
                parts_pos_j parts_datai_j sort_j)
             count_j count_j (pif, epot) in
         (add_forces forces_i (4 * spid) pif, epot))
      blockDim count_i count_i threadIdx (forces_i, epot) in
  (forces_i, epot_global + epot).

End UnprunedWalk.

(** ** What a sorted list is

    [l] is a sorted list of the cell whose particles are [parts_pos] for
    direction [sid]: a permutation of the entries [runner_dosort_cuda]
    packs, in descending order of the key. *)

Definition sorted_list (g : Consts.t) (parts_pos : list float4.t) (count sid : nat)
    (l : list Z) : Prop :=
  l ≡ₚ map (sort_pack g (sort_nshift g sid)
              [Consts.cuda_shiftn g !!! (3 * sid + 0)%nat;
               Consts.cuda_shiftn g !!! (3 * sid + 1)%nat;
               Consts.cuda_shiftn g !!! (3 * sid + 2)%nat] parts_pos)
           (seq 0 count) /\
  forall p q, (p <= q)%nat -> (q < count)%nat ->
              (sort_key (l !!! q) <= sort_key (l !!! p))%Z.

(** ** Host side: packing the particles ([engine_cuda_load_parts]) *)

Module Particle.
(** the fields of [TissueForge::Particle] the runner reads and writes *)
Record t : Type := mk {
    x : list R;
    v : list R;
    f : list R;
    radius : R;
    id : Z;
    typeId : nat;
    flags : Z;
    clusterId : Z
  }.
End Particle.

Module space_cell.
Record t : Type := mk { count : nat; parts : list Particle.t }.
End space_cell.

Module space.
Record t : Type := mk {
    nr_cells : nat;
    nr_marked : nat;
    cid_marked : list nat;
    cells : list space_cell.t;
    cutoff : R;
    maxdx : R;
    epot : R
  }.
End space.

#[global] Instance Particle_inhabited : Inhabited Particle.t :=
  populate (Particle.mk [] [] [] 0 0 0 0 0).
#[global] Instance space_cell_inhabited : Inhabited space_cell.t :=
  populate (space_cell.mk 0 []).

Module HostParts.
(** the host-side staging buffers of the engine *)
Record t : Type := mk {
    parts_pos_cuda_local : list float4.t;
    parts_vel_cuda_local : list float3.t;
    parts_datai_cuda_local : list int4.t
  }.
End HostParts.

Module Loaded.
(** what [engine_cuda_load_parts] leaves for the devices *)
Record t : Type := mk {
    counts : list nat;
    inds : list nat;
    maxcount : Z;
    host : HostParts.t;
    maxdist : R
  }.
End Loaded.

(** "Load the counts": [counts] is cleared, then every marked cell stores
    its count; [maxcount] follows the largest count stored. *)
Definition load_counts (s : space.t) : list nat * Z :=
  fold_left (fun '(counts, maxcount) k =>
               let cid := space.cid_marked s !!! k in
               let c := space_cell.count (space.cells s !!! cid) in
               (<[cid := c]> counts,
                if (maxcount <? Z.of_nat c)%Z then Z.of_nat c else maxcount))
            (seq 0 (space.nr_marked s))
            (replicate (space.nr_cells s) 0%nat, 0%Z).

(** [(maxcount + (cuda_frame - 1)) & ~(cuda_frame - 1)] *)
Definition raise_maxcount (cuda_frame maxcount : Z) : Z :=
  Z.land (maxcount + (cuda_frame - 1)) (Z.lnot (cuda_frame - 1)).

(** "Compute the indices": [inds[0] = 0], then
    [inds[k] = inds[k-1] + counts[k-1]] for [k = 1 .. n-1]. *)
Definition load_inds (n : nat) (counts inds : list nat) : list nat :=
  fold_left (fun inds k =>
               <[k := (inds !!! (k - 1)%nat + counts !!! (k - 1)%nat)%nat]> inds)
            (seq 1 (n - 1)) (<[0%nat := 0%nat]> inds).

(** The number of slots the cells before cell [c] take. *)
Fixpoint before (counts : list nat) (c : nat) : nat :=
  match c with
  | O => 0%nat
  | S c' => (before counts c' + counts !!! c')%nat
  end.

(** The body of [func_alloc_marked] for the cell [cid]. *)
Definition load_cell (s : space.t) (counts inds : list nat)
    (b : HostParts.t) (cid : nat) : HostParts.t :=
  fold_left (fun b pid =>
               let part := space_cell.parts (space.cells s !!! cid) !!! pid in
               let slot := (inds !!! cid + pid)%nat in
               HostParts.mk
                 (<[slot := float4.mk (Particle.x part !!! 0%nat)
                                      (Particle.x part !!! 1%nat)
                                      (Particle.x part !!! 2%nat)
                                      (Particle.radius part)]>
                    (HostParts.parts_pos_cuda_local b))
                 (<[slot := float3.mk (Particle.v part !!! 0%nat)
                                      (Particle.v part !!! 1%nat)
                                      (Particle.v part !!! 2%nat)]>
                    (HostParts.parts_vel_cuda_local b))
                 (<[slot := int4.mk (Particle.id part) (Particle.typeId part)
                                    (Particle.flags part) (Particle.clusterId part)]>
                    (HostParts.parts_datai_cuda_local b)))
            (seq 0 (counts !!! cid)) b.

(** [engine_cuda_load_parts], host side.  [cuda_frame] is a constant of a
    header.  [parallel_for] runs the calls of [func_alloc_marked] in an
    order of its own, here the list [order] of the indices [k] into
    [cid_marked]; [inds0] and [b0] are the buffers as the call finds
    them. *)
Definition engine_cuda_load_parts (cuda_frame : Z) (order : list nat)
    (s : space.t) (inds0 : list nat) (b0 : HostParts.t) : Loaded.t :=
  let '(counts, maxcount) := load_counts s in
  let maxcount := raise_maxcount cuda_frame maxcount in
  let inds := load_inds (space.nr_cells s) counts inds0 in
  let b := fold_left (fun b k => load_cell s counts inds b (space.cid_marked s !!! k))
                     order b0 in
  Loaded.mk counts inds maxcount b (space.cutoff s + 2 * space.maxdx s)%R.

(** [engine_cuda_unload_parts] for one device: the potential energy of the
    device is added to that of the space, and every particle of a marked
    cell receives the four force entries of its slot. *)
Definition unload_part (buff : list R) (pid : nat) (p : Particle.t) : Particle.t :=
  Particle.mk (Particle.x p) (Particle.v p)
              (fold_left (fun f c => <[c := (f !!! c + buff !!! (4 * pid + c)%nat)%R]> f)
                         (seq 0 4) (Particle.f p))
              (Particle.radius p) (Particle.id p) (Particle.typeId p)
              (Particle.flags p) (Particle.clusterId p).

Definition unload_cell (forces_cuda : list R) (ind_cuda_local : list nat)
    (cells : list space_cell.t) (cid : nat) : list space_cell.t :=
  let buff := drop (4 * ind_cuda_local !!! cid) forces_cuda in
  let cell := cells !!! cid in
  <[cid := space_cell.mk (space_cell.count cell)
             (fold_left (fun parts pid =>
                           <[pid := unload_part buff pid (parts !!! pid)]> parts)
                        (seq 0 (space_cell.count cell)) (space_cell.parts cell))]>
    cells.

Definition engine_cuda_unload_parts (forces_cuda : list R) (cuda_epot : R)
    (ind_cuda_local : list nat) (s : space.t) : space.t :=
  space.mk (space.nr_cells s) (space.nr_marked s) (space.cid_marked s)
           (fold_left (fun cells k =>
                         unload_cell forces_cuda ind_cuda_local cells
                                     (space.cid_marked s !!! k))
                      (seq 0 (space.nr_marked s)) (space.cells s))
           (space.cutoff s) (space.maxdx s) (space.epot s + cuda_epot)%R.

(** ** Host side: the cell-pair lists ([engine_cuda_load]) *)

Module int2.
Record t : Type := mk { x : Z; y : Z }.
End int2.

#[global] Instance int2_inhabited : Inhabited int2.t := populate (int2.mk 0 0).

Module task_cuda.
(** the fields of [struct task_cuda] the cell-pair lists are built from *)
Record t : Type := mk { type : Z; flags : Z; i : Z; j : Z }.
End task_cuda.

Module CellPairs.
(** [cellpair_list_*], [cellpair_ind_*], [cellpair_count_*] of one side *)
Record t : Type := mk {
    cellpair_list : list int2.t;
    cellpair_ind : list nat;
    cellpair_count : list nat
  }.
End CellPairs.

(** [m[key].push_back(v)] on a [std::unordered_map<int, std::vector<int2>>]:
    a missing key starts from the empty vector. *)
Definition map_push_back (m : gmap Z (list int2.t)) (key : Z) (v : int2.t) :
    gmap Z (list int2.t) :=
  <[key := default [] (m !! key) ++ [v]]> m.

(** The loop that fills [cellpair_map_left] and [cellpair_map_right];
    [tasks_cuda] holds the [nr_tasks] tasks selected for the device, and
    [task_type_pair] is a constant of a header. *)
Definition cellpair_maps (task_type_pair : Z) (tasks_cuda : list task_cuda.t) :
    gmap Z (list int2.t) * gmap Z (list int2.t) :=
  fold_left (fun '(map_left, map_right) t =>
               if (task_cuda.type t =? task_type_pair)%Z then
                 (map_push_back map_left (task_cuda.i t)
                                (int2.mk (task_cuda.j t) (task_cuda.flags t)),
                  map_push_back map_right (task_cuda.j t)
                                (int2.mk (task_cuda.i t) (task_cuda.flags t)))
               else (map_left, map_right))
            tasks_cuda (∅, ∅).

(** The loop over the cells that lays one map out as a list with the
    offset and the length of the part of every cell. *)
Definition cellpair_lists (m : gmap Z (list int2.t)) (nr_cells : nat) : CellPairs.t :=
  fold_left (fun r i =>
               let cp := match m !! Z.of_nat i with
                         | None => []
                         | Some v => v
                         end in
               CellPairs.mk (CellPairs.cellpair_list r ++ cp)
                            (CellPairs.cellpair_ind r ++ [length (CellPairs.cellpair_list r)])
                            (CellPairs.cellpair_count r ++ [length cp]))
            (seq 0 nr_cells) (CellPairs.mk [] [] []).

Definition cellpairs_left (task_type_pair : Z) (tasks_cuda : list task_cuda.t)
    (nr_cells : nat) : CellPairs.t :=
  cellpair_lists (cellpair_maps task_type_pair tasks_cuda).1 nr_cells.

Definition cellpairs_right (task_type_pair : Z) (tasks_cuda : list task_cuda.t)
    (nr_cells : nat) : CellPairs.t :=
  cellpair_lists (cellpair_maps task_type_pair tasks_cuda).2 nr_cells.

(** The entries [cellpair_list[0 .. cellpair_count[cid]-1]] a pair kernel
    reads for the cell [cid], with [cellpair_list = &list[cellpair_ind[cid]]]. *)
Definition cellpairs_of (r : CellPairs.t) (cid : nat) : list int2.t :=
  take (CellPairs.cellpair_count r !!! cid) (drop (CellPairs.cellpair_ind r !!! cid) (CellPairs.cellpair_list r)).

(** ** Host side: the constants [engine_cuda_load] sets *)

Section LoadConsts.

Local Open Scope R_scope.

(** [SHRT_MAX] of [<climits>] *)
Definition SHRT_MAX : Z := 32767.

(** [h[k] = s->h[k] * s->span[k]], copied to [cuda_h] *)
Definition engine_cuda_load_h (h : list R) (span : list Z) : list R :=
  [h !!! 0%nat * IZR (span !!! 0%nat);
   h !!! 1%nat * IZR (span !!! 1%nat);
   h !!! 2%nat * IZR (span !!! 2%nat)].

(** [dscale = SHRT_MAX / (3.0 * sqrt(h0*h0*span0*span0 + ...))] *)
Definition engine_cuda_load_dscale (h : list R) (span : list Z) : R :=
  IZR SHRT_MAX /
  (3 * sqrt (h !!! 0%nat * h !!! 0%nat * IZR (span !!! 0%nat) * IZR (span !!! 0%nat)
             + h !!! 1%nat * h !!! 1%nat * IZR (span !!! 1%nat) * IZR (span !!! 1%nat)
             + h !!! 2%nat * h !!! 2%nat * IZR (span !!! 2%nat) * IZR (span !!! 2%nat))).

(** [dmaxdist = 2 + dscale * cutoff], an [unsigned int] *)
Definition engine_cuda_load_dmaxdist (dscale cutoff : R) : Z :=
  float2uint (2 + dscale * cutoff).

End LoadConsts.

(** ** The flux walks without pruning

    The same references for [runner_dopair_state_left_cuda] and
    [runner_dopair_state_right_cuda]; they are not in the source either. *)

Section UnprunedStateWalk.

Local Open Scope R_scope.

Variable g : Consts.t.

Definition runner_dopair_state_left_cuda_unpruned
    (states_i : list R) (count_i : nat) (states_j : list R) (count_j : nat)
    (parts_pos_i : list float4.t) (parts_datai_i : list int4.t)
    (parts_pos_j : list float4.t) (parts_datai_j : list int4.t)
    (fluxes_i : list R) (sort_i sort_j : list Z)
    (shift : list R) (nr_states : nat) : list R :=
  fold_left
    (fun fluxes_i i =>
       let spid := sort_pid (sort_i !!! i) in
       let pix := parts_pos_i !!! spid in
       let pix := float4.mk (float4.x pix - shift !!! 0%nat)
                            (float4.y pix - shift !!! 1%nat)
                            (float4.z pix - shift !!! 2%nat) (float4.w pix) in
       let typeIdi := int4.y (parts_datai_i !!! spid) in
       let pis := drop (nr_states * spid) states_i in
       let pifx :=
         for_down_while (fun _ => true)
           (runner_dopair_state_cuda_inner g pis states_j pix typeIdi
              parts_pos_j parts_datai_j sort_j nr_states)
           count_j (replicate nr_states 0) in
       add_fluxes fluxes_i (nr_states * spid) nr_states pifx)
    (seq 0 count_i) fluxes_i.

Definition runner_dopair_state_right_cuda_unpruned
    (states_i : list R) (count_i : nat) (states_j : list R) (count_j : nat)
    (parts_pos_i : list float4.t) (parts_datai_i : list int4.t)
    (parts_pos_j : list float4.t) (parts_datai_j : list int4.t)
    (fluxes_i : list R) (sort_i sort_j : list Z)
    (shift : list R) (nr_states : nat) : list R :=
  fold_left
    (fun fluxes_i i =>
       let spid := sort_pid (sort_i !!! i) in
       let pix := parts_pos_i !!! spid in
       let pix := float4.mk (float4.x pix + shift !!! 0%nat)
                            (float4.y pix + shift !!! 1%nat)
                            (float4.z pix + shift !!! 2%nat) (float4.w pix) in
       let typeIdi := int4.y (parts_datai_i !!! spid) in
       let pis := drop (nr_states * spid) states_i in
       let pifx :=
         for_up_while (fun _ => true)
           (runner_dopair_state_cuda_inner g pis states_j pix typeIdi
              parts_pos_j parts_datai_j sort_j nr_states)
           count_j count_j (replicate nr_states 0) in
       add_fluxes fluxes_i (nr_states * spid) nr_states pifx)
    (seq 0 count_i) fluxes_i.

End UnprunedStateWalk.

(** ** One intermediate flux round on the device buffers

    The effect of the four launches of a round of the sub-step loop of
    [engine_nonbond_cuda] ([runner_run_cuda_do_self_fluxonly_kernel],
    [runner_run_cuda_do_pair_left_fluxonly_kernel],
    [runner_run_cuda_do_pair_right_fluxonly_kernel],
    [runner_run_cuda_integrate_state_kernel]) written as one function of
    the buffers. *)

Section SubStepCode.

Local Open Scope R_scope.

Variable g : Consts.t.
Variable SPECIES_KONSTANT : Z.
Variable input : DeviceIn.t.

(** What the three flux-only kernels, launched one after the other, leave
    in the flux accumulators of the buffers [b]. *)
Definition substep_fluxes (nr_states : nat) (b : Device.t) : list R :=
  runner_run_cuda_do_pair_right_fluxonly_kernel g
    (DeviceIn.cuda_parts_pos input) (DeviceIn.cuda_parts_datai input)
    (Device.part_states_cuda b) (Device.cuda_sortlists b)
    (runner_run_cuda_do_pair_left_fluxonly_kernel g
       (DeviceIn.cuda_parts_pos input) (DeviceIn.cuda_parts_datai input)
       (Device.part_states_cuda b) (Device.cuda_sortlists b)
       (runner_run_cuda_do_self_fluxonly_kernel g
          (DeviceIn.cuda_parts_pos input) (DeviceIn.cuda_parts_datai input)
          (Device.part_states_cuda b) (Device.fluxes_next_cuda b) nr_states
          (DeviceIn.counts_cuda input) (DeviceIn.ind_cuda input))
       nr_states (DeviceIn.counts_cuda input) (DeviceIn.ind_cuda input))
    nr_states (DeviceIn.counts_cuda input) (DeviceIn.ind_cuda input).

(** The buffers after one intermediate round. *)
Definition substep (nr_states nr_parts : nat) (dt_flux : R) (b : Device.t)
    : Device.t :=
  let r := runner_run_cuda_integrate_state_kernel SPECIES_KONSTANT
             (Device.part_states_cuda b) (substep_fluxes nr_states b)
             (DeviceIn.part_species_flags_cuda input)
             (nr_states * nr_parts) dt_flux in
  Device.mk (Device.forces_cuda b) r.2 r.1
            (Device.cuda_sortlists b) (Device.cuda_epot b).

End SubStepCode.

(** * Theorems *)

Section FluxFacts.

Local Open Scope R_scope.

Lemma integrate_state_fold (K : Z) (flags : list Z) (dt : R) (n : nat) :
  forall (start : nat) (st fl : list R),
    (start + n <= length st)%nat -> (start + n <= length fl)%nat ->
    let r := fold_left (integrate_state_iter K flags dt) (seq start n) (st, fl) in
    length r.1 = length st /\ length r.2 = length fl /\
    forall i : nat,
      ((start <= i < start + n)%nat ->
         r.1 !!! i = st !!! i + dt * (fl !!! i * (1 - IZR (Z.land (flags !!! i) K)))
         /\ r.2 !!! i = 0) /\
      (~ (start <= i < start + n)%nat -> r.1 !!! i = st !!! i /\ r.2 !!! i = fl !!! i).
Proof.
  induction n as [|n IH]; intros start st fl Hst Hfl; cbn zeta.
  - simpl. repeat split; try lia; reflexivity.
  - simpl seq. simpl fold_left. unfold integrate_state_iter at 2.
    specialize (IH (S start) (<[start := st !!! start + dt * (fl !!! start * (1 - IZR (Z.land (flags !!! start) K)))]> st)
                   (<[start := 0]> fl)).
    cbn zeta in IH. rewrite !length_insert in IH.
    destruct IH as (L1 & L2 & IH); [lia | lia |].
    split; [exact L1 | split; [exact L2 |]].
    intros i. destruct (IH i) as [Hin Hout]. split.
    + intros Hi. destruct (decide (i = start)) as [->|Hne].
      * destruct Hout as [E1 E2]; [lia |]. rewrite E1, E2.
        rewrite !list_lookup_total_insert_eq by lia. split; reflexivity.
      * destruct Hin as [E1 E2]; [lia |]. rewrite E1, E2.
        rewrite !list_lookup_total_insert_ne by congruence. split; reflexivity.
    + intros Hi. destruct Hout as [E1 E2]; [lia |]. rewrite E1, E2.
      rewrite !list_lookup_total_insert_ne by lia. split; reflexivity.
Qed.


End FluxFacts.



Section FluxEvalFacts.

Local Open Scope R_scope.

Lemma fold_left_ext_seq {A : Type} (f h : A -> nat -> A) (l : list nat) (a : A) :
  (forall x i, f x i = h x i) -> fold_left f l a = fold_left h l a.
Proof.
  intros E. revert a. induction l as [|i l IH]; intros a; simpl; [reflexivity |].
  rewrite E. apply IH.
Qed.

(** The code's rate helpers against the rate in the specification's words,
    for an initial [*result] of [q0]. *)
Lemma flux_kind_cuda_rate (flux : Flux.t) (i : nat) (si sj q0 : R) :
  flux_kind_cuda flux i si sj q0 =
  q0 * spec_flux_rate (Flux.kinds flux !!! i) (Flux.coef flux !!! i)
                      (Flux.target flux !!! i) si sj.
Proof.
  unfold flux_kind_cuda, spec_flux_rate.
  destruct (Flux.kinds flux !!! i).
  - reflexivity.
  - unfold flux_secrete_cuda. cbn zeta.
    destruct (Rgt_dec _ 0), (Rle_dec _ 0); try lra.
  - unfold flux_uptake_cuda. cbn zeta.
    destruct (Rgt_dec _ 0), (Rle_dec _ 0); try lra.
Qed.

(** C4.  For every term [i] of the flux table, the one-sided evaluator
    adds to the accumulator of particle i the exchanged quantity
    [(1 - r/cutoff)^2 * rate] of the specification (Fick, Secrete or
    Uptake; negated on the side whose type is the term's first type)
    minus the decay part [0.5 * decay * own concentration]. *)
Theorem flux_eval_exchanged (g : Consts.t) (fluxes : Fluxes.t) (r : R)
    (states_i states_j : list R) (type_i type_j : nat) (qvec_i : list R) :
  flux_eval_ex_cuda g fluxes r states_i states_j type_i type_j qvec_i =
  let flux := Fluxes.fluxes fluxes !!! 0%nat in
  fold_left
    (fun qvec_i i =>
       let a_side := Nat.eqb type_i (TypeIdPair.a (Flux.type_ids flux !!! i)) in
       let ci := (if a_side then states_i else states_j) !!! (Flux.indices_a flux !!! i) in
       let cj := (if a_side then states_j else states_i) !!! (Flux.indices_b flux !!! i) in
       let exchanged :=
         spec_flux_exchanged (Consts.cuda_cutoff g) r (Flux.kinds flux !!! i)
           (Flux.coef flux !!! i) (Flux.target flux !!! i) ci cj in
       let qind := if a_side then Flux.indices_a flux !!! i
                   else Flux.indices_b flux !!! i in
       <[qind := qvec_i !!! qind +
                 ((if a_side then - exchanged else exchanged)
                  - 0.5 * Flux.decay_coef flux !!! i * states_i !!! qind)]> qvec_i)
    (seq 0 (Flux.size flux)) qvec_i.
Proof.
  unfold flux_eval_ex_cuda. cbn zeta.
  apply fold_left_ext_seq. intros qv i.
  unfold flux_eval_ex_cuda_iter, spec_flux_exchanged.
  destruct (Nat.eqb type_i _); cbn zeta; rewrite flux_kind_cuda_rate;
    f_equal; ring.
Qed.

End FluxEvalFacts.

Section FluxDecayFacts.

Local Open Scope R_scope.

Lemma Rsum_app (l1 l2 : list R) : Rsum (l1 ++ l2) = Rsum l1 + Rsum l2.
Proof.
  unfold Rsum. induction l1 as [|v l1 IH]; simpl; [ring | rewrite IH; ring].
Qed.


(** One partner [k] of the self loop, for a cell whose particles all have
    type [ty] and a one-term flux table on species [s]. *)
Lemma runner_doself_state_cuda_inner_one (g : Consts.t) (states : list R)
    (parts_pos : list float4.t) (parts_datai : list int4.t)
    (nr_states i k ty fx s : nat) (pjfx : list R) :
  let flux := Fluxes.fluxes (Consts.cuda_fluxes g !!! fx) !!! 0%nat in
  int4.y (parts_datai !!! i) = ty -> int4.y (parts_datai !!! k) = ty ->
  Consts.cuda_fxind g !!! (ty * Consts.cuda_maxtype g + ty)%nat = fx ->
  fx <> 0%nat ->
  Flux.size flux = 1%nat ->
  TypeIdPair.a (Flux.type_ids flux !!! 0%nat) = ty ->
  Flux.indices_a flux !!! 0%nat = s ->
  i <> k ->
  ~ dist2 (parts_pos !!! k) (parts_pos !!! i) >= Consts.cuda_cutoff2 g ->
  runner_doself_state_cuda_inner g states parts_pos parts_datai nr_states i pjfx k =
  <[s := pjfx !!! s +
         (- spec_flux_exchanged (Consts.cuda_cutoff g)
              (sqrt (dist2 (parts_pos !!! k) (parts_pos !!! i)))
              (Flux.kinds flux !!! 0%nat) (Flux.coef flux !!! 0%nat)
              (Flux.target flux !!! 0%nat)
              (states !!! (nr_states * i + s)%nat)
              (states !!! (nr_states * k + Flux.indices_b flux !!! 0%nat)%nat)
          - 0.5 * Flux.decay_coef flux !!! 0%nat * states !!! (nr_states * i + s)%nat)]>
    pjfx.
Proof.
  intros flux Hti Htk Hfx Hne Hsize Ha Hia Hik Hr.
  unfold runner_doself_state_cuda_inner.
  destruct (Nat.eqb_spec i k) as [|_]; [contradiction |].
  destruct (Rge_dec _ _) as [|_]; [contradiction |].
  rewrite Hti, Htk, Hfx.
  destruct (Nat.eqb_spec fx 0) as [|_]; [contradiction |].
  unfold flux_eval_ex_cuda. fold flux. rewrite Hsize. simpl fold_left.
  unfold flux_eval_ex_cuda_iter. rewrite Ha, Nat.eqb_refl, Hia.
  rewrite flux_kind_cuda_rate, !lookup_total_drop.
  unfold spec_flux_exchanged. f_equal. ring.
Qed.

Lemma runner_doself_state_cuda_pjfx_prefix (g : Consts.t) (states : list R)
    (parts_pos : list float4.t) (parts_datai : list int4.t)
    (nr_states count i ty fx s : nat) :
  let flux := Fluxes.fluxes (Consts.cuda_fluxes g !!! fx) !!! 0%nat in
  let exchanged k :=
    spec_flux_exchanged (Consts.cuda_cutoff g)
      (sqrt (dist2 (parts_pos !!! k) (parts_pos !!! i)))
      (Flux.kinds flux !!! 0%nat) (Flux.coef flux !!! 0%nat)
      (Flux.target flux !!! 0%nat)
      (states !!! (nr_states * i + s)%nat)
      (states !!! (nr_states * k + Flux.indices_b flux !!! 0%nat)%nat) in
  (forall k, (k < count)%nat -> int4.y (parts_datai !!! k) = ty) ->
  Consts.cuda_fxind g !!! (ty * Consts.cuda_maxtype g + ty)%nat = fx ->
  fx <> 0%nat ->
  Flux.size flux = 1%nat ->
  TypeIdPair.a (Flux.type_ids flux !!! 0%nat) = ty ->
  Flux.indices_a flux !!! 0%nat = s ->
  (s < nr_states)%nat -> (i < count)%nat ->
  forall n, (n <= count)%nat ->
    let nbrs := self_neighbors g parts_pos n i in
    exists v,
      fold_left (runner_doself_state_cuda_inner g states parts_pos parts_datai
                                                nr_states i)
                (seq 0 n) (replicate nr_states 0)
      = <[s := v]> (replicate nr_states 0) /\
      v = - Rsum (map exchanged nbrs)
          - INR (length nbrs) *
            (0.5 * Flux.decay_coef flux !!! 0%nat * states !!! (nr_states * i + s)%nat).
Proof.
  intros flux exchanged Hty Hfx Hne Hsize Ha Hia Hs Hi.
  induction n as [|n IH]; intros Hn nbrs.
  - exists 0. split.
    + simpl. symmetry. apply list_insert_id. apply lookup_replicate_2. exact Hs.
    + subst nbrs. unfold self_neighbors. simpl. ring.
  - destruct IH as (v & Hfold & Hv); [lia |].
    subst nbrs. unfold self_neighbors in *.
    rewrite seq_S, fold_left_app, List.filter_app, map_app, Rsum_app, length_app,
      plus_INR. rewrite Hfold. simpl fold_left. simpl List.filter.
    destruct (Nat.eqb_spec i n) as [Hin|Hin]; cbn [negb andb].
    + exists v. split.
      * unfold runner_doself_state_cuda_inner. rewrite <- Hin, Nat.eqb_refl.
        reflexivity.
      * rewrite Hv. simpl. ring.
    + destruct (Rge_dec _ _) as [Hr|Hr].
      * exists v. split.
        -- unfold runner_doself_state_cuda_inner.
           destruct (Nat.eqb_spec i n); [contradiction |].
           destruct (Rge_dec _ _); [reflexivity | contradiction].
        -- rewrite Hv. simpl. ring.
      * eexists. split.
        -- rewrite (runner_doself_state_cuda_inner_one g states parts_pos parts_datai
                      nr_states i n ty fx s); auto; try (apply Hty; lia).
           rewrite list_insert_insert_eq.
           rewrite list_lookup_total_insert_eq by (rewrite length_replicate; lia).
           reflexivity.
        -- rewrite Hv. fold flux. unfold exchanged. simpl. ring.
Qed.


End FluxDecayFacts.



Definition ex_pos3 : list float4.t :=
  [float4.mk 0 0 0 1; float4.mk 1 0 0 1; float4.mk 5 0 0 1].

Definition ex_datai3 : list int4.t :=
  [int4.mk 0 0 0 0; int4.mk 1 0 0 0; int4.mk 2 0 0 0].


Section AddFluxes.

Local Open Scope R_scope.

Lemma add_fluxes_fold (base : nat) (pj : list R) (m : nat) :
  forall (start : nat) (fl : list R),
    (base + start + m <= length fl)%nat ->
    let r := fold_left
               (fun fl k => <[(base + k)%nat := fl !!! (base + k)%nat + pj !!! k]> fl)
               (seq start m) fl in
    length r = length fl /\
    forall j : nat,
      r !!! j = if decide (base + start <= j < base + start + m)%nat
                then fl !!! j + pj !!! (j - base)%nat else fl !!! j.
Proof.
  induction m as [|m IH]; intros start fl Hlen; cbn zeta.
  - simpl. split; [reflexivity |]. intros j.
    destruct (decide _); [lia | reflexivity].
  - simpl seq. simpl fold_left.
    specialize (IH (S start)
                   (<[(base + start)%nat :=
                        fl !!! (base + start)%nat + pj !!! start]> fl)).
    cbn zeta in IH. rewrite length_insert in IH.
    destruct IH as [L IH]; [lia |]. split; [exact L |].
    intros j. rewrite IH.
    destruct (decide (base + S start <= j < base + S start + m)%nat),
             (decide (base + start <= j < base + start + S m)%nat); try lia.
    + rewrite list_lookup_total_insert_ne by lia. reflexivity.
    + assert (j = (base + start)%nat) as -> by lia.
      rewrite list_lookup_total_insert_eq by lia.
      replace (base + start - base)%nat with start by lia. reflexivity.
    + rewrite list_lookup_total_insert_ne by lia. reflexivity.
Qed.

Lemma add_fluxes_length (fl : list R) (base n : nat) (pj : list R) :
  (base + n <= length fl)%nat -> length (add_fluxes fl base n pj) = length fl.
Proof.
  intros H. unfold add_fluxes.
  apply (add_fluxes_fold base pj n 0 fl). lia.
Qed.

Lemma add_fluxes_lookup (fl : list R) (base n : nat) (pj : list R) (j : nat) :
  (base + n <= length fl)%nat ->
  add_fluxes fl base n pj !!! j =
  if decide (base <= j < base + n)%nat then fl !!! j + pj !!! (j - base)%nat
  else fl !!! j.
Proof.
  intros H. unfold add_fluxes.
  destruct (add_fluxes_fold base pj n 0 fl) as [_ E]; [lia |].
  rewrite E. destruct (decide _), (decide _); try lia; reflexivity.
Qed.

Lemma cuda_memset_float_fold (val : R) (m : nat) :
  forall (start : nat) (data : list R),
    (start + m <= length data)%nat ->
    let r := fold_left (fun data k => <[k := val]> data) (seq start m) data in
    length r = length data /\
    forall j : nat,
      r !!! j = if decide (start <= j < start + m)%nat then val else data !!! j.
Proof.
  induction m as [|m IH]; intros start data Hlen; cbn zeta.
  - simpl. split; [reflexivity |]. intros j. destruct (decide _); [lia | reflexivity].
  - simpl seq. simpl fold_left.
    specialize (IH (S start) (<[start := val]> data)).
    cbn zeta in IH. rewrite length_insert in IH.
    destruct IH as [L IH]; [lia |]. split; [exact L |].
    intros j. rewrite IH.
    destruct (decide (S start <= j < S start + m)%nat),
             (decide (start <= j < start + S m)%nat); try lia; try reflexivity.
    + assert (j = start) as -> by lia.
      rewrite list_lookup_total_insert_eq by lia. reflexivity.
    + rewrite list_lookup_total_insert_ne by lia. reflexivity.
Qed.

Lemma dist2_sym (p q : float4.t) : dist2 p q = dist2 q p.
Proof. unfold dist2. ring. Qed.

End AddFluxes.

Section TwoParticleFick.

Local Open Scope R_scope.

Variable g : Consts.t.
Variable K : Z.
Variable input : DeviceIn.t.
Variables self_forces pair_left_forces pair_right_forces : Device.t -> list R * R.
Variables n t0 t1 fx ia ib : nat.

(** One cell holding the two particles, no cell pairs. *)
Hypothesis Hcells : Consts.cuda_nr_cells g = 1%nat.
Hypothesis Hind : DeviceIn.ind_cuda input !!! 0%nat = 0%nat.
Hypothesis Hcount : DeviceIn.counts_cuda input !!! 0%nat = 2%nat.
Hypothesis Hleft : Consts.cuda_cellpair_count_left g !!! 0%nat = 0%nat.
Hypothesis Hright : Consts.cuda_cellpair_count_right g !!! 0%nat = 0%nat.
(** Their types, and the flux table of the type pair in both orders: one
    Fick term without decay between species [ia] of type [t0] and species
    [ib] of type [t1]. *)
Hypothesis Ht0 : int4.y (DeviceIn.cuda_parts_datai input !!! 0%nat) = t0.
Hypothesis Ht1 : int4.y (DeviceIn.cuda_parts_datai input !!! 1%nat) = t1.
Hypothesis Hfx01 :
  Consts.cuda_fxind g !!! (t0 * Consts.cuda_maxtype g + t1)%nat = fx.
Hypothesis Hfx10 :
  Consts.cuda_fxind g !!! (t1 * Consts.cuda_maxtype g + t0)%nat = fx.
Hypothesis Hsize :
  Flux.size (Fluxes.fluxes (Consts.cuda_fluxes g !!! fx) !!! 0%nat) = 1%nat.
Hypothesis Hkind :
  Flux.kinds (Fluxes.fluxes (Consts.cuda_fluxes g !!! fx) !!! 0%nat) !!! 0%nat
  = FLUX_FICK.
Hypothesis Hdecay :
  Flux.decay_coef (Fluxes.fluxes (Consts.cuda_fluxes g !!! fx) !!! 0%nat) !!! 0%nat
  = 0.
Hypothesis Ha :
  TypeIdPair.a
    (Flux.type_ids (Fluxes.fluxes (Consts.cuda_fluxes g !!! fx) !!! 0%nat) !!! 0%nat)
  = t0.
Hypothesis Hia :
  Flux.indices_a (Fluxes.fluxes (Consts.cuda_fluxes g !!! fx) !!! 0%nat) !!! 0%nat
  = ia.
Hypothesis Hib :
  Flux.indices_b (Fluxes.fluxes (Consts.cuda_fluxes g !!! fx) !!! 0%nat) !!! 0%nat
  = ib.
Hypothesis Htypes : t1 <> t0 \/ ia = ib.
Hypothesis Hian : (ia < n)%nat.
Hypothesis Hibn : (ib < n)%nat.







(** Neither of the two concentrations is flagged constant. *)
Hypothesis Hflag_a :
  Z.land (DeviceIn.part_species_flags_cuda input !!! ia) K = 0%Z.
Hypothesis Hflag_b :
  Z.land (DeviceIn.part_species_flags_cuda input !!! (n + ib)%nat) K = 0%Z.




Lemma launch_part_states (k : Kernel.t) (e : Engine.t) (d : Device.t) :
  k <> Kernel.integrate_state ->
  Device.part_states_cuda
    (launch g K input self_forces pair_left_forces pair_right_forces n e k d)
  = Device.part_states_cuda d.
Proof. destruct k; intros Hk; try reflexivity. contradiction. Qed.


End TwoParticleFick.

(** Two particles of type 0, one unit apart, with one species each (1 and
    0), a Fick term of rate 1 without decay, cutoff 2, two flux sub-steps
    of length 1. *)
Definition ex_flux_fick : Flux.t :=
  Flux.mk 1 [FLUX_FICK] [TypeIdPair.mk 0 0] [0%nat] [0%nat] [1%R] [0%R] [0%R].

Definition ex_consts_fick : Consts.t :=
  Consts.mk 1 4 2 1 0 1 1 [1%nat] [Fluxes.mk []; Fluxes.mk [ex_flux_fick]]
            [] [] [] [] [] [] [0%nat] [0%nat] [] [0%nat] [0%nat].

Definition ex_input_fick (flags : list Z) : DeviceIn.t :=
  DeviceIn.mk [float4.mk 0 0 0 1; float4.mk 1 0 0 1]
              [int4.mk 0 0 0 0; int4.mk 1 0 0 0] flags [2%nat] [0%nat] [1%Z] 2.

Definition ex_engine_fick : Engine.t := Engine.mk 2 2 0 1 false 2.

Definition ex_device_fick : Device.t :=
  Device.mk (replicate 8 0%R) [0; 0]%R [1; 0]%R [] 0.

Definition ex_no_forces (d : Device.t) : list R * R :=
  (Device.forces_cuda d, Device.cuda_epot d).

(** Decides the comparisons of reals a computation is stuck on. *)
Ltac rdec :=
  repeat match goal with
    | |- context [Rge_dec ?a ?b] =>
        destruct (Rge_dec a b); [first [exfalso; lra | idtac] | first [exfalso; lra | idtac]]
    | |- context [Rgt_dec ?a ?b] =>
        destruct (Rgt_dec a b); [first [exfalso; lra | idtac] | first [exfalso; lra | idtac]]
    | |- context [Rlt_dec ?a ?b] =>
        destruct (Rlt_dec a b); [first [exfalso; lra | idtac] | first [exfalso; lra | idtac]]
  end.




Section PotentialFacts.

Local Open Scope R_scope.

(** C1, as the code has it.  Above [b] the evaluator returns zero energy
    and zero force.  Below [a] it does not: the distance is clamped to [a]
    and the result is the interpolation of the lowest interval at [a]
    (the force still divided by the true distance). *)
Theorem potential_eval_out_of_range (K : PotConsts.t) (p : PotentialData.t)
    (ri rj r2 : R) :
  (float4.y (PotentialData.w p) < potential_eval_r K p ri rj r2 ->
   potential_eval_ex_cuda K p ri rj r2 = (0, 0)) /\
  (potential_eval_r K p ri rj r2 < float4.x (PotentialData.w p) ->
   potential_eval_ex_cuda K p ri rj r2 =
   potential_eval_interp K p (float4.x (PotentialData.w p)) (/ sqrt r2)).
Proof.
  unfold potential_eval_ex_cuda. cbn zeta. split; intros H.
  - unfold potential_eval_interp.
    destruct (Rlt_dec _ _); destruct (Rgt_dec _ _); try reflexivity; lra.
  - destruct (Rlt_dec _ _); [reflexivity | lra].
Qed.

Lemma float2int_0 : float2int 0 = 0%Z.
Proof.
  unfold float2int. destruct (Rlt_dec 0 0); [lra |].
  symmetry. apply Int_part_spec. simpl. lra.
Qed.

Lemma sqrt_quarter : sqrt (1 / 4) = 1 / 2.
Proof.
  replace (1 / 4) with ((1 / 2) * (1 / 2)) by lra.
  apply sqrt_square. lra.
Qed.

Lemma sqrt_9 : sqrt 9 = 3.
Proof.
  replace 9 with (3 * 3) by lra. apply sqrt_square. lra.
Qed.

End PotentialFacts.

(** A table on [1, 2] with one interval whose polynomial is the constant
    5 ([potential_chunk] is 8; no flag set). *)
Definition ex_pot_consts : PotConsts.t := PotConsts.mk 8 1 2.

Definition ex_pot : PotentialData.t :=
  PotentialData.mk 0 (float4.mk 1 2 0 0) (float3.mk 0 0 0) 0
                   [0; 1; 0; 0; 0; 0; 0; 5]%R.

Lemma ex_pot_r (ri rj r2 : R) :
  potential_eval_r ex_pot_consts ex_pot ri rj r2 = (r2 * / sqrt r2)%R.
Proof. reflexivity. Qed.

Lemma ex_pot_interp_a (ir : R) :
  potential_eval_interp ex_pot_consts ex_pot 1 ir = (5, 0 * 1 * ir)%R.
Proof.
  unfold potential_eval_interp. simpl PotentialData.w. simpl PotentialData.alpha.
  simpl float4.y. simpl float3.x. simpl float3.y. simpl float3.z.
  destruct (Rgt_dec 1 2); [lra |].
  replace (0 + 1 * (0 + 1 * 0))%R with 0%R by ring.
  rewrite Rmax_left by lra. rewrite float2int_0.
  cbv - [Rplus Rmult Rminus Ropp Rinv Rdiv IZR].
  f_equal; ring.
Qed.

(** At distance 1/2, below [a = 1], the evaluator returns the energy 5 of
    the table at [a], not zero. *)
Lemma potential_eval_below_a_counterexample :
  (potential_eval_r ex_pot_consts ex_pot 1 1 (1 / 4)
   < float4.x (PotentialData.w ex_pot))%R /\
  fst (potential_eval_ex_cuda ex_pot_consts ex_pot 1 1 (1 / 4)) = 5%R.
Proof.
  assert (Hr : potential_eval_r ex_pot_consts ex_pot 1 1 (1 / 4) = (1 / 2)%R).
  { rewrite ex_pot_r, sqrt_quarter. lra. }
  split.
  - rewrite Hr. simpl. lra.
  - unfold potential_eval_ex_cuda. cbn zeta. rewrite Hr. simpl float4.x.
    destruct (Rlt_dec (1 / 2) 1); [| lra].
    rewrite ex_pot_interp_a. reflexivity.
Qed.

Lemma potential_eval_out_of_range_witness :
  potential_eval_ex_cuda ex_pot_consts ex_pot 1 1 9 = (0, 0)%R /\
  potential_eval_ex_cuda ex_pot_consts ex_pot 1 1 (1 / 4) =
  potential_eval_interp ex_pot_consts ex_pot 1 (/ sqrt (1 / 4)).
Proof.
  split.
  - apply (proj1 (potential_eval_out_of_range ex_pot_consts ex_pot 1 1 9)).
    rewrite ex_pot_r, sqrt_9. simpl. lra.
  - apply (proj2 (potential_eval_out_of_range ex_pot_consts ex_pot 1 1 (1 / 4))).
    rewrite ex_pot_r, sqrt_quarter. simpl. lra.
Defined.

Section DPDFacts.

Local Open Scope R_scope.



End DPDFacts.

(** A DPD potential on [0, 2] with all three coefficients 1, two particles
    one unit apart along x, relative velocity 1 along x, step size 1. *)
Definition ex_dpd : DPDPotentialData.t :=
  DPDPotentialData.mk 0 (float4.mk 0 2 0 0) (float3.mk 1 1 1).


Section EngineFacts.

Local Open Scope R_scope.

Variable g : Consts.t.
Variable K : Z.
Variable input : DeviceIn.t.
Variables self_forces pair_left_forces pair_right_forces : Device.t -> list R * R.

(** The launches of one intermediate round. *)
Definition flux_round_kernels : list Kernel.t :=
  [Kernel.do_self_fluxonly; Kernel.do_pair_left_fluxonly;
   Kernel.do_pair_right_fluxonly; Kernel.integrate_state].

Lemma fold_left_preserves {A B : Type} (P : A -> Prop) (f : A -> B -> A)
    (l : list B) (a : A) :
  (forall x y, P x -> P (f x y)) -> P a -> P (fold_left f l a).
Proof.
  intros Hf. revert a. induction l as [|y l IH]; intros a Ha; simpl; auto.
Qed.

Lemma add_fluxes_length' (fl : list R) (base m : nat) (pj : list R) :
  length (add_fluxes fl base m pj) = length fl.
Proof.
  unfold add_fluxes.
  apply (fold_left_preserves (fun x => length x = length fl)); [| reflexivity].
  intros x k Hx. rewrite length_insert. exact Hx.
Qed.

Lemma at_offset_length (k : nat) (f : list R -> list R) (a : list R) :
  (forall x, length (f x) = length x) -> length (at_offset k f a) = length a.
Proof.
  intros Hf. unfold at_offset.
  rewrite length_app, Hf, <- length_app, take_drop. reflexivity.
Qed.

Lemma do_self_fluxonly_length (pos : list float4.t) (datai : list int4.t)
    (states fluxes : list R) (nr_states : nat) (counts ind : list nat) :
  length (runner_run_cuda_do_self_fluxonly_kernel g pos datai states fluxes
            nr_states counts ind) = length fluxes.
Proof.
  unfold runner_run_cuda_do_self_fluxonly_kernel.
  apply (fold_left_preserves (fun x => length x = length fluxes)); [| reflexivity].
  intros x cid Hx. rewrite at_offset_length; [exact Hx |].
  intros y. unfold runner_doself_state_cuda.
  apply (fold_left_preserves (fun z => length z = length y)); [| reflexivity].
  intros z i Hz. rewrite add_fluxes_length'. exact Hz.
Qed.

Lemma do_pair_left_fluxonly_length (pos : list float4.t) (datai : list int4.t)
    (states : list R) (sortlists : list Z) (fluxes : list R) (nr_states : nat)
    (counts ind : list nat) :
  length (runner_run_cuda_do_pair_left_fluxonly_kernel g pos datai states sortlists
            fluxes nr_states counts ind) = length fluxes.
Proof.
  unfold runner_run_cuda_do_pair_left_fluxonly_kernel.
  apply (fold_left_preserves (fun x => length x = length fluxes)); [| reflexivity].
  intros x cid Hx.
  apply (fold_left_preserves (fun x => length x = length fluxes)); [| exact Hx].
  intros x' j Hx'. rewrite at_offset_length; [exact Hx' |].
  intros y. unfold runner_dopair_state_left_cuda.
  apply (fold_left_preserves (fun z => length z = length y)); [| reflexivity].
  intros z i Hz. rewrite add_fluxes_length'. exact Hz.
Qed.

Lemma do_pair_right_fluxonly_length (pos : list float4.t) (datai : list int4.t)
    (states : list R) (sortlists : list Z) (fluxes : list R) (nr_states : nat)
    (counts ind : list nat) :
  length (runner_run_cuda_do_pair_right_fluxonly_kernel g pos datai states sortlists
            fluxes nr_states counts ind) = length fluxes.
Proof.
  unfold runner_run_cuda_do_pair_right_fluxonly_kernel.
  apply (fold_left_preserves (fun x => length x = length fluxes)); [| reflexivity].
  intros x cid Hx.
  apply (fold_left_preserves (fun x => length x = length fluxes)); [| exact Hx].
  intros x' j Hx'. rewrite at_offset_length; [exact Hx' |].
  intros y. unfold runner_dopair_state_right_cuda.
  apply (fold_left_preserves (fun z => length z = length y)); [| reflexivity].
  intros z i Hz. rewrite add_fluxes_length'. exact Hz.
Qed.

(** What holds at the head of the sub-step loop: sizes, the force buffer
    [F], and cleared flux accumulators. *)
Definition round_inv (nr_states : nat) (N : Z) (F : list R) (s : run_state) : Prop :=
  Engine.nr_fluxsteps s.1.1 = N /\
  (nr_states * Engine.nr_parts s.1.1 <= length (Device.part_states_cuda s.1.2))%nat /\
  (nr_states * Engine.nr_parts s.1.1 <= length (Device.fluxes_next_cuda s.1.2))%nat /\
  Device.forces_cuda s.1.2 = F /\
  forall j, (j < nr_states * Engine.nr_parts s.1.1)%nat ->
            Device.fluxes_next_cuda s.1.2 !!! j = 0.

Lemma round_inv_round (nr_states : nat) (N : Z) (F : list R) (s : run_state) :
  round_inv nr_states N F s ->
  let s' := flux_round g K input self_forces pair_left_forces pair_right_forces
                       nr_states s in
  round_inv nr_states N F s' /\
  s'.2 = s.2 ++ flux_round_kernels /\
  Engine.step_flux s'.1.1 = Engine.step_flux s.1.1.
Proof.
  destruct s as [[e d] log]. unfold round_inv. simpl.
  intros (HN & Ls & Lf & HF & _).
  unfold launch. cbn [Device.part_states_cuda Device.fluxes_next_cuda
                      Device.cuda_sortlists Device.forces_cuda Device.cuda_epot].
  set (fl := runner_run_cuda_do_pair_right_fluxonly_kernel _ _ _ _ _ _ _ _ _).
  assert (Lfl : length fl = length (Device.fluxes_next_cuda d)).
  { subst fl. rewrite do_pair_right_fluxonly_length, do_pair_left_fluxonly_length,
      do_self_fluxonly_length. reflexivity. }
  unfold runner_run_cuda_integrate_state_kernel.
  destruct (integrate_state_fold K (DeviceIn.part_species_flags_cuda input)
              (Engine.dt_flux e) (nr_states * Engine.nr_parts e) 0
              (Device.part_states_cuda d) fl)
    as (L1 & L2 & Hlk); [simpl; lia | simpl; lia |].
  cbn zeta in L1, L2, Hlk.
  split; [| split; [| reflexivity]].
  - split; [exact HN |]. split; [lia |]. split; [lia |]. split; [exact HF |].
    intros j Hj. destruct (Hlk j) as [[_ E] _]; [lia | exact E].
  - unfold flux_round_kernels. rewrite <- !app_assoc. reflexivity.
Qed.

Lemma flux_steps_loop_spec (nr_states : nat) (N : Z) (F : list R) (fuel : nat) :
  forall s : run_state,
    round_inv nr_states N F s ->
    (0 <= Engine.step_flux s.1.1 <= N - 1)%Z ->
    (N - 1 - Engine.step_flux s.1.1 <= Z.of_nat fuel)%Z ->
    let s' := flux_steps_loop g K input self_forces pair_left_forces
                              pair_right_forces fuel nr_states s in
    round_inv nr_states N F s' /\
    s'.2 = s.2 ++ concat (replicate (Z.to_nat (N - 1 - Engine.step_flux s.1.1))
                                    flux_round_kernels) /\
    Engine.step_flux s'.1.1 = (N - 1)%Z.
Proof.
  induction fuel as [|fuel IH]; intros s Hs Hk Hfuel; cbn zeta.
  - simpl. replace (N - 1 - Engine.step_flux s.1.1)%Z with 0%Z by lia.
    simpl. rewrite app_nil_r. split; [exact Hs |]. split; [reflexivity | lia].
  - simpl. pose proof Hs as (HN & _). rewrite HN.
    destruct (Z.ltb_spec (Engine.step_flux s.1.1) (N - 1)) as [Hlt|Hge].
    + destruct (round_inv_round nr_states N F s Hs) as (Hr & Hlog & Hstep).
      set (s1 := flux_round g K input self_forces pair_left_forces
                            pair_right_forces nr_states s) in *.
      set (s2 := set_step_flux (Engine.step_flux s1.1.1 + 1) s1).
      assert (H2 : round_inv nr_states N F s2 /\ s2.2 = s1.2 /\
                   Engine.step_flux s2.1.1 = (Engine.step_flux s.1.1 + 1)%Z).
      { subst s2. destruct s1 as [[e1 d1] l1]. simpl in *.
        split; [exact Hr |]. split; [reflexivity | lia]. }
      destruct H2 as (Hr2 & Hlog2 & Hstep2).
      destruct (IH s2 Hr2) as (Hr3 & Hlog3 & Hstep3); [lia | lia |].
      split; [exact Hr3 |]. split; [| exact Hstep3].
      rewrite Hlog3, Hlog2, Hlog, Hstep2, <- app_assoc. f_equal.
      replace (Z.to_nat (N - 1 - Engine.step_flux s.1.1))
        with (S (Z.to_nat (N - 1 - (Engine.step_flux s.1.1 + 1)))) by lia.
      reflexivity.
    + replace (N - 1 - Engine.step_flux s.1.1)%Z with 0%Z by lia.
      simpl. rewrite app_nil_r. split; [exact Hs |]. split; [reflexivity | lia].
Qed.

End EngineFacts.

(** One cell with a single particle and no active boundary: no pair
    interacts, so the energy to report is 0. *)
Definition ex_consts_self : Consts.t :=
  Consts.mk 1 4 2 1 0 1 1 [0%nat] [Fluxes.mk []]
            [] [] [] [] [] [] [0%nat] [0%nat] [] [0%nat] [0%nat].

Definition ex_force_consts : ForceConsts.t :=
  ForceConsts.mk [0%nat; 0%nat; 0%nat] [0%nat; 0%nat; 0%nat] 1 63
                 [float3.mk 1 1 1] [0%Z].

(** C10, the self kernel at that input.  The thread adds half of whatever
    its local [epot] held before the first [+=]: started from
    [cuda_epot = 0] with the local holding 1, the kernel reports 1/2 where
    no pair interacts.  (The pair kernels initialise their local to 0.) *)
Theorem do_self_kernel_epot_uninitialised :
  forall (eval : bool -> nat -> nat -> nat -> R -> R -> nat -> nat -> float3.t ->
                 R -> R -> list R -> R * list R)
         (spline : R -> R -> R)
         (boundary : float4.t -> nat -> nat -> float3.t -> Z -> list R -> R ->
                     list R * R),
    (runner_run_cuda_do_self_kernel ex_consts_self ex_force_consts
       eval spline boundary 1 0 1 0 1
       [float4.mk 0 0 0 1] [int4.mk 0 0 0 0] [0; 0; 0; 0]%R 0 [1%nat] [0%nat]).2
    = (1 / 2)%R.
Proof.
  intros eval spline boundary.
  cbv - [Rplus Rmult Rminus Ropp Rinv Rdiv IZR]. lra.
Qed.

Section ZeroOne.

Ltac split_cmp :=
  repeat match goal with
    | |- context [?a <? ?b] => destruct (Nat.ltb_spec a b)
    | |- context [?a <=? ?b] => destruct (Nat.leb_spec a b)
    | H : context [?a <? ?b] |- _ => destruct (Nat.ltb_spec a b)
    | H : context [?a <=? ?b] |- _ => destruct (Nat.leb_spec a b)
    end.

Lemma half_clean_at (j c off : nat) (B : nat -> bool) :
  0 < j -> off < 2 * j ->
  half_clean j B (2 * j * c + off) =
  if off <? j then B (2 * j * c + off) || B (2 * j * c + off + j)
  else B (2 * j * c + off - j) && B (2 * j * c + off).
Proof.
  intros Hj Hoff. unfold half_clean.
  replace ((2 * j * c + off) mod (2 * j)) with off; [reflexivity |].
  apply Nat.mod_unique with c; lia.
Qed.

Lemma mirror_at (k c off : nat) (B : nat -> bool) :
  0 < k -> off < 2 * k ->
  mirror k B (2 * k * c + off) =
  if off <? k then B (2 * k * c + off) || B (2 * k * c + (2 * k - 1 - off))
  else B (2 * k * c + (2 * k - 1 - off)) && B (2 * k * c + off).
Proof.
  intros Hk Hoff. unfold mirror. cbv zeta.
  replace ((2 * k * c + off) mod (2 * k)) with off.
  - replace (2 * k * c + off - off) with (2 * k * c) by lia. reflexivity.
  - apply Nat.mod_unique with c; lia.
Qed.

(** Half-cleaning a bitonic block of size [2 j] leaves two bitonic halves,
    the lower all ones or the upper all zeros. *)
Lemma half_clean_bitonic (j c : nat) (B : nat -> bool) :
  0 < j ->
  bitonic_block B (2 * j * c) (2 * j) ->
  bitonic_block (half_clean j B) (2 * j * c) j /\
  bitonic_block (half_clean j B) (2 * j * c + j) j /\
  (const_block (half_clean j B) (2 * j * c) j true \/
   const_block (half_clean j B) (2 * j * c + j) j false).
Proof.
  intros Hj (lo & hi & v & Hlo & Hlh & Hhi & HB).
  set (b := 2 * j * c) in *.
  assert (Hlow : forall p, b <= p < b + j ->
            half_clean j B p = B p || B (p + j)).
  { intros p Hp. replace p with (2 * j * c + (p - b)) at 1 by (subst b; lia).
    rewrite half_clean_at by lia. destruct (Nat.ltb_spec (p - b) j); [| lia].
    fold b. replace (b + (p - b)) with p by lia. reflexivity. }
  assert (Hupp : forall p, b + j <= p < b + 2 * j ->
            half_clean j B p = B (p - j) && B p).
  { intros p Hp. replace p with (2 * j * c + (p - b)) at 1 by (subst b; lia).
    rewrite half_clean_at by lia. destruct (Nat.ltb_spec (p - b) j); [lia |].
    fold b. replace (b + (p - b)) with p by lia. reflexivity. }
  destruct v.
  - (* ones on [lo, hi) *)
    destruct (Nat.le_gt_cases (hi - lo) j) as [Hlen|Hlen].
    + (* short: the upper half is all zeros *)
      assert (Hu0 : const_block (half_clean j B) (b + j) j false).
      { intros p Hp. rewrite Hupp by lia. rewrite !HB by lia.
        split_cmp; simpl; try reflexivity; lia. }
      split; [| split; [| right; exact Hu0]].
      * destruct (Nat.le_gt_cases hi (b + j)) as [H1|H1].
        { exists lo, hi, true. repeat split; try lia.
          intros p Hp. rewrite Hlow by lia. rewrite !HB by lia.
          split_cmp; simpl; try reflexivity; lia. }
        destruct (Nat.le_gt_cases (b + j) lo) as [H2|H2].
        { exists (lo - j), (hi - j), true. repeat split; try lia.
          intros p Hp. rewrite Hlow by lia. rewrite !HB by lia.
          split_cmp; simpl; try reflexivity; lia. }
        exists (hi - j), lo, false. repeat split; try lia.
        intros p Hp. rewrite Hlow by lia. rewrite !HB by lia.
        split_cmp; simpl; try reflexivity; lia.
      * exists (b + j), (b + j), true. repeat split; try lia.
        intros p Hp. rewrite Hu0 by lia.
        split_cmp; simpl; try reflexivity; lia.
    + (* long: the lower half is all ones *)
      assert (Hl1 : const_block (half_clean j B) b j true).
      { intros p Hp. rewrite Hlow by lia. rewrite !HB by lia.
        split_cmp; simpl; try reflexivity; lia. }
      split; [| split; [| left; exact Hl1]].
      * exists b, (b + j), true. repeat split; try lia.
        intros p Hp. rewrite Hl1 by lia.
        split_cmp; simpl; try reflexivity; lia.
      * exists (lo + j), hi, true. repeat split; try lia.
        intros p Hp. rewrite Hupp by lia. rewrite !HB by lia.
        split_cmp; simpl; try reflexivity; lia.
  - (* zeros on [lo, hi) *)
    destruct (Nat.le_gt_cases (hi - lo) j) as [Hlen|Hlen].
    + (* short: the lower half is all ones *)
      assert (Hl1 : const_block (half_clean j B) b j true).
      { intros p Hp. rewrite Hlow by lia. rewrite !HB by lia.
        split_cmp; simpl; try reflexivity; lia. }
      split; [| split; [| left; exact Hl1]].
      * exists b, (b + j), true. repeat split; try lia.
        intros p Hp. rewrite Hl1 by lia.
        split_cmp; simpl; try reflexivity; lia.
      * destruct (Nat.le_gt_cases hi (b + j)) as [H1|H1].
        { exists (lo + j), (hi + j), false. repeat split; try lia.
          intros p Hp. rewrite Hupp by lia. rewrite !HB by lia.
          split_cmp; simpl; try reflexivity; lia. }
        destruct (Nat.le_gt_cases (b + j) lo) as [H2|H2].
        { exists lo, hi, false. repeat split; try lia.
          intros p Hp. rewrite Hupp by lia. rewrite !HB by lia.
          split_cmp; simpl; try reflexivity; lia. }
        exists hi, (lo + j), true. repeat split; try lia.
        intros p Hp. rewrite Hupp by lia. rewrite !HB by lia.
        split_cmp; simpl; try reflexivity; lia.
    + (* long: the upper half is all zeros *)
      assert (Hu0 : const_block (half_clean j B) (b + j) j false).
      { intros p Hp. rewrite Hupp by lia. rewrite !HB by lia.
        split_cmp; simpl; try reflexivity; lia. }
      split; [| split; [| right; exact Hu0]].
      * exists lo, (hi - j), false. repeat split; try lia.
        intros p Hp. rewrite Hlow by lia. rewrite !HB by lia.
        split_cmp; simpl; try reflexivity; lia.
      * exists (b + j), (b + j), true. repeat split; try lia.
        intros p Hp. rewrite Hu0 by lia.
        split_cmp; simpl; try reflexivity; lia.
Qed.

Lemma pow2_pos (m : nat) : 0 < 2 ^ m.
Proof. induction m; simpl; lia. Qed.

Lemma half_clean_const (j c : nat) (B : nat -> bool) (v : bool) :
  0 < j ->
  const_block B (2 * j * c) (2 * j) v ->
  const_block (half_clean j B) (2 * j * c) (2 * j) v.
Proof.
  intros Hj HB p Hp.
  replace p with (2 * j * c + (p - 2 * j * c)) by lia.
  rewrite half_clean_at by lia.
  destruct (Nat.ltb_spec (p - 2 * j * c) j).
  - rewrite !HB by lia. destruct v; reflexivity.
  - rewrite !HB by lia. destruct v; reflexivity.
Qed.

(** A constant block of size [2^m c'], cut at multiples of [2^m], stays
    constant under the half-cleaners of strides below [2^m]. *)
Lemma half_cleans_const (m : nat) :
  forall (B : nat -> bool) (c : nat) (v : bool),
    const_block B (2 ^ m * c) (2 ^ m) v ->
    const_block (half_cleans m B) (2 ^ m * c) (2 ^ m) v.
Proof.
  induction m as [|m IH]; intros B c v HB; [exact HB |].
  simpl half_cleans.
  pose proof (pow2_pos m) as Hpos.
  assert (E : 2 ^ S m = 2 * 2 ^ m) by (simpl; lia).
  assert (H1 : const_block (half_clean (2 ^ m) B) (2 * 2 ^ m * c) (2 * 2 ^ m) v).
  { apply half_clean_const; [exact Hpos |].
    intros p Hp. apply HB. rewrite E. lia. }
  intros p Hp. rewrite E in Hp.
  destruct (Nat.lt_ge_cases p (2 ^ m * (2 * c) + 2 ^ m)) as [Hlt|Hge].
  - apply (IH _ (2 * c) v); [| lia].
    intros q Hq. apply H1. lia.
  - apply (IH _ (2 * c + 1) v); [| lia].
    intros q Hq. apply H1. lia.
Qed.

(** The half-cleaners of strides [2^(m-1)], ..., 1 sort a bitonic block of
    size [2^m]. *)
Lemma half_cleans_sorted (m : nat) :
  forall (B : nat -> bool) (c : nat),
    bitonic_block B (2 ^ m * c) (2 ^ m) ->
    sorted_block (half_cleans m B) (2 ^ m * c) (2 ^ m).
Proof.
  induction m as [|m IH]; intros B c HB.
  - intros p q Hp Hpq Hq Hv. simpl in *. replace p with q by lia. exact Hv.
  - simpl half_cleans.
    pose proof (pow2_pos m) as Hpos.
    assert (E : 2 ^ S m = 2 * 2 ^ m) by (simpl; lia).
    destruct (half_clean_bitonic (2 ^ m) c B Hpos) as (Hl & Hu & Hc).
    { rewrite E in HB. exact HB. }
    assert (E1 : 2 * 2 ^ m * c = 2 ^ m * (2 * c)) by lia.
    assert (E2 : 2 ^ m * (2 * c) + 2 ^ m = 2 ^ m * (2 * c + 1)) by lia.
    rewrite E1 in Hl, Hu, Hc. rewrite E2 in Hu, Hc.
    pose proof (IH _ _ Hl) as Sl. pose proof (IH _ _ Hu) as Su.
    intros p q Hp Hpq Hq Hv. rewrite E in *.
    destruct (Nat.lt_ge_cases q (2 ^ m * (2 * c + 1))) as [Hq1|Hq1].
    + apply (Sl p q); try lia. exact Hv.
    + destruct (Nat.lt_ge_cases p (2 ^ m * (2 * c + 1))) as [Hp1|Hp1].
      * destruct Hc as [Hc|Hc].
        -- apply (half_cleans_const m _ (2 * c) true Hc). lia.
        -- rewrite (half_cleans_const m _ (2 * c + 1) false Hc) in Hv by lia.
           discriminate.
      * apply (Su p q); try lia. exact Hv.
Qed.

(** A sorted zero-one block is a run of ones followed by zeros. *)
Lemma sorted_block_threshold (B : nat -> bool) (base s : nat) :
  sorted_block B base s ->
  exists a, a <= s /\ forall p, base <= p < base + s -> B p = (p <? base + a).
Proof.
  induction s as [|s IH]; intros HS.
  - exists 0. split; [lia |]. intros p Hp. lia.
  - destruct IH as (a & Ha & HB).
    { intros p q Hp Hpq Hq. apply HS; lia. }
    destruct (B (base + s)) eqn:Elast.
    + exists (S s). split; [lia |]. intros p Hp.
      destruct (Nat.ltb_spec p (base + S s)); [| lia].
      apply (HS p (base + s)); try lia. exact Elast.
    + exists a. split; [lia |]. intros p Hp.
      destruct (Nat.eq_dec p (base + s)) as [->|Hne].
      * rewrite Elast. destruct (Nat.ltb_spec (base + s) (base + a)); [lia | reflexivity].
      * apply HB. lia.
Qed.

(** The mirror step on two sorted halves of size [k] leaves two bitonic
    halves, the lower all ones or the upper all zeros. *)
Lemma mirror_sorted (k c : nat) (B : nat -> bool) :
  0 < k ->
  sorted_block B (2 * k * c) k ->
  sorted_block B (2 * k * c + k) k ->
  bitonic_block (mirror k B) (2 * k * c) k /\
  bitonic_block (mirror k B) (2 * k * c + k) k /\
  (const_block (mirror k B) (2 * k * c) k true \/
   const_block (mirror k B) (2 * k * c + k) k false).
Proof.
  intros Hk HL HU.
  destruct (sorted_block_threshold _ _ _ HL) as (a & Ha & HBa).
  destruct (sorted_block_threshold _ _ _ HU) as (b' & Hb & HBb).
  set (b := 2 * k * c) in *.
  assert (Hlow : forall p, b <= p < b + k ->
            mirror k B p = B p || B (b + (2 * k - 1 - (p - b)))).
  { intros p Hp. replace p with (2 * k * c + (p - b)) at 1 by (subst b; lia).
    rewrite mirror_at by lia. destruct (Nat.ltb_spec (p - b) k); [| lia].
    fold b. replace (b + (p - b)) with p by lia. reflexivity. }
  assert (Hupp : forall p, b + k <= p < b + 2 * k ->
            mirror k B p = B (b + (2 * k - 1 - (p - b))) && B p).
  { intros p Hp. replace p with (2 * k * c + (p - b)) at 1 by (subst b; lia).
    rewrite mirror_at by lia. destruct (Nat.ltb_spec (p - b) k); [lia |].
    fold b. replace (b + (p - b)) with p by lia. reflexivity. }
  split; [| split].
  - destruct (Nat.le_gt_cases (a + b') k) as [H|H].
    + exists (b + a), (b + k - b'), false. repeat split; try lia.
      intros p Hp. rewrite Hlow by lia. rewrite HBa, HBb by lia.
      split_cmp; simpl; try reflexivity; lia.
    + exists b, (b + k), true. repeat split; try lia.
      intros p Hp. rewrite Hlow by lia. rewrite HBa, HBb by lia.
      split_cmp; simpl; try reflexivity; lia.
  - destruct (Nat.le_gt_cases (a + b') k) as [H|H].
    + exists (b + k), (b + k), true. repeat split; try lia.
      intros p Hp. rewrite Hupp by lia. rewrite HBa, HBb by lia.
      split_cmp; simpl; try reflexivity; lia.
    + exists (b + 2 * k - a), (b + k + b'), true. repeat split; try lia.
      intros p Hp. rewrite Hupp by lia. rewrite HBa, HBb by lia.
      split_cmp; simpl; try reflexivity; lia.
  - destruct (Nat.le_gt_cases (a + b') k) as [H|H].
    + right. intros p Hp. rewrite Hupp by lia. rewrite HBa, HBb by lia.
      split_cmp; simpl; try reflexivity; lia.
    + left. intros p Hp. rewrite Hlow by lia. rewrite HBa, HBb by lia.
      split_cmp; simpl; try reflexivity; lia.
Qed.

(** One stage turns sorted blocks of size [2^m] into sorted blocks of size
    [2^(m+1)]. *)
Lemma stage_sorted (m : nat) (B : nat -> bool) :
  (forall c, sorted_block B (2 ^ m * c) (2 ^ m)) ->
  forall c, sorted_block (stage m B) (2 ^ S m * c) (2 ^ S m).
Proof.
  intros HB c. unfold stage.
  pose proof (pow2_pos m) as Hpos.
  assert (E : 2 ^ S m = 2 * 2 ^ m) by (simpl; lia).
  destruct (mirror_sorted (2 ^ m) c B Hpos) as (Hl & Hu & Hc).
  { replace (2 * 2 ^ m * c) with (2 ^ m * (2 * c)) by lia. apply HB. }
  { replace (2 * 2 ^ m * c + 2 ^ m) with (2 ^ m * (2 * c + 1)) by lia. apply HB. }
  assert (E1 : 2 * 2 ^ m * c = 2 ^ m * (2 * c)) by lia.
  assert (E2 : 2 ^ m * (2 * c) + 2 ^ m = 2 ^ m * (2 * c + 1)) by lia.
  rewrite E1 in Hl, Hu, Hc. rewrite E2 in Hu, Hc.
  pose proof (half_cleans_sorted m _ _ Hl) as Sl.
  pose proof (half_cleans_sorted m _ _ Hu) as Su.
  intros p q Hp Hpq Hq Hv. rewrite E in *.
  destruct (Nat.lt_ge_cases q (2 ^ m * (2 * c + 1))) as [Hq1|Hq1].
  - apply (Sl p q); try lia. exact Hv.
  - destruct (Nat.lt_ge_cases p (2 ^ m * (2 * c + 1))) as [Hp1|Hp1].
    + destruct Hc as [Hc|Hc].
      * apply (half_cleans_const m _ (2 * c) true Hc). lia.
      * rewrite (half_cleans_const m _ (2 * c + 1) false Hc) in Hv by lia.
        discriminate.
    + apply (Su p q); try lia. exact Hv.
Qed.

End ZeroOne.

Section SortNetwork.

Lemma div_mod_coords (s c r : nat) :
  (r < s)%nat -> ((s * c + r) / s = c /\ (s * c + r) mod s = r)%nat.
Proof.
  intros Hr. split.
  - symmetry. apply Nat.div_unique with r; lia.
  - symmetry. apply Nat.mod_unique with c; lia.
Qed.

Lemma coords_of (s p : nat) :
  (0 < s)%nat -> exists c r, (p = s * c + r /\ r < s)%nat.
Proof.
  intros Hs. exists (p / s)%nat, (p mod s)%nat. split.
  - apply Nat.div_mod_eq.
  - apply Nat.mod_upper_bound. lia.
Qed.

(** Sequential comparators on disjoint pairs act in parallel. *)
Lemma bcs_fold_prefix (P Q ow : nat -> nat) (B : nat -> bool) :
  (forall i, P i < Q i)%nat ->
  (forall p, p = P (ow p) \/ p = Q (ow p)) ->
  (forall i, ow (P i) = i) -> (forall i, ow (Q i) = i) ->
  forall m p,
    fold_left (fun B i => bcs B (P i) (Q i)) (seq 0 m) B p =
    if (ow p <? m)%nat then
      if Nat.eqb p (P (ow p)) then B p || B (Q (ow p)) else B (P (ow p)) && B p
    else B p.
Proof.
  intros HPQ Hcov HowP HowQ. induction m as [|m IH]; intros p.
  - reflexivity.
  - rewrite seq_S, fold_left_app. simpl fold_left. unfold bcs at 1.
    rewrite !IH, HowP, HowQ, Nat.ltb_irrefl.
    destruct (Nat.eqb_spec p (P m)) as [->|HnP].
    + rewrite HowP, Nat.eqb_refl.
      destruct (Nat.ltb_spec m (S m)); [reflexivity | lia].
    + destruct (Nat.eqb_spec p (Q m)) as [->|HnQ].
      * rewrite HowQ.
        destruct (Nat.ltb_spec m (S m)); [| lia].
        destruct (Nat.eqb_spec (Q m) (P m)) as [E|_]; [specialize (HPQ m); lia |].
        reflexivity.
      * assert (ow p <> m).
        { intros E. destruct (Hcov p) as [H|H]; rewrite E in H; contradiction. }
        destruct (Nat.ltb_spec (ow p) m), (Nat.ltb_spec (ow p) (S m));
          try lia; reflexivity.
Qed.

Lemma bcs_fold_par (P Q ow : nat -> nat) (B : nat -> bool) (n : nat) :
  (forall i, P i < Q i)%nat -> (forall i, i <= P i)%nat ->
  (forall p, p = P (ow p) \/ p = Q (ow p)) ->
  (forall i, ow (P i) = i) -> (forall i, ow (Q i) = i) ->
  (forall p, (n <= p)%nat -> B p = false) ->
  forall p,
    fold_left (fun B i => bcs B (P i) (Q i)) (seq 0 n) B p =
    if Nat.eqb p (P (ow p)) then B p || B (Q (ow p)) else B (P (ow p)) && B p.
Proof.
  intros HPQ HiP Hcov HowP HowQ Hout p.
  rewrite (bcs_fold_prefix P Q ow B HPQ Hcov HowP HowQ).
  destruct (Nat.ltb_spec (ow p) n) as [|Hge]; [reflexivity |].
  pose proof (HPQ (ow p)). pose proof (HiP (ow p)).
  rewrite (Hout (P (ow p))), (Hout (Q (ow p))) by lia.
  assert (B p = false) as -> by (apply Hout; destruct (Hcov p); lia).
  destruct (Nat.eqb p (P (ow p))); reflexivity.
Qed.

(** The pairs of the first step. *)
Lemma first_pairs (k : nat) :
  (0 < k)%nat ->
  (forall i, first_P k i < first_Q k i)%nat /\
  (forall i, i <= first_P k i)%nat /\
  (forall p, p = first_P k (first_ow k p) \/ p = first_Q k (first_ow k p)) /\
  (forall i, first_ow k (first_P k i) = i) /\
  (forall i, first_ow k (first_Q k i) = i).
Proof.
  intros Hk.
  assert (HP : forall c r, (r < k)%nat -> first_P k (k * c + r) = (2 * k * c + r)%nat).
  { intros c r Hr. unfold first_P.
    destruct (div_mod_coords k c r Hr) as [-> _]. lia. }
  assert (HQ : forall c r, (r < k)%nat ->
                 first_Q k (k * c + r) = (2 * k * c + (2 * k - 1 - r))%nat).
  { intros c r Hr. unfold first_Q.
    destruct (div_mod_coords k c r Hr) as [-> ->]. lia. }
  assert (How : forall c off, (off < 2 * k)%nat ->
                  first_ow k (2 * k * c + off) =
                  (k * c + (if (off <? k)%nat then off else 2 * k - 1 - off))%nat).
  { intros c off Hoff. unfold first_ow.
    destruct (div_mod_coords (2 * k) c off Hoff) as [E1 E2].
    replace (2 * k * c + off)%nat with (2 * k * c + off)%nat by reflexivity.
    rewrite E1, E2. reflexivity. }
  repeat split.
  - intros i. destruct (coords_of k i Hk) as (c & r & -> & Hr).
    rewrite HP, HQ by exact Hr. lia.
  - intros i. unfold first_P. lia.
  - intros p. destruct (coords_of (2 * k) p) as (c & off & -> & Hoff); [lia |].
    rewrite How by exact Hoff.
    destruct (Nat.ltb_spec off k).
    + left. rewrite HP by lia. reflexivity.
    + right. rewrite HQ by lia. lia.
  - intros i. destruct (coords_of k i Hk) as (c & r & -> & Hr).
    rewrite HP by exact Hr. rewrite How by lia.
    destruct (Nat.ltb_spec r k); [reflexivity | lia].
  - intros i. destruct (coords_of k i Hk) as (c & r & -> & Hr).
    rewrite HQ by exact Hr. rewrite How by lia.
    destruct (Nat.ltb_spec (2 * k - 1 - r) k); [lia |]. f_equal. lia.
Qed.

(** The pairs of a second step. *)
Lemma second_pairs (j : nat) :
  (0 < j)%nat ->
  (forall i, first_P j i < second_Q j i)%nat /\
  (forall i, i <= first_P j i)%nat /\
  (forall p, p = first_P j (second_ow j p) \/ p = second_Q j (second_ow j p)) /\
  (forall i, second_ow j (first_P j i) = i) /\
  (forall i, second_ow j (second_Q j i) = i).
Proof.
  intros Hj.
  assert (HP : forall c r, (r < j)%nat -> first_P j (j * c + r) = (2 * j * c + r)%nat).
  { intros c r Hr. unfold first_P.
    destruct (div_mod_coords j c r Hr) as [-> _]. lia. }
  assert (How : forall c off, (off < 2 * j)%nat ->
                  second_ow j (2 * j * c + off) =
                  (j * c + (if (off <? j)%nat then off else off - j))%nat).
  { intros c off Hoff. unfold second_ow.
    destruct (div_mod_coords (2 * j) c off Hoff) as [E1 E2].
    rewrite E1, E2. reflexivity. }
  unfold second_Q. repeat split.
  - intros i. lia.
  - intros i. unfold first_P. lia.
  - intros p. destruct (coords_of (2 * j) p) as (c & off & -> & Hoff); [lia |].
    rewrite How by exact Hoff.
    destruct (Nat.ltb_spec off j).
    + left. rewrite HP by lia. reflexivity.
    + right. rewrite HP by lia. lia.
  - intros i. destruct (coords_of j i Hj) as (c & r & -> & Hr).
    rewrite HP by exact Hr. rewrite How by lia.
    destruct (Nat.ltb_spec r j); [reflexivity | lia].
  - intros i. destruct (coords_of j i Hj) as (c & r & -> & Hr).
    rewrite HP by exact Hr.
    replace (2 * j * c + r + j)%nat with (2 * j * c + (r + j))%nat by lia.
    rewrite How by lia.
    destruct (Nat.ltb_spec (r + j) j); [lia |]. f_equal. lia.
Qed.

(** The first step, run iteration by iteration, is the mirror step. *)
Lemma first_step_mirror (k n : nat) (B : nat -> bool) :
  (0 < k)%nat -> (forall p, (n <= p)%nat -> B p = false) ->
  forall p,
    fold_left (fun B i => bcs B (first_P k i) (first_Q k i)) (seq 0 n) B p
    = mirror k B p.
Proof.
  intros Hk Hout p.
  destruct (first_pairs k Hk) as (H1 & H2 & H3 & H4 & H5).
  rewrite (bcs_fold_par _ _ (first_ow k) B n H1 H2 H3 H4 H5 Hout).
  destruct (coords_of (2 * k) p) as (c & off & -> & Hoff); [lia |].
  rewrite mirror_at by lia.
  unfold first_ow. destruct (div_mod_coords (2 * k) c off Hoff) as [-> ->].
  destruct (Nat.ltb_spec off k) as [Hlt|Hge].
  - unfold first_P, first_Q. destruct (div_mod_coords k c off Hlt) as [-> ->].
    replace (off + k * c + k * c)%nat with (2 * k * c + off)%nat by lia.
    replace (k * c + off + k * c)%nat with (2 * k * c + off)%nat by lia.
    rewrite Nat.eqb_refl. do 2 f_equal. lia.
  - unfold first_P, first_Q.
    destruct (div_mod_coords k c (2 * k - 1 - off)) as [-> ->]; [lia |].
    destruct (Nat.eqb_spec (2 * k * c + off)
                (k * c + (2 * k - 1 - off) + k * c)) as [E|_]; [lia |].
    f_equal. f_equal. lia.
Qed.

(** A second step, run iteration by iteration, is the half-cleaner. *)
Lemma second_step_half_clean (j n : nat) (B : nat -> bool) :
  (0 < j)%nat -> (forall p, (n <= p)%nat -> B p = false) ->
  forall p,
    fold_left (fun B i => bcs B (first_P j i) (second_Q j i)) (seq 0 n) B p
    = half_clean j B p.
Proof.
  intros Hj Hout p.
  destruct (second_pairs j Hj) as (H1 & H2 & H3 & H4 & H5).
  rewrite (bcs_fold_par _ _ (second_ow j) B n H1 H2 H3 H4 H5 Hout).
  destruct (coords_of (2 * j) p) as (c & off & -> & Hoff); [lia |].
  rewrite half_clean_at by lia.
  unfold second_ow. destruct (div_mod_coords (2 * j) c off Hoff) as [-> ->].
  unfold second_Q.
  destruct (Nat.ltb_spec off j) as [Hlt|Hge].
  - unfold first_P. destruct (div_mod_coords j c off Hlt) as [-> _].
    replace (j * c + off + j * c)%nat with (2 * j * c + off)%nat by lia.
    rewrite Nat.eqb_refl. reflexivity.
  - unfold first_P.
    destruct (div_mod_coords j c (off - j)) as [-> _]; [lia |].
    destruct (Nat.eqb_spec (2 * j * c + off) (j * c + (off - j) + j * c))
      as [E|_]; [lia |].
    f_equal. f_equal. lia.
Qed.

End SortNetwork.

Section SortCodeFacts.

Local Open Scope Z_scope.

Lemma land_pow2_low (m i : nat) :
  Z.land (Z.of_nat i) (Z.of_nat (2 ^ m) - 1) = Z.of_nat (i mod 2 ^ m).
Proof.
  rewrite Nat2Z.inj_mod, Nat2Z.inj_pow. change (Z.of_nat 2) with 2.
  rewrite <- Z.land_ones by lia. f_equal. rewrite Z.ones_equiv. lia.
Qed.

Lemma land_pow2_high (m i : nat) :
  Z.land (Z.of_nat i) (Z.lnot (Z.of_nat (2 ^ m) - 1))
  = Z.of_nat (2 ^ m * (i / 2 ^ m)).
Proof.
  rewrite <- Z.ldiff_land.
  replace (Z.of_nat (2 ^ m) - 1) with (Z.ones (Z.of_nat m)).
  - rewrite Z.ldiff_ones_r by lia.
    rewrite Z.shiftl_mul_pow2, Z.shiftr_div_pow2 by lia.
    rewrite Nat2Z.inj_mul, Nat2Z.inj_div, Nat2Z.inj_pow. change (Z.of_nat 2) with 2.
    lia.
  - rewrite Z.ones_equiv, Nat2Z.inj_pow. change (Z.of_nat 2) with 2. lia.
Qed.

Lemma compare_swap_nat (n : nat) (a : list Z) (P Q : nat) :
  compare_swap (Z.of_nat n) a (Z.of_nat P) (Z.of_nat Q) =
  if ((Q <? n)%nat && (sort_key (a !!! P) <? sort_key (a !!! Q)))%bool
  then <[Q := a !!! P]> (<[P := a !!! Q]> a) else a.
Proof.
  unfold compare_swap, sort_key. rewrite !Nat2Z.id.
  destruct (Z.ltb_spec (Z.of_nat Q) (Z.of_nat n)), (Nat.ltb_spec Q n);
    try lia; reflexivity.
Qed.

Lemma sort_first_step_iter_nat (m n : nat) (a : list Z) (i : nat) :
  sort_first_step_iter (Z.of_nat (2 ^ m)) (Z.of_nat n) a i =
  compare_swap (Z.of_nat n) a (Z.of_nat (first_P (2 ^ m) i))
               (Z.of_nat (first_Q (2 ^ m) i)).
Proof.
  unfold sort_first_step_iter. cbv zeta.
  rewrite land_pow2_low, land_pow2_high.
  pose proof (Nat.mod_upper_bound i (2 ^ m)) as Hr.
  pose proof (pow2_pos m).
  unfold first_P, first_Q. f_equal; lia.
Qed.

Lemma sort_second_step_iter_nat (m n : nat) (a : list Z) (i : nat) :
  sort_second_step_iter (Z.of_nat (2 ^ m)) (Z.of_nat n) a i =
  compare_swap (Z.of_nat n) a (Z.of_nat (first_P (2 ^ m) i))
               (Z.of_nat (second_Q (2 ^ m) i)).
Proof.
  unfold sort_second_step_iter. cbv zeta.
  rewrite land_pow2_high. unfold second_Q, first_P. f_equal; lia.
Qed.

(** What one compare-and-swap keeps: the length, the entries from [n] on,
    and the entries up to order. *)
Lemma compare_swap_keeps (n : nat) (a : list Z) (P Q : nat) :
  (P < Q)%nat -> (n <= length a)%nat ->
  let a' := compare_swap (Z.of_nat n) a (Z.of_nat P) (Z.of_nat Q) in
  length a' = length a /\ drop n a' = drop n a /\ a' ≡ₚ a.
Proof.
  intros HPQ Hn. cbv zeta. rewrite compare_swap_nat.
  destruct (Nat.ltb_spec Q n) as [HQ|HQ]; cbn [andb]; [| auto].
  destruct (_ <? _); [| auto].
  repeat split.
  - rewrite !length_insert. reflexivity.
  - rewrite !drop_insert_lt by lia. reflexivity.
  - apply Permutation_insert_swap; apply list_lookup_lookup_total_lt; lia.
Qed.

(** A compare-and-swap seen through a threshold is a comparator. *)
Lemma compare_swap_bkey (t : Z) (n : nat) (a : list Z) (P Q : nat) :
  (P < Q)%nat -> (n <= length a)%nat ->
  forall p,
    bkey t n (compare_swap (Z.of_nat n) a (Z.of_nat P) (Z.of_nat Q)) p
    = bcs (bkey t n a) P Q p.
Proof.
  intros HPQ Hn p. rewrite compare_swap_nat. unfold bcs, bkey.
  destruct (Q <? n)%nat eqn:HQ'; cbn [andb].
  - assert (HQ : (Q < n)%nat) by (apply Nat.ltb_lt; exact HQ').
    assert (HP : (P <? n)%nat = true) by (apply Nat.ltb_lt; lia).
    rewrite ?HP, ?HQ'. cbn [andb].
    destruct (Z.ltb_spec (sort_key (a !!! P)) (sort_key (a !!! Q))) as [Hlt|Hge].
    + destruct (Nat.eqb_spec p P) as [->|HnP].
      * rewrite ?HP. cbn [andb].
        rewrite list_lookup_total_insert_ne by lia.
        rewrite list_lookup_total_insert_eq by lia.
        destruct (Z.leb_spec t (sort_key (a !!! P))),
                 (Z.leb_spec t (sort_key (a !!! Q))); try lia; reflexivity.
      * destruct (Nat.eqb_spec p Q) as [->|HnQ].
        -- rewrite ?HQ'. cbn [andb].
           rewrite list_lookup_total_insert_eq by (rewrite length_insert; lia).
           destruct (Z.leb_spec t (sort_key (a !!! P))),
                    (Z.leb_spec t (sort_key (a !!! Q))); try lia; reflexivity.
        -- rewrite !list_lookup_total_insert_ne by congruence. reflexivity.
    + destruct (Nat.eqb_spec p P) as [->|HnP].
      * rewrite ?HP. cbn [andb].
        destruct (Z.leb_spec t (sort_key (a !!! P))),
                 (Z.leb_spec t (sort_key (a !!! Q))); try lia; reflexivity.
      * destruct (Nat.eqb_spec p Q) as [->|HnQ]; [| reflexivity].
        rewrite ?HQ'. cbn [andb].
        destruct (Z.leb_spec t (sort_key (a !!! P))),
                 (Z.leb_spec t (sort_key (a !!! Q))); try lia; reflexivity.
  - rewrite ?HQ'. cbn [andb].
    destruct (Nat.eqb_spec p P) as [->|HnP].
    + rewrite orb_false_r. reflexivity.
    + destruct (Nat.eqb_spec p Q) as [->|HnQ]; [| reflexivity].
      rewrite ?HQ', ?andb_false_r. reflexivity.
Qed.

(** A whole step: the fold over the iterations, for pairs [P i < Q i]. *)
Lemma step_fold (t : Z) (n : nat) (P Q : nat -> nat) (l : list nat) :
  (forall i, P i < Q i)%nat ->
  forall a : list Z,
    (n <= length a)%nat ->
    let a' := fold_left (fun a i => compare_swap (Z.of_nat n) a (Z.of_nat (P i))
                                                 (Z.of_nat (Q i))) l a in
    length a' = length a /\ drop n a' = drop n a /\ a' ≡ₚ a /\
    forall p, bkey t n a' p = fold_left (fun B i => bcs B (P i) (Q i)) l (bkey t n a) p.
Proof.
  intros HPQ. induction l as [|i l IH]; intros a Hn; cbv zeta.
  - simpl. auto.
  - simpl fold_left.
    destruct (compare_swap_keeps n a (P i) (Q i) (HPQ i) Hn) as (L1 & D1 & P1).
    cbv zeta in L1, D1, P1.
    destruct (IH (compare_swap (Z.of_nat n) a (Z.of_nat (P i)) (Z.of_nat (Q i))))
      as (L2 & D2 & P2 & K2); [lia |].
    cbv zeta in L2, D2, P2, K2.
    split; [lia |]. split; [congruence |]. split; [etransitivity; eassumption |].
    intros p. rewrite K2.
    assert (E : forall (B1 B2 : nat -> bool), (forall q, B1 q = B2 q) ->
                forall q, fold_left (fun B i => bcs B (P i) (Q i)) l B1 q
                        = fold_left (fun B i => bcs B (P i) (Q i)) l B2 q).
    { clear. induction l as [|i l IH]; intros B1 B2 HB q; simpl; [apply HB |].
      apply IH. intros q'. unfold bcs. rewrite !HB. reflexivity. }
    apply E. intros q. apply compare_swap_bkey; [apply HPQ | exact Hn].
Qed.

End SortCodeFacts.

Section SortLoops.

Lemma half_clean_ext (j : nat) (B1 B2 : nat -> bool) :
  (forall p, B1 p = B2 p) -> forall p, half_clean j B1 p = half_clean j B2 p.
Proof. intros H p. unfold half_clean. rewrite !H. reflexivity. Qed.

Lemma half_cleans_ext (m : nat) :
  forall B1 B2 : nat -> bool,
    (forall p, B1 p = B2 p) -> forall p, half_cleans m B1 p = half_cleans m B2 p.
Proof.
  induction m as [|m IH]; intros B1 B2 H p; simpl; [apply H |].
  apply IH. apply half_clean_ext. exact H.
Qed.

Lemma sorted_block_ext (B1 B2 : nat -> bool) (base s : nat) :
  (forall p, B1 p = B2 p) -> sorted_block B2 base s -> sorted_block B1 base s.
Proof.
  intros H HS p q Hp Hpq Hq. rewrite !H. apply HS; assumption.
Qed.

Lemma sort_keeps_refl (n : nat) (a : list Z) : sort_keeps n a a.
Proof. repeat split; reflexivity. Qed.

Lemma sort_keeps_trans (n : nat) (a1 a2 a3 : list Z) :
  sort_keeps n a1 a2 -> sort_keeps n a2 a3 -> sort_keeps n a1 a3.
Proof.
  intros (L1 & D1 & P1) (L2 & D2 & P2).
  repeat split; [congruence | congruence | etransitivity; eassumption].
Qed.

Lemma bkey_out (t : Z) (n : nat) (a : list Z) (p : nat) :
  (n <= p)%nat -> bkey t n a p = false.
Proof.
  intros H. unfold bkey. destruct (Nat.ltb_spec p n); [lia | reflexivity].
Qed.

Lemma first_step_code (m n : nat) (a : list Z) :
  (n <= length a)%nat ->
  let a' := fold_left (sort_first_step_iter (Z.of_nat (2 ^ m)) (Z.of_nat n))
                      (seq 0 (Z.to_nat (Z.of_nat n))) a in
  sort_keeps n a a' /\
  forall t p, bkey t n a' p = mirror (2 ^ m) (bkey t n a) p.
Proof.
  intros Hn. cbv zeta. rewrite Nat2Z.id.
  rewrite (fold_left_ext_seq _
             (fun a i => compare_swap (Z.of_nat n) a (Z.of_nat (first_P (2 ^ m) i))
                                      (Z.of_nat (first_Q (2 ^ m) i))))
    by (intros; apply sort_first_step_iter_nat).
  destruct (first_pairs (2 ^ m) (pow2_pos m)) as (HPQ & _).
  split.
  - destruct (step_fold 0 n _ _ (seq 0 n) HPQ a Hn) as (L & D & P & _).
    repeat split; assumption.
  - intros t p.
    destruct (step_fold t n _ _ (seq 0 n) HPQ a Hn) as (_ & _ & _ & K).
    rewrite K. apply first_step_mirror; [apply pow2_pos |].
    intros q Hq. apply bkey_out. exact Hq.
Qed.

Lemma second_step_code (m n : nat) (a : list Z) :
  (n <= length a)%nat ->
  let a' := fold_left (sort_second_step_iter (Z.of_nat (2 ^ m)) (Z.of_nat n))
                      (seq 0 (Z.to_nat (Z.of_nat n))) a in
  sort_keeps n a a' /\
  forall t p, bkey t n a' p = half_clean (2 ^ m) (bkey t n a) p.
Proof.
  intros Hn. cbv zeta. rewrite Nat2Z.id.
  rewrite (fold_left_ext_seq _
             (fun a i => compare_swap (Z.of_nat n) a (Z.of_nat (first_P (2 ^ m) i))
                                      (Z.of_nat (second_Q (2 ^ m) i))))
    by (intros; apply sort_second_step_iter_nat).
  destruct (second_pairs (2 ^ m) (pow2_pos m)) as (HPQ & _).
  split.
  - destruct (step_fold 0 n _ _ (seq 0 n) HPQ a Hn) as (L & D & P & _).
    repeat split; assumption.
  - intros t p.
    destruct (step_fold t n _ _ (seq 0 n) HPQ a Hn) as (_ & _ & _ & K).
    rewrite K. apply second_step_half_clean; [apply pow2_pos |].
    intros q Hq. apply bkey_out. exact Hq.
Qed.

Lemma sort_second_steps_0 (fuel : nat) (count : Z) (a : list Z) :
  sort_second_steps fuel 0 count a = a.
Proof. destruct fuel; reflexivity. Qed.

Lemma sort_second_steps_S (fuel : nat) (j count : Z) (a : list Z) :
  sort_second_steps (S fuel) j count a =
  if (0 <? j)%Z then
    sort_second_steps fuel (j / 2) count
      (fold_left (sort_second_step_iter j count) (seq 0 (Z.to_nat count)) a)
  else a.
Proof. reflexivity. Qed.

Lemma sort_stages_S (fuel : nat) (k count : Z) (a : list Z) :
  sort_stages (S fuel) k count a =
  if (k <? count)%Z then
    sort_stages fuel (k * 2) count
      (sort_second_steps (Z.to_nat k) (k / 2) count
         (fold_left (sort_first_step_iter k count) (seq 0 (Z.to_nat count)) a))
  else a.
Proof. reflexivity. Qed.

Lemma pow2_half (l : nat) : (Z.of_nat (2 ^ S l) / 2 = Z.of_nat (2 ^ l))%Z.
Proof.
  replace (Z.of_nat (2 ^ S l)) with (Z.of_nat (2 ^ l) * 2)%Z
    by (rewrite Nat.pow_succ_r'; lia).
  apply Z.div_mul. lia.
Qed.

(** The second steps from stride [2^l] down to 1, given fuel for them. *)
Lemma sort_second_steps_spec (n : nat) (l : nat) :
  forall (fuel : nat) (a : list Z),
    (l < fuel)%nat -> (n <= length a)%nat ->
    let a' := sort_second_steps fuel (Z.of_nat (2 ^ l)) (Z.of_nat n) a in
    sort_keeps n a a' /\
    forall t p, bkey t n a' p = half_cleans (S l) (bkey t n a) p.
Proof.
  induction l as [|l IH]; intros fuel a Hfuel Hn; cbv zeta;
    (destruct fuel as [|fuel]; [lia |]); rewrite sort_second_steps_S.
  - change (Z.of_nat (2 ^ 0)) with 1%Z. change (0 <? 1)%Z with true.
    cbv iota. change (1 / 2)%Z with 0%Z.
    rewrite sort_second_steps_0.
    destruct (second_step_code 0 n a Hn) as [Hk HB]. cbv zeta in Hk, HB.
    change (Z.of_nat (2 ^ 0)) with 1%Z in Hk, HB.
    split; [exact Hk |]. intros t p. rewrite HB. reflexivity.
  - destruct (Z.ltb_spec 0 (Z.of_nat (2 ^ S l))) as [_|H];
      [| pose proof (pow2_pos (S l)); lia].
    rewrite pow2_half.
    destruct (second_step_code (S l) n a Hn) as [Hk HB]. cbv zeta in Hk, HB.
    set (a1 := fold_left _ _ a) in *.
    destruct (IH fuel a1) as [Hk2 HB2]; [lia | destruct Hk as (L & _); lia |].
    cbv zeta in Hk2, HB2.
    split; [eapply sort_keeps_trans; eassumption |].
    intros t p. rewrite HB2.
    change (half_cleans (S (S l)) (bkey t n a))
      with (half_cleans (S l) (half_clean (2 ^ S l) (bkey t n a))).
    apply half_cleans_ext. intros q. apply HB.
Qed.

(** One stage of the code is one stage of the network. *)
Lemma sort_stage_code (n m : nat) (a : list Z) :
  (n <= length a)%nat ->
  let a1 := fold_left (sort_first_step_iter (Z.of_nat (2 ^ m)) (Z.of_nat n))
                      (seq 0 (Z.to_nat (Z.of_nat n))) a in
  let a2 := sort_second_steps (Z.to_nat (Z.of_nat (2 ^ m)))
                              (Z.of_nat (2 ^ m) / 2) (Z.of_nat n) a1 in
  sort_keeps n a a2 /\
  forall t p, bkey t n a2 p = stage m (bkey t n a) p.
Proof.
  intros Hn. cbv zeta.
  destruct (first_step_code m n a Hn) as [Hk HB]. cbv zeta in Hk, HB.
  set (a1 := fold_left _ _ a) in *.
  unfold stage. destruct m as [|m].
  - change (Z.of_nat (2 ^ 0) / 2)%Z with 0%Z. rewrite sort_second_steps_0.
    split; [exact Hk |]. intros t p. simpl half_cleans. apply HB.
  - rewrite pow2_half, Nat2Z.id.
    destruct (sort_second_steps_spec n m (2 ^ S m) a1) as [Hk2 HB2].
    { pose proof (Nat.pow_gt_lin_r 2 (S m)). lia. }
    { destruct Hk as (L & _). lia. }
    cbv zeta in Hk2, HB2.
    split; [eapply sort_keeps_trans; eassumption |].
    intros t p. rewrite HB2. apply half_cleans_ext. intros q. apply HB.
Qed.

(** The stages from block size [2^m] on, [d] of them at most. *)
Lemma sort_stages_spec (n : nat) (d : nat) :
  forall (m fuel : nat) (a : list Z),
    (n <= 2 ^ (m + d))%nat -> (d <= fuel)%nat -> (n <= length a)%nat ->
    (forall t c, sorted_block (bkey t n a) (2 ^ m * c) (2 ^ m)) ->
    let a' := sort_stages fuel (Z.of_nat (2 ^ m)) (Z.of_nat n) a in
    sort_keeps n a a' /\ forall t, sorted_block (bkey t n a') 0 n.
Proof.
  induction d as [|d IH]; intros m fuel a Hd Hfuel Hn HS; cbv zeta.
  - assert (E : sort_stages fuel (Z.of_nat (2 ^ m)) (Z.of_nat n) a = a).
    { destruct fuel; [reflexivity |]. rewrite sort_stages_S.
      destruct (Z.ltb_spec (Z.of_nat (2 ^ m)) (Z.of_nat n)); [| reflexivity].
      rewrite Nat.add_0_r in Hd. lia. }
    rewrite E. split; [apply sort_keeps_refl |].
    intros t p q Hp Hpq Hq. rewrite Nat.add_0_r in Hd.
    specialize (HS t 0%nat). rewrite Nat.mul_0_r in HS. apply HS; lia.
  - destruct fuel as [|fuel]; [lia |]. rewrite sort_stages_S.
    destruct (Z.ltb_spec (Z.of_nat (2 ^ m)) (Z.of_nat n)) as [Hlt|Hge].
    + destruct (sort_stage_code n m a Hn) as [Hk HB]. cbv zeta in Hk, HB.
      set (a2 := sort_second_steps _ _ _ _) in *.
      replace (Z.of_nat (2 ^ m) * 2)%Z with (Z.of_nat (2 ^ S m))
        by (rewrite Nat.pow_succ_r'; lia).
      destruct (IH (S m) fuel a2) as [Hk2 HS2].
      * replace (S m + d)%nat with (m + S d)%nat by lia. exact Hd.
      * lia.
      * destruct Hk as (L & _). lia.
      * intros t c. apply (sorted_block_ext _ (stage m (bkey t n a))).
        -- intros p. apply HB.
        -- apply stage_sorted. intros c'. apply HS.
      * cbv zeta in Hk2, HS2.
        split; [eapply sort_keeps_trans; eassumption | exact HS2].
    + split; [apply sort_keeps_refl |].
      intros t p q Hp Hpq Hq.
      specialize (HS t 0%nat). rewrite Nat.mul_0_r in HS. apply HS; lia.
Qed.

(** [cuda_sort_descending] sorts the first [n] entries in descending order
    of their low 16 bits, permutes them among themselves and leaves the
    rest of the array alone. *)
Lemma cuda_sort_descending_spec (a : list Z) (n : nat) :
  (n <= length a)%nat ->
  let a' := cuda_sort_descending a (Z.of_nat n) in
  length a' = length a /\
  drop n a' = drop n a /\
  take n a' ≡ₚ take n a /\
  forall p q, (p <= q)%nat -> (q < n)%nat ->
              (sort_key (a' !!! q) <= sort_key (a' !!! p))%Z.
Proof.
  intros Hn. cbv zeta. unfold cuda_sort_descending. rewrite Nat2Z.id.
  destruct (sort_stages_spec n n 0 n a) as [(L & D & P) HS].
  - simpl. pose proof (Nat.pow_gt_lin_r 2 n). lia.
  - lia.
  - exact Hn.
  - intros t c p q Hp Hpq Hq Hv. simpl in *. replace p with q by lia. exact Hv.
  - cbv zeta in L, D, P, HS. change (Z.of_nat (2 ^ 0)) with 1%Z in *.
    set (a' := sort_stages n 1 (Z.of_nat n) a) in *.
    split; [exact L |]. split; [exact D |]. split.
    + apply (Permutation_app_inv_r (drop n a)).
      rewrite <- D at 1. rewrite !take_drop. exact P.
    + intros p q Hpq Hq.
      specialize (HS (sort_key (a' !!! q)) p q).
      unfold bkey in HS.
      destruct (Nat.ltb_spec q n); [| lia].
      destruct (Nat.ltb_spec p n); [| lia].
      rewrite Z.leb_refl in HS. cbn [andb] in HS.
      apply Z.leb_le. apply HS; [lia | lia | lia | reflexivity].
Qed.

End SortLoops.

Section SortPackFacts.

(** Packing [n] entries overwrites the first [n] slots in order. *)
Lemma pack_fold (f : nat -> Z) (n : nat) :
  forall s : list Z,
    (n <= length s)%nat ->
    fold_left (fun s k => <[k := f k]> s) (seq 0 n) s = map f (seq 0 n) ++ drop n s.
Proof.
  induction n as [|n IH]; intros s Hn.
  - simpl. rewrite drop_0. reflexivity.
  - rewrite seq_S, fold_left_app, map_app. simpl.
    rewrite IH by lia.
    assert (Hl : length (map f (seq 0 n)) = n)
      by (rewrite length_map, length_seq; reflexivity).
    rewrite insert_app_r_alt by lia. rewrite Hl, Nat.sub_diag.
    destruct (drop n s) as [|x t] eqn:E.
    + apply (f_equal length) in E. rewrite length_drop in E. simpl in E. lia.
    + assert (E' : drop (S n) s = t).
      { replace (S n) with (n + 1)%nat by lia.
        rewrite <- drop_drop, E. reflexivity. }
      rewrite E'. simpl. rewrite <- app_assoc. reflexivity.
Qed.

(** An entry packed from an index and a key that both fit 16 bits gives
    them back. *)
Lemma pack_fields (k : nat) (key : Z) :
  (Z.of_nat k < 2 ^ 16)%Z -> (0 <= key < 2 ^ 16)%Z ->
  let e := u32 (Z.lor (Z.shiftl (Z.of_nat k) 16) key) in
  sort_key e = key /\ sort_pid e = k.
Proof.
  intros Hk Hkey. cbv zeta.
  assert (Hland : Z.land (Z.shiftl (Z.of_nat k) 16) key = 0%Z).
  { apply Z.bits_inj'. intros i Hi. rewrite Z.land_spec, Z.bits_0.
    destruct (Z.ltb_spec i 16).
    - rewrite Z.shiftl_spec_low by lia. reflexivity.
    - replace (Z.testbit key i) with false; [apply andb_false_r |].
      symmetry. destruct (Z.eq_dec key 0%Z) as [->|]; [apply Z.bits_0 |].
      apply Z.bits_above_log2; [lia |].
      apply Z.log2_lt_pow2; [lia |].
      pose proof (Z.pow_le_mono_r 2 16 i). lia. }
  assert (Hlor : Z.lor (Z.shiftl (Z.of_nat k) 16) key = (Z.of_nat k * 2 ^ 16 + key)%Z).
  { rewrite <- Z.shiftl_mul_pow2 by lia.
    rewrite <- Z.lxor_lor by exact Hland.
    symmetry. apply Z.add_nocarry_lxor. exact Hland. }
  rewrite Hlor. unfold u32.
  rewrite Z.mod_small by lia.
  unfold sort_key, sort_pid. split.
  - change 65535%Z with (Z.ones 16). rewrite Z.land_ones by lia.
    rewrite Z.add_comm, Z.mod_add by lia. apply Z.mod_small. lia.
  - rewrite Z.shiftr_div_pow2 by lia.
    rewrite Z.add_comm, Z.div_add by lia.
    rewrite Z.div_small by lia. simpl. apply Nat2Z.id.
Qed.

(** What [runner_dosort_cuda] leaves in the sort array. *)
Lemma runner_dosort_cuda_spec (g : Consts.t) (parts_pos : list float4.t)
    (count_i : nat) (sort_i : list Z) (sid : nat) :
  (count_i <= length sort_i)%nat ->
  let shift := [Consts.cuda_shiftn g !!! (3 * sid + 0)%nat;
                Consts.cuda_shiftn g !!! (3 * sid + 1)%nat;
                Consts.cuda_shiftn g !!! (3 * sid + 2)%nat] in
  let out := runner_dosort_cuda g parts_pos count_i sort_i sid in
  length out = length sort_i /\
  drop count_i out = drop count_i sort_i /\
  take count_i out
    ≡ₚ map (sort_pack g (sort_nshift g sid) shift parts_pos) (seq 0 count_i) /\
  forall p q, (p <= q)%nat -> (q < count_i)%nat ->
              (sort_key (out !!! q) <= sort_key (out !!! p))%Z.
Proof.
  intros Hn. cbv zeta. unfold runner_dosort_cuda.
  set (f := sort_pack g (sort_nshift g sid) _ parts_pos).
  rewrite (pack_fold f count_i sort_i Hn).
  set (s := map f (seq 0 count_i) ++ drop count_i sort_i).
  assert (Hl : length (map f (seq 0 count_i)) = count_i)
    by (rewrite length_map, length_seq; reflexivity).
  assert (Hs : length s = length sort_i).
  { unfold s. rewrite length_app, Hl, length_drop. lia. }
  destruct (cuda_sort_descending_spec s count_i) as (L & D & P & S); [lia |].
  cbv zeta in L, D, P, S.
  split; [congruence |]. split; [| split].
  - rewrite D. unfold s. rewrite drop_app_length'; [reflexivity | symmetry; exact Hl].
  - rewrite P. unfold s. rewrite take_app_length'; [reflexivity | symmetry; exact Hl].
  - exact S.
Qed.

(** C7: for any cell contents [parts_pos], any direction [sid] and any
    particle count [count_i] that fits the sort array, when
    [runner_dosort_cuda] is done the first [count_i] slots of the sort
    array hold a permutation of the entries packed for the particles
    [0 .. count_i - 1], in descending order of their low 16 bits; the
    rest of the array is as it was.  The entry packed for particle [k]
    has [k] in its high 16 bits and the quantized projection in its low
    16 bits, when both fit 16 bits. *)
Theorem runner_dosort_cuda_sorted (g : Consts.t) (parts_pos : list float4.t)
    (count_i : nat) (sort_i : list Z) (sid : nat) :
  (count_i <= length sort_i)%nat ->
  let shift := [Consts.cuda_shiftn g !!! (3 * sid + 0)%nat;
                Consts.cuda_shiftn g !!! (3 * sid + 1)%nat;
                Consts.cuda_shiftn g !!! (3 * sid + 2)%nat] in
  let pack := sort_pack g (sort_nshift g sid) shift parts_pos in
  let out := runner_dosort_cuda g parts_pos count_i sort_i sid in
  (length out = length sort_i /\
   drop count_i out = drop count_i sort_i /\
   take count_i out ≡ₚ map pack (seq 0 count_i) /\
   forall p q, (p <= q)%nat -> (q < count_i)%nat ->
               (sort_key (out !!! q) <= sort_key (out !!! p))%Z) /\
  forall k,
    let pix := parts_pos !!! k in
    let quantized :=
      float2uint (Consts.cuda_dscale g *
                  (sort_nshift g sid + float4.x pix * shift !!! 0%nat
                   + float4.y pix * shift !!! 1%nat
                   + float4.z pix * shift !!! 2%nat))%R in
    (Z.of_nat k < 2 ^ 16)%Z -> (quantized < 2 ^ 16)%Z ->
    sort_pid (pack k) = k /\ sort_key (pack k) = quantized.
Proof.
  intros Hn. cbv zeta. split.
  - apply runner_dosort_cuda_spec. exact Hn.
  - intros k Hk Hq. unfold sort_pack.
    match goal with
    | |- context [Z.lor _ (float2uint ?v)] => set (q := float2uint v) in *
    end.
    assert (H0 : (0 <= q)%Z).
    { unfold q, float2uint, u32. apply Z.mod_pos_bound. lia. }
    destruct (pack_fields k q Hk (conj H0 Hq)) as [K P].
    split; [exact P | exact K].
Qed.

End SortPackFacts.

(** Three particles on the x axis, sorted along the first direction. *)
Definition ex_consts_sort : Consts.t :=
  Consts.mk 1 4 2 1 0 1 1 [0%nat] [Fluxes.mk []]
            [] [] [1; 1; 1]%R [1; 0; 0]%R [1; 0; 0]%R [] [0%nat] [0%nat] [] [0%nat] [0%nat].

Definition ex_pos_sort : list float4.t :=
  [float4.mk 0 0 0 1; float4.mk 2 0 0 1; float4.mk 1 0 0 1].

Lemma runner_dosort_cuda_sorted_witness :
  (3 <= length [0; 0; 0; 7]%Z)%nat /\
  drop 3 (runner_dosort_cuda ex_consts_sort ex_pos_sort 3 [0; 0; 0; 7]%Z 0) = [7%Z] /\
  (sort_key (runner_dosort_cuda ex_consts_sort ex_pos_sort 3 [0; 0; 0; 7]%Z 0 !!! 2%nat)
   <= sort_key (runner_dosort_cuda ex_consts_sort ex_pos_sort 3 [0; 0; 0; 7]%Z 0 !!! 0%nat))%Z.
Proof.
  assert (H : (3 <= length [0; 0; 0; 7]%Z)%nat) by (simpl; lia).
  split; [exact H |].
  destruct (runner_dosort_cuda_sorted ex_consts_sort ex_pos_sort 3 [0; 0; 0; 7]%Z 0 H)
    as ((_ & D & _ & S) & _).
  split; [exact D |].
  apply S; lia.
Defined.

(** ** The pair walk reaches every pair within the cutoff *)

Section LoopVisits.

Context {A : Type}.
Variable cond : nat -> bool.

Lemma for_down_while_snoc (n : nat) :
  forall l : list nat,
    for_down_while cond (fun acc k => acc ++ [k]) n l = l ++ for_down_visits cond n.
Proof.
  unfold for_down_visits. induction n as [|n IH]; intros l; simpl.
  - rewrite app_nil_r. reflexivity.
  - destruct (cond n); [| rewrite app_nil_r; reflexivity].
    rewrite (IH (l ++ [n])), (IH [n]), <- app_assoc. reflexivity.
Qed.

(** The descending loop runs its body at the iterations of
    [for_down_visits], whatever the body is. *)
Lemma for_down_while_visits (body : A -> nat -> A) (n : nat) :
  forall acc : A,
    for_down_while cond body n acc = fold_left body (for_down_visits cond n) acc.
Proof.
  induction n as [|n IH]; intros acc; [reflexivity |].
  unfold for_down_visits. simpl. destruct (cond n); [| reflexivity].
  rewrite for_down_while_snoc. simpl. apply IH.
Qed.


Lemma for_up_while_snoc (n fuel : nat) :
  forall l : list nat,
    for_up_while cond (fun acc k => acc ++ [k]) n fuel l
    = l ++ for_up_while cond (fun acc k => acc ++ [k]) n fuel [].
Proof.
  induction fuel as [|fuel IH]; intros l; simpl.
  - rewrite app_nil_r. reflexivity.
  - destruct (cond (n - S fuel)); [| rewrite app_nil_r; reflexivity].
    rewrite (IH (l ++ [(n - S fuel)%nat])), (IH [(n - S fuel)%nat]), <- app_assoc.
    reflexivity.
Qed.

Lemma for_up_while_fold (body : A -> nat -> A) (n fuel : nat) :
  forall acc : A,
    for_up_while cond body n fuel acc
    = fold_left body (for_up_while cond (fun acc k => acc ++ [k]) n fuel []) acc.
Proof.
  induction fuel as [|fuel IH]; intros acc; [reflexivity |].
  simpl. destruct (cond (n - S fuel)); [| reflexivity].
  rewrite for_up_while_snoc. simpl. apply IH.
Qed.

(** The ascending loop runs its body at the iterations of [for_up_visits],
    whatever the body is. *)
Lemma for_up_while_visits (body : A -> nat -> A) (n : nat) (acc : A) :
  for_up_while cond body n n acc = fold_left body (for_up_visits cond n) acc.
Proof. apply for_up_while_fold. Qed.



End LoopVisits.

Section Quantize.

Local Open Scope R_scope.

(** Conversion of a non-negative value that fits: the integer part. *)
Lemma float2uint_floor (v : R) (m : Z) :
  0 <= v -> v < IZR m -> (m <= 2 ^ 32)%Z ->
  float2uint v = Int_part v /\ (0 <= Int_part v < m)%Z.
Proof.
  intros H0 Hm Hm32.
  destruct (base_Int_part v) as [Hl Hu].
  assert (Hlo : (0 <= Int_part v)%Z).
  { assert (H : (-1 < Int_part v)%Z) by (apply lt_IZR; lra). lia. }
  assert (Hhi : (Int_part v < m)%Z) by (apply lt_IZR; lra).
  split; [| lia].
  unfold float2uint, float2int, u32.
  destruct (Rlt_dec v 0) as [Hneg|_]; [lra |].
  apply Z.mod_small. lia.
Qed.

(** Integer parts of two sums ordered up to the two ticks of slack. *)
Lemma Int_part_slack (a b c d : R) :
  a + b <= c + d ->
  (Int_part a + Int_part b < Int_part (2 + c) + Int_part d)%Z.
Proof.
  intros H.
  destruct (base_Int_part a) as [Ha _]. destruct (base_Int_part b) as [Hb _].
  destruct (base_Int_part (2 + c)) as [_ Hc]. destruct (base_Int_part d) as [_ Hd].
  apply lt_IZR. rewrite !plus_IZR. lra.
Qed.

(** The projection of a vector shorter than [c] on a direction of norm at
    most 1 is below [c]. *)
Lemma projection_below_cutoff (vx vy vz nx ny nz c : R) :
  0 <= c -> nx * nx + ny * ny + nz * nz <= 1 ->
  vx * vx + vy * vy + vz * vz < c * c ->
  vx * nx + vy * ny + vz * nz < c.
Proof.
  intros Hc Hn Hv.
  destruct (Rlt_dec (vx * nx + vy * ny + vz * nz) c) as [H|H]; [exact H | exfalso].
  apply Rnot_lt_le in H.
  set (d := vx * nx + vy * ny + vz * nz) in *.
  assert (Hd2 : c * c <= d * d) by nra.
  assert (HCS : d * d <= (vx * vx + vy * vy + vz * vz) * (nx * nx + ny * ny + nz * nz)).
  { unfold d.
    pose proof (Rle_0_sqr (vx * ny - vy * nx)).
    pose proof (Rle_0_sqr (vx * nz - vz * nx)).
    pose proof (Rle_0_sqr (vy * nz - vz * ny)).
    unfold Rsqr in *. nra. }
  assert (Hv0 : 0 <= vx * vx + vy * vy + vz * vz) by nra.
  nra.
Qed.

End Quantize.

Section SortedEntries.

(** The first [count] slots of a permutation of packed entries are the
    packed entries. *)
Lemma perm_entries (f : nat -> Z) (sort : list Z) (count : nat) :
  take count sort ≡ₚ map f (seq 0 count) ->
  (forall k, (k < count)%nat -> exists b, (b < count)%nat /\ sort !!! k = f b) /\
  (forall b, (b < count)%nat -> exists k, (k < count)%nat /\ sort !!! k = f b).
Proof.
  intros HP.
  assert (Hlen : length (take count sort) = count).
  { rewrite HP, length_map, length_seq. reflexivity. }
  assert (Hc : (count <= length sort)%nat).
  { rewrite length_take in Hlen. lia. }
  split.
  - intros k Hk.
    assert (Hin : In (sort !!! k) (map f (seq 0 count))).
    { apply (Permutation_in _ HP). apply list_elem_of_In.
      apply list_elem_of_lookup. exists k.
      rewrite lookup_take_lt by exact Hk.
      apply list_lookup_lookup_total_lt. lia. }
    apply in_map_iff in Hin. destruct Hin as (b & Hb & Hin).
    apply in_seq in Hin. exists b. split; [lia | symmetry; exact Hb].
  - intros b Hb.
    assert (Hin : In (f b) (take count sort)).
    { apply (Permutation_in _ (Permutation_sym HP)).
      apply in_map. apply in_seq. lia. }
    apply list_elem_of_In, list_elem_of_lookup in Hin. destruct Hin as (k & Hk).
    assert (Hkc : (k < count)%nat).
    { apply lookup_lt_Some in Hk. lia. }
    rewrite lookup_take_lt in Hk by exact Hkc.
    exists k. split; [exact Hkc |]. apply list_lookup_total_correct. exact Hk.
Qed.

End SortedEntries.

Section PairWalk.

Local Open Scope R_scope.

Variable g : Consts.t.
Variable sid : nat.
Variables parts_pos_i parts_pos_j : list float4.t.
Variables count_i count_j : nat.
Variables buf_i buf_j : list Z.
Variable shift : list R.

Let n0 := Consts.cuda_shiftn g !!! (3 * sid + 0)%nat.
Let n1 := Consts.cuda_shiftn g !!! (3 * sid + 1)%nat.
Let n2 := Consts.cuda_shiftn g !!! (3 * sid + 2)%nat.

(** The value [runner_dosort_cuda] quantizes for a particle at [p]. *)
Let quant (p : float4.t) : R :=
  Consts.cuda_dscale g *
  (sort_nshift g sid + float4.x p * n0 + float4.y p * n1 + float4.z p * n2).

Let sort_i := runner_dosort_cuda g parts_pos_i count_i buf_i sid.
Let sort_j := runner_dosort_cuda g parts_pos_j count_j buf_j sid.
Let dshift := pair_dshift g shift sid.

Hypothesis Hdscale : 0 <= Consts.cuda_dscale g.
Hypothesis Hcutoff : 0 <= Consts.cuda_cutoff g.
Hypothesis Hcutoff2 :
  Consts.cuda_cutoff2 g = Consts.cuda_cutoff g * Consts.cuda_cutoff g.
Hypothesis Hdmaxdist :
  Consts.cuda_dmaxdist g
  = float2uint (2 + Consts.cuda_dscale g * Consts.cuda_cutoff g).
Hypothesis Hdmax_fits :
  2 + Consts.cuda_dscale g * Consts.cuda_cutoff g < 2147483648.
Hypothesis Hnorm : n0 * n0 + n1 * n1 + n2 * n2 <= 1.
Hypothesis Hbuf_i : (count_i <= length buf_i)%nat.
Hypothesis Hbuf_j : (count_j <= length buf_j)%nat.
Hypothesis Hcount_i : (Z.of_nat count_i <= 65536)%Z.
Hypothesis Hcount_j : (Z.of_nat count_j <= 65536)%Z.
Hypothesis Hquant_i :
  forall a, (a < count_i)%nat -> 0 <= quant (parts_pos_i !!! a) < 65536.
Hypothesis Hquant_j :
  forall b, (b < count_j)%nat -> 0 <= quant (parts_pos_j !!! b) < 65536.
Hypothesis Hshift :
  0 <= Consts.cuda_dscale g *
       (shift !!! 0%nat * n0 + shift !!! 1%nat * n1 + shift !!! 2%nat * n2)
  < 2147483648.

Lemma sort_pack_fields (parts_pos : list float4.t) (count a : nat) :
  (Z.of_nat count <= 65536)%Z -> (a < count)%nat ->
  0 <= quant (parts_pos !!! a) < 65536 ->
  let e := sort_pack g (sort_nshift g sid) [n0; n1; n2] parts_pos a in
  sort_key e = Int_part (quant (parts_pos !!! a)) /\ sort_pid e = a /\
  (0 <= Int_part (quant (parts_pos !!! a)) < 65536)%Z.
Proof.
  intros Hc Ha Hq. cbv zeta.
  destruct (float2uint_floor (quant (parts_pos !!! a)) 65536) as [E Hr];
    [lra | lra | lia |].
  unfold sort_pack.
  change ([n0; n1; n2] !!! 0%nat) with n0.
  change ([n0; n1; n2] !!! 1%nat) with n1.
  change ([n0; n1; n2] !!! 2%nat) with n2.
  fold (quant (parts_pos !!! a)).
  destruct (pack_fields a (float2uint (quant (parts_pos !!! a)))) as [K P].
  - lia.
  - rewrite E. change (2 ^ 16)%Z with 65536%Z. exact Hr.
  - cbv zeta in K, P. rewrite K, P, E. auto.
Qed.

Lemma dshift_floor :
  let B := Consts.cuda_dscale g *
           (shift !!! 0%nat * n0 + shift !!! 1%nat * n1 + shift !!! 2%nat * n2) in
  dshift = Int_part B /\ (0 <= Int_part B < 2147483648)%Z.
Proof.
  cbv zeta. unfold dshift, pair_dshift.
  assert (E0 : Consts.cuda_shiftn g !!! (3 * sid)%nat = n0)
    by (unfold n0; f_equal; lia).
  rewrite E0. fold n1 n2.
  apply float2uint_floor; [apply Hshift | apply Hshift | lia].
Qed.

Lemma dmaxdist_floor :
  let C := 2 + Consts.cuda_dscale g * Consts.cuda_cutoff g in
  Consts.cuda_dmaxdist g = Int_part C /\ (0 <= Int_part C < 2147483648)%Z.
Proof.
  cbv zeta. rewrite Hdmaxdist.
  apply float2uint_floor; [| exact Hdmax_fits | lia].
  assert (0 <= Consts.cuda_dscale g * Consts.cuda_cutoff g)
    by (apply Rmult_le_pos; assumption).
  lra.
Qed.

(** The inner loops of [runner_dopair_left_cuda] and
    [runner_dopair_right_cuda] run their body at the visited entries. *)
Lemma runner_dopair_cuda_inner_visits (fc : ForceConsts.t)
    (eval : bool -> nat -> nat -> nat -> R -> R -> nat -> nat -> float3.t ->
            R -> R -> list R -> R * list R)
    (spline : R -> R -> R) (ind_i ind_j spid : nat) (pix : float4.t)
    (pdatai_i : int4.t) (parts_datai_j : list int4.t) (di : Z)
    (acc : list R * R) :
  let body := runner_dopair_cuda_inner g fc eval spline ind_i ind_j spid pix
                pdatai_i parts_pos_j parts_datai_j sort_j in
  for_down_while (left_cond g sort_j dshift di) body count_j acc
  = fold_left body (for_down_visits (left_cond g sort_j dshift di) count_j) acc /\
  for_up_while (right_cond g sort_j dshift di) body count_j count_j acc
  = fold_left body (for_up_visits (right_cond g sort_j dshift di) count_j) acc.
Proof.
  cbv zeta. split; [apply for_down_while_visits | apply for_up_while_visits].
Qed.


End PairWalk.

(** None of the 13 directions of the table is longer than 1. *)
Lemma cuda_shiftn_table_norm (sid : nat) :
  (sid < 13)%nat ->
  (cuda_shiftn_table !!! (3 * sid + 0)%nat * cuda_shiftn_table !!! (3 * sid + 0)%nat
   + cuda_shiftn_table !!! (3 * sid + 1)%nat * cuda_shiftn_table !!! (3 * sid + 1)%nat
   + cuda_shiftn_table !!! (3 * sid + 2)%nat * cuda_shiftn_table !!! (3 * sid + 2)%nat
   <= 1)%R.
Proof.
  intros H.
  do 13 (destruct sid as [|sid]; [cbn; lra |]). lia.
Qed.

Lemma float2uint_value (v : R) (z : Z) :
  (0 <= z < 2 ^ 32)%Z -> (IZR z <= v < IZR z + 1)%R -> float2uint v = z.
Proof.
  intros Hz Hv.
  assert (E : z = Int_part v) by (apply Int_part_spec; lra).
  destruct (float2uint_floor v (2 ^ 32)) as [F _].
  - apply Rle_trans with (IZR z)%R; [apply IZR_le; lia | lra].
  - apply Rlt_le_trans with (IZR z + 1)%R; [lra |].
    rewrite <- (plus_IZR z 1). apply IZR_le. lia.
  - lia.
  - rewrite F. symmetry. exact E.
Qed.

(** Two cells of edge 1 along x, one particle each, cutoff 1. *)
Definition ex_consts_pair : Consts.t :=
  Consts.mk 1 1 1 1 3 1 2 [0%nat] [Fluxes.mk []]
            [0; 0; 0; 1; 0; 0]%R [2; 1; 1]%R [1; 1; 1]%R
            cuda_shiftn_table cuda_shift_table
            [] [0%nat] [0%nat] [] [0%nat] [0%nat].

(** * Further properties of the code *)

Section SmoothingFacts.

Local Open Scope R_scope.

Lemma spline_arg_pos (r2 h : R) :
  0 < r2 -> 0 < h -> 0 < 1 / (sqrt r2 * h).
Proof.
  intros Hr Hh. unfold Rdiv. rewrite Rmult_1_l.
  apply Rinv_0_lt_compat. apply Rmult_lt_0_compat; [apply sqrt_lt_R0 |]; assumption.
Qed.

Lemma spline_norm_pos (h : R) : 0 < h -> 0 < PI * h * h * h.
Proof.
  intros Hh. pose proof PI_RGT_0 as Hpi.
  apply Rmult_lt_0_compat; [| exact Hh].
  apply Rmult_lt_0_compat; [| exact Hh].
  apply Rmult_lt_0_compat; [exact Hpi | exact Hh].
Qed.

(** The value lies between 0 and the normalisation [1 / (pi h^3)]. *)
Theorem w_cubic_spline_cuda_nr_range (r2 h : R) :
  0 < r2 -> 0 < h ->
  0 <= w_cubic_spline_cuda_nr r2 h <= 1 / (PI * h * h * h).
Proof.
  intros Hr Hh. unfold w_cubic_spline_cuda_nr.
  pose proof (spline_arg_pos r2 h Hr Hh) as Hx.
  pose proof (spline_norm_pos h Hh) as Hd.
  set (x := 1 / (sqrt r2 * h)) in *.
  set (d := PI * h * h * h) in *.
  cbv zeta.
  assert (Hy : forall y, 0 <= y <= 1 -> 0 <= y / d <= 1 / d).
  { intros y [Hy0 Hy1]. unfold Rdiv.
    assert (0 < / d) by (apply Rinv_0_lt_compat; exact Hd).
    split; [apply Rmult_le_pos; lra | apply Rmult_le_compat_r; lra]. }
  apply Hy.
  destruct (Rlt_dec x 1) as [H1|H1].
  - assert (0 <= (1 - x) * (1 + x - x * x)) by (apply Rmult_le_pos; nra).
    split; nra.
  - destruct (Rge_dec x 1) as [_|]; [| lra].
    destruct (Rlt_dec x 2) as [H2|H2]; [| lra].
    assert (0 <= 2 - x <= 1) by lra.
    assert (0 <= (2 - x) * (2 - x) <= 1) by nra.
    split; nra.
Qed.

Lemma w_cubic_spline_cuda_nr_range_witness :
  0 <= w_cubic_spline_cuda_nr 4 1 <= 1 / (PI * 1 * 1 * 1).
Proof. apply w_cubic_spline_cuda_nr_range; lra. Defined.

(** The value is 0 exactly when [sqrt r2 * h <= 1/2]: the argument of the
    spline is [1 / (r h)], so the kernel vanishes for close pairs. *)
Theorem w_cubic_spline_cuda_nr_zero (r2 h : R) :
  0 < r2 -> 0 < h ->
  (w_cubic_spline_cuda_nr r2 h = 0 <-> sqrt r2 * h <= 1 / 2).
Proof.
  intros Hr Hh. unfold w_cubic_spline_cuda_nr.
  pose proof (spline_arg_pos r2 h Hr Hh) as Hx.
  pose proof (spline_norm_pos h Hh) as Hd.
  assert (Hrh : 0 < sqrt r2 * h)
    by (apply Rmult_lt_0_compat; [apply sqrt_lt_R0 |]; assumption).
  assert (Hx2 : 2 <= 1 / (sqrt r2 * h) <-> sqrt r2 * h <= 1 / 2).
  { set (t := sqrt r2 * h) in *.
    assert (E : 1 / t * t = 1) by (field; lra).
    split; intros H; nra. }
  set (x := 1 / (sqrt r2 * h)) in *.
  set (d := PI * h * h * h) in *.
  cbv zeta.
  assert (Hy : forall y, y / d = 0 <-> y = 0).
  { intros y. split; intros H; [| rewrite H; unfold Rdiv; ring].
    apply Rmult_eq_reg_r with (/ d);
      [| apply Rgt_not_eq, Rinv_0_lt_compat; exact Hd].
    unfold Rdiv in H. rewrite H. ring. }
  rewrite Hy, <- Hx2.
  destruct (Rlt_dec x 1) as [H1|H1].
  - assert (0 <= (1 - x) * (1 + x - x * x)) by (apply Rmult_le_pos; nra).
    split; intros H0; [exfalso; nra | lra].
  - destruct (Rge_dec x 1) as [_|]; [| lra].
    destruct (Rlt_dec x 2) as [H2|H2].
    + assert (0 < (2 - x) * (2 - x)) by nra.
      split; intros H0; [exfalso; nra | lra].
    + split; intros _; [lra | reflexivity].
Qed.

Lemma w_cubic_spline_cuda_nr_zero_witness :
  w_cubic_spline_cuda_nr (1 / 4) 1 = 0.
Proof.
  apply w_cubic_spline_cuda_nr_zero; [lra | lra |].
  rewrite Rmult_1_r. replace (1 / 4) with ((1 / 2) * (1 / 2)) by field.
  rewrite sqrt_square; lra.
Defined.

(** For a positive squared distance and a positive smoothing length the
    three overloads compute the same value ([rsqrt(r2) / h] of the first is
    [1 / (sqrt(r2) * h)] of the others); the one that also returns the
    distance returns [sqrt r2]. *)
Theorem w_cubic_spline_cuda_overloads (r2 h : R) :
  0 < r2 -> 0 < h ->
  w_cubic_spline_cuda r2 h = w_cubic_spline_cuda_nr r2 h /\
  w_cubic_spline_cuda_r r2 h = (w_cubic_spline_cuda_nr r2 h, sqrt r2).
Proof.
  intros Hr2 Hh.
  unfold w_cubic_spline_cuda, w_cubic_spline_cuda_r, w_cubic_spline_cuda_nr.
  pose proof (sqrt_lt_R0 r2 Hr2) as Hs.
  replace (/ sqrt r2 / h) with (1 / (sqrt r2 * h)) by (field; lra).
  set (x := 1 / (sqrt r2 * h)). cbv zeta.
  assert (E : (if Rlt_dec x 1 then 1 - 3 / 2 * (x * x) + 3 / 4 * (x * x) * x
               else if Rge_dec x 1 then
                      if Rlt_dec x 2 then 1 / 4 * (2 - x) * (2 - x) * (2 - x) else 0
                    else 0)
              = (if Rlt_dec x 1 then 1 - 1.5 * (x * x) + 0.75 * (x * x) * x
                 else if Rge_dec x 1 then
                        if Rlt_dec x 2 then 0.25 * (2 - x) * (2 - x) * (2 - x) else 0
                      else 0)).
  { destruct (Rlt_dec x 1); [lra |].
    destruct (Rge_dec x 1); [| reflexivity].
    destruct (Rlt_dec x 2); lra. }
  rewrite E. split; reflexivity.
Qed.

Lemma w_cubic_spline_cuda_overloads_witness :
  w_cubic_spline_cuda 1 2 = w_cubic_spline_cuda_nr 1 2 /\
  w_cubic_spline_cuda_r 1 2 = (w_cubic_spline_cuda_nr 1 2, sqrt 1).
Proof. apply w_cubic_spline_cuda_overloads; lra. Defined.

End SmoothingFacts.

Section PotentialEvalFacts.

Local Open Scope R_scope.

Lemma poly_snoc (cs : list R) (a x : R) :
  poly (cs ++ [a]) x = poly cs x * x + a.
Proof.
  induction cs as [|b cs IH]; simpl; [ring |].
  rewrite IH, length_app. simpl length. rewrite Nat.add_1_r. simpl pow. ring.
Qed.

Lemma poly_deriv_snoc (cs : list R) (a x : R) :
  poly_deriv (cs ++ [a]) x = poly_deriv cs x * x + poly cs x.
Proof.
  induction cs as [|b cs IH]; simpl; [ring |].
  rewrite IH, length_app. simpl length. rewrite Nat.add_1_r.
  cbn [Nat.pred]. rewrite S_INR.
  destruct (length cs) as [|n]; simpl; ring.
Qed.

Lemma poly_derivable (cs : list R) (x : R) :
  derivable_pt_lim (poly cs) x (poly_deriv cs x).
Proof.
  induction cs as [|a cs IH].
  - apply (derivable_pt_lim_const 0).
  - change (derivable_pt_lim
              (plus_fct (mult_real_fct a (fun y => y ^ length cs)) (poly cs)) x
              (a * (INR (length cs) * x ^ Nat.pred (length cs)) + poly_deriv cs x)).
    apply derivable_pt_lim_plus; [| exact IH].
    apply derivable_pt_lim_scal. apply derivable_pt_lim_pow.
Qed.

Lemma affine_derivable (a b r : R) :
  derivable_pt_lim (fun r => (r - a) * b) r b.
Proof.
  intros eps Heps. exists (mkposreal 1 Rlt_0_1). intros h Hh _.
  replace (((r + h - a) * b - (r - a) * b) / h - b) with 0 by (field; exact Hh).
  rewrite Rabs_R0. exact Heps.
Qed.

(** The loop is Horner's rule for the block polynomial and its
    derivative. *)
Lemma potential_horner_spec (chunk : nat) (c : list R) (x : R) :
  (4 <= chunk)%nat -> (chunk <= length c)%nat ->
  potential_horner chunk c x
  = (poly (block_coeffs chunk c) x, poly_deriv (block_coeffs chunk c) x).
Proof.
  intros H4 Hlen. unfold potential_horner, block_coeffs.
  assert (G : forall m, (m <= chunk - 4)%nat ->
            fold_left (fun '(ee, eff) k =>
                         let eff := eff * x + ee in
                         let ee := ee * x + c !!! k in
                         (ee, eff))
                      (seq 4 m) (c !!! 2%nat * x + c !!! 3%nat, c !!! 2%nat)
            = (poly (take (2 + m) (drop 2 c)) x,
               poly_deriv (take (2 + m) (drop 2 c)) x)).
  { induction m as [|m IH]; intros Hm.
    - assert (E : take (2 + 0) (drop 2 c) = [c !!! 2%nat; c !!! 3%nat]).
      { apply list_eq_same_length with 2%nat.
        - reflexivity.
        - rewrite length_take, length_drop. lia.
        - intros i y z Hi Hy Hz.
          rewrite lookup_take_lt, lookup_drop in Hy by lia.
          rewrite list_lookup_lookup_total_lt in Hy by lia.
          destruct i as [|[|i]]; [| | lia]; simpl in Hz, Hy; congruence. }
      rewrite E. simpl. f_equal; ring.
    - rewrite seq_S, fold_left_app, IH by lia. cbn [fold_left].
      assert (E : take (2 + S m) (drop 2 c)
                  = take (2 + m) (drop 2 c) ++ [c !!! (4 + m)%nat]).
      { replace (2 + S m)%nat with (S (2 + m)) by lia.
        apply take_S_r. rewrite lookup_drop.
        replace (2 + (2 + m))%nat with (4 + m)%nat by lia.
        apply list_lookup_lookup_total_lt. lia. }
      rewrite E, poly_snoc, poly_deriv_snoc. reflexivity. }
  rewrite G by lia. replace (2 + (chunk - 4))%nat with (chunk - 2)%nat by lia.
  reflexivity.
Qed.

(** [potential_eval_r_cuda] returns the energy of the block of its interval
    at [r] and the derivative of that energy with respect to the
    distance. *)
Theorem potential_eval_r_cuda_value_and_derivative (K : PotConsts.t)
    (alpha c : list R) (r : R) :
  let chunk := PotConsts.potential_chunk K in
  let ind := float2int (Rmax 0 (alpha !!! 0%nat +
                                r * (alpha !!! 1%nat + r * alpha !!! 2%nat))) in
  let block := drop (Z.to_nat ind * chunk) c in
  (4 <= chunk)%nat -> (Z.to_nat ind * chunk + chunk <= length c)%nat ->
  (potential_eval_r_cuda K alpha c r).1 = block_energy chunk block r /\
  derivable_pt_lim (block_energy chunk block) r (potential_eval_r_cuda K alpha c r).2.
Proof.
  intros chunk ind block H4 Hlen.
  unfold potential_eval_r_cuda. fold chunk ind block. cbv zeta.
  rewrite potential_horner_spec
    by (try exact H4; unfold block; rewrite length_drop; lia).
  cbn [fst snd]. split; [reflexivity |].
  unfold block_energy.
  change (derivable_pt_lim
            (comp (poly (block_coeffs chunk block))
                  (fun r => (r - block !!! 0%nat) * block !!! 1%nat)) r
            (poly_deriv (block_coeffs chunk block)
                        ((r - block !!! 0%nat) * block !!! 1%nat)
             * block !!! 1%nat)).
  apply derivable_pt_lim_comp; [apply affine_derivable | apply poly_derivable].
Qed.

Lemma r2_rsqrt (r2 : R) : 0 < r2 -> r2 * / sqrt r2 = sqrt r2.
Proof.
  intros H. pose proof (sqrt_lt_R0 r2 H) as Hs.
  rewrite <- (sqrt_sqrt r2) at 1 by lra. field. lra.
Qed.

(** [potential_eval_cuda] returns the energy of the block of its interval
    at the distance [sqrt r2] and, as [*f], the derivative of that energy
    with respect to the distance divided by the distance. *)
Theorem potential_eval_cuda_value_and_force (K : PotConsts.t)
    (p : PotentialData.t) (r2 : R) :
  let chunk := PotConsts.potential_chunk K in
  let r := sqrt r2 in
  let ind := float2int (Rmax 0
               (float3.x (PotentialData.alpha p) +
                r * (float3.y (PotentialData.alpha p) +
                     r * float3.z (PotentialData.alpha p)))) in
  let block := drop (Z.to_nat ind * chunk) (PotentialData.c p) in
  0 < r2 -> (4 <= chunk)%nat ->
  (Z.to_nat ind * chunk + chunk <= length (PotentialData.c p))%nat ->
  (potential_eval_cuda K p r2).1 = block_energy chunk block r /\
  derivable_pt_lim (block_energy chunk block) r
                   ((potential_eval_cuda K p r2).2 * r).
Proof.
  intros chunk r ind block Hr H4 Hlen.
  unfold potential_eval_cuda. rewrite (r2_rsqrt r2 Hr).
  fold r chunk ind block. cbv zeta.
  rewrite potential_horner_spec
    by (try exact H4; unfold block; rewrite length_drop; lia).
  cbn [fst snd]. split; [reflexivity |].
  assert (Hs : 0 < r) by (apply sqrt_lt_R0; exact Hr).
  replace (poly_deriv (block_coeffs chunk block)
             ((r - block !!! 0%nat) * block !!! 1%nat) * block !!! 1%nat * / r * r)
    with (poly_deriv (block_coeffs chunk block)
            ((r - block !!! 0%nat) * block !!! 1%nat) * block !!! 1%nat)
    by (field; lra).
  unfold block_energy.
  change (derivable_pt_lim
            (comp (poly (block_coeffs chunk block))
                  (fun r => (r - block !!! 0%nat) * block !!! 1%nat)) r
            (poly_deriv (block_coeffs chunk block)
                        ((r - block !!! 0%nat) * block !!! 1%nat)
             * block !!! 1%nat)).
  apply derivable_pt_lim_comp; [apply affine_derivable | apply poly_derivable].
Qed.

(** In range and with neither the scaled nor the shifted flag set, the
    checked evaluator [potential_eval_ex_cuda] returns what the unchecked
    [potential_eval_cuda] returns, whatever the radii. *)
Theorem potential_eval_ex_cuda_in_range (K : PotConsts.t)
    (p : PotentialData.t) (ri rj r2 : R) :
  let r := r2 * / sqrt r2 in
  let ind := float2int (Rmax 0
               (float3.x (PotentialData.alpha p) +
                r * (float3.y (PotentialData.alpha p) +
                     r * float3.z (PotentialData.alpha p)))) in
  flag_set (PotentialData.flags p) (PotConsts.POTENTIAL_SCALED K) = false ->
  flag_set (PotentialData.flags p) (PotConsts.POTENTIAL_SHIFTED K) = false ->
  float4.x (PotentialData.w p) <= r <= float4.y (PotentialData.w p) ->
  (ind <= PotentialData.n p)%Z ->
  potential_eval_ex_cuda K p ri rj r2 = potential_eval_cuda K p r2.
Proof.
  intros r ind Hsc Hsh [Ha Hb] Hn.
  unfold potential_eval_ex_cuda, potential_eval_r, potential_eval_cuda.
  rewrite Hsc, Hsh. fold r. cbv zeta.
  destruct (Rlt_dec r (float4.x (PotentialData.w p))) as [|_]; [lra |].
  unfold potential_eval_interp.
  destruct (Rgt_dec r (float4.y (PotentialData.w p))) as [|_]; [lra |].
  fold ind.
  destruct (Z.gtb_spec ind (PotentialData.n p)) as [|_]; [lia |].
  reflexivity.
Qed.

End PotentialEvalFacts.

Lemma potential_eval_r_cuda_value_and_derivative_witness :
  (potential_eval_r_cuda ex_pot_consts [0; 0; 0]%R [0; 1; 2; 3; 0; 0; 0; 5]%R 1).1
  = block_energy 8 [0; 1; 2; 3; 0; 0; 0; 5]%R 1.
Proof.
  pose proof (potential_eval_r_cuda_value_and_derivative ex_pot_consts
                [0; 0; 0]%R [0; 1; 2; 3; 0; 0; 0; 5]%R 1) as H.
  cbv zeta in H.
  assert (E : float2int (Rmax 0 ([0; 0; 0]%R !!! 0%nat +
                1 * ([0; 0; 0]%R !!! 1%nat + 1 * [0; 0; 0]%R !!! 2%nat))) = 0%Z).
  { cbn. replace (0 + 1 * (0 + 1 * 0))%R with 0%R by ring.
    rewrite Rmax_left by lra. apply float2int_0. }
  rewrite E in H. apply H; simpl; lia.
Defined.

Lemma potential_eval_cuda_value_and_force_witness :
  (potential_eval_cuda ex_pot_consts ex_pot 4).1
  = block_energy 8 (PotentialData.c ex_pot) (sqrt 4).
Proof.
  pose proof (potential_eval_cuda_value_and_force ex_pot_consts ex_pot 4) as H.
  cbv zeta in H.
  assert (E : float2int (Rmax 0
                (float3.x (PotentialData.alpha ex_pot) +
                 sqrt 4 * (float3.y (PotentialData.alpha ex_pot) +
                           sqrt 4 * float3.z (PotentialData.alpha ex_pot)))) = 0%Z).
  { cbn. replace (0 + sqrt 4 * (0 + sqrt 4 * 0))%R with 0%R by ring.
    rewrite Rmax_left by lra. apply float2int_0. }
  rewrite E in H. apply H; [lra | simpl; lia | simpl; lia].
Defined.

Lemma potential_eval_ex_cuda_in_range_witness :
  potential_eval_ex_cuda ex_pot_consts ex_pot 1 1 (9 / 4)
  = potential_eval_cuda ex_pot_consts ex_pot (9 / 4).
Proof.
  assert (Hs : sqrt (9 / 4) = (3 / 2)%R).
  { replace (9 / 4)%R with ((3 / 2) * (3 / 2))%R by lra. apply sqrt_square. lra. }
  apply potential_eval_ex_cuda_in_range.
  - reflexivity.
  - reflexivity.
  - rewrite Hs. simpl. lra.
  - cbn. rewrite Hs.
    replace (0 + 9 / 4 * / (3 / 2) * (0 + 9 / 4 * / (3 / 2) * 0))%R with 0%R by field.
    rewrite Rmax_left by lra. rewrite float2int_0. lia.
Defined.

Section DPDSymmetry.

Local Open Scope R_scope.

(** Newton's third law for [dpd_eval_cuda]: called for the pair the other
    way round (radii and velocities exchanged, separation negated), it adds
    the opposite force. *)
Theorem dpd_eval_cuda_opposite (K : PotConsts.t) (cuda_dt : R)
    (pot : DPDPotentialData.t) (ri rj : R) (pvi pvj dx : float3.t) (r2 : R)
    (fi fj : list R) (k : nat) :
  (3 <= length fi)%nat -> (3 <= length fj)%nat -> (k < 3)%nat ->
  let dx' := float3.mk (- float3.x dx) (- float3.y dx) (- float3.z dx) in
  (dpd_eval_cuda K cuda_dt pot ri rj pvi pvj dx r2 fi).2 !!! k - fi !!! k
  = - ((dpd_eval_cuda K cuda_dt pot rj ri pvj pvi dx' r2 fj).2 !!! k - fj !!! k).
Proof.
  intros Hi Hj Hk dx'. unfold dpd_eval_cuda. cbn zeta.
  assert (Er : dpd_eval_r K pot rj ri r2 = dpd_eval_r K pot ri rj r2).
  { unfold dpd_eval_r. rewrite (Rplus_comm rj ri). reflexivity. }
  rewrite Er.
  destruct (Rgt_dec (dpd_eval_r K pot ri rj r2) _); cbn [snd]; [ring |].
  subst dx'. cbn [float3.x float3.y float3.z].
  repeat match goal with
         | |- context [match ?d with left _ => _ | right _ => _ end] => destruct d
         end;
  (destruct k as [|[|[|k]]]; [| | | lia]);
    unfold Rdiv;
    repeat first
      [ rewrite list_lookup_total_insert_ne by lia
      | rewrite list_lookup_total_insert_eq by (rewrite ?length_insert; lia) ];
    ring.
Qed.

Lemma dpd_eval_cuda_opposite_witness :
  (dpd_eval_cuda ex_pot_consts 1 ex_dpd 1 1 (float3.mk 1 0 0) (float3.mk 0 0 0)
     (float3.mk 1 0 0) 1 [0; 0; 0; 0]).2 !!! 0%nat - 0
  = - ((dpd_eval_cuda ex_pot_consts 1 ex_dpd 1 1 (float3.mk 0 0 0) (float3.mk 1 0 0)
          (float3.mk (- 1) (- 0) (- 0)) 1 [0; 0; 0; 0]).2 !!! 0%nat - 0).
Proof.
  apply (dpd_eval_cuda_opposite ex_pot_consts 1 ex_dpd 1 1 (float3.mk 1 0 0)
           (float3.mk 0 0 0) (float3.mk 1 0 0) 1 [0; 0; 0; 0] [0; 0; 0; 0] 0);
    simpl; lia.
Defined.

(** [dpd_eval_cuda] never reports energy, keeps the length of the force
    array and touches none of its entries from index 3 on (the number
    density of the caller's [pif]). *)
Theorem dpd_eval_cuda_frame (K : PotConsts.t) (cuda_dt : R)
    (pot : DPDPotentialData.t) (ri rj : R) (pvi pvj dx : float3.t) (r2 : R)
    (fi : list R) :
  let res := dpd_eval_cuda K cuda_dt pot ri rj pvi pvj dx r2 fi in
  res.1 = 0 /\ length res.2 = length fi /\
  forall k, (3 <= k)%nat -> res.2 !!! k = fi !!! k.
Proof.
  cbv zeta. unfold dpd_eval_cuda. cbn zeta.
  destruct (Rgt_dec _ _); cbn [fst snd].
  - split; [reflexivity |]. split; [reflexivity |]. reflexivity.
  - split; [reflexivity |]. split; [rewrite !length_insert; reflexivity |].
    intros k Hk. rewrite !list_lookup_total_insert_ne by lia. reflexivity.
Qed.

End DPDSymmetry.

Section FluxDirection.

Local Open Scope R_scope.

(** A Secrete or an Uptake term only moves material forward: with no
    decay, the one-sided evaluator never raises the accumulator on the
    side of the term's first type and never lowers it on the other side. *)
Theorem flux_eval_ex_cuda_forward_only (g : Consts.t) (fluxes : Fluxes.t)
    (r : R) (states_i states_j : list R) (type_i type_j : nat)
    (qvec_i : list R) :
  let flux := Fluxes.fluxes fluxes !!! 0%nat in
  let out := flux_eval_ex_cuda g fluxes r states_i states_j type_i type_j qvec_i in
  Flux.size flux = 1%nat ->
  Flux.kinds flux !!! 0%nat <> FLUX_FICK ->
  Flux.decay_coef flux !!! 0%nat = 0 ->
  (Flux.indices_a flux !!! 0%nat < length qvec_i)%nat ->
  (Flux.indices_b flux !!! 0%nat < length qvec_i)%nat ->
  if Nat.eqb type_i (TypeIdPair.a (Flux.type_ids flux !!! 0%nat))
  then out !!! (Flux.indices_a flux !!! 0%nat)
       <= qvec_i !!! (Flux.indices_a flux !!! 0%nat)
  else qvec_i !!! (Flux.indices_b flux !!! 0%nat)
       <= out !!! (Flux.indices_b flux !!! 0%nat).
Proof.
  intros flux out Hsize Hkind Hdecay Ha Hb. subst out.
  unfold flux_eval_ex_cuda. fold flux. rewrite Hsize. cbn [seq fold_left].
  unfold flux_eval_ex_cuda_iter. rewrite Hdecay.
  set (t := 1 - r / Consts.cuda_cutoff g).
  assert (Ht : 0 <= t * t) by nra.
  assert (Hrate : forall si sj,
            0 <= spec_flux_rate (Flux.kinds flux !!! 0%nat) (Flux.coef flux !!! 0%nat)
                   (Flux.target flux !!! 0%nat) si sj).
  { intros si sj. unfold spec_flux_rate.
    destruct (Flux.kinds flux !!! 0%nat); [contradiction | |];
      destruct (Rle_dec _ 0); lra. }
  destruct (Nat.eqb type_i _); cbv zeta beta iota;
    rewrite flux_kind_cuda_rate;
    rewrite list_lookup_total_insert_eq by assumption;
    match goal with
    | |- context [spec_flux_rate ?k ?c ?tg ?si ?sj] =>
        pose proof (Hrate si sj) as Hr;
        set (rate := spec_flux_rate k c tg si sj) in *
    end; nra.
Qed.

End FluxDirection.

Definition ex_flux_secrete : Flux.t :=
  Flux.mk 1 [FLUX_SECRETE] [TypeIdPair.mk 0 0] [0%nat] [0%nat] [1%R] [0%R] [0%R].

Lemma flux_eval_ex_cuda_forward_only_witness :
  ((flux_eval_ex_cuda ex_consts_fick (Fluxes.mk [ex_flux_secrete]) 1
      [1%R] [0%R] 0 0 [0%R]) !!! 0%nat <= 0)%R.
Proof.
  pose proof (flux_eval_ex_cuda_forward_only ex_consts_fick
                (Fluxes.mk [ex_flux_secrete]) 1 [1%R] [0%R] 0 0 [0%R]) as H.
  cbv zeta in H. apply H.
  - reflexivity.
  - discriminate.
  - reflexivity.
  - simpl. lia.
  - simpl. lia.
Defined.

Section MemoryHelpers.

(** [cuda_memset_float] sets the first [N] entries and nothing else. *)
Theorem cuda_memset_float_spec (data : list R) (val : R) (N : nat) :
  (N <= length data)%nat ->
  length (cuda_memset_float data val N) = length data /\
  forall j, cuda_memset_float data val N !!! j
            = if decide (j < N)%nat then val else data !!! j.
Proof.
  intros H. unfold cuda_memset_float.
  destruct (cuda_memset_float_fold val N 0 data) as [L E]; [lia |].
  cbv zeta in L, E. split; [exact L |].
  intros j. rewrite E.
  destruct (decide (0 <= j < 0 + N)%nat), (decide (j < N)%nat);
    try lia; reflexivity.
Qed.

Lemma cuda_memset_float_spec_witness :
  cuda_memset_float [1; 2; 3]%R 0 2 !!! 1%nat = 0%R.
Proof.
  destruct (cuda_memset_float_spec [1; 2; 3]%R 0 2) as [_ E]; [simpl; lia |].
  rewrite E. reflexivity.
Defined.

Lemma cuda_memcpy_fold (source : list Z) (off : nat) (m : nat) :
  forall (start : nat) (dest : list Z),
    (off + start + m <= length dest)%nat ->
    let r := fold_left (fun dest k => <[(off + k)%nat := source !!! k]> dest)
                       (seq start m) dest in
    length r = length dest /\
    forall j : nat,
      r !!! j = if decide (off + start <= j < off + start + m)%nat
                then source !!! (j - off)%nat else dest !!! j.
Proof.
  induction m as [|m IH]; intros start dest Hlen; cbn zeta.
  - simpl. split; [reflexivity |]. intros j. destruct (decide _); [lia | reflexivity].
  - simpl seq. simpl fold_left.
    specialize (IH (S start) (<[(off + start)%nat := source !!! start]> dest)).
    cbn zeta in IH. rewrite length_insert in IH.
    destruct IH as [L IH]; [lia |]. split; [exact L |].
    intros j. rewrite IH.
    destruct (decide (off + S start <= j < off + S start + m)%nat),
             (decide (off + start <= j < off + start + S m)%nat);
      try lia; try reflexivity.
    + assert (j = (off + start)%nat) as -> by lia.
      rewrite list_lookup_total_insert_eq by lia.
      f_equal. lia.
    + rewrite list_lookup_total_insert_ne by lia. reflexivity.
Qed.

(** [cuda_memcpy] copies [count] entries to [&dest[off]] and changes
    nothing else. *)
Theorem cuda_memcpy_spec (dest : list Z) (off : nat) (source : list Z)
    (count : nat) :
  (off + count <= length dest)%nat ->
  length (cuda_memcpy dest off source count) = length dest /\
  forall j, cuda_memcpy dest off source count !!! j
            = if decide (off <= j < off + count)%nat
              then source !!! (j - off)%nat else dest !!! j.
Proof.
  intros H. unfold cuda_memcpy.
  destruct (cuda_memcpy_fold source off count 0 dest) as [L E]; [lia |].
  cbv zeta in L, E. split; [exact L |].
  intros j. rewrite E.
  destruct (decide (off + 0 <= j < off + 0 + count)%nat),
           (decide (off <= j < off + count)%nat); try lia; reflexivity.
Qed.

Lemma cuda_memcpy_spec_witness :
  cuda_memcpy [1; 2; 3; 4]%Z 1 [7; 8]%Z 2 !!! 2%nat = 8%Z.
Proof.
  destruct (cuda_memcpy_spec [1; 2; 3; 4]%Z 1 [7; 8]%Z 2) as [_ E]; [simpl; lia |].
  rewrite E. reflexivity.
Defined.

End MemoryHelpers.

Section SortContract.

(** [cuda_sort_descending] on any array: the first [count] entries end in
    descending order of their low 16 bits and are a permutation of what
    they were; the length and the entries from [count] on are kept. *)
Theorem cuda_sort_descending_contract (a : list Z) (count : nat) :
  (count <= length a)%nat ->
  let a' := cuda_sort_descending a (Z.of_nat count) in
  length a' = length a /\
  drop count a' = drop count a /\
  take count a' ≡ₚ take count a /\
  forall p q, (p <= q)%nat -> (q < count)%nat ->
              (Z.land (a' !!! q) 65535 <= Z.land (a' !!! p) 65535)%Z.
Proof. intros H. apply (cuda_sort_descending_spec a count H). Qed.

Lemma cuda_sort_descending_contract_witness :
  length (cuda_sort_descending [3; 1; 2; 9]%Z 3) = 4%nat /\
  drop 3 (cuda_sort_descending [3; 1; 2; 9]%Z 3) = [9%Z].
Proof.
  destruct (cuda_sort_descending_contract [3; 1; 2; 9]%Z 3) as (L & D & _);
    [simpl; lia |].
  split; [exact L | exact D].
Defined.

(** After [runner_dosort_cuda] every particle index below [count_i]
    appears exactly once in the high bits of the first [count_i] entries,
    when the indices and the quantized projections fit 16 bits. *)
Theorem runner_dosort_cuda_pids (g : Consts.t) (parts_pos : list float4.t)
    (count_i : nat) (sort_i : list Z) (sid : nat) :
  let shift := [Consts.cuda_shiftn g !!! (3 * sid + 0)%nat;
                Consts.cuda_shiftn g !!! (3 * sid + 1)%nat;
                Consts.cuda_shiftn g !!! (3 * sid + 2)%nat] in
  let quantized k :=
    let pix := parts_pos !!! k in
    float2uint (Consts.cuda_dscale g *
                (sort_nshift g sid + float4.x pix * shift !!! 0%nat
                 + float4.y pix * shift !!! 1%nat
                 + float4.z pix * shift !!! 2%nat))%R in
  (count_i <= length sort_i)%nat ->
  (Z.of_nat count_i <= 2 ^ 16)%Z ->
  (forall k, (k < count_i)%nat -> (quantized k < 2 ^ 16)%Z) ->
  map sort_pid (take count_i (runner_dosort_cuda g parts_pos count_i sort_i sid))
    ≡ₚ seq 0 count_i.
Proof.
  intros shift quantized Hlen Hc Hq.
  destruct (runner_dosort_cuda_spec g parts_pos count_i sort_i sid Hlen)
    as (_ & _ & P & _).
  cbv zeta in P. rewrite P, map_map.
  assert (E : map (fun k => sort_pid (sort_pack g (sort_nshift g sid) shift parts_pos k))
                  (seq 0 count_i) = seq 0 count_i).
  { rewrite <- (map_id (seq 0 count_i)) at 2.
    apply map_ext_in. intros k Hk. apply in_seq in Hk.
    unfold sort_pack.
    assert (H0 : (0 <= quantized k)%Z).
    { unfold quantized, float2uint, u32. apply Z.mod_pos_bound. lia. }
    destruct (pack_fields k (quantized k)) as [_ P']; [lia | |].
    - split; [exact H0 | apply Hq; lia].
    - exact P'. }
  fold shift. rewrite E. reflexivity.
Qed.

Lemma runner_dosort_cuda_pids_witness :
  map sort_pid (take 3 (runner_dosort_cuda ex_consts_sort ex_pos_sort 3
                          [0; 0; 0; 7]%Z 0))
    ≡ₚ seq 0 3.
Proof.
  apply runner_dosort_cuda_pids.
  - simpl. lia.
  - lia.
  - intros k Hk. unfold float2uint, float2int.
    assert (Hns : sort_nshift ex_consts_sort 0 = 1%R).
    { unfold sort_nshift. cbn.
      replace (1 * 1 * (1 * 1) + 0 * 1 * (0 * 1) + 0 * 1 * (0 * 1))%R with 1%R by ring.
      apply sqrt_1. }
    rewrite Hns.
    destruct k as [|[|[|k]]]; [| | | lia]; cbn -[Int_part u32 Rlt_dec];
      (destruct (Rlt_dec _ 0); [lra |]).
    + rewrite <- (Int_part_spec _ 1); [reflexivity | lra].
    + rewrite <- (Int_part_spec _ 3); [reflexivity | lra].
    + rewrite <- (Int_part_spec _ 2); [reflexivity | lra].
Defined.

End SortContract.

Section PairShiftFacts.

Local Open Scope R_scope.

Lemma pair_shift_lookup (g : Consts.t) (cid cjd k : nat) :
  (k < 3)%nat ->
  pair_shift g cid cjd !!! k
  = let sh := Consts.cuda_corig g !!! (3 * cjd + k)%nat
              - Consts.cuda_corig g !!! (3 * cid + k)%nat in
    if Rgt_dec (2 * sh) (Consts.cuda_dim g !!! k) then sh - Consts.cuda_dim g !!! k
    else if Rlt_dec (2 * sh) (- Consts.cuda_dim g !!! k)
         then sh + Consts.cuda_dim g !!! k else sh.
Proof.
  intros Hk.
  destruct k as [|[|[|k]]]; [reflexivity | reflexivity | reflexivity | lia].
Qed.

(** The shift between two cells is the minimum image of the difference of
    their origins: when the difference is within one domain length, each
    component of [pair_shift] differs from it by a multiple of the domain
    length and lies within half a domain length of zero. *)
Theorem pair_shift_minimum_image (g : Consts.t) (cid cjd k : nat) :
  let sh := Consts.cuda_corig g !!! (3 * cjd + k)%nat
            - Consts.cuda_corig g !!! (3 * cid + k)%nat in
  let dim := Consts.cuda_dim g !!! k in
  (k < 3)%nat -> - dim <= sh <= dim ->
  let s := pair_shift g cid cjd !!! k in
  (s = sh \/ s = sh - dim \/ s = sh + dim) /\ - dim <= 2 * s <= dim.
Proof.
  intros sh dim Hk Hsh s. subst s. rewrite pair_shift_lookup by exact Hk.
  cbv zeta. fold sh dim.
  destruct (Rgt_dec (2 * sh) dim); [split; [auto | lra] |].
  destruct (Rlt_dec (2 * sh) (- dim)); split; auto; lra.
Qed.

Lemma pair_shift_minimum_image_witness :
  - 2 <= 2 * (pair_shift ex_consts_pair 0 1 !!! 0%nat) <= 2.
Proof.
  pose proof (pair_shift_minimum_image ex_consts_pair 0 1 0) as H.
  cbv zeta in H. destruct H as [_ H]; [lia | cbn; lra |]. exact H.
Defined.

End PairShiftFacts.

Section LoopPruning.

Context {A : Type}.
Variable cond : nat -> bool.
Variable body : A -> nat -> A.

Lemma for_down_while_idle (n : nat) (acc : A) :
  (forall k, (k < n)%nat -> body acc k = acc) ->
  for_down_while (fun _ => true) body n acc = acc.
Proof.
  induction n as [|n IH]; intros H; [reflexivity |].
  simpl. rewrite (H n) by lia. apply IH. intros k Hk. apply H. lia.
Qed.

(** A descending loop whose test, once false, stays false further down,
    and whose body does nothing where the test is false, computes what the
    loop over all iterations computes. *)
Lemma for_down_while_prune (n : nat) :
  (forall k k', (k' <= k)%nat -> (k < n)%nat -> cond k = false -> cond k' = false) ->
  (forall acc k, (k < n)%nat -> cond k = false -> body acc k = acc) ->
  forall acc,
    for_down_while cond body n acc = for_down_while (fun _ => true) body n acc.
Proof.
  induction n as [|n IH]; intros Hmono Hid acc; [reflexivity |].
  simpl. destruct (cond n) eqn:E.
  - apply IH.
    + intros k k' H1 H2. apply Hmono; lia.
    + intros a k H1. apply Hid. lia.
  - rewrite (Hid acc n) by (try lia; exact E).
    symmetry. apply for_down_while_idle.
    intros k Hk. apply Hid; [lia |]. apply (Hmono n k); [lia | lia | exact E].
Qed.

Lemma for_up_while_idle (n fuel : nat) (acc : A) :
  (fuel <= n)%nat ->
  (forall k, (n - fuel <= k)%nat -> (k < n)%nat -> body acc k = acc) ->
  for_up_while (fun _ => true) body n fuel acc = acc.
Proof.
  induction fuel as [|fuel IH]; intros Hf H; [reflexivity |].
  simpl. rewrite (H (n - S fuel)%nat) by lia.
  apply IH; [lia |]. intros k H1 H2. apply H; lia.
Qed.

(** The same for an ascending loop whose test, once false, stays false
    further up. *)
Lemma for_up_while_prune (n fuel : nat) :
  (fuel <= n)%nat ->
  (forall k k', (k <= k')%nat -> (k' < n)%nat -> cond k = false -> cond k' = false) ->
  (forall acc k, (k < n)%nat -> cond k = false -> body acc k = acc) ->
  forall acc,
    for_up_while cond body n fuel acc = for_up_while (fun _ => true) body n fuel acc.
Proof.
  induction fuel as [|fuel IH]; intros Hf Hmono Hid acc; [reflexivity |].
  simpl. destruct (cond (n - S fuel)) eqn:E.
  - apply IH; [lia | exact Hmono | exact Hid].
  - rewrite (Hid acc (n - S fuel)%nat) by (try lia; exact E).
    symmetry. apply for_up_while_idle; [lia |].
    intros k H1 H2. apply Hid; [lia |].
    apply (Hmono (n - S fuel)%nat k); [lia | lia | exact E].
Qed.

Lemma for_stride_ext (f h : A -> nat -> A) (stride n : nat) :
  (forall acc i, (i < n)%nat -> f acc i = h acc i) ->
  forall fuel i acc,
    for_stride f stride n fuel i acc = for_stride h stride n fuel i acc.
Proof.
  intros H. induction fuel as [|fuel IH]; intros i acc; [reflexivity |].
  simpl. destruct (Nat.ltb_spec i n) as [Hi|Hi]; [| reflexivity].
  rewrite (H acc i Hi). apply IH.
Qed.

End LoopPruning.

Lemma fold_left_seq_ext_lt {A' : Type} (f h : A' -> nat -> A') (n : nat) (a : A') :
  (forall acc i, (i < n)%nat -> f acc i = h acc i) ->
  fold_left f (seq 0 n) a = fold_left h (seq 0 n) a.
Proof.
  intros H. induction n as [|n IH]; [reflexivity |].
  rewrite (seq_S n 0), !fold_left_app. cbn [fold_left Nat.add].
  rewrite IH by (intros acc i Hi; apply H; lia). apply H. lia.
Qed.

Section PairWalkExhaustive.

Local Open Scope R_scope.

Variable g : Consts.t.
Variable fc : ForceConsts.t.
Variable potential_eval_super_ex_cuda :
  bool -> nat -> nat -> nat -> R -> R -> nat -> nat -> float3.t -> R ->
  R -> list R -> R * list R.
Variable w_cubic_spline_nr : R -> R -> R.
Variable sid : nat.
Variables parts_pos_i parts_pos_j : list float4.t.
Variables parts_datai_i parts_datai_j : list int4.t.
Variables count_i count_j : nat.
Variables buf_i buf_j : list Z.
Variable shift : list R.

Let n0 := Consts.cuda_shiftn g !!! (3 * sid + 0)%nat.
Let n1 := Consts.cuda_shiftn g !!! (3 * sid + 1)%nat.
Let n2 := Consts.cuda_shiftn g !!! (3 * sid + 2)%nat.

Let quant (p : float4.t) : R :=
  Consts.cuda_dscale g *
  (sort_nshift g sid + float4.x p * n0 + float4.y p * n1 + float4.z p * n2).

Let sort_i := runner_dosort_cuda g parts_pos_i count_i buf_i sid.
Let sort_j := runner_dosort_cuda g parts_pos_j count_j buf_j sid.
Let dshift := pair_dshift g shift sid.

Hypothesis Hdscale : 0 <= Consts.cuda_dscale g.
Hypothesis Hcutoff : 0 <= Consts.cuda_cutoff g.
Hypothesis Hcutoff2 :
  Consts.cuda_cutoff2 g = Consts.cuda_cutoff g * Consts.cuda_cutoff g.
Hypothesis Hdmaxdist :
  Consts.cuda_dmaxdist g
  = float2uint (2 + Consts.cuda_dscale g * Consts.cuda_cutoff g).
Hypothesis Hdmax_fits :
  2 + Consts.cuda_dscale g * Consts.cuda_cutoff g < 2147483648.
Hypothesis Hnorm : n0 * n0 + n1 * n1 + n2 * n2 <= 1.
Hypothesis Hbuf_i : (count_i <= length buf_i)%nat.
Hypothesis Hbuf_j : (count_j <= length buf_j)%nat.
Hypothesis Hcount_i : (Z.of_nat count_i <= 65536)%Z.
Hypothesis Hcount_j : (Z.of_nat count_j <= 65536)%Z.
Hypothesis Hquant_i :
  forall a, (a < count_i)%nat -> 0 <= quant (parts_pos_i !!! a) < 65536.
Hypothesis Hquant_j :
  forall b, (b < count_j)%nat -> 0 <= quant (parts_pos_j !!! b) < 65536.
Hypothesis Hshift :
  0 <= Consts.cuda_dscale g *
       (shift !!! 0%nat * n0 + shift !!! 1%nat * n1 + shift !!! 2%nat * n2)
  < 2147483648.

Let B := Consts.cuda_dscale g *
         (shift !!! 0%nat * n0 + shift !!! 1%nat * n1 + shift !!! 2%nat * n2).
Let C := 2 + Consts.cuda_dscale g * Consts.cuda_cutoff g.

Lemma walk_dshift : dshift = Int_part B /\ (0 <= Int_part B < 2147483648)%Z.
Proof.
  exact (dshift_floor g sid 0 0 [] [] shift (Nat.le_0_l _) (Nat.le_0_l _) Hshift).
Qed.

Lemma walk_dmaxdist :
  Consts.cuda_dmaxdist g = Int_part C /\ (0 <= Int_part C < 2147483648)%Z.
Proof.
  exact (dmaxdist_floor g 0 0 0 [] [] [] Hdscale Hcutoff Hdmaxdist Hdmax_fits
           (Nat.le_0_l _) (Nat.le_0_l _)).
Qed.

(** What an entry of a sorted list holds. *)
Lemma walk_entry (parts_pos : list float4.t) (count : nat) (buf : list Z) (k : nat) :
  (count <= length buf)%nat -> (Z.of_nat count <= 65536)%Z ->
  (forall a, (a < count)%nat -> 0 <= quant (parts_pos !!! a) < 65536) ->
  (k < count)%nat ->
  let e := runner_dosort_cuda g parts_pos count buf sid !!! k in
  (sort_pid e < count)%nat /\
  sort_key e = Int_part (quant (parts_pos !!! sort_pid e)) /\
  (0 <= sort_key e < 65536)%Z.
Proof.
  intros Hbuf Hcount Hq Hk e. subst e.
  destruct (runner_dosort_cuda_spec g parts_pos count buf sid Hbuf)
    as (_ & _ & P & _).
  cbv zeta in P. destruct (perm_entries _ _ _ P) as [K _].
  destruct (K k Hk) as (a & Ha & E). rewrite E.
  destruct (sort_pack_fields g sid 0 0 [] [] [] (Nat.le_0_l _) (Nat.le_0_l _)
              parts_pos count a Hcount Ha (Hq a Ha)) as (Ek & Ep & R).
  cbv zeta in Ek, Ep. fold n0 n1 n2 in Ek, Ep, R |- *.
  rewrite Ep. split; [exact Ha |]. split; [exact Ek |].
  rewrite Ek. exact R.
Qed.

(** The test of the left walk holds wherever the pair is within the
    cutoff. *)
Lemma left_cond_within_cutoff (i k : nat) :
  (i < count_i)%nat -> (k < count_j)%nat ->
  pair_r2 (pair_dx (shift_sub shift (parts_pos_i !!! sort_pid (sort_i !!! i)))
                   (parts_pos_j !!! sort_pid (sort_j !!! k)))
    < Consts.cuda_cutoff2 g ->
  left_cond g sort_j dshift (sort_key (sort_i !!! i)) k = true.
Proof.
  intros Hi Hk Hr2.
  destruct (walk_entry parts_pos_i count_i buf_i i Hbuf_i Hcount_i Hquant_i Hi)
    as (Ha & Ki & Ri).
  destruct (walk_entry parts_pos_j count_j buf_j k Hbuf_j Hcount_j Hquant_j Hk)
    as (Hb & Kj & Rj).
  cbv zeta in Ha, Ki, Ri, Hb, Kj, Rj. fold sort_i in Ha, Ki, Ri. fold sort_j in Hb, Kj, Rj.
  destruct walk_dshift as [EB HB]. destruct walk_dmaxdist as [EC HC].
  set (a := sort_pid (sort_i !!! i)) in *. set (b := sort_pid (sort_j !!! k)) in *.
  rewrite Hcutoff2 in Hr2. unfold pair_r2, pair_dx, shift_sub in Hr2.
  cbn [float4.x float4.y float4.z float3.x float3.y float3.z] in Hr2.
  assert (Hgeo : (Int_part (quant (parts_pos_j !!! b)) + Int_part B
                  < Int_part C + Int_part (quant (parts_pos_i !!! a)))%Z).
  { apply Int_part_slack. unfold quant, B.
    set (pi := parts_pos_i !!! a) in *. set (pj := parts_pos_j !!! b) in *.
    pose proof (projection_below_cutoff
                  (float4.x pj + shift !!! 0%nat - float4.x pi)
                  (float4.y pj + shift !!! 1%nat - float4.y pi)
                  (float4.z pj + shift !!! 2%nat - float4.z pi)
                  n0 n1 n2 (Consts.cuda_cutoff g) Hcutoff Hnorm) as Hp.
    assert (Hlt : (float4.x pj + shift !!! 0%nat - float4.x pi) * n0
                  + (float4.y pj + shift !!! 1%nat - float4.y pi) * n1
                  + (float4.z pj + shift !!! 2%nat - float4.z pi) * n2
                  < Consts.cuda_cutoff g) by (apply Hp; lra).
    nra. }
  unfold left_cond. rewrite EB, EC. rewrite Ki in Ri |- *. rewrite Kj in Rj |- *.
  apply Z.ltb_lt. unfold u32. rewrite !Z.mod_small by lia. lia.
Qed.

(** The test of the right walk holds wherever the pair is within the
    cutoff. *)
Lemma right_cond_within_cutoff (i k : nat) :
  (i < count_i)%nat -> (k < count_j)%nat ->
  pair_r2 (pair_dx (shift_add shift (parts_pos_i !!! sort_pid (sort_i !!! i)))
                   (parts_pos_j !!! sort_pid (sort_j !!! k)))
    < Consts.cuda_cutoff2 g ->
  right_cond g sort_j dshift (sort_key (sort_i !!! i)) k = true.
Proof.
  intros Hi Hk Hr2.
  destruct (walk_entry parts_pos_i count_i buf_i i Hbuf_i Hcount_i Hquant_i Hi)
    as (Ha & Ki & Ri).
  destruct (walk_entry parts_pos_j count_j buf_j k Hbuf_j Hcount_j Hquant_j Hk)
    as (Hb & Kj & Rj).
  cbv zeta in Ha, Ki, Ri, Hb, Kj, Rj. fold sort_i in Ha, Ki, Ri. fold sort_j in Hb, Kj, Rj.
  destruct walk_dshift as [EB HB]. destruct walk_dmaxdist as [EC HC].
  set (a := sort_pid (sort_i !!! i)) in *. set (b := sort_pid (sort_j !!! k)) in *.
  rewrite Hcutoff2 in Hr2. unfold pair_r2, pair_dx, shift_add in Hr2.
  cbn [float4.x float4.y float4.z float3.x float3.y float3.z] in Hr2.
  assert (Hgeo : (Int_part (quant (parts_pos_i !!! a)) + Int_part B
                  < Int_part C + Int_part (quant (parts_pos_j !!! b)))%Z).
  { apply Int_part_slack. unfold quant, B.
    set (pi := parts_pos_i !!! a) in *. set (pj := parts_pos_j !!! b) in *.
    pose proof (projection_below_cutoff
                  (float4.x pi + shift !!! 0%nat - float4.x pj)
                  (float4.y pi + shift !!! 1%nat - float4.y pj)
                  (float4.z pi + shift !!! 2%nat - float4.z pj)
                  n0 n1 n2 (Consts.cuda_cutoff g) Hcutoff Hnorm) as Hp.
    assert (Hlt : (float4.x pi + shift !!! 0%nat - float4.x pj) * n0
                  + (float4.y pi + shift !!! 1%nat - float4.y pj) * n1
                  + (float4.z pi + shift !!! 2%nat - float4.z pj) * n2
                  < Consts.cuda_cutoff g) by (apply Hp; lra).
    nra. }
  unfold right_cond. rewrite EB, EC. rewrite Ki in Ri |- *. rewrite Kj in Rj |- *.
  apply Z.leb_le. unfold u32. rewrite !Z.mod_small by lia. lia.
Qed.

Lemma sort_j_sorted (p q : nat) :
  (p <= q)%nat -> (q < count_j)%nat ->
  (sort_key (sort_j !!! q) <= sort_key (sort_j !!! p))%Z.
Proof.
  destruct (runner_dosort_cuda_spec g parts_pos_j count_j buf_j sid Hbuf_j)
    as (_ & _ & _ & S).
  exact (S p q).
Qed.

Lemma sort_j_key_range (k : nat) :
  (k < count_j)%nat -> (0 <= sort_key (sort_j !!! k) < 65536)%Z.
Proof.
  intros Hk.
  destruct (walk_entry parts_pos_j count_j buf_j k Hbuf_j Hcount_j Hquant_j Hk)
    as (_ & _ & R).
  exact R.
Qed.

(** Outside the cutoff the body of the inner loop does nothing. *)
Lemma runner_dopair_cuda_inner_idle (ind_i ind_j spid : nat) (pix : float4.t)
    (pdatai_i : int4.t) (acc : list R * R) (k : nat) :
  ~ pair_r2 (pair_dx pix (parts_pos_j !!! sort_pid (sort_j !!! k)))
      < Consts.cuda_cutoff2 g ->
  runner_dopair_cuda_inner g fc potential_eval_super_ex_cuda w_cubic_spline_nr
    ind_i ind_j spid pix pdatai_i parts_pos_j parts_datai_j sort_j acc k = acc.
Proof.
  intros H. unfold runner_dopair_cuda_inner. destruct acc as [pif epot].
  cbv zeta. destruct (Rlt_dec _ _); [contradiction | reflexivity].
Qed.

(** The left walk computes what the walk over all pairs computes: no pair
    the early termination skips would have contributed. *)
Theorem runner_dopair_left_cuda_exhaustive (threadIdx blockDim ind_i ind_j : nat)
    (forces_i : list R) (epot_global : R) :
  runner_dopair_left_cuda g fc potential_eval_super_ex_cuda w_cubic_spline_nr
    threadIdx blockDim ind_i count_i ind_j count_j
    parts_pos_i parts_datai_i parts_pos_j parts_datai_j
    forces_i sort_i sort_j shift dshift epot_global
  = runner_dopair_left_cuda_unpruned g fc potential_eval_super_ex_cuda
      w_cubic_spline_nr threadIdx blockDim ind_i count_i ind_j count_j
      parts_pos_i parts_datai_i parts_pos_j parts_datai_j
      forces_i sort_i sort_j shift epot_global.
Proof.
  unfold runner_dopair_left_cuda, runner_dopair_left_cuda_unpruned. cbv zeta.
  erewrite for_stride_ext; [reflexivity |].
  intros [f e] i Hi. cbv beta iota zeta.
  rewrite for_down_while_prune; [reflexivity | |].
  - intros k k' Hkk Hk Hc.
    pose proof (sort_j_sorted k' k Hkk Hk) as Hs.
    pose proof (sort_j_key_range k Hk) as R1.
    pose proof (sort_j_key_range k' ltac:(lia)) as R2.
    destruct (walk_entry parts_pos_i count_i buf_i i Hbuf_i Hcount_i Hquant_i Hi)
      as (_ & _ & Ri).
    cbv zeta in Ri. fold sort_i in Ri.
    destruct walk_dshift as [EB HB]. destruct walk_dmaxdist as [EC HC].
    unfold left_cond in *. rewrite EB, EC in *.
    apply Z.ltb_ge. apply Z.ltb_ge in Hc.
    unfold u32 in *. rewrite !Z.mod_small in * by lia. lia.
  - intros acc k Hk Hc. apply runner_dopair_cuda_inner_idle.
    intros Hr2. rewrite (left_cond_within_cutoff i k Hi Hk Hr2) in Hc.
    discriminate.
Qed.

(** The right walk computes what the walk over all pairs computes. *)
Theorem runner_dopair_right_cuda_exhaustive (threadIdx blockDim ind_i ind_j : nat)
    (forces_i : list R) (epot_global : R) :
  runner_dopair_right_cuda g fc potential_eval_super_ex_cuda w_cubic_spline_nr
    threadIdx blockDim ind_i count_i ind_j count_j
    parts_pos_i parts_datai_i parts_pos_j parts_datai_j
    forces_i sort_i sort_j shift dshift epot_global
  = runner_dopair_right_cuda_unpruned g fc potential_eval_super_ex_cuda
      w_cubic_spline_nr threadIdx blockDim ind_i count_i ind_j count_j
      parts_pos_i parts_datai_i parts_pos_j parts_datai_j
      forces_i sort_i sort_j shift epot_global.
Proof.
  unfold runner_dopair_right_cuda, runner_dopair_right_cuda_unpruned. cbv zeta.
  erewrite for_stride_ext; [reflexivity |].
  intros [f e] i Hi. cbv beta iota zeta.
  rewrite for_up_while_prune; [reflexivity | lia | |].
  - intros k k' Hkk Hk' Hc.
    pose proof (sort_j_sorted k k' Hkk Hk') as Hs.
    pose proof (sort_j_key_range k ltac:(lia)) as R1.
    pose proof (sort_j_key_range k' Hk') as R2.
    destruct (walk_entry parts_pos_i count_i buf_i i Hbuf_i Hcount_i Hquant_i Hi)
      as (_ & _ & Ri).
    cbv zeta in Ri. fold sort_i in Ri.
    destruct walk_dshift as [EB HB]. destruct walk_dmaxdist as [EC HC].
    unfold right_cond in *. rewrite EB, EC in *.
    apply Z.leb_gt. apply Z.leb_gt in Hc.
    unfold u32 in *. rewrite !Z.mod_small in * by lia. lia.
  - intros acc k Hk Hc. apply runner_dopair_cuda_inner_idle.
    intros Hr2. rewrite (right_cond_within_cutoff i k Hi Hk Hr2) in Hc.
    discriminate.
Qed.

(** Once the test of the left walk fails it fails for all entries further
    down the sorted list. *)
Lemma left_cond_mono (i k k' : nat) :
  (i < count_i)%nat -> (k' <= k)%nat -> (k < count_j)%nat ->
  left_cond g sort_j dshift (sort_key (sort_i !!! i)) k = false ->
  left_cond g sort_j dshift (sort_key (sort_i !!! i)) k' = false.
Proof.
  intros Hi Hkk Hk Hc.
  pose proof (sort_j_sorted k' k Hkk Hk) as Hs.
  pose proof (sort_j_key_range k Hk) as R1.
  pose proof (sort_j_key_range k' ltac:(lia)) as R2.
  destruct (walk_entry parts_pos_i count_i buf_i i Hbuf_i Hcount_i Hquant_i Hi)
    as (_ & _ & Ri).
  cbv zeta in Ri. fold sort_i in Ri.
  destruct walk_dshift as [EB HB]. destruct walk_dmaxdist as [EC HC].
  unfold left_cond in *. rewrite EB, EC in *.
  apply Z.ltb_ge. apply Z.ltb_ge in Hc.
  unfold u32 in *. rewrite !Z.mod_small in * by lia. lia.
Qed.

Lemma right_cond_mono (i k k' : nat) :
  (i < count_i)%nat -> (k <= k')%nat -> (k' < count_j)%nat ->
  right_cond g sort_j dshift (sort_key (sort_i !!! i)) k = false ->
  right_cond g sort_j dshift (sort_key (sort_i !!! i)) k' = false.
Proof.
  intros Hi Hkk Hk' Hc.
  pose proof (sort_j_sorted k k' Hkk Hk') as Hs.
  pose proof (sort_j_key_range k ltac:(lia)) as R1.
  pose proof (sort_j_key_range k' Hk') as R2.
  destruct (walk_entry parts_pos_i count_i buf_i i Hbuf_i Hcount_i Hquant_i Hi)
    as (_ & _ & Ri).
  cbv zeta in Ri. fold sort_i in Ri.
  destruct walk_dshift as [EB HB]. destruct walk_dmaxdist as [EC HC].
  unfold right_cond in *. rewrite EB, EC in *.
  apply Z.leb_gt. apply Z.leb_gt in Hc.
  unfold u32 in *. rewrite !Z.mod_small in * by lia. lia.
Qed.

(** Outside the cutoff the body of the inner loop of the flux walks does
    nothing. *)
Lemma runner_dopair_state_cuda_inner_idle (pis states_j : list R) (pix : float4.t)
    (typeIdi nr_states : nat) (pifx : list R) (k : nat) :
  ~ pair_r2 (pair_dx pix (parts_pos_j !!! sort_pid (sort_j !!! k)))
      < Consts.cuda_cutoff2 g ->
  runner_dopair_state_cuda_inner g pis states_j pix typeIdi parts_pos_j
    parts_datai_j sort_j nr_states pifx k = pifx.
Proof.
  intros H. unfold runner_dopair_state_cuda_inner. cbv zeta.
  destruct (Rge_dec _ _) as [|Hn]; [reflexivity |].
  exfalso. apply H. unfold pair_r2, pair_dx, dist2 in *.
  cbn [float3.x float3.y float3.z]. lra.
Qed.

(** The inner loops of the flux walks with and without their tests. *)
Lemma state_left_prune (pis states_j : list R) (typeIdi nr_states i : nat)
    (acc : list R) :
  (i < count_i)%nat ->
  let body :=
    runner_dopair_state_cuda_inner g pis states_j
      (shift_sub shift (parts_pos_i !!! sort_pid (sort_i !!! i))) typeIdi
      parts_pos_j parts_datai_j sort_j nr_states in
  for_down_while (left_cond g sort_j dshift (sort_key (sort_i !!! i))) body count_j acc
  = for_down_while (fun _ => true) body count_j acc.
Proof.
  intros Hi body. apply for_down_while_prune.
  - intros k k' Hkk Hk Hc. exact (left_cond_mono i k k' Hi Hkk Hk Hc).
  - intros a k Hk Hc. apply runner_dopair_state_cuda_inner_idle.
    intros Hr2. rewrite (left_cond_within_cutoff i k Hi Hk Hr2) in Hc. discriminate.
Qed.

Lemma state_right_prune (pis states_j : list R) (typeIdi nr_states i : nat)
    (acc : list R) :
  (i < count_i)%nat ->
  let body :=
    runner_dopair_state_cuda_inner g pis states_j
      (shift_add shift (parts_pos_i !!! sort_pid (sort_i !!! i))) typeIdi
      parts_pos_j parts_datai_j sort_j nr_states in
  for_up_while (right_cond g sort_j dshift (sort_key (sort_i !!! i))) body
               count_j count_j acc
  = for_up_while (fun _ => true) body count_j count_j acc.
Proof.
  intros Hi body. apply for_up_while_prune; [lia | |].
  - intros k k' Hkk Hk' Hc. exact (right_cond_mono i k k' Hi Hkk Hk' Hc).
  - intros a k Hk Hc. apply runner_dopair_state_cuda_inner_idle.
    intros Hr2. rewrite (right_cond_within_cutoff i k Hi Hk Hr2) in Hc. discriminate.
Qed.

(** The left flux walk accumulates what the walk over all pairs
    accumulates: the early termination skips only pairs beyond the
    cutoff, which exchange nothing. *)
Theorem runner_dopair_state_left_cuda_exhaustive (states_i states_j : list R)
    (fluxes_i : list R) (nr_states : nat) :
  runner_dopair_state_left_cuda g states_i count_i states_j count_j
    parts_pos_i parts_datai_i parts_pos_j parts_datai_j
    fluxes_i sort_i sort_j shift dshift nr_states
  = runner_dopair_state_left_cuda_unpruned g states_i count_i states_j count_j
      parts_pos_i parts_datai_i parts_pos_j parts_datai_j
      fluxes_i sort_i sort_j shift nr_states.
Proof.
  unfold runner_dopair_state_left_cuda, runner_dopair_state_left_cuda_unpruned.
  apply fold_left_seq_ext_lt. intros fl i Hi. cbv zeta. f_equal.
  exact (state_left_prune _ states_j _ nr_states i _ Hi).
Qed.

(** The right flux walk accumulates what the walk over all pairs
    accumulates. *)
Theorem runner_dopair_state_right_cuda_exhaustive (states_i states_j : list R)
    (fluxes_i : list R) (nr_states : nat) :
  runner_dopair_state_right_cuda g states_i count_i states_j count_j
    parts_pos_i parts_datai_i parts_pos_j parts_datai_j
    fluxes_i sort_i sort_j shift dshift nr_states
  = runner_dopair_state_right_cuda_unpruned g states_i count_i states_j count_j
      parts_pos_i parts_datai_i parts_pos_j parts_datai_j
      fluxes_i sort_i sort_j shift nr_states.
Proof.
  unfold runner_dopair_state_right_cuda, runner_dopair_state_right_cuda_unpruned.
  apply fold_left_seq_ext_lt. intros fl i Hi. cbv zeta. f_equal.
  exact (state_right_prune _ states_j _ nr_states i _ Hi).
Qed.




End PairWalkExhaustive.
(** Two cells of edge 2 along x with cutoff 1 and two particles each, the
    keys quantized with 100 ticks per unit of length; one Fick term
    between the particles' type and itself. *)
Definition ex_consts_prune : Consts.t :=
  Consts.mk 1 1 1 100 102 1 2 [1%nat] [Fluxes.mk []; Fluxes.mk [ex_flux_fick]]
            [0; 0; 0; 2; 0; 0]%R [4; 2; 2]%R [2; 2; 2]%R
            cuda_shiftn_table cuda_shift_table
            [] [0%nat] [0%nat] [] [0%nat] [0%nat].

(** One potential for the type pair, and an evaluator in the place of the
    texture tables that adds 1 to the energy of every pair it is called
    for. *)
Definition ex_force_consts_on : ForceConsts.t :=
  ForceConsts.mk [1%nat; 1%nat; 0%nat] [0%nat; 0%nat; 0%nat] 1 63
                 [float3.mk 2 2 2] [0%Z].

Definition ex_eval_count :
  bool -> nat -> nat -> nat -> R -> R -> nat -> nat -> float3.t -> R ->
  R -> list R -> R * list R :=
  fun _ _ _ _ _ _ _ _ _ _ ee pif => ((ee + 1)%R, pif).

Definition ex_prune_pos_i : list float4.t :=
  [float4.mk (1 / 2) 0 0 1; float4.mk (3 / 2) 0 0 1].

Definition ex_prune_pos_j : list float4.t :=
  [float4.mk (1 / 4) 0 0 1; float4.mk (7 / 4) 0 0 1].

Definition ex_prune_datai : list int4.t := [int4.mk 0 0 0 0; int4.mk 1 0 0 0].

Lemma ex_prune_nshift : sort_nshift ex_consts_prune 4 = 2%R.
Proof.
  unfold sort_nshift. cbn.
  replace (1 * 2 * (1 * 2) + 0 * 2 * (0 * 2) + 0 * 2 * (0 * 2))%R with (2 * 2)%R by ring.
  apply sqrt_square. lra.
Qed.

Lemma ex_prune_dshift : pair_dshift ex_consts_prune [2; 0; 0]%R 4 = 200%Z.
Proof.
  unfold pair_dshift. cbn. apply float2uint_value; [lia | lra].
Qed.

(** Puts the value of a key in the place of its quantization. *)
Ltac ex_keys :=
  repeat match goal with
    | |- context [float2uint ?v] =>
        first [ rewrite (float2uint_value v 202) by first [lia | lra]
              | rewrite (float2uint_value v 225) by first [lia | lra]
              | rewrite (float2uint_value v 250) by first [lia | lra]
              | rewrite (float2uint_value v 300) by first [lia | lra]
              | rewrite (float2uint_value v 350) by first [lia | lra]
              | rewrite (float2uint_value v 375) by first [lia | lra] ]
    end.

(** Keys 250 and 350, in descending order with their particle indices. *)
Lemma ex_prune_sort_i :
  runner_dosort_cuda ex_consts_prune ex_prune_pos_i 2 [0; 0]%Z 4 = [65886; 250]%Z.
Proof.
  unfold runner_dosort_cuda. rewrite ex_prune_nshift. cbn [seq fold_left].
  unfold sort_pack. cbn. ex_keys. vm_compute. reflexivity.
Qed.

(** Keys 225 and 375, in descending order with their particle indices. *)
Lemma ex_prune_sort_j :
  runner_dosort_cuda ex_consts_prune ex_prune_pos_j 2 [0; 0]%Z 4 = [65911; 225]%Z.
Proof.
  unfold runner_dosort_cuda. rewrite ex_prune_nshift. cbn [seq fold_left].
  unfold sort_pack. cbn. ex_keys. vm_compute. reflexivity.
Qed.

(** Discharges the assumptions of the walk theorems at that example. *)
Ltac ex_prune_walk :=
  first
    [ reflexivity
    | apply (cuda_shiftn_table_norm 4); lia
    | cbn; symmetry; apply float2uint_value; [lia | lra]
    | simpl; lia
    | cbn; lra
    | cbn; ring
    | let a := fresh in let Ha := fresh in
      intros a Ha; rewrite ex_prune_nshift;
      destruct a as [|[|a]]; [cbn; lra | cbn; lra | simpl in Ha; lia] ].

(** Evaluation that leaves the operations on reals in place. *)
Ltac ex_eval :=
  cbv - [Rplus Rmult Rminus Ropp Rinv Rdiv sqrt Rge_dec Rgt_dec Rlt_dec Rle_dec IZR].

Lemma for_stride_two {A : Type} (body : A -> nat -> A) (acc : A) :
  for_stride body 1 2 2 0 acc = body (body acc 0%nat) 1%nat.
Proof. reflexivity. Qed.

(** Evaluates [b x i] in the goal, for a loop body [b] set in the context
    and concrete [x] and [i]. *)
Ltac eval_app b x i :=
  let T := type of (b x i) in
  let v := fresh "v" in
  let E := fresh "E" in
  evar (v : T);
  assert (E : b x i = v) by (subst b v; ex_eval; rdec; reflexivity);
  subst v; rewrite E; clear E.

(** The two iterations of a block-strided loop, one after the other. *)
Ltac eval_stride_two :=
  match goal with |- context [for_stride ?b] =>
    let body := fresh "body" in
    set (body := b); rewrite for_stride_two;
    match goal with |- context [body ?x 0%nat] => eval_app body x 0%nat end;
    match goal with |- context [body ?x 1%nat] => eval_app body x 1%nat end
  end.

Ltac eval_fold_two :=
  match goal with |- context [fold_left ?b (seq 0 2) ?x] =>
    let body := fresh "body" in
    set (body := b);
    change (fold_left body (seq 0 2) x) with (body (body x 0%nat) 1%nat);
    match goal with |- context [body ?y 0%nat] => eval_app body y 0%nat end;
    match goal with |- context [body ?y 1%nat] => eval_app body y 1%nat end
  end.

(** The distance 3/4 of the one pair within the cutoff. *)
Ltac ex_sqrt :=
  repeat match goal with
    | |- context [sqrt ?v] =>
        replace v with (3 / 4 * (3 / 4))%R by lra;
        rewrite (sqrt_square (3 / 4)) by lra
    end.

(** The left walk evaluates the one pair within the cutoff, particle 1 of
    the first cell against particle 0 of the second. *)
Lemma ex_prune_left_value :
  runner_dopair_left_cuda ex_consts_prune ex_force_consts_on ex_eval_count
    (fun _ _ => 1%R) 0 1 0 2 2 2
    ex_prune_pos_i ex_prune_datai ex_prune_pos_j ex_prune_datai
    [0; 0; 0; 0; 0; 0; 0; 0]%R
    (runner_dosort_cuda ex_consts_prune ex_prune_pos_i 2 [0; 0]%Z 4)
    (runner_dosort_cuda ex_consts_prune ex_prune_pos_j 2 [0; 0]%Z 4)
    [2; 0; 0]%R (pair_dshift ex_consts_prune [2; 0; 0]%R 4) 0
  = ([0; 0; 0; 0; 0; 0; 0; 1]%R, 1%R).
Proof.
  rewrite ex_prune_sort_i, ex_prune_sort_j, ex_prune_dshift.
  unfold runner_dopair_left_cuda. eval_stride_two.
  repeat f_equal; lra.
Qed.

(** The right walk evaluates the one pair within the cutoff, particle 0
    of the first cell against particle 1 of the second. *)
Lemma ex_prune_right_value :
  runner_dopair_right_cuda ex_consts_prune ex_force_consts_on ex_eval_count
    (fun _ _ => 1%R) 0 1 0 2 2 2
    ex_prune_pos_i ex_prune_datai ex_prune_pos_j ex_prune_datai
    [0; 0; 0; 0; 0; 0; 0; 0]%R
    (runner_dosort_cuda ex_consts_prune ex_prune_pos_i 2 [0; 0]%Z 4)
    (runner_dosort_cuda ex_consts_prune ex_prune_pos_j 2 [0; 0]%Z 4)
    [2; 0; 0]%R (pair_dshift ex_consts_prune [2; 0; 0]%R 4) 0
  = ([0; 0; 0; 1; 0; 0; 0; 0]%R, 1%R).
Proof.
  rewrite ex_prune_sort_i, ex_prune_sort_j, ex_prune_dshift.
  unfold runner_dopair_right_cuda. eval_stride_two.
  repeat f_equal; lra.
Qed.

(** Concentrations 1 and 3 in the first cell, 0 and 2 in the second: the
    pair at distance 3/4 exchanges [(1 - 3/4)^2 * (3 - 0)]. *)
Lemma ex_prune_state_left_value :
  runner_dopair_state_left_cuda ex_consts_prune [1; 3]%R 2 [0; 2]%R 2
    ex_prune_pos_i ex_prune_datai ex_prune_pos_j ex_prune_datai [0; 0]%R
    (runner_dosort_cuda ex_consts_prune ex_prune_pos_i 2 [0; 0]%Z 4)
    (runner_dosort_cuda ex_consts_prune ex_prune_pos_j 2 [0; 0]%Z 4)
    [2; 0; 0]%R (pair_dshift ex_consts_prune [2; 0; 0]%R 4) 1
  = [0; - (3 / 16)]%R.
Proof.
  rewrite ex_prune_sort_i, ex_prune_sort_j, ex_prune_dshift.
  unfold runner_dopair_state_left_cuda. eval_fold_two. ex_sqrt.
  repeat f_equal; lra.
Qed.

(** The pair at distance 3/4 exchanges [(1 - 3/4)^2 * (1 - 2)]. *)
Lemma ex_prune_state_right_value :
  runner_dopair_state_right_cuda ex_consts_prune [1; 3]%R 2 [0; 2]%R 2
    ex_prune_pos_i ex_prune_datai ex_prune_pos_j ex_prune_datai [0; 0]%R
    (runner_dosort_cuda ex_consts_prune ex_prune_pos_i 2 [0; 0]%Z 4)
    (runner_dosort_cuda ex_consts_prune ex_prune_pos_j 2 [0; 0]%Z 4)
    [2; 0; 0]%R (pair_dshift ex_consts_prune [2; 0; 0]%R 4) 1
  = [1 / 16; 0]%R.
Proof.
  rewrite ex_prune_sort_i, ex_prune_sort_j, ex_prune_dshift.
  unfold runner_dopair_state_right_cuda. eval_fold_two. ex_sqrt.
  repeat f_equal; lra.
Qed.

(** The tests of the two walks fail in the example: for the entry of key
    350 of the first list the left walk stops at the entry of key 375 of
    the second, and for the entry of key 250 it runs no iteration; the
    right walk runs no iteration for the entry of key 350 and stops at the
    entry of key 225 for the entry of key 250. *)
Lemma ex_prune_tests :
  let sort_i := runner_dosort_cuda ex_consts_prune ex_prune_pos_i 2 [0; 0]%Z 4 in
  let sort_j := runner_dosort_cuda ex_consts_prune ex_prune_pos_j 2 [0; 0]%Z 4 in
  let dshift := pair_dshift ex_consts_prune [2; 0; 0]%R 4 in
  for_down_visits
    (left_cond ex_consts_prune sort_j dshift (sort_key (sort_i !!! 0%nat))) 2
  = [1%nat] /\
  for_down_visits
    (left_cond ex_consts_prune sort_j dshift (sort_key (sort_i !!! 1%nat))) 2
  = [] /\
  for_up_visits
    (right_cond ex_consts_prune sort_j dshift (sort_key (sort_i !!! 0%nat))) 2
  = [] /\
  for_up_visits
    (right_cond ex_consts_prune sort_j dshift (sort_key (sort_i !!! 1%nat))) 2
  = [0%nat].
Proof.
  cbv zeta. rewrite ex_prune_sort_i, ex_prune_sort_j, ex_prune_dshift.
  repeat split; vm_compute; reflexivity.
Qed.

Lemma runner_dopair_left_cuda_exhaustive_witness :
  let sort_i := runner_dosort_cuda ex_consts_prune ex_prune_pos_i 2 [0; 0]%Z 4 in
  let sort_j := runner_dosort_cuda ex_consts_prune ex_prune_pos_j 2 [0; 0]%Z 4 in
  let dshift := pair_dshift ex_consts_prune [2; 0; 0]%R 4 in
  runner_dopair_left_cuda ex_consts_prune ex_force_consts_on ex_eval_count
    (fun _ _ => 1%R) 0 1 0 2 2 2
    ex_prune_pos_i ex_prune_datai ex_prune_pos_j ex_prune_datai
    [0; 0; 0; 0; 0; 0; 0; 0]%R sort_i sort_j [2; 0; 0]%R dshift 0
  = runner_dopair_left_cuda_unpruned ex_consts_prune ex_force_consts_on
      ex_eval_count (fun _ _ => 1%R) 0 1 0 2 2 2
      ex_prune_pos_i ex_prune_datai ex_prune_pos_j ex_prune_datai
      [0; 0; 0; 0; 0; 0; 0; 0]%R sort_i sort_j [2; 0; 0]%R 0 /\
  runner_dopair_left_cuda_unpruned ex_consts_prune ex_force_consts_on
    ex_eval_count (fun _ _ => 1%R) 0 1 0 2 2 2
    ex_prune_pos_i ex_prune_datai ex_prune_pos_j ex_prune_datai
    [0; 0; 0; 0; 0; 0; 0; 0]%R sort_i sort_j [2; 0; 0]%R 0
  = ([0; 0; 0; 0; 0; 0; 0; 1]%R, 1%R) /\
  for_down_visits
    (left_cond ex_consts_prune sort_j dshift (sort_key (sort_i !!! 0%nat))) 2
  = [1%nat] /\
  for_down_visits
    (left_cond ex_consts_prune sort_j dshift (sort_key (sort_i !!! 1%nat))) 2
  = [].
Proof.
  cbv zeta.
  pose proof (runner_dopair_left_cuda_exhaustive ex_consts_prune ex_force_consts_on
                ex_eval_count (fun _ _ => 1%R) 4
                ex_prune_pos_i ex_prune_pos_j ex_prune_datai ex_prune_datai 2 2
                [0; 0]%Z [0; 0]%Z [2; 0; 0]%R
                ltac:(ex_prune_walk) ltac:(ex_prune_walk) ltac:(ex_prune_walk)
                ltac:(ex_prune_walk) ltac:(ex_prune_walk) ltac:(ex_prune_walk)
                ltac:(ex_prune_walk) ltac:(ex_prune_walk) ltac:(ex_prune_walk)
                ltac:(ex_prune_walk) ltac:(ex_prune_walk) ltac:(ex_prune_walk)
                ltac:(ex_prune_walk)
                0%nat 1%nat 0%nat 2%nat [0; 0; 0; 0; 0; 0; 0; 0]%R 0%R) as H.
  split; [exact H |]. split; [rewrite <- H; exact ex_prune_left_value |].
  destruct ex_prune_tests as (T1 & T2 & _). split; [exact T1 | exact T2].
Defined.

Lemma runner_dopair_right_cuda_exhaustive_witness :
  let sort_i := runner_dosort_cuda ex_consts_prune ex_prune_pos_i 2 [0; 0]%Z 4 in
  let sort_j := runner_dosort_cuda ex_consts_prune ex_prune_pos_j 2 [0; 0]%Z 4 in
  let dshift := pair_dshift ex_consts_prune [2; 0; 0]%R 4 in
  runner_dopair_right_cuda ex_consts_prune ex_force_consts_on ex_eval_count
    (fun _ _ => 1%R) 0 1 0 2 2 2
    ex_prune_pos_i ex_prune_datai ex_prune_pos_j ex_prune_datai
    [0; 0; 0; 0; 0; 0; 0; 0]%R sort_i sort_j [2; 0; 0]%R dshift 0
  = runner_dopair_right_cuda_unpruned ex_consts_prune ex_force_consts_on
      ex_eval_count (fun _ _ => 1%R) 0 1 0 2 2 2
      ex_prune_pos_i ex_prune_datai ex_prune_pos_j ex_prune_datai
      [0; 0; 0; 0; 0; 0; 0; 0]%R sort_i sort_j [2; 0; 0]%R 0 /\
  runner_dopair_right_cuda_unpruned ex_consts_prune ex_force_consts_on
    ex_eval_count (fun _ _ => 1%R) 0 1 0 2 2 2
    ex_prune_pos_i ex_prune_datai ex_prune_pos_j ex_prune_datai
    [0; 0; 0; 0; 0; 0; 0; 0]%R sort_i sort_j [2; 0; 0]%R 0
  = ([0; 0; 0; 1; 0; 0; 0; 0]%R, 1%R) /\
  for_up_visits
    (right_cond ex_consts_prune sort_j dshift (sort_key (sort_i !!! 0%nat))) 2
  = [] /\
  for_up_visits
    (right_cond ex_consts_prune sort_j dshift (sort_key (sort_i !!! 1%nat))) 2
  = [0%nat].
Proof.
  cbv zeta.
  pose proof (runner_dopair_right_cuda_exhaustive ex_consts_prune ex_force_consts_on
                ex_eval_count (fun _ _ => 1%R) 4
                ex_prune_pos_i ex_prune_pos_j ex_prune_datai ex_prune_datai 2 2
                [0; 0]%Z [0; 0]%Z [2; 0; 0]%R
                ltac:(ex_prune_walk) ltac:(ex_prune_walk) ltac:(ex_prune_walk)
                ltac:(ex_prune_walk) ltac:(ex_prune_walk) ltac:(ex_prune_walk)
                ltac:(ex_prune_walk) ltac:(ex_prune_walk) ltac:(ex_prune_walk)
                ltac:(ex_prune_walk) ltac:(ex_prune_walk) ltac:(ex_prune_walk)
                ltac:(ex_prune_walk)
                0%nat 1%nat 0%nat 2%nat [0; 0; 0; 0; 0; 0; 0; 0]%R 0%R) as H.
  split; [exact H |]. split; [rewrite <- H; exact ex_prune_right_value |].
  destruct ex_prune_tests as (_ & _ & T3 & T4). split; [exact T3 | exact T4].
Defined.

Lemma runner_dopair_state_left_cuda_exhaustive_witness :
  let sort_i := runner_dosort_cuda ex_consts_prune ex_prune_pos_i 2 [0; 0]%Z 4 in
  let sort_j := runner_dosort_cuda ex_consts_prune ex_prune_pos_j 2 [0; 0]%Z 4 in
  let dshift := pair_dshift ex_consts_prune [2; 0; 0]%R 4 in
  runner_dopair_state_left_cuda ex_consts_prune [1; 3]%R 2 [0; 2]%R 2
    ex_prune_pos_i ex_prune_datai ex_prune_pos_j ex_prune_datai [0; 0]%R
    sort_i sort_j [2; 0; 0]%R dshift 1
  = runner_dopair_state_left_cuda_unpruned ex_consts_prune [1; 3]%R 2 [0; 2]%R 2
      ex_prune_pos_i ex_prune_datai ex_prune_pos_j ex_prune_datai [0; 0]%R
      sort_i sort_j [2; 0; 0]%R 1 /\
  runner_dopair_state_left_cuda_unpruned ex_consts_prune [1; 3]%R 2 [0; 2]%R 2
    ex_prune_pos_i ex_prune_datai ex_prune_pos_j ex_prune_datai [0; 0]%R
    sort_i sort_j [2; 0; 0]%R 1
  = [0; - (3 / 16)]%R /\
  for_down_visits
    (left_cond ex_consts_prune sort_j dshift (sort_key (sort_i !!! 0%nat))) 2
  = [1%nat] /\
  for_down_visits
    (left_cond ex_consts_prune sort_j dshift (sort_key (sort_i !!! 1%nat))) 2
  = [].
Proof.
  cbv zeta.
  pose proof (runner_dopair_state_left_cuda_exhaustive ex_consts_prune 4
                ex_prune_pos_i ex_prune_pos_j ex_prune_datai ex_prune_datai 2 2
                [0; 0]%Z [0; 0]%Z [2; 0; 0]%R
                ltac:(ex_prune_walk) ltac:(ex_prune_walk) ltac:(ex_prune_walk)
                ltac:(ex_prune_walk) ltac:(ex_prune_walk) ltac:(ex_prune_walk)
                ltac:(ex_prune_walk) ltac:(ex_prune_walk) ltac:(ex_prune_walk)
                ltac:(ex_prune_walk) ltac:(ex_prune_walk) ltac:(ex_prune_walk)
                ltac:(ex_prune_walk)
                [1; 3]%R [0; 2]%R [0; 0]%R 1%nat) as H.
  split; [exact H |]. split; [rewrite <- H; exact ex_prune_state_left_value |].
  destruct ex_prune_tests as (T1 & T2 & _). split; [exact T1 | exact T2].
Defined.

Lemma runner_dopair_state_right_cuda_exhaustive_witness :
  let sort_i := runner_dosort_cuda ex_consts_prune ex_prune_pos_i 2 [0; 0]%Z 4 in
  let sort_j := runner_dosort_cuda ex_consts_prune ex_prune_pos_j 2 [0; 0]%Z 4 in
  let dshift := pair_dshift ex_consts_prune [2; 0; 0]%R 4 in
  runner_dopair_state_right_cuda ex_consts_prune [1; 3]%R 2 [0; 2]%R 2
    ex_prune_pos_i ex_prune_datai ex_prune_pos_j ex_prune_datai [0; 0]%R
    sort_i sort_j [2; 0; 0]%R dshift 1
  = runner_dopair_state_right_cuda_unpruned ex_consts_prune [1; 3]%R 2 [0; 2]%R 2
      ex_prune_pos_i ex_prune_datai ex_prune_pos_j ex_prune_datai [0; 0]%R
      sort_i sort_j [2; 0; 0]%R 1 /\
  runner_dopair_state_right_cuda_unpruned ex_consts_prune [1; 3]%R 2 [0; 2]%R 2
    ex_prune_pos_i ex_prune_datai ex_prune_pos_j ex_prune_datai [0; 0]%R
    sort_i sort_j [2; 0; 0]%R 1
  = [1 / 16; 0]%R /\
  for_up_visits
    (right_cond ex_consts_prune sort_j dshift (sort_key (sort_i !!! 0%nat))) 2
  = [] /\
  for_up_visits
    (right_cond ex_consts_prune sort_j dshift (sort_key (sort_i !!! 1%nat))) 2
  = [0%nat].
Proof.
  cbv zeta.
  pose proof (runner_dopair_state_right_cuda_exhaustive ex_consts_prune 4
                ex_prune_pos_i ex_prune_pos_j ex_prune_datai ex_prune_datai 2 2
                [0; 0]%Z [0; 0]%Z [2; 0; 0]%R
                ltac:(ex_prune_walk) ltac:(ex_prune_walk) ltac:(ex_prune_walk)
                ltac:(ex_prune_walk) ltac:(ex_prune_walk) ltac:(ex_prune_walk)
                ltac:(ex_prune_walk) ltac:(ex_prune_walk) ltac:(ex_prune_walk)
                ltac:(ex_prune_walk) ltac:(ex_prune_walk) ltac:(ex_prune_walk)
                ltac:(ex_prune_walk)
                [1; 3]%R [0; 2]%R [0; 0]%R 1%nat) as H.
  split; [exact H |]. split; [rewrite <- H; exact ex_prune_state_right_value |].
  destruct ex_prune_tests as (_ & _ & T3 & T4). split; [exact T3 | exact T4].
Defined.


(** The same two cells with one particle each and the lists of the last
    rebuild: the particle of the first cell was at x = 1 when its list was
    sorted (key 300) and has moved to x = 103/100 since; the particle of
    the second cell is at x = 1/50 (key 202). *)
Definition ex_stale_old_i : list float4.t := [float4.mk 1 0 0 1].

Definition ex_stale_new_i : list float4.t := [float4.mk (103 / 100) 0 0 1].

Definition ex_stale_pos_j : list float4.t := [float4.mk (1 / 50) 0 0 1].

Lemma ex_stale_sort_i :
  runner_dosort_cuda ex_consts_prune ex_stale_old_i 1 [0]%Z 4 = [300]%Z.
Proof.
  unfold runner_dosort_cuda. rewrite ex_prune_nshift. cbn [seq fold_left].
  unfold sort_pack. cbn. ex_keys. vm_compute. reflexivity.
Qed.

Lemma ex_stale_sort_j :
  runner_dosort_cuda ex_consts_prune ex_stale_pos_j 1 [0]%Z 4 = [202]%Z.
Proof.
  unfold runner_dosort_cuda. rewrite ex_prune_nshift. cbn [seq fold_left].
  unfold sort_pack. cbn. ex_keys. vm_compute. reflexivity.
Qed.



Ltac eval_fold_one :=
  match goal with |- context [fold_left ?b (seq 0 1) ?x] =>
    let body := fresh "body" in
    set (body := b);
    change (fold_left body (seq 0 1) x) with (body x 0%nat);
    match goal with |- context [body ?y 0%nat] => eval_app body y 0%nat end
  end.


(** The flux walks at the same lists: with concentration 1 on the first
    particle and 0 on the second, the left walk, which accumulates for the
    first particle, runs no iteration, while the right walk, which
    accumulates for the second, compares 202 + 200 with 102 + 300 and adds
    the exchange [(1 - 99/100)^2 * (0 - 1)] of the pair: the second
    particle gains 1/10000 that the first does not give up. *)
Lemma fick_pair_stale_lists_imbalance :
  let sort_i := runner_dosort_cuda ex_consts_prune ex_stale_old_i 1 [0]%Z 4 in
  let sort_j := runner_dosort_cuda ex_consts_prune ex_stale_pos_j 1 [0]%Z 4 in
  let dshift := pair_dshift ex_consts_prune [2; 0; 0]%R 4 in
  runner_dopair_state_left_cuda ex_consts_prune [1]%R 1 [0]%R 1
    ex_stale_new_i ex_prune_datai ex_stale_pos_j ex_prune_datai [0]%R
    sort_i sort_j [2; 0; 0]%R dshift 1
  = [0]%R /\
  runner_dopair_state_right_cuda ex_consts_prune [0]%R 1 [1]%R 1
    ex_stale_pos_j ex_prune_datai ex_stale_new_i ex_prune_datai [0]%R
    sort_j sort_i [2; 0; 0]%R dshift 1
  = [1 / 10000]%R.
Proof.
  cbv zeta. rewrite ex_stale_sort_i, ex_stale_sort_j, ex_prune_dshift. split.
  - unfold runner_dopair_state_left_cuda. eval_fold_one. repeat f_equal; lra.
  - unfold runner_dopair_state_right_cuda. eval_fold_one.
    repeat match goal with
      | |- context [sqrt ?v] =>
          replace v with (99 / 100 * (99 / 100))%R by lra;
          rewrite (sqrt_square (99 / 100)) by lra
      end.
    repeat f_equal; lra.
Qed.

Section SortKernelFacts.

Variable g : Consts.t.
Variable input : DeviceIn.t.

Let ind (c : nat) : nat := DeviceIn.ind_cuda input !!! c.
Let cnt (c : nat) : nat := DeviceIn.counts_cuda input !!! c.
Let pos (c : nat) : list float4.t := drop (ind c) (DeviceIn.cuda_parts_pos input).
Let flagged (c : nat) : Prop := DeviceIn.cuda_cflags input !!! c <> 0%Z.
Let maxcount : nat := DeviceIn.maxcount input.

(** The slots of [cuda_sortlists] that belong to cell [c]. *)
Let region (c j : nat) : Prop := (13 * ind c <= j < 13 * (ind c + cnt c))%nat.

(** One direction of one cell in [runner_run_cuda_do_sort_kernel]. *)
Let sort_step (c : nat) : list Z * list Z -> nat -> list Z * list Z :=
  fun '(sl, s) sid =>
    let s := runner_dosort_cuda g (pos c) (cnt c) s sid in
    (cuda_memcpy sl (13 * ind c + sid * cnt c) s (cnt c), s).

Lemma take_drop_ext2 (l1 l2 : list Z) (off1 off2 n : nat) :
  (off1 + n <= length l1)%nat -> (off2 + n <= length l2)%nat ->
  (forall k, (k < n)%nat -> l1 !!! (off1 + k)%nat = l2 !!! (off2 + k)%nat) ->
  take n (drop off1 l1) = take n (drop off2 l2).
Proof.
  intros H1 H2 H. apply list_eq_same_length with n.
  - rewrite length_take, length_drop. lia.
  - rewrite length_take, length_drop. lia.
  - intros k x y Hk Hx Hy.
    rewrite lookup_take_lt, lookup_drop in Hx, Hy by lia.
    apply list_lookup_total_correct in Hx, Hy. rewrite <- Hx, <- Hy. apply H. lia.
Qed.

Lemma take_drop_ext (l1 l2 : list Z) (off n : nat) :
  (off + n <= length l1)%nat -> (off + n <= length l2)%nat ->
  (forall k, (k < n)%nat -> l1 !!! (off + k)%nat = l2 !!! (off + k)%nat) ->
  take n (drop off l1) = take n (drop off l2).
Proof. apply take_drop_ext2. Qed.

Lemma sorted_list_take (c sid : nat) (buf : list Z) :
  (cnt c <= length buf)%nat ->
  sorted_list g (pos c) (cnt c) sid
              (take (cnt c) (runner_dosort_cuda g (pos c) (cnt c) buf sid)).
Proof.
  intros Hb.
  destruct (runner_dosort_cuda_spec g (pos c) (cnt c) buf sid Hb) as (L & _ & P & HS).
  cbv zeta in L, P, HS. split; [exact P |].
  intros p q Hpq Hq.
  rewrite !lookup_total_take_lt by lia. apply HS; lia.
Qed.

(** The directions [0 .. m-1] of cell [c]. *)
Lemma sort_cell_spec (c : nat) :
  (cnt c <= maxcount)%nat ->
  forall m sl s,
    (m <= 13)%nat -> length s = maxcount ->
    (13 * (ind c + cnt c) <= length sl)%nat ->
    let r := fold_left (sort_step c) (seq 0 m) (sl, s) in
    length r.1 = length sl /\ length r.2 = maxcount /\
    (forall j, ~ (13 * ind c <= j < 13 * ind c + m * cnt c)%nat ->
               r.1 !!! j = sl !!! j) /\
    (forall sid, (sid < m)%nat ->
       sorted_list g (pos c) (cnt c) sid (load_sort r.1 (ind c) (cnt c) sid)).
Proof.
  intros Hmax. induction m as [|m IH]; intros sl s Hm Hs Hsl; cbv zeta.
  - simpl. split; [reflexivity |]. split; [exact Hs |].
    split; [intros; reflexivity | intros ? H; lia].
  - rewrite seq_S, fold_left_app. cbn [fold_left].
    specialize (IH sl s ltac:(lia) Hs Hsl). cbv zeta in IH.
    destruct (fold_left (sort_step c) (seq 0 m) (sl, s)) as [sl1 s1].
    cbn [fst snd] in IH. destruct IH as (L1 & Ls1 & Out1 & Good1).
    cbn [sort_step]. cbn [Nat.add].
    set (s2 := runner_dosort_cuda g (pos c) (cnt c) s1 m).
    assert (Ls2 : length s2 = maxcount).
    { destruct (runner_dosort_cuda_spec g (pos c) (cnt c) s1 m) as (L & _); [lia |].
      cbv zeta in L. unfold s2. lia. }
    assert (Hoff : (13 * ind c + m * cnt c + cnt c <= length sl1)%nat) by nia.
    destruct (cuda_memcpy_fold s2 (13 * ind c + m * cnt c) (cnt c) 0 sl1)
      as [L2 E2]; [lia |].
    cbv zeta in L2, E2. fold (cuda_memcpy sl1 (13 * ind c + m * cnt c) s2 (cnt c)) in L2, E2.
    set (sl2 := cuda_memcpy sl1 (13 * ind c + m * cnt c) s2 (cnt c)) in *.
    cbn [fst snd].
    split; [lia |]. split; [exact Ls2 |]. split.
    + intros j Hj. rewrite E2.
      destruct (decide _) as [Hin|_]; [exfalso; nia |].
      apply Out1. nia.
    + intros sid Hsid. unfold load_sort.
      destruct (Nat.eq_dec sid m) as [->|Hne].
      * assert (E : take (cnt c) (drop (13 * ind c + cnt c * m) sl2)
                    = take (cnt c) s2).
        { rewrite <- (drop_0 s2). apply take_drop_ext2; [nia | lia |].
          intros k Hk. rewrite E2.
          destruct (decide _) as [_|Hout]; [| exfalso; nia].
          f_equal. nia. }
        rewrite E. apply sorted_list_take. lia.
      * assert (E : take (cnt c) (drop (13 * ind c + cnt c * sid) sl2)
                    = take (cnt c) (drop (13 * ind c + cnt c * sid) sl1)).
        { apply take_drop_ext; [nia | nia |].
          intros k Hk. rewrite E2.
          destruct (decide _) as [Hin|_]; [exfalso; nia | reflexivity]. }
        rewrite E. apply Good1. lia.
Qed.

Hypothesis Hlayout :
  forall c c', (c < c')%nat -> (c' < Consts.cuda_nr_cells g)%nat ->
               (ind c + cnt c <= ind c')%nat.
Hypothesis Hmaxcount :
  forall c, (c < Consts.cuda_nr_cells g)%nat -> (cnt c <= maxcount)%nat.

(** The cells [0 .. m-1]. *)
Lemma sort_cells_spec (sl0 : list Z) :
  (forall c, (c < Consts.cuda_nr_cells g)%nat ->
             (13 * (ind c + cnt c) <= length sl0)%nat) ->
  forall m, (m <= Consts.cuda_nr_cells g)%nat ->
    let r := fold_left
               (fun '(sl, s) cid =>
                  if (DeviceIn.cuda_cflags input !!! cid =? 0)%Z then (sl, s)
                  else fold_left (sort_step cid) (seq 0 13) (sl, s))
               (seq 0 m) (sl0, replicate maxcount 0%Z) in
    length r.1 = length sl0 /\ length r.2 = maxcount /\
    (forall j, (forall c, (c < m)%nat -> flagged c -> ~ region c j) ->
               r.1 !!! j = sl0 !!! j) /\
    (forall c sid, (c < m)%nat -> flagged c -> (sid < 13)%nat ->
       sorted_list g (pos c) (cnt c) sid (load_sort r.1 (ind c) (cnt c) sid)).
Proof.
  intros Hfit. induction m as [|m IH]; intros Hm; cbv zeta.
  - simpl. rewrite length_replicate. split; [reflexivity |]. split; [reflexivity |].
    split; [intros; reflexivity | intros ? ? H; lia].
  - rewrite (seq_S m 0), fold_left_app. cbn [fold_left].
    specialize (IH ltac:(lia)). cbv zeta in IH.
    destruct (fold_left _ (seq 0 m) (sl0, replicate maxcount 0%Z)) as [sl1 s1].
    cbn [fst snd] in IH. destruct IH as (L1 & Ls1 & Out1 & Good1).
    cbn [Nat.add].
    destruct (Z.eqb_spec (DeviceIn.cuda_cflags input !!! m) 0) as [Hz|Hnz].
    + cbn [fst snd]. split; [exact L1 |]. split; [exact Ls1 |]. split.
      * intros j Hj. apply Out1. intros c Hc. apply Hj. lia.
      * intros c sid Hc Hf Hsid.
        destruct (Nat.eq_dec c m) as [->|Hne]; [contradiction |].
        apply Good1; [lia | exact Hf | exact Hsid].
    + destruct (sort_cell_spec m (Hmaxcount m ltac:(lia)) 13 sl1 s1)
        as (L2 & Ls2 & Out2 & Good2);
        [lia | exact Ls1 | rewrite L1; apply Hfit; lia |].
      cbv zeta in L2, Ls2, Out2, Good2.
      destruct (fold_left (sort_step m) (seq 0 13) (sl1, s1)) as [sl2 s2].
      cbn [fst snd] in *.
      split; [lia |]. split; [exact Ls2 |]. split.
      * intros j Hj. rewrite Out2.
        -- apply Out1. intros c Hc. apply Hj. lia.
        -- specialize (Hj m ltac:(lia) Hnz). unfold region in Hj. lia.
      * intros c sid Hc Hf Hsid.
        destruct (Nat.eq_dec c m) as [->|Hne]; [apply Good2; exact Hsid |].
        assert (E : load_sort sl2 (ind c) (cnt c) sid
                    = load_sort sl1 (ind c) (cnt c) sid).
        { unfold load_sort.
          pose proof (Hlayout c m ltac:(lia) ltac:(lia)) as Hl.
          pose proof (Hfit c ltac:(lia)) as Hfc.
          apply take_drop_ext; [nia | nia |].
          intros k Hk. apply Out2. nia. }
        rewrite E. apply Good1; [lia | exact Hf | exact Hsid].
Qed.

(** After [runner_run_cuda_do_sort_kernel], the list the pair kernels load
    for a cell with non-zero flags and a direction is a sorted list of that
    cell: the lists of the 13 directions and of the cells do not
    overwrite each other. *)
Theorem do_sort_kernel_lists (sl : list Z) (c sid : nat) :
  (forall c, (c < Consts.cuda_nr_cells g)%nat ->
             (13 * (ind c + cnt c) <= length sl)%nat) ->
  (c < Consts.cuda_nr_cells g)%nat -> flagged c -> (sid < 13)%nat ->
  sorted_list g (pos c) (cnt c) sid
              (load_sort (do_sort_kernel g input sl) (ind c) (cnt c) sid).
Proof.
  intros Hfit Hc Hf Hsid.
  destruct (sort_cells_spec sl Hfit (Consts.cuda_nr_cells g) (le_n _))
    as (_ & _ & _ & Good).
  cbv zeta in Good. apply (Good c sid Hc Hf Hsid).
Qed.

(** [runner_run_cuda_do_sort_kernel] keeps the length of [cuda_sortlists]
    and writes only into the slots of cells with non-zero flags: the list
    of a cell whose flags are zero is never sorted. *)
Theorem do_sort_kernel_frame (sl : list Z) :
  (forall c, (c < Consts.cuda_nr_cells g)%nat ->
             (13 * (ind c + cnt c) <= length sl)%nat) ->
  length (do_sort_kernel g input sl) = length sl /\
  forall j,
    (forall c, (c < Consts.cuda_nr_cells g)%nat -> flagged c -> ~ region c j) ->
    do_sort_kernel g input sl !!! j = sl !!! j.
Proof.
  intros Hfit.
  destruct (sort_cells_spec sl Hfit (Consts.cuda_nr_cells g) (le_n _))
    as (L & _ & Out & _).
  cbv zeta in L, Out. split; [exact L | exact Out].
Qed.

End SortKernelFacts.

(** Two cells of one particle each; only the first has a flag set. *)
Definition ex_input_sort : DeviceIn.t :=
  DeviceIn.mk [float4.mk (1 / 2) 0 0 1; float4.mk (1 / 4) 0 0 1]
              [int4.mk 0 0 0 0; int4.mk 1 0 0 0] [] [1%nat; 1%nat] [0%nat; 1%nat]
              [1%Z; 0%Z] 1.

Lemma ex_input_sort_layout (c c' : nat) :
  (c < c')%nat -> (c' < 2)%nat ->
  (DeviceIn.ind_cuda ex_input_sort !!! c + DeviceIn.counts_cuda ex_input_sort !!! c
   <= DeviceIn.ind_cuda ex_input_sort !!! c')%nat.
Proof.
  intros H1 H2. destruct c' as [|[|c']]; [lia | | lia].
  destruct c as [|c]; [simpl; lia | lia].
Qed.

Lemma ex_input_sort_counts (c : nat) :
  (c < 2)%nat ->
  (DeviceIn.counts_cuda ex_input_sort !!! c <= DeviceIn.maxcount ex_input_sort)%nat.
Proof. intros H. destruct c as [|[|c]]; [simpl; lia | simpl; lia | lia]. Qed.

Lemma ex_input_sort_fit (c : nat) :
  (c < 2)%nat ->
  (13 * (DeviceIn.ind_cuda ex_input_sort !!! c
         + DeviceIn.counts_cuda ex_input_sort !!! c)
   <= length (replicate 26 0%Z))%nat.
Proof. intros H. destruct c as [|[|c]]; [simpl; lia | simpl; lia | lia]. Qed.

Lemma do_sort_kernel_lists_witness :
  sorted_list ex_consts_pair
    (drop (DeviceIn.ind_cuda ex_input_sort !!! 0%nat)
          (DeviceIn.cuda_parts_pos ex_input_sort))
    (DeviceIn.counts_cuda ex_input_sort !!! 0%nat) 4
    (load_sort (do_sort_kernel ex_consts_pair ex_input_sort (replicate 26 0%Z))
               (DeviceIn.ind_cuda ex_input_sort !!! 0%nat)
               (DeviceIn.counts_cuda ex_input_sort !!! 0%nat) 4).
Proof.
  apply (do_sort_kernel_lists ex_consts_pair ex_input_sort ex_input_sort_layout
           ex_input_sort_counts (replicate 26 0%Z) 0 4 ex_input_sort_fit).
  - simpl. lia.
  - simpl. lia.
  - lia.
Defined.

Lemma do_sort_kernel_frame_witness :
  length (do_sort_kernel ex_consts_pair ex_input_sort (replicate 26 0%Z)) = 26%nat.
Proof.
  destruct (do_sort_kernel_frame ex_consts_pair ex_input_sort ex_input_sort_layout
              ex_input_sort_counts (replicate 26 0%Z) ex_input_sort_fit) as [L _].
  exact L.
Defined.

Section EngineEdge.

Variable g : Consts.t.
Variable K : Z.
Variable input : DeviceIn.t.
Variables self_forces pair_left_forces pair_right_forces : Device.t -> list R * R.

(** Without sub-stepping (at most one flux step, or no species) one call
    of [engine_nonbond_cuda] launches no flux-only kernel and never the
    integration kernel: after the memsets and the optional sort come the
    three combined kernels only, and the concentrations on the device and
    the engine's step counter are left as they were. *)
Theorem engine_no_substeps (e : Engine.t) (d : Device.t) :
  let nr_states := Z.to_nat (u32 (Engine.nr_fluxes_cuda e - 1)) in
  let stateful := (0 <? nr_states)%nat in
  (Engine.nr_fluxsteps e <= 1)%Z \/ nr_states = 0%nat ->
  let r := engine_nonbond_cuda g K input self_forces pair_left_forces
             pair_right_forces e d in
  r.2 = [Kernel.memset_forces]
        ++ (if stateful then [Kernel.memset_fluxes] else [])
        ++ (if Engine.verlet_rebuild e then [Kernel.do_sort] else [])
        ++ [Kernel.do_self stateful; Kernel.do_pair_left stateful;
            Kernel.do_pair_right stateful] /\
  r.1.1 = e /\
  Device.part_states_cuda r.1.2 = Device.part_states_cuda d.
Proof.
  intros nr_states stateful H r. subst r.
  unfold engine_nonbond_cuda. fold nr_states. fold stateful.
  assert (E : (stateful && (1 <? Engine.nr_fluxsteps e)%Z)%bool = false).
  { destruct H as [H|H].
    - destruct (Z.ltb_spec 1 (Engine.nr_fluxsteps e)); [lia |].
      apply andb_false_r.
    - unfold stateful. rewrite H. reflexivity. }
  rewrite E.
  destruct stateful, (Engine.verlet_rebuild e); cbn; auto.
Qed.

End EngineEdge.

Lemma engine_no_substeps_witness :
  (engine_nonbond_cuda ex_consts_fick 1 (ex_input_fick [0; 0]%Z)
     ex_no_forces ex_no_forces ex_no_forces
     (Engine.mk 1 1 0 1 false 2) ex_device_fick).2
  = [Kernel.memset_forces; Kernel.do_self false; Kernel.do_pair_left false;
     Kernel.do_pair_right false].
Proof.
  destruct (engine_no_substeps ex_consts_fick 1 (ex_input_fick [0; 0]%Z)
              ex_no_forces ex_no_forces ex_no_forces
              (Engine.mk 1 1 0 1 false 2) ex_device_fick) as (L & _).
  - left. simpl. lia.
  - exact L.
Defined.

Section SelfFickConservation.

Local Open Scope R_scope.

Lemma Rsum_map_plus {A : Type} (a b : A -> R) (l : list A) :
  Rsum (map (fun k => a k + b k) l) = Rsum (map a l) + Rsum (map b l).
Proof.
  unfold Rsum. induction l as [|x l IH]; simpl; [ring | rewrite IH; ring].
Qed.

Lemma Rsum_map_ext {A : Type} (a b : A -> R) (l : list A) :
  (forall x, In x l -> a x = b x) -> Rsum (map a l) = Rsum (map b l).
Proof.
  intros H. f_equal. apply map_ext_in. exact H.
Qed.

Lemma Rsum_map_zero {A : Type} (l : list A) : Rsum (map (fun _ => 0) l) = 0.
Proof. unfold Rsum. induction l as [|x l IH]; simpl; [reflexivity | rewrite IH; ring]. Qed.

Lemma Rsum_map_opp {A : Type} (a : A -> R) (l : list A) :
  Rsum (map (fun k => - a k) l) = - Rsum (map a l).
Proof.
  unfold Rsum. induction l as [|x l IH]; simpl; [ring | rewrite IH; ring].
Qed.

(** Exchange of the order of summation. *)
Lemma Rsum_swap {A B : Type} (F : A -> B -> R) (l1 : list A) (l2 : list B) :
  Rsum (map (fun i => Rsum (map (F i) l2)) l1)
  = Rsum (map (fun k => Rsum (map (fun i => F i k) l1)) l2).
Proof.
  induction l1 as [|x l1 IH].
  - simpl. rewrite Rsum_map_zero. reflexivity.
  - cbn [map]. change (Rsum (?h :: ?t)) with (h + Rsum t). rewrite IH.
    rewrite <- Rsum_map_plus. apply Rsum_map_ext. intros k _. reflexivity.
Qed.

(** An antisymmetric double sum vanishes. *)
Lemma Rsum_antisym (F : nat -> nat -> R) (l : list nat) :
  (forall i k, F i k = - F k i) ->
  Rsum (map (fun i => Rsum (map (F i) l)) l) = 0.
Proof.
  intros H.
  assert (E : Rsum (map (fun i => Rsum (map (F i) l)) l)
              = - Rsum (map (fun i => Rsum (map (F i) l)) l)).
  { rewrite Rsum_swap at 1. rewrite <- Rsum_map_opp.
    apply Rsum_map_ext. intros k _. rewrite <- Rsum_map_opp.
    apply Rsum_map_ext. intros i _. apply H. }
  lra.
Qed.

(** A sum over the entries a test keeps. *)
Lemma Rsum_filter (a : nat -> R) (p : nat -> bool) (l : list nat) :
  Rsum (map a (List.filter p l)) = Rsum (map (fun k => if p k then a k else 0) l).
Proof.
  unfold Rsum. induction l as [|x l IH]; simpl; [reflexivity |].
  destruct (p x); simpl; rewrite IH; ring.
Qed.

(** The flux array after the accumulators of the particles [0 .. m-1] have
    been added. *)
Lemma add_fluxes_all (n : nat) (P : nat -> list R) (m : nat) :
  forall fl : list R,
    (n * m <= length fl)%nat ->
    let r := fold_left (fun fl i => add_fluxes fl (n * i) n (P i)) (seq 0 m) fl in
    length r = length fl /\
    forall i s, (s < n)%nat ->
      r !!! (n * i + s)%nat
      = if decide (i < m)%nat then fl !!! (n * i + s)%nat + P i !!! s
        else fl !!! (n * i + s)%nat.
Proof.
  induction m as [|m IH]; intros fl Hlen; cbv zeta.
  - cbn [seq fold_left]. split; [reflexivity |]. intros i s Hs.
    destruct (decide (i < 0)%nat); [lia | reflexivity].
  - rewrite seq_S, fold_left_app. cbn [fold_left Nat.add].
    destruct (IH fl ltac:(nia)) as [L E]. cbv zeta in L, E.
    set (r := fold_left _ (seq 0 m) fl) in *.
    split; [rewrite add_fluxes_length; [exact L | nia] |].
    intros i s Hs. rewrite add_fluxes_lookup by nia. rewrite E by exact Hs.
    destruct (decide (n * m <= n * i + s < n * m + n)%nat) as [Hin|Hout].
    + assert (i = m) as -> by nia.
      destruct (decide (m < m)%nat); [lia |].
      destruct (decide (m < S m)%nat); [| lia].
      replace (n * m + s - n * m)%nat with s by lia. reflexivity.
    + assert (i <> m) by nia.
      destruct (decide (i < m)%nat), (decide (i < S m)%nat); try lia; reflexivity.
Qed.

Variable g : Consts.t.
Variable states : list R.
Variable count : nat.
Variable parts_pos : list float4.t.
Variable parts_datai : list int4.t.
Variable nr_states ty fx s : nat.

Let flux := Fluxes.fluxes (Consts.cuda_fluxes g !!! fx) !!! 0%nat.

Hypothesis Hty : forall k, (k < count)%nat -> int4.y (parts_datai !!! k) = ty.
Hypothesis Hfx : Consts.cuda_fxind g !!! (ty * Consts.cuda_maxtype g + ty)%nat = fx.
Hypothesis Hne : fx <> 0%nat.
Hypothesis Hsize : Flux.size flux = 1%nat.
Hypothesis Hkind : Flux.kinds flux !!! 0%nat = FLUX_FICK.
Hypothesis Ha : TypeIdPair.a (Flux.type_ids flux !!! 0%nat) = ty.
Hypothesis Hia : Flux.indices_a flux !!! 0%nat = s.
Hypothesis Hib : Flux.indices_b flux !!! 0%nat = s.
Hypothesis Hdecay : Flux.decay_coef flux !!! 0%nat = 0.
Hypothesis Hs : (s < nr_states)%nat.

(** What particle [k] within the cutoff takes from particle [i]. *)
Let taken (i k : nat) : R :=
  if negb (Nat.eqb i k) &&
     (if Rge_dec (dist2 (parts_pos !!! k) (parts_pos !!! i)) (Consts.cuda_cutoff2 g)
      then false else true)
  then spec_flux_exchanged (Consts.cuda_cutoff g)
         (sqrt (dist2 (parts_pos !!! k) (parts_pos !!! i)))
         FLUX_FICK (Flux.coef flux !!! 0%nat) (Flux.target flux !!! 0%nat)
         (states !!! (nr_states * i + s)%nat) (states !!! (nr_states * k + s)%nat)
  else 0.

Lemma taken_antisym (i k : nat) : taken i k = - taken k i.
Proof.
  unfold taken. rewrite (Nat.eqb_sym k i), (dist2_sym (parts_pos !!! i)).
  destruct (negb (i =? k)%nat); cbn [andb]; [| ring].
  destruct (Rge_dec _ _); [ring |].
  unfold spec_flux_exchanged, spec_flux_rate. ring.
Qed.

Lemma self_pjfx_taken (i : nat) :
  (i < count)%nat ->
  runner_doself_state_cuda_pjfx g states count parts_pos parts_datai nr_states i !!! s
  = - Rsum (map (taken i) (seq 0 count)).
Proof.
  intros Hi.
  destruct (runner_doself_state_cuda_pjfx_prefix g states parts_pos parts_datai
              nr_states count i ty fx s Hty Hfx Hne Hsize Ha Hia Hs Hi count)
    as (v & Hfold & Hv); [lia |].
  unfold runner_doself_state_cuda_pjfx. rewrite Hfold.
  rewrite list_lookup_total_insert_eq by (rewrite length_replicate; lia).
  rewrite Hv. fold flux. rewrite Hdecay, Hkind, Hib.
  unfold self_neighbors. rewrite Rsum_filter. unfold taken. ring.
Qed.

(** Fick exchange inside a cell conserves the species: in a cell of one
    type with one Fick term on species [s] and no decay,
    [runner_doself_state_cuda] leaves the total of the flux accumulators of
    species [s] over the particles of the cell unchanged. *)
Theorem runner_doself_state_cuda_fick_conserves (fluxes : list R) :
  (nr_states * count <= length fluxes)%nat ->
  Rsum (map (fun i =>
               runner_doself_state_cuda g states count parts_pos parts_datai
                 fluxes nr_states !!! (nr_states * i + s)%nat)
            (seq 0 count))
  = Rsum (map (fun i => fluxes !!! (nr_states * i + s)%nat) (seq 0 count)).
Proof.
  intros Hlen. unfold runner_doself_state_cuda.
  destruct (add_fluxes_all nr_states
              (runner_doself_state_cuda_pjfx g states count parts_pos parts_datai
                                             nr_states)
              count fluxes Hlen) as [_ E].
  cbv zeta in E.
  rewrite (Rsum_map_ext _
             (fun i => fluxes !!! (nr_states * i + s)%nat
                       + - Rsum (map (taken i) (seq 0 count)))).
  - rewrite Rsum_map_plus, Rsum_map_opp, (Rsum_antisym taken); [ring |].
    apply taken_antisym.
  - intros i Hi. apply in_seq in Hi. rewrite E by exact Hs.
    destruct (decide (i < count)%nat); [| lia].
    rewrite self_pjfx_taken by lia. reflexivity.
Qed.

End SelfFickConservation.

Lemma runner_doself_state_cuda_fick_conserves_witness :
  Rsum (map (fun i =>
               runner_doself_state_cuda ex_consts_fick [1; 0; 0]%R 3 ex_pos3 ex_datai3
                 [0; 0; 0]%R 1 !!! (1 * i + 0)%nat)
            (seq 0 3))
  = Rsum (map (fun i => [0; 0; 0]%R !!! (1 * i + 0)%nat) (seq 0 3)).
Proof.
  apply (runner_doself_state_cuda_fick_conserves ex_consts_fick [1; 0; 0]%R 3
           ex_pos3 ex_datai3 1 0 1 0).
  - intros k Hk. destruct k as [|[|[|k]]]; try reflexivity; lia.
  - reflexivity.
  - discriminate.
  - reflexivity.
  - reflexivity.
  - reflexivity.
  - reflexivity.
  - reflexivity.
  - reflexivity.
  - lia.
  - simpl. lia.
Defined.

Section HostLoad.

(** The rounding of [maxcount] when [cuda_frame] is a power of two. *)
Lemma raise_maxcount_spec (f m : Z) :
  (0 <= f)%Z ->
  raise_maxcount (2 ^ f) m = (2 ^ f * ((m + (2 ^ f - 1)) / 2 ^ f))%Z.
Proof.
  intros Hf. unfold raise_maxcount.
  replace (2 ^ f - 1)%Z with (Z.ones f) by (rewrite Z.ones_equiv; lia).
  rewrite <- Z.ldiff_land, Z.ldiff_ones_r by exact Hf.
  rewrite Z.shiftr_div_pow2, Z.shiftl_mul_pow2 by exact Hf. ring.
Qed.

Lemma raise_maxcount_least (f m : Z) :
  (0 <= f)%Z ->
  let r := raise_maxcount (2 ^ f) m in
  (m <= r < m + 2 ^ f)%Z /\ (2 ^ f | r)%Z.
Proof.
  intros Hf r. subst r. rewrite raise_maxcount_spec by exact Hf.
  assert (P : (0 < 2 ^ f)%Z) by (apply Z.pow_pos_nonneg; lia).
  pose proof (Z.div_mod (m + (2 ^ f - 1)) (2 ^ f) ltac:(lia)) as D.
  pose proof (Z.mod_pos_bound (m + (2 ^ f - 1)) (2 ^ f) P) as B.
  split; [lia |]. exists ((m + (2 ^ f - 1)) / 2 ^ f)%Z. ring.
Qed.

Lemma before_S (counts : list nat) (c : nat) :
  before counts (S c) = (before counts c + counts !!! c)%nat.
Proof. reflexivity. Qed.

Lemma before_mono (counts : list nat) (c c' : nat) :
  (c <= c')%nat -> (before counts c <= before counts c')%nat.
Proof.
  induction 1 as [|c' _ IH]; [lia |]. rewrite before_S. lia.
Qed.

Lemma before_le (a b : list nat) (c : nat) :
  (forall j, (a !!! j <= b !!! j)%nat) -> (before a c <= before b c)%nat.
Proof.
  intros Hab. induction c as [|c IH]; [reflexivity |].
  rewrite !before_S. specialize (Hab c). lia.
Qed.

Lemma load_inds_prefix (counts inds0 : list nat) (m : nat) :
  (m < length inds0)%nat ->
  let r := fold_left (fun inds k =>
               <[k := (inds !!! (k - 1)%nat + counts !!! (k - 1)%nat)%nat]> inds)
            (seq 1 m) (<[0%nat := 0%nat]> inds0) in
  length r = length inds0 /\
  (forall c, (c <= m)%nat -> r !!! c = before counts c) /\
  (forall c, (m < c)%nat -> r !!! c = inds0 !!! c).
Proof.
  induction m as [|m IH]; intros Hm; cbv zeta.
  - cbn [seq fold_left]. rewrite length_insert. split; [reflexivity |]. split.
    + intros c Hc. assert (c = 0%nat) as -> by lia.
      rewrite list_lookup_total_insert_eq by lia. reflexivity.
    + intros c Hc. rewrite list_lookup_total_insert_ne by lia. reflexivity.
  - rewrite (seq_S m 1), fold_left_app. cbn [fold_left].
    destruct (IH ltac:(lia)) as (L & P & Q). cbv zeta in L, P, Q.
    set (r := fold_left _ (seq 1 m) _) in *.
    replace (1 + m - 1)%nat with m by lia. replace (1 + m)%nat with (S m) by lia.
    rewrite length_insert. split; [exact L |]. split.
    + intros c Hc. destruct (decide (c = S m)) as [->|Hne].
      * rewrite list_lookup_total_insert_eq by lia.
        rewrite P by lia. rewrite before_S. reflexivity.
      * rewrite list_lookup_total_insert_ne by lia. apply P. lia.
    + intros c Hc. rewrite list_lookup_total_insert_ne by lia. apply Q. lia.
Qed.

Lemma load_inds_spec (n : nat) (counts inds0 : list nat) :
  (0 < n <= length inds0)%nat ->
  length (load_inds n counts inds0) = length inds0 /\
  forall c, (c < n)%nat -> load_inds n counts inds0 !!! c = before counts c.
Proof.
  intros Hn. destruct (load_inds_prefix counts inds0 (n - 1) ltac:(lia)) as (L & P & _).
  split; [exact L |]. intros c Hc. apply P. lia.
Qed.

(** What a loop that fills the slots [base .. base+n-1] leaves. *)
Lemma fill_slots {A : Type} `{Inhabited A} (val : nat -> A) (base n : nat) :
  forall l : list A,
    (base + n <= length l)%nat ->
    let r := fold_left (fun l pid => <[(base + pid)%nat := val pid]> l) (seq 0 n) l in
    length r = length l /\
    forall j, r !!! j = if decide (base <= j < base + n)%nat then val (j - base)%nat
                        else l !!! j.
Proof.
  induction n as [|n IH]; intros l Hl; cbv zeta.
  - cbn [seq fold_left]. split; [reflexivity |]. intros j.
    destruct (decide (base <= j < base + 0)%nat); [lia | reflexivity].
  - rewrite (seq_S n 0), fold_left_app. cbn [fold_left Nat.add].
    destruct (IH l ltac:(lia)) as (L & E). cbv zeta in L, E.
    set (r := fold_left _ (seq 0 n) l) in *.
    rewrite length_insert. split; [exact L |]. intros j.
    destruct (decide (j = base + n)%nat) as [->|Hne].
    + rewrite list_lookup_total_insert_eq by lia.
      destruct (decide (base <= base + n < base + S n)%nat); [| lia].
      f_equal. lia.
    + rewrite list_lookup_total_insert_ne by lia. rewrite E.
      destruct (decide (base <= j < base + n)%nat),
               (decide (base <= j < base + S n)%nat); try lia; reflexivity.
Qed.

Variable s : space.t.

Let marked (c : nat) : Prop :=
  exists k, (k < space.nr_marked s)%nat /\ space.cid_marked s !!! k = c.
Let cell_count (c : nat) : nat := space_cell.count (space.cells s !!! c).

Hypothesis Hmarked :
  forall k, (k < space.nr_marked s)%nat ->
            (space.cid_marked s !!! k < space.nr_cells s)%nat.

(** The counts and the running maximum after the first [m] marked cells. *)
Lemma load_counts_prefix (m : nat) :
  (m <= space.nr_marked s)%nat ->
  let r := fold_left (fun '(counts, maxcount) k =>
               let cid := space.cid_marked s !!! k in
               let c := space_cell.count (space.cells s !!! cid) in
               (<[cid := c]> counts,
                if (maxcount <? Z.of_nat c)%Z then Z.of_nat c else maxcount))
            (seq 0 m) (replicate (space.nr_cells s) 0%nat, 0%Z) in
  length r.1 = space.nr_cells s /\
  (forall c, (exists k, (k < m)%nat /\ space.cid_marked s !!! k = c) ->
             r.1 !!! c = cell_count c) /\
  (forall c, (forall k, (k < m)%nat -> space.cid_marked s !!! k <> c) ->
             r.1 !!! c = 0%nat) /\
  (forall k, (k < m)%nat ->
             (Z.of_nat (cell_count (space.cid_marked s !!! k)) <= r.2)%Z) /\
  (r.2 = 0%Z \/
   exists k, (k < m)%nat /\ r.2 = Z.of_nat (cell_count (space.cid_marked s !!! k))) /\
  (forall c, (Z.of_nat (r.1 !!! c) <= r.2)%Z) /\
  (forall c, (r.1 !!! c <= cell_count c)%nat).
Proof.
  induction m as [|m IH]; intros Hm; cbv zeta.
  - cbn [seq fold_left fst snd]. rewrite length_replicate.
    split; [reflexivity |]. split; [intros c (k & Hk & _); lia |].
    assert (Z0 : forall c, replicate (space.nr_cells s) 0%nat !!! c = 0%nat).
    { intros c. rewrite list_lookup_total_alt.
      destruct (replicate (space.nr_cells s) 0%nat !! c) as [x|] eqn:E; [| reflexivity].
      apply lookup_replicate in E. simpl. apply E. }
    split; [intros c _; apply Z0 |].
    split; [intros k Hk; lia |]. split; [left; reflexivity |].
    split; intros c; rewrite Z0; lia.
  - rewrite (seq_S m 0), fold_left_app. cbn [fold_left Nat.add].
    destruct (IH ltac:(lia)) as (L & In' & Out & Ub & Att & Le & Lc).
    cbv zeta in L, In', Out, Ub, Att, Le, Lc.
    destruct (fold_left _ (seq 0 m) _) as [counts mc]. cbn [fst snd] in *.
    set (cid := space.cid_marked s !!! m).
    assert (Hcid : (cid < length counts)%nat) by (rewrite L; apply Hmarked; lia).
    split; [rewrite length_insert; exact L |].
    split; [| split; [| split; [| split; [| split]]]].
    + intros c (k & Hk & E). destruct (decide (c = cid)) as [->|Hne].
      * rewrite list_lookup_total_insert_eq by exact Hcid. reflexivity.
      * rewrite list_lookup_total_insert_ne by congruence.
        apply In'. exists k. split; [| exact E].
        destruct (decide (k = m)) as [->|]; [| lia]. subst cid. congruence.
    + intros c H. rewrite list_lookup_total_insert_ne by (apply H; lia).
      apply Out. intros k Hk. apply H. lia.
    + intros k Hk. fold (cell_count cid).
      destruct (Z.ltb_spec mc (Z.of_nat (cell_count cid))).
      * destruct (decide (k = m)) as [->|]; [fold cid; lia |].
        specialize (Ub k ltac:(lia)). lia.
      * destruct (decide (k = m)) as [->|]; [fold cid; lia |].
        apply Ub. lia.
    + fold (cell_count cid).
      destruct (Z.ltb_spec mc (Z.of_nat (cell_count cid))).
      * right. exists m. split; [lia | reflexivity].
      * destruct Att as [Z0|(k & Hk & E)]; [left; exact Z0 |].
        right. exists k. split; [lia | exact E].
    + intros c. fold (cell_count cid). specialize (Le c).
      destruct (decide (c = cid)) as [->|Hne].
      * rewrite list_lookup_total_insert_eq by exact Hcid.
        destruct (Z.ltb_spec mc (Z.of_nat (cell_count cid))); lia.
      * rewrite list_lookup_total_insert_ne by congruence.
        destruct (Z.ltb_spec mc (Z.of_nat (cell_count cid))); lia.
    + intros c. destruct (decide (c = cid)) as [->|Hne].
      * rewrite list_lookup_total_insert_eq by exact Hcid. reflexivity.
      * rewrite list_lookup_total_insert_ne by congruence. apply Lc.
Qed.

(** [maxcount] is the least multiple of [cuda_frame] that bounds the
    counts: when [cuda_frame] is a power of two, the value
    [engine_cuda_load_parts] leaves is a multiple of [cuda_frame], no entry
    of [counts] exceeds it, and no smaller multiple has that property. *)
Theorem engine_cuda_load_parts_maxcount (f : Z) (order inds0 : list nat)
    (b0 : HostParts.t) :
  (0 <= f)%Z ->
  let r := engine_cuda_load_parts (2 ^ f) order s inds0 b0 in
  (2 ^ f | Loaded.maxcount r)%Z /\
  (forall c, (Z.of_nat (Loaded.counts r !!! c) <= Loaded.maxcount r)%Z) /\
  forall M, (0 <= M)%Z -> (2 ^ f | M)%Z ->
            (forall c, (c < space.nr_cells s)%nat ->
                       (Z.of_nat (Loaded.counts r !!! c) <= M)%Z) ->
            (Loaded.maxcount r <= M)%Z.
Proof.
  intros Hf r. subst r. unfold engine_cuda_load_parts, load_counts.
  destruct (load_counts_prefix (space.nr_marked s) (le_n _))
    as (L & In' & _ & _ & Att & Le & _).
  cbv zeta in L, In', Att, Le.
  destruct (fold_left _ (seq 0 (space.nr_marked s)) _) as [counts mc].
  cbn [fst snd Loaded.maxcount Loaded.counts] in *.
  destruct (raise_maxcount_least f mc Hf) as ([Lo Hi] & Dv).
  assert (P : (0 < 2 ^ f)%Z) by (apply Z.pow_pos_nonneg; lia).
  split; [exact Dv |]. split; [intros c; specialize (Le c); lia |].
  intros M HM [q ->] Hall. destruct Dv as [t Et]. rewrite Et in *.
  assert (Hmc : (mc <= q * 2 ^ f)%Z).
  { destruct Att as [->|(k & Hk & ->)]; [lia |].
    rewrite <- (In' (space.cid_marked s !!! k)) by (exists k; auto).
    apply Hall. apply Hmarked. exact Hk. }
  set (p := (2 ^ f)%Z) in *.
  assert (Ht : (t < q + 1)%Z) by (apply (Z.mul_lt_mono_pos_r p); lia).
  apply Z.mul_le_mono_nonneg_r; lia.
Qed.

(** The layout [engine_cuda_load_parts] computes: a marked cell has its
    count in [counts] and any other cell 0, [inds] holds the running sums
    of [counts], and so the slot ranges [inds[c] .. inds[c]+counts[c]-1]
    of different cells follow each other without overlap. *)
Theorem engine_cuda_load_parts_layout (cuda_frame : Z) (order inds0 : list nat)
    (b0 : HostParts.t) :
  (space.nr_cells s <= length inds0)%nat ->
  let r := engine_cuda_load_parts cuda_frame order s inds0 b0 in
  (forall c, marked c -> Loaded.counts r !!! c = cell_count c) /\
  (forall c, ~ marked c -> Loaded.counts r !!! c = 0%nat) /\
  (forall c, (c < space.nr_cells s)%nat ->
             Loaded.inds r !!! c = before (Loaded.counts r) c) /\
  forall c c', (c < c')%nat -> (c' < space.nr_cells s)%nat ->
               (Loaded.inds r !!! c + Loaded.counts r !!! c <= Loaded.inds r !!! c')%nat.
Proof.
  intros Hlen r. subst r. unfold engine_cuda_load_parts, load_counts.
  destruct (load_counts_prefix (space.nr_marked s) (le_n _))
    as (L & In' & Out & _).
  cbv zeta in L, In', Out.
  destruct (fold_left _ (seq 0 (space.nr_marked s)) _) as [counts mc].
  cbn [fst snd Loaded.inds Loaded.counts] in *.
  split; [exact In' |].
  split; [intros c Hc; apply Out; intros k Hk E; apply Hc; exists k; auto |].
  assert (I : forall c, (c < space.nr_cells s)%nat ->
                        load_inds (space.nr_cells s) counts inds0 !!! c
                        = before counts c).
  { intros c Hc. apply load_inds_spec; [lia | exact Hc]. }
  split; [exact I |].
  intros c c' Hcc Hc'. rewrite !I by lia. rewrite <- before_S.
  apply before_mono. lia.
Qed.

(** What the calls of a cell-filling loop leave, whatever their order, when
    the slot ranges of the cells do not overlap. *)
Lemma fill_cells {A : Type} `{Inhabited A} (val : nat -> nat -> A)
    (cids counts inds : list nat) (n : nat) (l0 : list A) :
  (forall c c', (c < c')%nat -> (c' < n)%nat ->
                (inds !!! c + counts !!! c <= inds !!! c')%nat) ->
  (forall c, (c < n)%nat -> (inds !!! c + counts !!! c <= length l0)%nat) ->
  forall order : list nat,
    (forall k, In k order -> (cids !!! k < n)%nat) ->
    let r := fold_left
               (fun l k =>
                  fold_left (fun l pid =>
                               <[(inds !!! (cids !!! k) + pid)%nat
                                 := val (cids !!! k) pid]> l)
                            (seq 0 (counts !!! (cids !!! k))) l)
               order l0 in
    length r = length l0 /\
    (forall k pid, In k order -> (pid < counts !!! (cids !!! k))%nat ->
                   r !!! (inds !!! (cids !!! k) + pid)%nat = val (cids !!! k) pid) /\
    (forall j, (forall k, In k order ->
                          ~ (inds !!! (cids !!! k) <= j
                             < inds !!! (cids !!! k) + counts !!! (cids !!! k))%nat) ->
               r !!! j = l0 !!! j).
Proof.
  intros Hlay Hfit order. induction order as [|k order IH] using rev_ind;
    intros Hin; cbv zeta.
  - cbn [fold_left]. split; [reflexivity |].
    split; [intros k pid [] |]. reflexivity.
  - rewrite fold_left_app. cbn [fold_left].
    destruct IH as (L & W & F); [intros k' Hk'; apply Hin, in_or_app; auto |].
    cbv zeta in L, W, F. set (r := fold_left _ order l0) in *.
    assert (Hk : (cids !!! k < n)%nat) by (apply Hin, in_or_app; simpl; auto).
    destruct (fill_slots (val (cids !!! k)) (inds !!! (cids !!! k))
                (counts !!! (cids !!! k)) r) as (L' & E);
      [rewrite L; apply Hfit, Hk |].
    cbv zeta in L', E. split; [congruence |]. split.
    + intros k' pid Hk' Hpid. rewrite E.
      assert (Hk'n : (cids !!! k' < n)%nat) by (apply Hin, Hk').
      destruct (decide _) as [Hr|Hr].
      * assert (Ec : cids !!! k' = cids !!! k).
        { destruct (Nat.lt_trichotomy (cids !!! k') (cids !!! k)) as [Hlt|[Heq|Hlt]];
            [| exact Heq |].
          - pose proof (Hlay _ _ Hlt Hk). lia.
          - pose proof (Hlay _ _ Hlt Hk'n). lia. }
        rewrite Ec. f_equal. lia.
      * apply in_app_or in Hk'. destruct Hk' as [Hk'|[->|[]]]; [apply W; assumption |].
        exfalso. apply Hr. lia.
    + intros j Hj. rewrite E.
      destruct (decide _) as [Hr|Hr].
      * exfalso. apply (Hj k); [apply in_or_app; simpl; auto | exact Hr].
      * apply F. intros k' Hk'. apply Hj, in_or_app. auto.
Qed.

(** The three staging buffers after the calls of [func_alloc_marked]. *)
Lemma load_cells_buffers (counts inds order : list nat) (b0 : HostParts.t) :
  let part cid pid := space_cell.parts (space.cells s !!! cid) !!! pid in
  let fill {A : Type} (val : nat -> nat -> A) (l0 : list A) :=
    fold_left
      (fun l k =>
         fold_left (fun l pid =>
                      <[(inds !!! (space.cid_marked s !!! k) + pid)%nat
                        := val (space.cid_marked s !!! k) pid]> l)
                   (seq 0 (counts !!! (space.cid_marked s !!! k))) l)
      order l0 in
  fold_left (fun b k => load_cell s counts inds b (space.cid_marked s !!! k)) order b0
  = HostParts.mk
      (fill (fun cid pid =>
               float4.mk (Particle.x (part cid pid) !!! 0%nat)
                         (Particle.x (part cid pid) !!! 1%nat)
                         (Particle.x (part cid pid) !!! 2%nat)
                         (Particle.radius (part cid pid)))
            (HostParts.parts_pos_cuda_local b0))
      (fill (fun cid pid =>
               float3.mk (Particle.v (part cid pid) !!! 0%nat)
                         (Particle.v (part cid pid) !!! 1%nat)
                         (Particle.v (part cid pid) !!! 2%nat))
            (HostParts.parts_vel_cuda_local b0))
      (fill (fun cid pid =>
               int4.mk (Particle.id (part cid pid)) (Particle.typeId (part cid pid))
                       (Particle.flags (part cid pid)) (Particle.clusterId (part cid pid)))
            (HostParts.parts_datai_cuda_local b0)).
Proof.
  intros part fill. subst fill. cbv beta.
  revert b0. induction order as [|k order IH]; intros b0.
  - destruct b0; reflexivity.
  - cbn [fold_left]. rewrite IH. clear IH.
    unfold load_cell. generalize (seq 0 (counts !!! (space.cid_marked s !!! k))).
    intros l. revert b0. induction l as [|pid l IH]; intros b0.
    + reflexivity.
    + cbn [fold_left]. rewrite IH. reflexivity.
Qed.

Lemma cell_count_map (c : nat) :
  map space_cell.count (space.cells s) !!! c = cell_count c.
Proof.
  unfold cell_count. rewrite !list_lookup_total_alt.
  change (map space_cell.count (space.cells s)) with (space_cell.count <$> space.cells s).
  rewrite list_lookup_fmap. destruct (space.cells s !! c); reflexivity.
Qed.

(** Packing keeps every particle where the kernels look for it.  With
    staging buffers that hold the particles of the space, and whatever the
    order in which [parallel_for] runs the calls, after
    [engine_cuda_load_parts] the particle [pid] of a marked cell [cid] is
    at slot [inds[cid] + pid] of the three buffers, and a slot of no marked
    cell is left as it was. *)
Theorem engine_cuda_load_parts_packs (cuda_frame : Z) (order inds0 : list nat)
    (b0 : HostParts.t) :
  let nr_parts := before (map space_cell.count (space.cells s)) (space.nr_cells s) in
  let r := engine_cuda_load_parts cuda_frame order s inds0 b0 in
  let range cid j :=
    (Loaded.inds r !!! cid <= j < Loaded.inds r !!! cid + cell_count cid)%nat in
  Permutation order (seq 0 (space.nr_marked s)) ->
  (space.nr_cells s <= length inds0)%nat ->
  (nr_parts <= length (HostParts.parts_pos_cuda_local b0))%nat ->
  (nr_parts <= length (HostParts.parts_vel_cuda_local b0))%nat ->
  (nr_parts <= length (HostParts.parts_datai_cuda_local b0))%nat ->
  (forall cid pid,
     marked cid -> (pid < cell_count cid)%nat ->
     let part := space_cell.parts (space.cells s !!! cid) !!! pid in
     let slot := (Loaded.inds r !!! cid + pid)%nat in
     HostParts.parts_pos_cuda_local (Loaded.host r) !!! slot
     = float4.mk (Particle.x part !!! 0%nat) (Particle.x part !!! 1%nat)
                 (Particle.x part !!! 2%nat) (Particle.radius part) /\
     HostParts.parts_vel_cuda_local (Loaded.host r) !!! slot
     = float3.mk (Particle.v part !!! 0%nat) (Particle.v part !!! 1%nat)
                 (Particle.v part !!! 2%nat) /\
     HostParts.parts_datai_cuda_local (Loaded.host r) !!! slot
     = int4.mk (Particle.id part) (Particle.typeId part) (Particle.flags part)
               (Particle.clusterId part)) /\
  (forall j,
     (forall cid, marked cid -> ~ range cid j) ->
     HostParts.parts_pos_cuda_local (Loaded.host r) !!! j
     = HostParts.parts_pos_cuda_local b0 !!! j /\
     HostParts.parts_vel_cuda_local (Loaded.host r) !!! j
     = HostParts.parts_vel_cuda_local b0 !!! j /\
     HostParts.parts_datai_cuda_local (Loaded.host r) !!! j
     = HostParts.parts_datai_cuda_local b0 !!! j).
Proof.
  intros nr_parts r range Hperm Hlen Lp Lv Ld.
  subst r range nr_parts. unfold engine_cuda_load_parts, load_counts in *.
  destruct (load_counts_prefix (space.nr_marked s) (le_n _))
    as (L & In' & _ & _ & _ & _ & Lc).
  cbv zeta in L, In', Lc.
  destruct (fold_left _ (seq 0 (space.nr_marked s)) _) as [counts mc].
  cbn [fst snd Loaded.inds Loaded.counts Loaded.host] in *.
  set (inds := load_inds (space.nr_cells s) counts inds0).
  assert (I : forall c, (c < space.nr_cells s)%nat -> inds !!! c = before counts c).
  { intros c Hc. apply load_inds_spec; [lia | exact Hc]. }
  assert (Hlay : forall c c', (c < c')%nat -> (c' < space.nr_cells s)%nat ->
                              (inds !!! c + counts !!! c <= inds !!! c')%nat).
  { intros c c' Hcc Hc'. rewrite !I by lia. rewrite <- before_S.
    apply before_mono. lia. }
  assert (Hfit : forall c, (c < space.nr_cells s)%nat ->
                   (inds !!! c + counts !!! c
                    <= before (map space_cell.count (space.cells s))
                              (space.nr_cells s))%nat).
  { intros c Hc. rewrite I by exact Hc. rewrite <- before_S.
    etransitivity; [apply (before_mono counts (S c) (space.nr_cells s)); lia |].
    apply before_le. intros j. rewrite cell_count_map. apply Lc. }
  assert (Hord : forall k, In k order <-> (k < space.nr_marked s)%nat).
  { intros k. split; intros Hk.
    - apply (Permutation_in _ Hperm), in_seq in Hk. lia.
    - apply (Permutation_in _ (Permutation_sym Hperm)), in_seq. lia. }
  assert (Hin : forall k, In k order -> (space.cid_marked s !!! k < space.nr_cells s)%nat).
  { intros k Hk. apply Hmarked, Hord, Hk. }
  rewrite load_cells_buffers. cbv zeta. cbn [HostParts.parts_pos_cuda_local
    HostParts.parts_vel_cuda_local HostParts.parts_datai_cuda_local].
  pose (part := fun cid pid => space_cell.parts (space.cells s !!! cid) !!! pid).
  destruct (fill_cells
              (fun cid pid =>
                 float4.mk (Particle.x (part cid pid) !!! 0%nat)
                           (Particle.x (part cid pid) !!! 1%nat)
                           (Particle.x (part cid pid) !!! 2%nat)
                           (Particle.radius (part cid pid)))
              (space.cid_marked s) counts inds (space.nr_cells s)
              (HostParts.parts_pos_cuda_local b0) Hlay
              (fun c Hc => Nat.le_trans _ _ _ (Hfit c Hc) Lp) order Hin)
    as (_ & Wp & Fp).
  destruct (fill_cells
              (fun cid pid =>
                 float3.mk (Particle.v (part cid pid) !!! 0%nat)
                           (Particle.v (part cid pid) !!! 1%nat)
                           (Particle.v (part cid pid) !!! 2%nat))
              (space.cid_marked s) counts inds (space.nr_cells s)
              (HostParts.parts_vel_cuda_local b0) Hlay
              (fun c Hc => Nat.le_trans _ _ _ (Hfit c Hc) Lv) order Hin)
    as (_ & Wv & Fv).
  destruct (fill_cells
              (fun cid pid =>
                 int4.mk (Particle.id (part cid pid)) (Particle.typeId (part cid pid))
                         (Particle.flags (part cid pid))
                         (Particle.clusterId (part cid pid)))
              (space.cid_marked s) counts inds (space.nr_cells s)
              (HostParts.parts_datai_cuda_local b0) Hlay
              (fun c Hc => Nat.le_trans _ _ _ (Hfit c Hc) Ld) order Hin)
    as (_ & Wd & Fd).
  subst part. cbv beta zeta in Wp, Fp, Wv, Fv, Wd, Fd.
  split.
  - intros cid pid (k & Hk & <-) Hpid.
    rewrite <- (In' (space.cid_marked s !!! k)) in Hpid by (exists k; auto).
    apply Hord in Hk.
    split; [apply Wp | split; [apply Wv | apply Wd]]; assumption.
  - intros j Hj.
    assert (Hj' : forall k, In k order ->
                    ~ (inds !!! (space.cid_marked s !!! k) <= j
                       < inds !!! (space.cid_marked s !!! k)
                         + counts !!! (space.cid_marked s !!! k))%nat).
    { intros k Hk. apply Hord in Hk.
      rewrite (In' (space.cid_marked s !!! k)) by (exists k; auto).
      apply Hj. exists k. auto. }
    split; [apply Fp | split; [apply Fv | apply Fd]]; exact Hj'.
Qed.

End HostLoad.

(** A space of two cells, both marked (the second first): one particle in
    cell 0, two in cell 1; frames of 32 slots. *)
Definition ex_part (x0 : R) (i : Z) : Particle.t :=
  Particle.mk [x0; 0; 0]%R [0; 0; 0]%R [0; 0; 0; 0]%R 1 i 0 0 0.

Definition ex_space : space.t :=
  space.mk 2 2 [1%nat; 0%nat]
           [space_cell.mk 1 [ex_part 0 0];
            space_cell.mk 2 [ex_part 1 1; ex_part 2 2]]
           1 0 0.

Definition ex_host : HostParts.t :=
  HostParts.mk (replicate 3 (float4.mk 0 0 0 0)) (replicate 3 (float3.mk 0 0 0))
               (replicate 3 (int4.mk 0 0 0 0)).

Lemma ex_space_marked (k : nat) :
  (k < space.nr_marked ex_space)%nat ->
  (space.cid_marked ex_space !!! k < space.nr_cells ex_space)%nat.
Proof. intros H. destruct k as [|[|k]]; simpl in *; lia. Qed.

Lemma engine_cuda_load_parts_maxcount_witness :
  (Loaded.maxcount
     (engine_cuda_load_parts (2 ^ 5) [1%nat; 0%nat] ex_space [7%nat; 7%nat] ex_host)
   <= 32)%Z.
Proof.
  destruct (engine_cuda_load_parts_maxcount ex_space ex_space_marked 5
              [1%nat; 0%nat] [7%nat; 7%nat] ex_host) as (_ & _ & Least); [lia |].
  apply Least.
  - lia.
  - exists 1%Z. reflexivity.
  - intros c Hc. destruct c as [|[|c]]; simpl in *; lia.
Defined.

Lemma engine_cuda_load_parts_layout_witness :
  let r := engine_cuda_load_parts 32 [1%nat; 0%nat] ex_space [7%nat; 7%nat] ex_host in
  (Loaded.inds r !!! 0%nat + Loaded.counts r !!! 0%nat <= Loaded.inds r !!! 1%nat)%nat.
Proof.
  intros r.
  destruct (engine_cuda_load_parts_layout ex_space ex_space_marked 32
              [1%nat; 0%nat] [7%nat; 7%nat] ex_host) as (_ & _ & _ & Lay).
  - simpl. lia.
  - apply Lay; simpl; lia.
Defined.

Lemma engine_cuda_load_parts_packs_witness :
  let r := engine_cuda_load_parts 32 [1%nat; 0%nat] ex_space [7%nat; 7%nat] ex_host in
  HostParts.parts_pos_cuda_local (Loaded.host r) !!! (Loaded.inds r !!! 1%nat + 1)%nat
  = float4.mk 2 0 0 1.
Proof.
  intros r.
  destruct (engine_cuda_load_parts_packs ex_space ex_space_marked 32
              [1%nat; 0%nat] [7%nat; 7%nat] ex_host) as (W & _).
  - simpl. apply perm_swap.
  - simpl. lia.
  - simpl. lia.
  - simpl. lia.
  - simpl. lia.
  - destruct (W 1%nat 1%nat) as (P & _).
    + exists 0%nat. split; [simpl; lia | reflexivity].
    + simpl. lia.
    + exact P.
Defined.

Section HostUnload.

Local Open Scope R_scope.

(** A loop that rewrites the entries [0 .. n-1] of an array in place. *)
Lemma update_each {A : Type} `{Inhabited A} (F : nat -> A -> A) (n : nat) :
  forall l : list A,
    (n <= length l)%nat ->
    let r := fold_left (fun l i => <[i := F i (l !!! i)]> l) (seq 0 n) l in
    length r = length l /\
    forall i, r !!! i = if decide (i < n)%nat then F i (l !!! i) else l !!! i.
Proof.
  induction n as [|n IH]; intros l Hl; cbv zeta.
  - cbn [seq fold_left]. split; [reflexivity |]. intros i.
    destruct (decide (i < 0)%nat); [lia | reflexivity].
  - rewrite (seq_S n 0), fold_left_app. cbn [fold_left Nat.add].
    destruct (IH l ltac:(lia)) as (L & E). cbv zeta in L, E.
    set (r := fold_left _ (seq 0 n) l) in *.
    rewrite length_insert. split; [exact L |]. intros i.
    destruct (decide (i = n)) as [->|Hne].
    + rewrite list_lookup_total_insert_eq by lia. rewrite E.
      destruct (decide (n < n)%nat); [lia |].
      destruct (decide (n < S n)%nat); [reflexivity | lia].
    + rewrite list_lookup_total_insert_ne by lia. rewrite E.
      destruct (decide (i < n)%nat), (decide (i < S n)%nat); try lia; reflexivity.
Qed.

Lemma unload_part_f (buff : list R) (pid : nat) (p : Particle.t) (c : nat) :
  (4 <= length (Particle.f p))%nat ->
  Particle.f (unload_part buff pid p) !!! c
  = if decide (c < 4)%nat then Particle.f p !!! c + buff !!! (4 * pid + c)%nat
    else Particle.f p !!! c.
Proof.
  intros Hl. unfold unload_part. cbn [Particle.f].
  destruct (update_each (fun c v => v + buff !!! (4 * pid + c)%nat) 4 (Particle.f p) Hl)
    as (_ & E).
  apply E.
Qed.

Variable forces_cuda : list R.
Variable cuda_epot : R.
Variable ind_cuda_local : list nat.

(** The cell [cid] after its particles have received their forces. *)
Let unloaded (cells : list space_cell.t) (cid : nat) : space_cell.t :=
  let buff := drop (4 * ind_cuda_local !!! cid) forces_cuda in
  let cell := cells !!! cid in
  space_cell.mk (space_cell.count cell)
    (fold_left (fun parts pid => <[pid := unload_part buff pid (parts !!! pid)]> parts)
               (seq 0 (space_cell.count cell)) (space_cell.parts cell)).

(** The cells after the first [m] marked cells have been unloaded, when no
    cell is marked twice. *)
Lemma unload_cells_prefix (cid_marked : list nat) (cells0 : list space_cell.t) (m : nat) :
  (forall k, (k < m)%nat -> (cid_marked !!! k < length cells0)%nat) ->
  (forall k k', (k < m)%nat -> (k' < m)%nat ->
                cid_marked !!! k = cid_marked !!! k' -> k = k') ->
  let r := fold_left (fun cells k =>
                        unload_cell forces_cuda ind_cuda_local cells (cid_marked !!! k))
                     (seq 0 m) cells0 in
  length r = length cells0 /\
  (forall k, (k < m)%nat ->
             r !!! (cid_marked !!! k) = unloaded cells0 (cid_marked !!! k)) /\
  (forall c, (forall k, (k < m)%nat -> cid_marked !!! k <> c) ->
             r !!! c = cells0 !!! c).
Proof.
  induction m as [|m IH]; intros Hin Hdup; cbv zeta.
  - cbn [seq fold_left]. split; [reflexivity |]. split; [intros k Hk; lia |].
    reflexivity.
  - rewrite (seq_S m 0), fold_left_app. cbn [fold_left Nat.add].
    destruct IH as (L & W & F);
      [intros k Hk; apply Hin; lia | intros k k' Hk Hk'; apply Hdup; lia |].
    cbv zeta in L, W, F. set (r := fold_left _ (seq 0 m) cells0) in *.
    unfold unload_cell. rewrite length_insert. split; [exact L |].
    assert (Hm : r !!! (cid_marked !!! m) = cells0 !!! (cid_marked !!! m)).
    { apply F. intros k Hk E. apply Hdup in E; lia. }
    split.
    + intros k Hk. destruct (decide (k = m)) as [->|Hne].
      * rewrite list_lookup_total_insert_eq by (rewrite L; apply Hin; lia).
        rewrite Hm. reflexivity.
      * rewrite list_lookup_total_insert_ne
          by (intros E; apply Hdup in E; lia).
        apply W. lia.
    + intros c Hc. rewrite list_lookup_total_insert_ne by (apply Hc; lia).
      apply F. intros k Hk. apply Hc. lia.
Qed.

Variable s : space.t.

Let marked (c : nat) : Prop :=
  exists k, (k < space.nr_marked s)%nat /\ space.cid_marked s !!! k = c.

Hypothesis Hmarked :
  forall k, (k < space.nr_marked s)%nat ->
            (space.cid_marked s !!! k < length (space.cells s))%nat.
Hypothesis Hdistinct :
  forall k k', (k < space.nr_marked s)%nat -> (k' < space.nr_marked s)%nat ->
               space.cid_marked s !!! k = space.cid_marked s !!! k' -> k = k'.
Hypothesis Hparts :
  forall c, marked c ->
            (space_cell.count (space.cells s !!! c)
             <= length (space_cell.parts (space.cells s !!! c)))%nat.
Hypothesis Hforce :
  forall c pid, marked c -> (pid < space_cell.count (space.cells s !!! c))%nat ->
    (4 <= length (Particle.f (space_cell.parts (space.cells s !!! c) !!! pid)))%nat.

(** Unloading adds to every particle its own force, once.  When no cell is
    marked twice, after [engine_cuda_unload_parts] particle [pid] of a
    marked cell [cid] has received the four entries of slot
    [ind_cuda_local[cid] + pid] of the device's force array (the slot
    [engine_cuda_load_parts] gave its position), its position and
    velocity are as before, the cells that are not marked are untouched,
    and the potential energy of the device has been added to that of the
    space. *)
Theorem engine_cuda_unload_parts_adds_forces :
  let s' := engine_cuda_unload_parts forces_cuda cuda_epot ind_cuda_local s in
  space.epot s' = space.epot s + cuda_epot /\
  (forall cid pid,
     marked cid -> (pid < space_cell.count (space.cells s !!! cid))%nat ->
     let p := space_cell.parts (space.cells s !!! cid) !!! pid in
     let p' := space_cell.parts (space.cells s' !!! cid) !!! pid in
     (forall c, (c < 4)%nat ->
        Particle.f p' !!! c
        = Particle.f p !!! c
          + forces_cuda !!! (4 * (ind_cuda_local !!! cid + pid) + c)%nat) /\
     Particle.x p' = Particle.x p /\ Particle.v p' = Particle.v p) /\
  (forall cid, ~ marked cid -> space.cells s' !!! cid = space.cells s !!! cid).
Proof.
  intros s'. subst s'. unfold engine_cuda_unload_parts. cbn [space.epot space.cells].
  destruct (unload_cells_prefix (space.cid_marked s) (space.cells s)
              (space.nr_marked s) Hmarked Hdistinct) as (_ & W & F).
  cbv zeta in W, F.
  split; [reflexivity |]. split.
  - intros cid pid Hm Hpid.
    pose proof Hm as (k & Hk & E). subst cid. rewrite (W k Hk). unfold unloaded.
    cbn [space_cell.parts].
    destruct (update_each
                (unload_part (drop (4 * ind_cuda_local !!! (space.cid_marked s !!! k))
                                   forces_cuda))
                (space_cell.count (space.cells s !!! (space.cid_marked s !!! k)))
                (space_cell.parts (space.cells s !!! (space.cid_marked s !!! k)))
                (Hparts _ Hm)) as (_ & U).
    cbv zeta in U. rewrite U.
    destruct (decide _) as [_|Hn]; [| lia].
    split; [| split; reflexivity].
    intros c Hc. rewrite unload_part_f by (apply Hforce; assumption).
    destruct (decide (c < 4)%nat); [| lia].
    rewrite lookup_total_drop. do 2 f_equal. lia.
  - intros cid Hc. apply F. intros k Hk E. apply Hc. exists k. auto.
Qed.

End HostUnload.

Definition ex_forces : list R := [1; 2; 3; 4; 5; 6; 7; 8; 9; 10; 11; 12]%R.

Lemma engine_cuda_unload_parts_adds_forces_witness :
  let s' := engine_cuda_unload_parts ex_forces 1 [0%nat; 1%nat] ex_space in
  (Particle.f (space_cell.parts (space.cells s' !!! 1%nat) !!! 1%nat) !!! 2%nat
   = 0 + 11)%R.
Proof.
  intros s'.
  destruct (engine_cuda_unload_parts_adds_forces ex_forces 1 [0%nat; 1%nat] ex_space)
    as (_ & W & _).
  - intros k Hk. destruct k as [|[|k]]; simpl in *; lia.
  - intros k k' Hk Hk' E.
    destruct k as [|[|k]], k' as [|[|k']]; simpl in *; try lia; discriminate.
  - intros c (k & Hk & <-). destruct k as [|[|k]]; simpl in *; lia.
  - intros c pid (k & Hk & <-) Hp.
    destruct k as [|[|k]]; simpl in *; [| | lia].
    + destruct pid as [|[|pid]]; simpl; lia.
    + destruct pid as [|pid]; simpl; lia.
  - destruct (W 1%nat 1%nat) as (Fs & _).
    + exists 0%nat. split; [simpl; lia | reflexivity].
    + simpl. lia.
    + apply (Fs 2%nat). lia.
Defined.

Section CellPairLists.

Local Open Scope Z_scope.

(** Two tests that exclude each other split a list. *)
Lemma filter_split_perm {A : Type} (p q r : A -> bool) (l : list A) :
  (forall x, r x = p x || q x) -> (forall x, p x && q x = false) ->
  List.filter p l ++ List.filter q l ≡ₚ List.filter r l.
Proof.
  intros Hr Hpq. induction l as [|x l IH]; [reflexivity |].
  cbn [List.filter]. rewrite Hr. specialize (Hpq x).
  destruct (p x), (q x); cbn [orb andb] in *; try discriminate.
  - cbn [app]. apply perm_skip, IH.
  - rewrite <- Permutation_middle. apply perm_skip, IH.
  - exact IH.
Qed.

Lemma filter_none {A : Type} (p : A -> bool) (l : list A) :
  (forall x, p x = false) -> List.filter p l = [].
Proof.
  intros H. induction l as [|x l IH]; [reflexivity |].
  cbn [List.filter]. rewrite H. exact IH.
Qed.

Lemma filter_same {A : Type} (p q : A -> bool) (l : list A) :
  (forall x, In x l -> p x = q x) -> List.filter p l = List.filter q l.
Proof.
  intros H. induction l as [|x l IH]; [reflexivity |].
  cbn [List.filter]. rewrite (H x) by (left; reflexivity).
  rewrite IH by (intros y Hy; apply H; right; exact Hy). reflexivity.
Qed.

(** Grouping by a key in [0 .. n-1] loses nothing and repeats nothing. *)
Lemma group_by_key_perm {A B : Type} (g : A -> B) (p : A -> bool) (key : A -> Z)
    (l : list A) (n : nat) :
  concat (map (fun c => map g (List.filter (fun x => p x && (key x =? Z.of_nat c)) l))
              (seq 0 n))
  ≡ₚ map g (List.filter (fun x => p x && ((0 <=? key x) && (key x <? Z.of_nat n))) l).
Proof.
  induction n as [|n IH].
  - cbn [seq map concat]. rewrite filter_none; [reflexivity |].
    intros x. destruct (p x); [| reflexivity]. cbn [andb].
    destruct (Z.leb_spec 0 (key x)), (Z.ltb_spec (key x) (Z.of_nat 0));
      try reflexivity; lia.
  - rewrite (seq_S n 0), map_app, concat_app. cbn [map concat Nat.add].
    rewrite app_nil_r, IH, <- map_app. apply Permutation_map.
    apply filter_split_perm; intros x; destruct (p x); cbn [andb]; try reflexivity;
      destruct (Z.leb_spec 0 (key x)), (Z.ltb_spec (key x) (Z.of_nat n)),
               (Z.eqb_spec (key x) (Z.of_nat n)),
               (Z.ltb_spec (key x) (Z.of_nat (S n))); cbn [andb orb];
      try reflexivity; lia.
Qed.

Variable task_type_pair : Z.
Variable tasks_cuda : list task_cuda.t.

Let is_pair (t : task_cuda.t) : bool := task_cuda.type t =? task_type_pair.
Let to_left (t : task_cuda.t) : int2.t := int2.mk (task_cuda.j t) (task_cuda.flags t).
Let to_right (t : task_cuda.t) : int2.t := int2.mk (task_cuda.i t) (task_cuda.flags t).

(** The two maps hold, under every key, the pair tasks of that cell in
    the order of the task list. *)
Lemma cellpair_maps_spec (c : Z) :
  let r := cellpair_maps task_type_pair tasks_cuda in
  default [] (r.1 !! c)
  = map to_left (List.filter (fun t => is_pair t && (task_cuda.i t =? c)) tasks_cuda) /\
  default [] (r.2 !! c)
  = map to_right (List.filter (fun t => is_pair t && (task_cuda.j t =? c)) tasks_cuda).
Proof.
  cbv zeta. unfold cellpair_maps.
  induction tasks_cuda as [|t l IH] using rev_ind.
  - cbn [fold_left fst snd List.filter map]. rewrite !lookup_empty. split; reflexivity.
  - rewrite fold_left_app. cbn [fold_left].
    destruct (fold_left _ l (∅, ∅)) as [ml mr]. cbn [fst snd] in IH.
    destruct IH as [Il Ir]. rewrite !List.filter_app, !map_app.
    cbn [List.filter].
    change (task_cuda.type t =? task_type_pair) with (is_pair t).
    destruct (is_pair t); cbn [andb fst snd].
    + unfold map_push_back. split.
      * destruct (Z.eqb_spec (task_cuda.i t) c) as [->|Hne].
        -- rewrite lookup_insert_eq. cbn [default map]. rewrite <- Il. reflexivity.
        -- rewrite lookup_insert_ne by exact Hne. cbn [map].
           rewrite app_nil_r. exact Il.
      * destruct (Z.eqb_spec (task_cuda.j t) c) as [->|Hne].
        -- rewrite lookup_insert_eq. cbn [default map]. rewrite <- Ir. reflexivity.
        -- rewrite lookup_insert_ne by exact Hne. cbn [map].
           rewrite app_nil_r. exact Ir.
    + cbn [map]. rewrite !app_nil_r. split; assumption.
Qed.

(** The layout of one map: the parts of the cells follow each other. *)
Lemma cellpair_lists_spec (m : gmap Z (list int2.t)) (n : nat) :
  let cp c := default [] (m !! Z.of_nat c) in
  let r := cellpair_lists m n in
  CellPairs.cellpair_list r = concat (map cp (seq 0 n)) /\
  length (CellPairs.cellpair_ind r) = n /\
  length (CellPairs.cellpair_count r) = n /\
  forall c, (c < n)%nat ->
    CellPairs.cellpair_ind r !!! c = length (concat (map cp (seq 0 c))) /\
    CellPairs.cellpair_count r !!! c = length (cp c).
Proof.
  intros cp. unfold cellpair_lists. induction n as [|n IH]; cbv zeta.
  - cbn [seq fold_left map concat CellPairs.cellpair_list CellPairs.cellpair_ind
         CellPairs.cellpair_count length].
    repeat split; lia.
  - rewrite (seq_S n 0), fold_left_app. cbn [fold_left Nat.add].
    cbv zeta in IH. destruct IH as (El & Li & Lc & E).
    set (r := fold_left _ (seq 0 n) _) in *.
    cbn [CellPairs.cellpair_list CellPairs.cellpair_ind CellPairs.cellpair_count].
    assert (Ecp : match m !! Z.of_nat n with None => [] | Some v => v end = cp n).
    { unfold cp. destruct (m !! Z.of_nat n); reflexivity. }
    rewrite Ecp, map_app, concat_app. cbn [map concat]. rewrite app_nil_r.
    split; [rewrite El; reflexivity |].
    split; [rewrite length_app; simpl; lia |].
    split; [rewrite length_app; simpl; lia |].
    intros c Hc. destruct (decide (c = n)) as [->|Hne].
    + rewrite !list_lookup_total_middle by (symmetry; assumption).
      rewrite El. split; reflexivity.
    + rewrite !lookup_total_app_l by lia. apply E. lia.
Qed.

(** The part of the list a kernel reads for one cell. *)
Lemma cellpairs_of_spec (m : gmap Z (list int2.t)) (n c : nat) :
  (c < n)%nat ->
  cellpairs_of (cellpair_lists m n) c = default [] (m !! Z.of_nat c).
Proof.
  intros Hc. unfold cellpairs_of.
  destruct (cellpair_lists_spec m n) as (El & _ & _ & E). cbv zeta in El, E.
  destruct (E c Hc) as [-> ->]. rewrite El.
  replace n with (c + S (n - S c))%nat at 1 by lia.
  rewrite seq_app, map_app, concat_app. cbn [seq map concat Nat.add].
  rewrite drop_app_length, take_app_length. reflexivity.
Qed.

Variable nr_cells : nat.

(** The cell-pair lists by cell.  The entries the left pair kernel reads
    for a cell [c] are the pair tasks with [i = c], as [(j, flags)] and in
    the order of the task list; those the right kernel reads are the pair
    tasks with [j = c], as [(i, flags)]. *)
Theorem cellpair_lists_by_cell (c : nat) :
  (c < nr_cells)%nat ->
  cellpairs_of (cellpairs_left task_type_pair tasks_cuda nr_cells) c
  = map (fun t => int2.mk (task_cuda.j t) (task_cuda.flags t))
        (List.filter (fun t => (task_cuda.type t =? task_type_pair)
                               && (task_cuda.i t =? Z.of_nat c)) tasks_cuda) /\
  cellpairs_of (cellpairs_right task_type_pair tasks_cuda nr_cells) c
  = map (fun t => int2.mk (task_cuda.i t) (task_cuda.flags t))
        (List.filter (fun t => (task_cuda.type t =? task_type_pair)
                               && (task_cuda.j t =? Z.of_nat c)) tasks_cuda).
Proof.
  intros Hc. unfold cellpairs_left, cellpairs_right.
  rewrite !cellpairs_of_spec by exact Hc.
  apply (cellpair_maps_spec (Z.of_nat c)).
Qed.

(** Every pair task is handed to each pair kernel exactly once.  When the
    cells of the pair tasks are cells of the space, the left list is a
    rearrangement of the pair tasks as [(j, flags)] and the right list one
    of the pair tasks as [(i, flags)]: none is lost and none is repeated. *)
Theorem cellpair_lists_complete :
  (forall t, In t tasks_cuda -> task_cuda.type t = task_type_pair ->
             0 <= task_cuda.i t < Z.of_nat nr_cells /\
             0 <= task_cuda.j t < Z.of_nat nr_cells) ->
  CellPairs.cellpair_list (cellpairs_left task_type_pair tasks_cuda nr_cells)
  ≡ₚ map (fun t => int2.mk (task_cuda.j t) (task_cuda.flags t))
         (List.filter (fun t => task_cuda.type t =? task_type_pair) tasks_cuda) /\
  CellPairs.cellpair_list (cellpairs_right task_type_pair tasks_cuda nr_cells)
  ≡ₚ map (fun t => int2.mk (task_cuda.i t) (task_cuda.flags t))
         (List.filter (fun t => task_cuda.type t =? task_type_pair) tasks_cuda).
Proof.
  intros Hrange. unfold cellpairs_left, cellpairs_right.
  destruct (cellpair_lists_spec (cellpair_maps task_type_pair tasks_cuda).1 nr_cells)
    as (-> & _).
  destruct (cellpair_lists_spec (cellpair_maps task_type_pair tasks_cuda).2 nr_cells)
    as (-> & _).
  split.
  - rewrite (map_ext _ (fun c => map to_left
               (List.filter (fun t => is_pair t && (task_cuda.i t =? Z.of_nat c))
                            tasks_cuda)))
      by (intros c; apply (cellpair_maps_spec (Z.of_nat c))).
    rewrite group_by_key_perm.
    rewrite (filter_same _ is_pair); [reflexivity |].
    intros t Ht. unfold is_pair.
    destruct (Z.eqb_spec (task_cuda.type t) task_type_pair) as [E|E]; [| reflexivity].
    destruct (Hrange t Ht E) as [[? ?] _]. cbn [andb].
    destruct (Z.leb_spec 0 (task_cuda.i t)),
             (Z.ltb_spec (task_cuda.i t) (Z.of_nat nr_cells)); try lia; reflexivity.
  - rewrite (map_ext _ (fun c => map to_right
               (List.filter (fun t => is_pair t && (task_cuda.j t =? Z.of_nat c))
                            tasks_cuda)))
      by (intros c; apply (cellpair_maps_spec (Z.of_nat c))).
    rewrite group_by_key_perm.
    rewrite (filter_same _ is_pair); [reflexivity |].
    intros t Ht. unfold is_pair.
    destruct (Z.eqb_spec (task_cuda.type t) task_type_pair) as [E|E]; [| reflexivity].
    destruct (Hrange t Ht E) as [_ [? ?]]. cbn [andb].
    destruct (Z.leb_spec 0 (task_cuda.j t)),
             (Z.ltb_spec (task_cuda.j t) (Z.of_nat nr_cells)); try lia; reflexivity.
Qed.

End CellPairLists.

(** Three cells in a row: a sort task per cell and the pair tasks
    (0,1), (1,2), (0,2); 3 stands for [task_type_pair]. *)
Definition ex_tasks : list task_cuda.t :=
  [task_cuda.mk 0 0 0 (-1); task_cuda.mk 3 1 0 1; task_cuda.mk 0 0 1 (-1);
   task_cuda.mk 3 1 1 2; task_cuda.mk 0 0 2 (-1); task_cuda.mk 3 2 0 2]%Z.

Lemma cellpair_lists_by_cell_witness :
  cellpairs_of (cellpairs_left 3 ex_tasks 3) 0 = [int2.mk 1 1; int2.mk 2 2] /\
  cellpairs_of (cellpairs_right 3 ex_tasks 3) 2 = [int2.mk 1 1; int2.mk 0 2].
Proof.
  split.
  - apply (cellpair_lists_by_cell 3 ex_tasks 3 0). lia.
  - apply (cellpair_lists_by_cell 3 ex_tasks 3 2). lia.
Defined.

Lemma cellpair_lists_complete_witness :
  CellPairs.cellpair_list (cellpairs_left 3 ex_tasks 3)
  ≡ₚ [int2.mk 1 1; int2.mk 2 1; int2.mk 2 2].
Proof.
  apply (cellpair_lists_complete 3 ex_tasks 3).
  intros t Ht Hp. simpl in Ht.
  repeat (destruct Ht as [<-|Ht]; [simpl in *; lia |]). destruct Ht.
Defined.

Section SortKeyRange.

Local Open Scope R_scope.

Lemma within_sqrt (t E : R) : 0 <= E -> t * t <= E -> - sqrt E <= t <= sqrt E.
Proof.
  intros HE Ht. pose proof (sqrt_pos E) as P. pose proof (sqrt_sqrt E HE) as Q.
  split; nra.
Qed.

Lemma sq_nonneg (t : R) : 0 <= t * t.
Proof. nra. Qed.

(** The projection of a position inside the cell on a direction of the
    table is within the norm of the shift of that direction. *)
Lemma key_projection_bounds (c s0 s1 s2 h0 h1 h2 x y z : R) :
  (s0 = -1 \/ s0 = 0 \/ s0 = 1) -> (s1 = -1 \/ s1 = 0 \/ s1 = 1) ->
  (s2 = -1 \/ s2 = 0 \/ s2 = 1) ->
  0 <= c -> c * c * (s0 * s0 + s1 * s1 + s2 * s2) <= 1 ->
  0 <= x <= h0 -> 0 <= y <= h1 -> 0 <= z <= h2 ->
  let N := sqrt (s0 * h0 * (s0 * h0) + s1 * h1 * (s1 * h1) + s2 * h2 * (s2 * h2)) in
  - N <= x * (c * s0) + y * (c * s1) + z * (c * s2) <= N /\
  N <= sqrt (h0 * h0 + h1 * h1 + h2 * h2).
Proof.
  intros H0 H1 H2 Hc Hn Hx Hy Hz N.
  set (K := s0 * s0 + s1 * s1 + s2 * s2) in *.
  set (S := s0 * s0 * (x * x) + s1 * s1 * (y * y) + s2 * s2 * (z * z)).
  set (L := s0 * x + s1 * y + s2 * z).
  set (E := s0 * h0 * (s0 * h0) + s1 * h1 * (s1 * h1) + s2 * h2 * (s2 * h2)) in *.
  assert (HS : 0 <= S).
  { unfold S. pose proof (sq_nonneg (s0 * x)). pose proof (sq_nonneg (s1 * y)).
    pose proof (sq_nonneg (s2 * z)). lra. }
  assert (HK : 0 <= K).
  { unfold K. pose proof (sq_nonneg s0). pose proof (sq_nonneg s1).
    pose proof (sq_nonneg s2). lra. }
  assert (CS : L * L <= K * S).
  { unfold L, K, S.
    pose proof (sq_nonneg (x - y)). pose proof (sq_nonneg (x + y)).
    pose proof (sq_nonneg (x - z)). pose proof (sq_nonneg (x + z)).
    pose proof (sq_nonneg (y - z)). pose proof (sq_nonneg (y + z)).
    clear Hn Hx Hy Hz HS HK.
    destruct H0 as [ -> | [ -> | -> ] ], H1 as [ -> | [ -> | -> ] ], H2 as [ -> | [ -> | -> ] ];
      nra. }
  assert (SE : S <= E).
  { unfold S, E.
    assert (x * x <= h0 * h0) by nra. assert (y * y <= h1 * h1) by nra.
    assert (z * z <= h2 * h2) by nra.
    assert (0 <= s0 * s0) by nra. assert (0 <= s1 * s1) by nra.
    assert (0 <= s2 * s2) by nra. nra. }
  assert (HE : 0 <= E) by lra.
  assert (LE : c * L * (c * L) <= E).
  { assert (A1 : c * c * (L * L) <= c * c * (K * S))
      by (apply Rmult_le_compat_l; nra).
    assert (A2 : c * c * K * S <= 1 * S) by (apply Rmult_le_compat_r; assumption).
    nra. }
  split.
  - replace (x * (c * s0) + y * (c * s1) + z * (c * s2)) with (c * L)
      by (unfold L; ring).
    apply within_sqrt; assumption.
  - apply sqrt_le_1_alt. unfold E.
    destruct H0 as [ -> | [ -> | -> ] ], H1 as [ -> | [ -> | -> ] ], H2 as [ -> | [ -> | -> ] ]; nra.
Qed.

(** Every direction of [cuda_shiftn] is a multiple (of norm at most one) of
    the direction of [cuda_shift], whose entries are -1, 0 or 1. *)
Lemma shift_tables (sid : nat) :
  (sid < 13)%nat ->
  exists c, 0 <= c /\
    let s k := cuda_shift_table !!! (3 * sid + k)%nat in
    (forall k, (k < 3)%nat -> s k = -1 \/ s k = 0 \/ s k = 1) /\
    (forall k, (k < 3)%nat -> cuda_shiftn_table !!! (3 * sid + k)%nat = c * s k) /\
    c * c * (s 0%nat * s 0%nat + s 1%nat * s 1%nat + s 2%nat * s 2%nat) <= 1.
Proof.
  intros H.
  assert (T : forall (P : nat -> Prop), P 0%nat -> P 1%nat -> P 2%nat ->
                                        forall k, (k < 3)%nat -> P k).
  { intros P P0 P1 P2 k Hk. destruct k as [|[|[|k]]]; [assumption.. | lia]. }
  do 13 (destruct sid as [|sid];
         [first [ exists 1; split; [lra |]; cbv zeta;
                  split; [apply T; cbn; lra |]; split; [apply T; cbn; lra | cbn; lra]
                | exists (4843165 / 8388608); split; [lra |]; cbv zeta;
                  split; [apply T; cbn; lra |]; split; [apply T; cbn; lra | cbn; lra]
                | exists (11863283 / 16777216); split; [lra |]; cbv zeta;
                  split; [apply T; cbn; lra |]; split; [apply T; cbn; lra | cbn; lra] ]
         |]).
  lia.
Qed.

(** The scale [engine_cuda_load] chooses keeps the sort keys in 16 bits.
    With the direction tables of the source, [cuda_h] and [cuda_dscale] as
    [engine_cuda_load] sets them and cells of positive size, the value
    [runner_dosort_cuda] quantizes for a particle inside its cell lies
    between 0 and two thirds of [SHRT_MAX], for each of the 13 directions;
    so the packed entry gives back the particle index and the key. *)
Theorem engine_cuda_load_dscale_keys_fit (g : Consts.t) (h : list R) (span : list Z)
    (sid : nat) (parts_pos : list float4.t) (count k : nat) :
  Consts.cuda_shiftn g = cuda_shiftn_table ->
  Consts.cuda_shift g = cuda_shift_table ->
  Consts.cuda_h g = engine_cuda_load_h h span ->
  Consts.cuda_dscale g = engine_cuda_load_dscale h span ->
  (forall c, (c < 3)%nat -> 0 < Consts.cuda_h g !!! c) ->
  (sid < 13)%nat -> (k < count)%nat -> (Z.of_nat count <= 65536)%Z ->
  let p := parts_pos !!! k in
  0 <= float4.x p <= Consts.cuda_h g !!! 0%nat ->
  0 <= float4.y p <= Consts.cuda_h g !!! 1%nat ->
  0 <= float4.z p <= Consts.cuda_h g !!! 2%nat ->
  let shift := [Consts.cuda_shiftn g !!! (3 * sid + 0)%nat;
                Consts.cuda_shiftn g !!! (3 * sid + 1)%nat;
                Consts.cuda_shiftn g !!! (3 * sid + 2)%nat] in
  let quant :=
    Consts.cuda_dscale g *
    (sort_nshift g sid + float4.x p * shift !!! 0%nat + float4.y p * shift !!! 1%nat
     + float4.z p * shift !!! 2%nat) in
  let e := sort_pack g (sort_nshift g sid) shift parts_pos k in
  0 <= quant <= IZR (2 * SHRT_MAX) / 3 /\
  sort_pid e = k /\ sort_key e = Int_part quant /\ (sort_key e < 2 ^ 16)%Z.
Proof.
  intros Hn Hs Hh Hd Hpos Hsid Hk Hcount p Hx Hy Hz shift quant e.
  assert (Q : 0 <= quant <= IZR (2 * SHRT_MAX) / 3).
  { subst quant shift.
    change ([?a; ?b; ?c] !!! 0%nat) with a.
    change ([?a; ?b; ?c] !!! 1%nat) with b.
    change ([?a; ?b; ?c] !!! 2%nat) with c.
    destruct (shift_tables sid Hsid) as (c & Hc & Hv & Hm & Hc2). cbv zeta in Hv, Hm, Hc2.
    rewrite Hn, !Hm by lia.
    pose proof (key_projection_bounds c _ _ _ _ _ _ _ _ _
                  (Hv 0%nat ltac:(lia)) (Hv 1%nat ltac:(lia)) (Hv 2%nat ltac:(lia))
                  Hc Hc2 Hx Hy Hz) as [B1 B2].
    cbv zeta in B1, B2. unfold sort_nshift. rewrite Hs. cbv zeta.
    set (N := sqrt _) in *.
    set (P := float4.x p * _ + float4.y p * _ + float4.z p * _) in *.
    set (H := sqrt _) in B2.
    assert (HH : 0 < H).
    { apply sqrt_lt_R0.
      pose proof (Hpos 0%nat ltac:(lia)). pose proof (Hpos 1%nat ltac:(lia)).
      pose proof (Hpos 2%nat ltac:(lia)). nra. }
    assert (ED : Consts.cuda_dscale g = IZR SHRT_MAX / (3 * H)).
    { rewrite Hd. unfold engine_cuda_load_dscale, H. rewrite Hh.
      unfold engine_cuda_load_h.
      change ([?a; ?b; ?c] !!! 0%nat) with a.
      change ([?a; ?b; ?c] !!! 1%nat) with b.
      change ([?a; ?b; ?c] !!! 2%nat) with c.
      do 3 f_equal. ring. }
    rewrite ED. unfold SHRT_MAX.
    replace (N + float4.x p * (c * cuda_shift_table !!! (3 * sid + 0)%nat)
             + float4.y p * (c * cuda_shift_table !!! (3 * sid + 1)%nat)
             + float4.z p * (c * cuda_shift_table !!! (3 * sid + 2)%nat))
      with (N + P) by (unfold P; ring).
    assert (I : 0 < / (3 * H)) by (apply Rinv_0_lt_compat; lra).
    assert (J : / (3 * H) * (3 * H) = 1) by (apply Rinv_l; lra).
    unfold Rdiv. split.
    - apply Rmult_le_pos; [| lra]. apply Rmult_le_pos; [lra | lra].
    - change (IZR (2 * 32767)) with 65534. nra. }
  split; [exact Q |].
  destruct (sort_pack_fields g sid 0 0 [] [] [] (Nat.le_0_l _) (Nat.le_0_l _)
              parts_pos count k Hcount Hk) as (K1 & K2 & K3).
  - subst quant shift. unfold SHRT_MAX in Q.
    change ([?a; ?b; ?c] !!! 0%nat) with a in Q.
    change ([?a; ?b; ?c] !!! 1%nat) with b in Q.
    change ([?a; ?b; ?c] !!! 2%nat) with c in Q.
    change (IZR (2 * 32767)) with 65534 in Q.
    cbv beta. fold p. lra.
  - cbv zeta beta in K1, K2, K3. fold p in K1, K3. subst e quant shift.
    change ([?a; ?b; ?c] !!! 0%nat) with a.
    change ([?a; ?b; ?c] !!! 1%nat) with b.
    change ([?a; ?b; ?c] !!! 2%nat) with c.
    split; [exact K2 |]. split; [exact K1 |]. rewrite K1. lia.
Qed.

End SortKeyRange.

(** Unit cells (span 1) with the constants as [engine_cuda_load] sets
    them. *)
Definition ex_consts_load : Consts.t :=
  Consts.mk 1 1 1 (engine_cuda_load_dscale [1; 1; 1]%R [1; 1; 1]%Z) 3 1 2
            [0%nat] [Fluxes.mk []] [0; 0; 0; 1; 0; 0]%R [2; 1; 1]%R
            (engine_cuda_load_h [1; 1; 1]%R [1; 1; 1]%Z)
            cuda_shiftn_table cuda_shift_table [] [0%nat] [0%nat] [] [0%nat] [0%nat].

Lemma engine_cuda_load_dscale_keys_fit_witness :
  let shift := [Consts.cuda_shiftn ex_consts_load !!! (3 * 7 + 0)%nat;
                Consts.cuda_shiftn ex_consts_load !!! (3 * 7 + 1)%nat;
                Consts.cuda_shiftn ex_consts_load !!! (3 * 7 + 2)%nat] in
  let e := sort_pack ex_consts_load (sort_nshift ex_consts_load 7) shift
             [float4.mk (1 / 2) 1 0 1] 0 in
  sort_pid e = 0%nat /\ (sort_key e < 2 ^ 16)%Z.
Proof.
  intros shift e.
  destruct (engine_cuda_load_dscale_keys_fit ex_consts_load [1; 1; 1]%R [1; 1; 1]%Z 7
              [float4.mk (1 / 2) 1 0 1] 1 0) as (_ & P & _ & K);
    try reflexivity; try lia.
  - intros c Hc. destruct c as [|[|[|c]]]; [cbn; lra.. | lia].
  - cbn. lra.
  - cbn. lra.
  - cbn. lra.
  - split; [exact P | exact K].
Defined.

Section PairFickConservation.

Local Open Scope R_scope.

Lemma for_down_true_fold {A : Type} (body : A -> nat -> A) (n : nat) :
  forall acc,
    for_down_while (fun _ => true) body n acc = fold_left body (rev (seq 0 n)) acc.
Proof.
  induction n as [|n IH]; intros acc; [reflexivity |].
  rewrite (seq_S n 0), rev_app_distr. cbn [for_down_while rev app fold_left Nat.add].
  apply IH.
Qed.

Lemma for_up_true_fold {A : Type} (body : A -> nat -> A) (n : nat) :
  forall fuel acc,
    (fuel <= n)%nat ->
    for_up_while (fun _ => true) body n fuel acc
    = fold_left body (seq (n - fuel) fuel) acc.
Proof.
  induction fuel as [|fuel IH]; intros acc Hf; [reflexivity |].
  cbn [for_up_while seq fold_left]. rewrite IH by lia.
  replace (S (n - S fuel)) with (n - fuel)%nat by lia. reflexivity.
Qed.

Lemma Rsum_map_rev {A : Type} (a : A -> R) (l : list A) :
  Rsum (map a (rev l)) = Rsum (map a l).
Proof.
  induction l as [|x l IH]; [reflexivity |].
  cbn [rev]. rewrite map_app, Rsum_app, IH. unfold Rsum. simpl. ring.
Qed.

(** The one slot of the sum a particle's accumulator is added to. *)
Lemma Rsum_one_slot (v : R) (spid count : nat) :
  (spid < count)%nat ->
  Rsum (map (fun a => if decide (a = spid) then v else 0) (seq 0 count)) = v.
Proof.
  intros H. induction count as [|count IH]; [lia |].
  rewrite (seq_S count 0), map_app, Rsum_app. cbn [map Nat.add]. unfold Rsum at 2.
  cbn [fold_right]. destruct (decide (spid = count)) as [->|Hne].
  - destruct (decide (count = count)); [| lia].
    rewrite (Rsum_map_ext _ (fun _ => 0)), Rsum_map_zero; [ring |].
    intros a Ha. apply in_seq in Ha. destruct (decide (a = count)); [lia | reflexivity].
  - destruct (decide (count = spid)); [lia |]. rewrite IH by lia. ring.
Qed.

(** Adding the accumulators of the entries [es] raises the total of
    species [s] over the cell by the total of the accumulators. *)
Lemma walk_sum (nr count s : nat) (spid : nat -> nat) (P : nat -> list R)
    (es : list nat) :
  (s < nr)%nat ->
  (forall i, In i es -> (spid i < count)%nat) ->
  forall fl : list R,
    (nr * count <= length fl)%nat ->
    let r := fold_left (fun fl i => add_fluxes fl (nr * spid i) nr (P i)) es fl in
    length r = length fl /\
    Rsum (map (fun a => r !!! (nr * a + s)%nat) (seq 0 count))
    = Rsum (map (fun a => fl !!! (nr * a + s)%nat) (seq 0 count))
      + Rsum (map (fun i => P i !!! s) es).
Proof.
  intros Hs. induction es as [|i es IH]; intros Hin fl Hl; cbv zeta.
  - cbn [fold_left map]. split; [reflexivity |]. unfold Rsum at 3. simpl. ring.
  - cbn [fold_left map].
    assert (Hi : (spid i < count)%nat) by (apply Hin; left; reflexivity).
    assert (La : length (add_fluxes fl (nr * spid i) nr (P i)) = length fl)
      by (apply add_fluxes_length; nia).
    destruct (IH (fun j Hj => Hin j (or_intror Hj))
                 (add_fluxes fl (nr * spid i) nr (P i))) as (L & E);
      [rewrite La; exact Hl |].
    cbv zeta in L, E. split; [congruence |]. rewrite E.
    rewrite (Rsum_map_ext _
               (fun a => fl !!! (nr * a + s)%nat
                         + (if decide (a = spid i) then P i !!! s else 0))).
    + rewrite Rsum_map_plus, (Rsum_one_slot _ _ _ Hi).
      change (Rsum (?h :: ?t)) with (h + Rsum t). ring.
    + intros a Ha. rewrite add_fluxes_lookup by nia.
      destruct (decide (nr * spid i <= nr * a + s < nr * spid i + nr)%nat) as [Hr|Hr].
      * assert (a = spid i) as -> by nia.
        destruct (decide (spid i = spid i)); [| lia]. do 2 f_equal. lia.
      * destruct (decide (a = spid i)) as [->|]; [lia | ring].
Qed.

Variable g : Consts.t.
Variable nr_states ty fx s : nat.

Let flux := Fluxes.fluxes (Consts.cuda_fluxes g !!! fx) !!! 0%nat.

Hypothesis Hfx : Consts.cuda_fxind g !!! (ty * Consts.cuda_maxtype g + ty)%nat = fx.
Hypothesis Hne : fx <> 0%nat.
Hypothesis Hsize : Flux.size flux = 1%nat.
Hypothesis Hkind : Flux.kinds flux !!! 0%nat = FLUX_FICK.
Hypothesis Ha : TypeIdPair.a (Flux.type_ids flux !!! 0%nat) = ty.
Hypothesis Hia : Flux.indices_a flux !!! 0%nat = s.
Hypothesis Hib : Flux.indices_b flux !!! 0%nat = s.
Hypothesis Hdecay : Flux.decay_coef flux !!! 0%nat = 0.
Hypothesis Hs : (s < nr_states)%nat.

(** What the particle at [pix] with concentrations [pis] takes from the
    particle behind entry [k] of a sorted list of the other cell. *)
Let taken (pis statesJ : list R) (pix : float4.t) (posJ : list float4.t)
    (sortJ : list Z) (k : nat) : R :=
  let b := sort_pid (sortJ !!! k) in
  let r2 := dist2 pix (posJ !!! b) in
  if Rge_dec r2 (Consts.cuda_cutoff2 g) then 0
  else spec_flux_exchanged (Consts.cuda_cutoff g) (sqrt r2) FLUX_FICK
         (Flux.coef flux !!! 0%nat) (Flux.target flux !!! 0%nat)
         (pis !!! s) (statesJ !!! (nr_states * b + s)%nat).

(** The accumulator of one particle after the entries [l] of the other
    cell. *)
Lemma pair_inner_fold (pis statesJ : list R) (pix : float4.t)
    (posJ : list float4.t) (dataiJ : list int4.t) (sortJ : list Z) (l : list nat) :
  (forall k, In k l -> int4.y (dataiJ !!! sort_pid (sortJ !!! k)) = ty) ->
  forall v,
    fold_left (runner_dopair_state_cuda_inner g pis statesJ pix ty posJ dataiJ sortJ
                                              nr_states)
              l (<[s := v]> (replicate nr_states 0))
    = <[s := v - Rsum (map (taken pis statesJ pix posJ sortJ) l)]>
        (replicate nr_states 0).
Proof.
  intros Hty. induction l as [|k l IH]; intros v.
  - cbn [fold_left map]. f_equal. unfold Rsum. simpl. ring.
  - cbn [fold_left map]. change (Rsum (?h :: ?t)) with (h + Rsum t).
    assert (Hk : int4.y (dataiJ !!! sort_pid (sortJ !!! k)) = ty)
      by (apply Hty; left; reflexivity).
    assert (E : runner_dopair_state_cuda_inner g pis statesJ pix ty posJ dataiJ
                  sortJ nr_states (<[s := v]> (replicate nr_states 0)) k
                = <[s := v - taken pis statesJ pix posJ sortJ k]>
                    (replicate nr_states 0)).
    { unfold runner_dopair_state_cuda_inner, taken. cbv zeta.
      destruct (Rge_dec _ _) as [|_]; [f_equal; ring |].
      rewrite Hk, Hfx. destruct (Nat.eqb_spec fx 0) as [|_]; [contradiction |].
      unfold flux_eval_ex_cuda. fold flux. rewrite Hsize. cbn [seq fold_left].
      unfold flux_eval_ex_cuda_iter. rewrite Ha, Nat.eqb_refl, Hia, Hib, Hdecay.
      rewrite flux_kind_cuda_rate, Hkind, lookup_total_drop.
      rewrite list_lookup_total_insert_eq by (rewrite length_replicate; exact Hs).
      rewrite list_insert_insert_eq. f_equal.
      unfold spec_flux_exchanged. ring. }
    rewrite E, IH by (intros k' Hk'; apply Hty; right; exact Hk').
    f_equal. ring.
Qed.

Lemma dist2_shift (shift : list R) (pi pj : float4.t) :
  dist2 (shift_add shift pj) pi = dist2 (shift_sub shift pi) pj.
Proof. unfold dist2, shift_add, shift_sub. cbn [float4.x float4.y float4.z]. ring. Qed.

Variable sid : nat.
Variables parts_pos_i parts_pos_j : list float4.t.
Variables parts_datai_i parts_datai_j : list int4.t.
Variables count_i count_j : nat.
Variables buf_i buf_j : list Z.
Variable shift : list R.
Variables states_i states_j : list R.

Let n0 := Consts.cuda_shiftn g !!! (3 * sid + 0)%nat.
Let n1 := Consts.cuda_shiftn g !!! (3 * sid + 1)%nat.
Let n2 := Consts.cuda_shiftn g !!! (3 * sid + 2)%nat.

Let quant (p : float4.t) : R :=
  Consts.cuda_dscale g *
  (sort_nshift g sid + float4.x p * n0 + float4.y p * n1 + float4.z p * n2).

Let sort_i := runner_dosort_cuda g parts_pos_i count_i buf_i sid.
Let sort_j := runner_dosort_cuda g parts_pos_j count_j buf_j sid.
Let dshift := pair_dshift g shift sid.

Hypothesis Hdscale : 0 <= Consts.cuda_dscale g.
Hypothesis Hcutoff : 0 <= Consts.cuda_cutoff g.
Hypothesis Hcutoff2 :
  Consts.cuda_cutoff2 g = Consts.cuda_cutoff g * Consts.cuda_cutoff g.
Hypothesis Hdmaxdist :
  Consts.cuda_dmaxdist g
  = float2uint (2 + Consts.cuda_dscale g * Consts.cuda_cutoff g).
Hypothesis Hdmax_fits :
  2 + Consts.cuda_dscale g * Consts.cuda_cutoff g < 2147483648.
Hypothesis Hnorm : n0 * n0 + n1 * n1 + n2 * n2 <= 1.
Hypothesis Hbuf_i : (count_i <= length buf_i)%nat.
Hypothesis Hbuf_j : (count_j <= length buf_j)%nat.
Hypothesis Hcount_i : (Z.of_nat count_i <= 65536)%Z.
Hypothesis Hcount_j : (Z.of_nat count_j <= 65536)%Z.
Hypothesis Hquant_i :
  forall a, (a < count_i)%nat -> 0 <= quant (parts_pos_i !!! a) < 65536.
Hypothesis Hquant_j :
  forall b, (b < count_j)%nat -> 0 <= quant (parts_pos_j !!! b) < 65536.
Hypothesis Hshift :
  0 <= Consts.cuda_dscale g *
       (shift !!! 0%nat * n0 + shift !!! 1%nat * n1 + shift !!! 2%nat * n2)
  < 2147483648.
Hypothesis Hty_i :
  forall a, (a < count_i)%nat -> int4.y (parts_datai_i !!! a) = ty.
Hypothesis Hty_j :
  forall b, (b < count_j)%nat -> int4.y (parts_datai_j !!! b) = ty.

Let spid_i (i : nat) : nat := sort_pid (sort_i !!! i).
Let spid_j (j : nat) : nat := sort_pid (sort_j !!! j).

Lemma spid_i_lt (i : nat) : (i < count_i)%nat -> (spid_i i < count_i)%nat.
Proof.
  intros Hi.
  destruct (walk_entry g sid parts_pos_i count_i buf_i i Hbuf_i Hcount_i Hquant_i Hi)
    as (H & _).
  exact H.
Qed.

Lemma spid_j_lt (j : nat) : (j < count_j)%nat -> (spid_j j < count_j)%nat.
Proof.
  intros Hj.
  destruct (walk_entry g sid parts_pos_j count_j buf_j j Hbuf_j Hcount_j Hquant_j Hj)
    as (H & _).
  exact H.
Qed.

(** What entry [i] of cell i takes from entry [k] of cell j in the left
    walk, and entry [j] of cell j from entry [k] of cell i in the right
    walk. *)
Let taken_left (i k : nat) : R :=
  taken (drop (nr_states * spid_i i) states_i) states_j
        (shift_sub shift (parts_pos_i !!! spid_i i)) parts_pos_j sort_j k.
Let taken_right (j k : nat) : R :=
  taken (drop (nr_states * spid_j j) states_j) states_i
        (shift_add shift (parts_pos_j !!! spid_j j)) parts_pos_i sort_i k.

Lemma taken_right_left (i j : nat) : taken_right j i = - taken_left i j.
Proof.
  unfold taken_right, taken_left, taken, spid_i, spid_j. cbv zeta.
  rewrite dist2_shift, !lookup_total_drop.
  destruct (Rge_dec _ _); [ring |].
  unfold spec_flux_exchanged, spec_flux_rate. ring.
Qed.

Lemma replicate_slot (v : R) :
  replicate nr_states 0 = <[s := 0]> (replicate nr_states 0).
Proof. symmetry. apply insert_replicate. Qed.

Lemma left_pifx (i : nat) :
  (i < count_i)%nat ->
  for_down_while (left_cond g sort_j dshift (sort_key (sort_i !!! i)))
    (runner_dopair_state_cuda_inner g (drop (nr_states * spid_i i) states_i) states_j
       (shift_sub shift (parts_pos_i !!! spid_i i))
       (int4.y (parts_datai_i !!! spid_i i))
       parts_pos_j parts_datai_j sort_j nr_states)
    count_j (replicate nr_states 0)
  = <[s := - Rsum (map (taken_left i) (seq 0 count_j))]> (replicate nr_states 0).
Proof.
  intros Hi.
  rewrite (state_left_prune g sid parts_pos_i parts_pos_j parts_datai_j count_i
             count_j buf_i buf_j shift Hdscale Hcutoff Hcutoff2 Hdmaxdist Hdmax_fits
             Hnorm Hbuf_i Hbuf_j Hcount_i Hcount_j Hquant_i Hquant_j Hshift
             _ states_j _ nr_states i _ Hi).
  rewrite for_down_true_fold, (Hty_i _ (spid_i_lt i Hi)).
  rewrite (replicate_slot 0) at 1.
  rewrite pair_inner_fold.
  - rewrite Rsum_map_rev. unfold Rminus. rewrite Rplus_0_l. reflexivity.
  - intros k Hk. apply in_rev, in_seq in Hk. apply Hty_j, spid_j_lt. lia.
Qed.

Lemma right_pifx (j : nat) :
  (j < count_j)%nat ->
  for_up_while (right_cond g sort_i dshift (sort_key (sort_j !!! j)))
    (runner_dopair_state_cuda_inner g (drop (nr_states * spid_j j) states_j) states_i
       (shift_add shift (parts_pos_j !!! spid_j j))
       (int4.y (parts_datai_j !!! spid_j j))
       parts_pos_i parts_datai_i sort_i nr_states)
    count_i count_i (replicate nr_states 0)
  = <[s := - Rsum (map (taken_right j) (seq 0 count_i))]> (replicate nr_states 0).
Proof.
  intros Hj.
  rewrite (state_right_prune g sid parts_pos_j parts_pos_i parts_datai_i count_j
             count_i buf_j buf_i shift Hdscale Hcutoff Hcutoff2 Hdmaxdist Hdmax_fits
             Hnorm Hbuf_j Hbuf_i Hcount_j Hcount_i Hquant_j Hquant_i Hshift
             _ states_i _ nr_states j _ Hj).
  rewrite for_up_true_fold by lia. rewrite Nat.sub_diag, (Hty_j _ (spid_j_lt j Hj)).
  rewrite (replicate_slot 0) at 1.
  rewrite pair_inner_fold.
  - unfold Rminus. rewrite Rplus_0_l. reflexivity.
  - intros k Hk. apply in_seq in Hk. apply Hty_i, spid_i_lt. lia.
Qed.

(** Fick exchange between two cells conserves the species.  For two cells
    of particles of one type, one Fick term on species [s] without decay
    and sorted lists from [runner_dosort_cuda], what the left walk adds to
    the flux accumulators of the one cell and what the right walk adds to
    those of the other cancel: the total of species [s] over both cells
    is unchanged. *)
Theorem pair_state_walks_fick_conserve (fluxes_i fluxes_j : list R) :
  (nr_states * count_i <= length fluxes_i)%nat ->
  (nr_states * count_j <= length fluxes_j)%nat ->
  let fluxes_i' :=
    runner_dopair_state_left_cuda g states_i count_i states_j count_j
      parts_pos_i parts_datai_i parts_pos_j parts_datai_j
      fluxes_i sort_i sort_j shift dshift nr_states in
  let fluxes_j' :=
    runner_dopair_state_right_cuda g states_j count_j states_i count_i
      parts_pos_j parts_datai_j parts_pos_i parts_datai_i
      fluxes_j sort_j sort_i shift dshift nr_states in
  Rsum (map (fun a => fluxes_i' !!! (nr_states * a + s)%nat) (seq 0 count_i))
  + Rsum (map (fun b => fluxes_j' !!! (nr_states * b + s)%nat) (seq 0 count_j))
  = Rsum (map (fun a => fluxes_i !!! (nr_states * a + s)%nat) (seq 0 count_i))
    + Rsum (map (fun b => fluxes_j !!! (nr_states * b + s)%nat) (seq 0 count_j)).
Proof.
  intros Li Lj fi' fj'. subst fi' fj'.
  unfold runner_dopair_state_left_cuda, runner_dopair_state_right_cuda.
  rewrite (fold_left_seq_ext_lt _
             (fun fl i => add_fluxes fl (nr_states * spid_i i) nr_states
                (<[s := - Rsum (map (taken_left i) (seq 0 count_j))]>
                   (replicate nr_states 0))) count_i)
    by (intros fl i Hi; cbv zeta; f_equal; exact (left_pifx i Hi)).
  rewrite (fold_left_seq_ext_lt _
             (fun fl j => add_fluxes fl (nr_states * spid_j j) nr_states
                (<[s := - Rsum (map (taken_right j) (seq 0 count_i))]>
                   (replicate nr_states 0))) count_j)
    by (intros fl j Hj; cbv zeta; f_equal; exact (right_pifx j Hj)).
  destruct (walk_sum nr_states count_i s spid_i
              (fun i => <[s := - Rsum (map (taken_left i) (seq 0 count_j))]>
                          (replicate nr_states 0))
              (seq 0 count_i) Hs) with (fl := fluxes_i) as (_ & ->);
    [intros i Hi; apply in_seq in Hi; apply spid_i_lt; lia | exact Li |].
  destruct (walk_sum nr_states count_j s spid_j
              (fun j => <[s := - Rsum (map (taken_right j) (seq 0 count_i))]>
                          (replicate nr_states 0))
              (seq 0 count_j) Hs) with (fl := fluxes_j) as (_ & ->);
    [intros j Hj; apply in_seq in Hj; apply spid_j_lt; lia | exact Lj |].
  rewrite (Rsum_map_ext
             (fun i => <[s := - Rsum (map (taken_left i) (seq 0 count_j))]>
                         (replicate nr_states 0) !!! s)
             (fun i => - Rsum (map (taken_left i) (seq 0 count_j)))
             (seq 0 count_i))
    by (intros i _; apply list_lookup_total_insert_eq; rewrite length_replicate;
        exact Hs).
  rewrite (Rsum_map_ext
             (fun j => <[s := - Rsum (map (taken_right j) (seq 0 count_i))]>
                         (replicate nr_states 0) !!! s)
             (fun j => - Rsum (map (fun i => - taken_left i j) (seq 0 count_i)))
             (seq 0 count_j)).
  - rewrite !Rsum_map_opp.
    rewrite (Rsum_map_ext (fun j => Rsum (map (fun i => - taken_left i j)
                                              (seq 0 count_i)))
               (fun j => - Rsum (map (fun i => taken_left i j) (seq 0 count_i))))
      by (intros j _; apply Rsum_map_opp).
    rewrite Rsum_map_opp, (Rsum_swap taken_left). ring.
  - intros j _. rewrite list_lookup_total_insert_eq
      by (rewrite length_replicate; exact Hs).
    f_equal. apply Rsum_map_ext. intros i _. apply taken_right_left.
Qed.

End PairFickConservation.

(** Two cells along x with one particle of type 0 each, one species, and
    a Fick term of rate 1 without decay between particles of type 0. *)
Definition ex_consts_pair_fick : Consts.t :=
  Consts.mk 1 1 1 1 3 1 2 [1%nat] [Fluxes.mk []; Fluxes.mk [ex_flux_fick]]
            [0; 0; 0; 1; 0; 0]%R [2; 1; 1]%R [1; 1; 1]%R
            cuda_shiftn_table cuda_shift_table [] [0%nat] [0%nat] [] [0%nat] [0%nat].

Lemma ex_pair_fick_nshift : sort_nshift ex_consts_pair_fick 4 = 1%R.
Proof.
  unfold sort_nshift. cbn.
  replace (1 * 1 * (1 * 1) + 0 * 1 * (0 * 1) + 0 * 1 * (0 * 1))%R with 1%R by ring.
  apply sqrt_1.
Qed.

Ltac ex_pair_fick_walk :=
  first
    [ reflexivity
    | discriminate
    | apply (cuda_shiftn_table_norm 4); lia
    | cbn; symmetry; apply float2uint_value; [lia | lra]
    | simpl; lia
    | cbn; lra
    | cbn; ring
    | let a := fresh in let Ha := fresh in
      intros a Ha; rewrite ex_pair_fick_nshift;
      destruct a as [|a]; [cbn; lra | lia]
    | let a := fresh in let Ha := fresh in
      intros a Ha; destruct a as [|a]; [reflexivity | lia] ].

Lemma pair_state_walks_fick_conserve_witness :
  let sort_i := runner_dosort_cuda ex_consts_pair_fick [float4.mk (1 / 2) 0 0 1] 1
                                   [0%Z] 4 in
  let sort_j := runner_dosort_cuda ex_consts_pair_fick [float4.mk (1 / 4) 0 0 1] 1
                                   [0%Z] 4 in
  let dshift := pair_dshift ex_consts_pair_fick [1; 0; 0]%R 4 in
  let fluxes_i' :=
    runner_dopair_state_left_cuda ex_consts_pair_fick [1]%R 1 [0]%R 1
      [float4.mk (1 / 2) 0 0 1] [int4.mk 0 0 0 0]
      [float4.mk (1 / 4) 0 0 1] [int4.mk 1 0 0 0]
      [0]%R sort_i sort_j [1; 0; 0]%R dshift 1 in
  let fluxes_j' :=
    runner_dopair_state_right_cuda ex_consts_pair_fick [0]%R 1 [1]%R 1
      [float4.mk (1 / 4) 0 0 1] [int4.mk 1 0 0 0]
      [float4.mk (1 / 2) 0 0 1] [int4.mk 0 0 0 0]
      [0]%R sort_j sort_i [1; 0; 0]%R dshift 1 in
  (Rsum (map (fun a => fluxes_i' !!! (1 * a + 0)%nat) (seq 0 1))
   + Rsum (map (fun b => fluxes_j' !!! (1 * b + 0)%nat) (seq 0 1))
   = Rsum (map (fun a => [0] !!! (1 * a + 0)%nat) (seq 0 1))
     + Rsum (map (fun b => [0] !!! (1 * b + 0)%nat) (seq 0 1)))%R.
Proof.
  intros sort_i sort_j dshift.
  apply (pair_state_walks_fick_conserve ex_consts_pair_fick 1 0 1 0);
    ex_pair_fick_walk.
Defined.

(** ** The flux sub-steps of one call *)

(** One cell of the self flux kernel: the accumulator of every particle of
    the cell receives the fluxes of the particle against the others of the
    cell, and nothing else is written. *)
Lemma at_offset_doself_lookup (g : Consts.t) (states : list R) (count : nat)
    (parts_pos : list float4.t) (parts_datai : list int4.t)
    (n base : nat) (fl : list R) (p s : nat) :
  (n * (base + count) <= length fl)%nat -> (s < n)%nat ->
  at_offset (n * base)
    (fun fluxes_i =>
       runner_doself_state_cuda g states count parts_pos parts_datai fluxes_i n)
    fl !!! (n * p + s)%nat
  = if decide (base <= p < base + count)%nat
    then (fl !!! (n * p + s)%nat
          + runner_doself_state_cuda_pjfx g states count parts_pos parts_datai
              n (p - base) !!! s)%R
    else fl !!! (n * p + s)%nat.
Proof.
  intros Hlen Hs. unfold at_offset.
  assert (Ltake : length (take (n * base) fl) = (n * base)%nat)
    by (rewrite length_take; nia).
  destruct (decide (p < base)%nat) as [Hlt|Hge].
  - rewrite lookup_total_app_l by (rewrite Ltake; nia).
    rewrite lookup_total_take.
    destruct (decide (n * p + s < n * base)%nat); [| nia].
    destruct (decide (base <= p < base + count)%nat); [lia | reflexivity].
  - rewrite lookup_total_app_r by (rewrite Ltake; nia).
    rewrite Ltake.
    replace (n * p + s - n * base)%nat with (n * (p - base) + s)%nat by nia.
    unfold runner_doself_state_cuda.
    destruct (add_fluxes_all n
                (runner_doself_state_cuda_pjfx g states count parts_pos parts_datai n)
                count (drop (n * base) fl)) as [_ E].
    { rewrite length_drop. nia. }
    cbv zeta in E. rewrite (E (p - base)%nat s Hs).
    rewrite lookup_total_drop.
    replace (n * base + (n * (p - base) + s))%nat with (n * p + s)%nat by nia.
    destruct (decide (p - base < count)%nat),
             (decide (base <= p < base + count)%nat); try lia; reflexivity.
Qed.

Lemma at_offset_doself_length (g : Consts.t) (states : list R) (count : nat)
    (parts_pos : list float4.t) (parts_datai : list int4.t)
    (n base : nat) (fl : list R) :
  length (at_offset (n * base)
            (fun fluxes_i =>
               runner_doself_state_cuda g states count parts_pos parts_datai
                                        fluxes_i n) fl)
  = length fl.
Proof.
  apply at_offset_length. intros y. unfold runner_doself_state_cuda.
  apply (fold_left_preserves (fun z => length z = length y)); [| reflexivity].
  intros z i Hz. rewrite add_fluxes_length'. exact Hz.
Qed.

(** The self flux kernel over the cells [0 .. m-1], laid out one after the
    other in the particle arrays. *)
Lemma do_self_fluxonly_cells (g : Consts.t) (pos : list float4.t)
    (datai : list int4.t) (states : list R) (n : nat) (counts ind : list nat)
    (fl : list R) (m : nat) :
  (forall c, (c < m)%nat -> (n * (ind !!! c + counts !!! c) <= length fl)%nat) ->
  (forall c c', (c < c')%nat -> (c' < m)%nat ->
                (ind !!! c + counts !!! c <= ind !!! c')%nat) ->
  let r :=
    fold_left
      (fun fluxes cid =>
         let indi := ind !!! cid in
         let counti := counts !!! cid in
         let parts_pos := drop indi pos in
         let parts_datai := drop indi datai in
         let states_j := drop (n * indi) states in
         at_offset (n * indi)
           (fun fluxes_i =>
              runner_doself_state_cuda g states_j counti parts_pos parts_datai
                                       fluxes_i n)
           fluxes)
      (seq 0 m) fl in
  length r = length fl /\
  (forall c a s, (c < m)%nat -> (a < counts !!! c)%nat -> (s < n)%nat ->
     r !!! (n * (ind !!! c + a) + s)%nat
     = (fl !!! (n * (ind !!! c + a) + s)%nat
        + runner_doself_state_cuda_pjfx g (drop (n * ind !!! c) states)
            (counts !!! c) (drop (ind !!! c) pos) (drop (ind !!! c) datai)
            n a !!! s)%R) /\
  (forall p s, (s < n)%nat ->
     (forall c, (c < m)%nat -> ~ (ind !!! c <= p < ind !!! c + counts !!! c)%nat) ->
     r !!! (n * p + s)%nat = fl !!! (n * p + s)%nat).
Proof.
  induction m as [|m IH]; intros Hfit Hlay; cbv zeta.
  - cbn [seq fold_left]. split; [reflexivity |]. split; [intros; lia | reflexivity].
  - rewrite (seq_S m 0), fold_left_app. cbn [fold_left Nat.add].
    destruct IH as (L & Hin & Hout).
    { intros c Hc. apply Hfit. lia. }
    { intros c c' H1 H2. apply Hlay; lia. }
    cbv zeta in L, Hin, Hout.
    set (r := fold_left _ (seq 0 m) fl) in *.
    assert (Hr : (n * (ind !!! m + counts !!! m) <= length r)%nat)
      by (rewrite L; apply Hfit; lia).
    split; [rewrite at_offset_doself_length; exact L |]. split.
    + intros c a s Hc Ha Hs.
      rewrite at_offset_doself_lookup by assumption.
      destruct (decide (c = m)) as [->|Hne].
      * destruct (decide (ind !!! m <= ind !!! m + a < ind !!! m + counts !!! m)%nat);
          [| lia].
        rewrite Hout; [| exact Hs |].
        -- replace (ind !!! m + a - ind !!! m)%nat with a by lia. reflexivity.
        -- intros c' Hc'. pose proof (Hlay c' m Hc' ltac:(lia)). lia.
      * pose proof (Hlay c m ltac:(lia) ltac:(lia)).
        destruct (decide (ind !!! m <= ind !!! c + a < ind !!! m + counts !!! m)%nat);
          [lia |].
        apply Hin; [lia | exact Ha | exact Hs].
    + intros p s Hs Hnone.
      rewrite at_offset_doself_lookup by assumption.
      destruct (decide (ind !!! m <= p < ind !!! m + counts !!! m)%nat) as [Hp|_].
      * exfalso. exact (Hnone m ltac:(lia) Hp).
      * apply Hout; [exact Hs |]. intros c Hc. apply Hnone. lia.
Qed.

Section SubSteps.

Local Open Scope R_scope.

Variable g : Consts.t.
Variable K : Z.
Variable input : DeviceIn.t.
Variables self_forces pair_left_forces pair_right_forces : Device.t -> list R * R.

Lemma flux_round_substep (nr_states : nat) (s : run_state) :
  (flux_round g K input self_forces pair_left_forces pair_right_forces
              nr_states s).1
  = (s.1.1, substep g K input nr_states (Engine.nr_parts s.1.1) (Engine.dt_flux s.1.1) s.1.2).
Proof. destruct s as [[e d] log]. reflexivity. Qed.

Lemma flux_steps_loop_substeps (nr_states nr_parts : nat) (dt_flux : R) (N : Z)
    (fuel : nat) :
  forall s : run_state,
    Engine.nr_fluxsteps s.1.1 = N ->
    Engine.nr_parts s.1.1 = nr_parts ->
    Engine.dt_flux s.1.1 = dt_flux ->
    (0 <= Engine.step_flux s.1.1 <= N - 1)%Z ->
    (N - 1 - Engine.step_flux s.1.1 <= Z.of_nat fuel)%Z ->
    (flux_steps_loop g K input self_forces pair_left_forces pair_right_forces
                     fuel nr_states s).1.2
    = Nat.iter (Z.to_nat (N - 1 - Engine.step_flux s.1.1))
               (substep g K input nr_states nr_parts dt_flux) s.1.2.
Proof.
  induction fuel as [|fuel IH]; intros s HN HP HD Hk Hfuel.
  - simpl. replace (N - 1 - Engine.step_flux s.1.1)%Z with 0%Z by lia. reflexivity.
  - simpl. rewrite HN.
    destruct (Z.ltb_spec (Engine.step_flux s.1.1) (N - 1)) as [Hlt|Hge].
    + pose proof (flux_round_substep nr_states s) as Hr.
      set (s1 := flux_round g K input self_forces pair_left_forces
                            pair_right_forces nr_states s) in *.
      set (s2 := set_step_flux (Engine.step_flux s1.1.1 + 1) s1).
      assert (H2 : Engine.nr_fluxsteps s2.1.1 = N /\
                   Engine.nr_parts s2.1.1 = nr_parts /\
                   Engine.dt_flux s2.1.1 = dt_flux /\
                   Engine.step_flux s2.1.1 = (Engine.step_flux s.1.1 + 1)%Z /\
                   s2.1.2 = substep g K input nr_states nr_parts dt_flux s.1.2).
      { subst s2. destruct s1 as [[e1 d1] l1]. destruct s as [[e d] l].
        simpl in *. injection Hr as -> ->. subst. repeat split; reflexivity. }
      destruct H2 as (HN2 & HP2 & HD2 & Hs2 & Hd2).
      rewrite (IH s2 HN2 HP2 HD2) by lia. rewrite Hs2, Hd2.
      replace (Z.to_nat (N - 1 - Engine.step_flux s.1.1))
        with (S (Z.to_nat (N - 1 - (Engine.step_flux s.1.1 + 1)))) by lia.
      rewrite Nat.iter_succ_r. reflexivity.
    + replace (N - 1 - Engine.step_flux s.1.1)%Z with 0%Z by lia. reflexivity.
Qed.

Lemma substep_fluxes_length (nr_states : nat) (b : Device.t) :
  length (substep_fluxes g input nr_states b) = length (Device.fluxes_next_cuda b).
Proof.
  unfold substep_fluxes.
  rewrite do_pair_right_fluxonly_length, do_pair_left_fluxonly_length,
    do_self_fluxonly_length. reflexivity.
Qed.

(** C6.  With [N > 1] flux sub-steps and at least one species, one call
    launches, after the two memsets and the optional sort, exactly [N - 1]
    rounds of the three flux-only kernels followed by the integration
    kernel, then the three combined kernels.  No launch of a round is
    handed the force buffer.  The buffers at the entry of the combined
    evaluation are those of [N - 1] rounds run from the cleared buffers,
    where one round puts in the place of every concentration the
    concentration plus [dt_flux] times the flux the three flux-only kernels
    accumulate for it from the concentrations of the round's start (times
    [1 - (flags & SPECIES_KONSTANT)]), clears the accumulators and leaves
    the forces alone; the self kernel of a round adds to the accumulator of
    every particle the fluxes against the other particles of its cell.
    The combined evaluation starts from cleared accumulators, does not
    integrate, and the flux buffer handed back is what its three kernels
    accumulate from the concentrations after the last round. *)
Theorem engine_flux_substeps (e : Engine.t) (d : Device.t) :
  let N := Engine.nr_fluxsteps e in
  let nr_states := Z.to_nat (u32 (Engine.nr_fluxes_cuda e - 1)) in
  let final (s : run_state) :=
    do_launch g K input self_forces pair_left_forces pair_right_forces nr_states
      (Kernel.do_pair_right true)
      (do_launch g K input self_forces pair_left_forces pair_right_forces nr_states
         (Kernel.do_pair_left true)
         (do_launch g K input self_forces pair_left_forces pair_right_forces nr_states
            (Kernel.do_self true) s)) in
  let fluxes_of (b : Device.t) : list R :=
    runner_run_cuda_do_pair_right_fluxonly_kernel g
      (DeviceIn.cuda_parts_pos input) (DeviceIn.cuda_parts_datai input)
      (Device.part_states_cuda b) (Device.cuda_sortlists b)
      (runner_run_cuda_do_pair_left_fluxonly_kernel g
         (DeviceIn.cuda_parts_pos input) (DeviceIn.cuda_parts_datai input)
         (Device.part_states_cuda b) (Device.cuda_sortlists b)
         (runner_run_cuda_do_self_fluxonly_kernel g
            (DeviceIn.cuda_parts_pos input) (DeviceIn.cuda_parts_datai input)
            (Device.part_states_cuda b) (Device.fluxes_next_cuda b) nr_states
            (DeviceIn.counts_cuda input) (DeviceIn.ind_cuda input))
         nr_states (DeviceIn.counts_cuda input) (DeviceIn.ind_cuda input))
      nr_states (DeviceIn.counts_cuda input) (DeviceIn.ind_cuda input) in
  let round (b : Device.t) : Device.t :=
    let r := runner_run_cuda_integrate_state_kernel K
               (Device.part_states_cuda b) (fluxes_of b)
               (DeviceIn.part_species_flags_cuda input)
               (nr_states * Engine.nr_parts e) (Engine.dt_flux e) in
    Device.mk (Device.forces_cuda b) r.2 r.1
              (Device.cuda_sortlists b) (Device.cuda_epot b) in
  let start : Device.t :=
    Device.mk (cuda_memset_float (Device.forces_cuda d) 0 (4 * Engine.nr_parts e))
              (cuda_memset_float (Device.fluxes_next_cuda d) 0
                                 (nr_states * Engine.nr_parts e))
              (Device.part_states_cuda d)
              (if Engine.verlet_rebuild e
               then do_sort_kernel g input (Device.cuda_sortlists d)
               else Device.cuda_sortlists d)
              (Device.cuda_epot d) in
  (1 < N)%Z -> (0 < nr_states)%nat ->
  (nr_states * Engine.nr_parts e <= length (Device.part_states_cuda d))%nat ->
  (nr_states * Engine.nr_parts e <= length (Device.fluxes_next_cuda d))%nat ->
  exists mid : run_state,
    engine_nonbond_cuda g K input self_forces pair_left_forces pair_right_forces e d
    = final mid /\
    mid.2 = [Kernel.memset_forces; Kernel.memset_fluxes]
            ++ (if Engine.verlet_rebuild e then [Kernel.do_sort] else [])
            ++ concat (replicate (Z.to_nat (N - 1)) flux_round_kernels) /\
    Forall (fun k => takes_forces k = false) flux_round_kernels /\
    Engine.step_flux mid.1.1 = (N - 1)%Z /\
    mid.1.2 = Nat.iter (Z.to_nat (N - 1)) round start /\
    Device.forces_cuda mid.1.2
    = cuda_memset_float (Device.forces_cuda d) 0 (4 * Engine.nr_parts e) /\
    (forall j, (j < nr_states * Engine.nr_parts e)%nat ->
               Device.fluxes_next_cuda mid.1.2 !!! j = 0) /\
    (forall b : Device.t,
       (nr_states * Engine.nr_parts e <= length (Device.part_states_cuda b))%nat ->
       (nr_states * Engine.nr_parts e <= length (Device.fluxes_next_cuda b))%nat ->
       Device.forces_cuda (round b) = Device.forces_cuda b /\
       forall i, (i < nr_states * Engine.nr_parts e)%nat ->
         Device.part_states_cuda (round b) !!! i
         = Device.part_states_cuda b !!! i
           + Engine.dt_flux e
             * (fluxes_of b !!! i
                * (1 - IZR (Z.land (DeviceIn.part_species_flags_cuda input !!! i) K)))
         /\ Device.fluxes_next_cuda (round b) !!! i = 0) /\
    (forall (states fluxes : list R),
       (forall c, (c < Consts.cuda_nr_cells g)%nat ->
          (nr_states * (DeviceIn.ind_cuda input !!! c
                        + DeviceIn.counts_cuda input !!! c)
           <= length fluxes)%nat) ->
       (forall c c', (c < c')%nat -> (c' < Consts.cuda_nr_cells g)%nat ->
          (DeviceIn.ind_cuda input !!! c + DeviceIn.counts_cuda input !!! c
           <= DeviceIn.ind_cuda input !!! c')%nat) ->
       forall c a s, (c < Consts.cuda_nr_cells g)%nat ->
         (a < DeviceIn.counts_cuda input !!! c)%nat -> (s < nr_states)%nat ->
         let ic := DeviceIn.ind_cuda input !!! c in
         runner_run_cuda_do_self_fluxonly_kernel g
           (DeviceIn.cuda_parts_pos input) (DeviceIn.cuda_parts_datai input)
           states fluxes nr_states
           (DeviceIn.counts_cuda input) (DeviceIn.ind_cuda input)
         !!! (nr_states * (ic + a) + s)%nat
         = fluxes !!! (nr_states * (ic + a) + s)%nat
           + runner_doself_state_cuda_pjfx g (drop (nr_states * ic) states)
               (DeviceIn.counts_cuda input !!! c)
               (drop ic (DeviceIn.cuda_parts_pos input))
               (drop ic (DeviceIn.cuda_parts_datai input)) nr_states a !!! s) /\
    Device.part_states_cuda (final mid).1.2 = Device.part_states_cuda mid.1.2 /\
    Device.fluxes_next_cuda (final mid).1.2 = fluxes_of mid.1.2.
Proof.
  intros N nr_states final fluxes_of round start HN Hn Ls Lf.
  change fluxes_of with (substep_fluxes g input nr_states) in *.
  change round with (substep g K input nr_states (Engine.nr_parts e) (Engine.dt_flux e)) in *.
  clear fluxes_of round.
  unfold engine_nonbond_cuda. fold nr_states. fold N.
  assert (Hpos : (0 <? nr_states)%nat = true) by (apply Nat.ltb_lt; lia).
  assert (HN' : (1 <? N)%Z = true) by (apply Z.ltb_lt; lia).
  rewrite Hpos, HN'. cbn [andb].
  set (F := cuda_memset_float (Device.forces_cuda d) 0 (4 * Engine.nr_parts e)).
  set (s1 := do_launch g K input self_forces pair_left_forces pair_right_forces
               nr_states Kernel.memset_fluxes
               (do_launch g K input self_forces pair_left_forces pair_right_forces
                  nr_states Kernel.memset_forces (e, d, []))).
  set (s2 := if Engine.verlet_rebuild e
             then do_launch g K input self_forces pair_left_forces pair_right_forces
                    nr_states Kernel.do_sort s1 else s1).
  assert (H2 : round_inv nr_states N F (set_step_flux 0 s2) /\
               (set_step_flux 0 s2).2
               = [Kernel.memset_forces; Kernel.memset_fluxes]
                 ++ (if Engine.verlet_rebuild e then [Kernel.do_sort] else []) /\
               Engine.step_flux (set_step_flux 0 s2).1.1 = 0%Z /\
               Engine.nr_parts (set_step_flux 0 s2).1.1 = Engine.nr_parts e /\
               Engine.dt_flux (set_step_flux 0 s2).1.1 = Engine.dt_flux e /\
               (set_step_flux 0 s2).1.2 = start).
  { subst s2 s1 start. unfold round_inv.
    destruct (cuda_memset_float_fold 0 (nr_states * Engine.nr_parts e) 0
                (Device.fluxes_next_cuda d)) as [L E]; [simpl; lia |].
    cbn zeta in L, E.
    destruct (Engine.verlet_rebuild e); simpl; unfold cuda_memset_float;
      (split; [| split; [reflexivity | split; [reflexivity | split;
         [reflexivity | split; reflexivity]]]]);
      (split; [reflexivity |]); (split; [lia |]); (split; [lia |]);
      (split; [reflexivity |]); intros j Hj; rewrite E;
      destruct (decide _); try reflexivity; lia. }
  destruct H2 as (Hinv & Hlog & Hstep & Hparts & Hdt & Hstart).
  destruct (flux_steps_loop_spec g K input self_forces pair_left_forces
              pair_right_forces nr_states N F (Z.to_nat N) (set_step_flux 0 s2) Hinv)
    as (Hinv' & Hlog' & Hstep'); [lia | lia |].
  pose proof (flux_steps_loop_substeps nr_states (Engine.nr_parts e)
                (Engine.dt_flux e) N (Z.to_nat N) (set_step_flux 0 s2)
                (proj1 Hinv) Hparts Hdt ltac:(lia) ltac:(lia)) as Hiter.
  set (mid := flux_steps_loop g K input self_forces pair_left_forces
                pair_right_forces (Z.to_nat N) nr_states (set_step_flux 0 s2)) in *.
  exists mid. split; [reflexivity |].
  split. { rewrite Hlog', Hlog, Hstep, Z.sub_0_r, <- app_assoc. reflexivity. }
  split. { repeat constructor. }
  split; [exact Hstep' |].
  split. { rewrite Hiter, Hstep, Z.sub_0_r, Hstart. reflexivity. }
  destruct Hinv' as (_ & _ & _ & HF & Hz).
  split; [exact HF |].
  split.
  { intros j Hj. apply Hz.
    assert (Engine.nr_parts mid.1.1 = Engine.nr_parts e) as ->; [| exact Hj].
    clear - Hparts. subst mid.
    generalize (set_step_flux 0 s2) Hparts. generalize (Z.to_nat N).
    induction n as [|fuel IH]; intros s Hs; simpl; [exact Hs |].
    destruct (_ <? _)%Z; [| exact Hs]. apply IH.
    destruct s as [[e0 d0] l0]. simpl in *. exact Hs. }
  split.
  { intros b Lb Lfb. split; [reflexivity |]. intros i Hi.
    unfold substep, runner_run_cuda_integrate_state_kernel.
    cbn [Device.part_states_cuda Device.fluxes_next_cuda].
    destruct (integrate_state_fold K (DeviceIn.part_species_flags_cuda input)
                (Engine.dt_flux e) (nr_states * Engine.nr_parts e) 0
                (Device.part_states_cuda b) (substep_fluxes g input nr_states b))
      as (_ & _ & Hlk); [simpl; lia | rewrite substep_fluxes_length; simpl; lia |].
    cbn zeta in Hlk. destruct (Hlk i) as [Hin _]. apply Hin. lia. }
  split.
  { intros states fluxes Hfit Hlay c a s Hc Ha Hs.
    destruct (do_self_fluxonly_cells g (DeviceIn.cuda_parts_pos input)
                (DeviceIn.cuda_parts_datai input) states nr_states
                (DeviceIn.counts_cuda input) (DeviceIn.ind_cuda input)
                fluxes (Consts.cuda_nr_cells g) Hfit Hlay) as (_ & Hin & _).
    cbv zeta in Hin. exact (Hin c a s Hc Ha Hs). }
  destruct mid as [[em dm] lm]. split; reflexivity.
Qed.

End SubSteps.

(** The two cells of [ex_consts_prune] with their pair tasks: the first
    cell has the second as its left partner along x (direction 4), the
    second has the first as its right partner. *)
Definition ex_consts_two : Consts.t :=
  Consts.mk 1 1 1 100 102 1 2 [1%nat] [Fluxes.mk []; Fluxes.mk [ex_flux_fick]]
            [0; 0; 0; 2; 0; 0]%R [4; 2; 2]%R [2; 2; 2]%R
            cuda_shiftn_table cuda_shift_table
            [(1%nat, 4%nat)] [0%nat; 1%nat] [1%nat; 0%nat]
            [(0%nat, 4%nat)] [0%nat; 0%nat] [0%nat; 1%nat].

(** The sorted lists of direction 4 of the two cells at their places in
    [cuda_sortlists], as the last sort left them. *)
Definition ex_sortlists_two : list Z :=
  replicate 8 0%Z ++ [65886; 250]%Z ++ replicate 24 0%Z ++ [65911; 225]%Z.

Definition ex_input_two : DeviceIn.t :=
  DeviceIn.mk (ex_prune_pos_i ++ ex_prune_pos_j)
              (ex_prune_datai ++ ex_prune_datai) [0; 0; 0; 0]%Z
              [2%nat; 2%nat] [0%nat; 2%nat] [1; 1]%Z 2.

Definition ex_engine_two : Engine.t := Engine.mk 2 2 0 1 false 4.

Definition ex_device_two : Device.t :=
  Device.mk (replicate 16 0%R) [0; 0; 0; 0]%R [1; 3; 0; 2]%R ex_sortlists_two 0.

Lemma ex_two_shift : pair_shift ex_consts_two 0 1 = [2; 0; 0]%R.
Proof. ex_eval. rdec. repeat f_equal; lra. Qed.

Lemma ex_two_dshift : pair_dshift ex_consts_two [2; 0; 0]%R 4 = 200%Z.
Proof. unfold pair_dshift. cbn. apply float2uint_value; [lia | lra]. Qed.

(** Equality of two lists of reals, entry by entry. *)
Ltac list_lra := repeat (apply (f_equal2 (@cons R)); [lra |]); reflexivity.

Section TwoCells.

Local Open Scope R_scope.

Variables c0 c1 c2 c3 f0 f1 f2 f3 : R.

(** No two particles of a cell are within the cutoff of each other. *)
Lemma ex_two_self :
  runner_run_cuda_do_self_fluxonly_kernel ex_consts_two
    (DeviceIn.cuda_parts_pos ex_input_two) (DeviceIn.cuda_parts_datai ex_input_two)
    [c0; c1; c2; c3] [f0; f1; f2; f3] 1
    (DeviceIn.counts_cuda ex_input_two) (DeviceIn.ind_cuda ex_input_two)
  = [f0; f1; f2; f3].
Proof. ex_eval. rdec. list_lra. Qed.

(** The left kernel accumulates, for the second particle of the first
    cell, its exchange with the first particle of the second cell, 3/4
    away. *)
Lemma ex_two_left :
  runner_run_cuda_do_pair_left_fluxonly_kernel ex_consts_two
    (DeviceIn.cuda_parts_pos ex_input_two) (DeviceIn.cuda_parts_datai ex_input_two)
    [c0; c1; c2; c3] ex_sortlists_two [f0; f1; f2; f3] 1
    (DeviceIn.counts_cuda ex_input_two) (DeviceIn.ind_cuda ex_input_two)
  = [f0; f1 - (c1 - c2) / 16; f2; f3].
Proof.
  transitivity
    (runner_dopair_state_left_cuda ex_consts_two [c0; c1; c2; c3] 2 [c2; c3] 2
       (ex_prune_pos_i ++ ex_prune_pos_j) (ex_prune_datai ++ ex_prune_datai)
       ex_prune_pos_j ex_prune_datai [f0; f1; f2; f3]
       [65886; 250]%Z [65911; 225]%Z
       (pair_shift ex_consts_two 0 1)
       (pair_dshift ex_consts_two (pair_shift ex_consts_two 0 1) 4) 1);
    [reflexivity |].
  rewrite ex_two_shift, ex_two_dshift.
  unfold runner_dopair_state_left_cuda. eval_fold_two. ex_sqrt. list_lra.
Qed.

(** The right kernel accumulates the same exchange, with the opposite
    sign, for the first particle of the second cell. *)
Lemma ex_two_right :
  runner_run_cuda_do_pair_right_fluxonly_kernel ex_consts_two
    (DeviceIn.cuda_parts_pos ex_input_two) (DeviceIn.cuda_parts_datai ex_input_two)
    [c0; c1; c2; c3] ex_sortlists_two [f0; f1; f2; f3] 1
    (DeviceIn.counts_cuda ex_input_two) (DeviceIn.ind_cuda ex_input_two)
  = [f0; f1; f2 + (c1 - c2) / 16; f3].
Proof.
  transitivity
    ([f0; f1] ++
     runner_dopair_state_right_cuda ex_consts_two [c2; c3] 2 [c0; c1; c2; c3] 2
       ex_prune_pos_j ex_prune_datai
       (ex_prune_pos_i ++ ex_prune_pos_j) (ex_prune_datai ++ ex_prune_datai)
       [f2; f3] [65911; 225]%Z [65886; 250]%Z
       (pair_shift ex_consts_two 0 1)
       (pair_dshift ex_consts_two (pair_shift ex_consts_two 0 1) 4) 1);
    [reflexivity |].
  rewrite ex_two_shift, ex_two_dshift.
  unfold runner_dopair_state_right_cuda. eval_fold_two. ex_sqrt.
  cbn [app]. list_lra.
Qed.

End TwoCells.

(** One round at the two cells: the pair 3/4 apart exchanges
    [(1 - 3/4)^2 * (3 - 0)]. *)
Lemma ex_two_round :
  substep ex_consts_two 1 ex_input_two 1 4 1
    (Device.mk (replicate 16 0%R) [0; 0; 0; 0]%R [1; 3; 0; 2]%R ex_sortlists_two 0)
  = Device.mk (replicate 16 0%R) [0; 0; 0; 0]%R [1; 45 / 16; 3 / 16; 2]%R
              ex_sortlists_two 0.
Proof.
  unfold substep, substep_fluxes.
  cbn [Device.part_states_cuda Device.fluxes_next_cuda Device.cuda_sortlists
       Device.forces_cuda Device.cuda_epot].
  rewrite ex_two_self, ex_two_left, ex_two_right.
  ex_eval. f_equal; list_lra.
Qed.

(** One round at the two particles of [ex_device_fick] in one cell: the
    pair one unit apart, with cutoff 2, exchanges [(1 - 1/2)^2 * (1 - 0)]. *)
Lemma ex_fick_round :
  substep ex_consts_fick 1 (ex_input_fick [0; 0]%Z) 1 2 1
    (Device.mk (replicate 8 0%R) [0; 0]%R [1; 0]%R [] 0)
  = Device.mk (replicate 8 0%R) [0; 0]%R [3 / 4; 1 / 4]%R [] 0.
Proof.
  ex_eval. rdec.
  repeat match goal with
    | |- context [sqrt ?v] =>
        replace v with (1 * 1)%R by lra; rewrite (sqrt_square 1) by lra
    end.
  f_equal; list_lra.
Qed.

Lemma ex_fick_fluxes :
  substep_fluxes ex_consts_fick (ex_input_fick [0; 0]%Z) 1
    (Device.mk (replicate 8 0%R) [0; 0]%R [3 / 4; 1 / 4]%R [] 0)
  = [- (1 / 8); 1 / 8]%R.
Proof.
  ex_eval. rdec.
  repeat match goal with
    | |- context [sqrt ?v] =>
        replace v with (1 * 1)%R by lra; rewrite (sqrt_square 1) by lra
    end.
  list_lra.
Qed.

Lemma engine_flux_substeps_witness :
  let r := engine_nonbond_cuda ex_consts_fick 1 (ex_input_fick [0; 0]%Z)
             ex_no_forces ex_no_forces ex_no_forces ex_engine_fick ex_device_fick in
  let r' := engine_nonbond_cuda ex_consts_two 1 ex_input_two
              ex_no_forces ex_no_forces ex_no_forces ex_engine_two ex_device_two in
  let log := [Kernel.memset_forces; Kernel.memset_fluxes;
              Kernel.do_self_fluxonly; Kernel.do_pair_left_fluxonly;
              Kernel.do_pair_right_fluxonly; Kernel.integrate_state;
              Kernel.do_self true; Kernel.do_pair_left true;
              Kernel.do_pair_right true] in
  (r.2 = log /\
   Device.part_states_cuda ex_device_fick = [1; 0]%R /\
   Device.part_states_cuda r.1.2 = [3 / 4; 1 / 4]%R /\
   Device.fluxes_next_cuda r.1.2 = [- (1 / 8); 1 / 8]%R) /\
  (r'.2 = log /\
   Device.part_states_cuda ex_device_two = [1; 3; 0; 2]%R /\
   Device.part_states_cuda r'.1.2 = [1; 45 / 16; 3 / 16; 2]%R /\
   Device.fluxes_next_cuda r'.1.2 = [0; - (21 / 128); 21 / 128; 0]%R).
Proof.
  cbv zeta. split.
  - destruct (engine_flux_substeps ex_consts_fick 1 (ex_input_fick [0; 0]%Z)
                ex_no_forces ex_no_forces ex_no_forces ex_engine_fick ex_device_fick)
      as (mid & E & Hlog & _ & _ & Hmid & _ & _ & _ & _ & Hst & Hfl);
      [reflexivity | vm_compute; lia | vm_compute; lia | vm_compute; lia |].
    match type of Hmid with
    | _ = ?t =>
        change t with
          (substep ex_consts_fick 1 (ex_input_fick [0; 0]%Z) 1 2 1
             (Device.mk (replicate 8 0%R) [0; 0]%R [1; 0]%R [] 0)) in Hmid
    end.
    rewrite ex_fick_round in Hmid.
    rewrite E, Hst, Hfl, Hmid.
    split; [| split; [reflexivity | split; [reflexivity |]]].
    + destruct mid as [[e1 d1] l1]. simpl in Hlog. simpl.
      rewrite Hlog. reflexivity.
    + exact ex_fick_fluxes.
  - destruct (engine_flux_substeps ex_consts_two 1 ex_input_two
                ex_no_forces ex_no_forces ex_no_forces ex_engine_two ex_device_two)
      as (mid & E & Hlog & _ & _ & Hmid & _ & _ & _ & _ & Hst & Hfl);
      [reflexivity | vm_compute; lia | vm_compute; lia | vm_compute; lia |].
    match type of Hmid with
    | _ = ?t =>
        change t with
          (substep ex_consts_two 1 ex_input_two 1 4 1
             (Device.mk (replicate 16 0%R) [0; 0; 0; 0]%R [1; 3; 0; 2]%R
                        ex_sortlists_two 0)) in Hmid
    end.
    rewrite ex_two_round in Hmid.
    rewrite E, Hst, Hfl, Hmid.
    split; [| split; [reflexivity | split; [reflexivity |]]].
    + destruct mid as [[e1 d1] l1]. simpl in Hlog. simpl.
      rewrite Hlog. reflexivity.
    + cbn [Device.part_states_cuda Device.fluxes_next_cuda Device.cuda_sortlists].
      rewrite ex_two_self, ex_two_left, ex_two_right. list_lra.
Defined.
